(** * Worker orchestration: a shallow embedding of the TypeScript sources

    The development follows the repository file by file:

    - [JS]            the string primitives of the host language the code calls
                      ([trim], [indexOf], [slice], [split], [toLowerCase], ...);
    - [Regex]         a backtracking matcher for the regular-expression literals
                      that occur in the sources, in the order ECMAScript tries
                      alternatives;
    - [SubprocessEnv] extensions/utils/subprocess-env.ts;
    - [AgentLoader]   extensions/utils/agent-loader.ts;
    - [Json]          the values [JSON.parse] returns and the event tests the
                      three spawners share;
    - [AgentTeam]     extensions/agent-team.ts   (Dispatcher);
    - [AgentChain]    extensions/agent-chain.ts  (Pipeline);
    - [SubagentWidget] extensions/subagent-widget.ts (Pool).

    [Spec] holds the notions the specification words its properties with,
    [Fixture] the concrete inputs of the examples, [Invariants] the
    invariants of the Dispatcher and of the Pool; the modules after them hold
    the proofs.

    Conventions.  A JavaScript string is a [string]: a sequence of code units,
    here restricted to the code units below 256.  A plain object is the
    association list of its own properties in the order [Object.keys] lists
    them (array indices first, then the order of creation), a [Map] an
    association list in insertion order; a read on an environment record also
    sees the members of [Object.prototype].  [undefined] and [null] are
    [None].  A [Promise] that the code awaits is the value it resolves with;
    an event handler is a function on the state it closes over. *)

From Stdlib Require Import String Ascii List Bool Arith Lia ZArith Sorted.
From Stdlib Require Import Numbers.DecimalString.
Import ListNotations.
Open Scope string_scope.
Open Scope nat_scope.
Set Warnings "-register-all,-abstract-large-number".

(* ===================================================================== *)
(** * Host-language strings *)
(* ===================================================================== *)

Module JS.

(** Characters that have no literal form inside a string. *)
Definition dquote : string := String (ascii_of_nat 34) EmptyString.
Definition newline_char : ascii := ascii_of_nat 10.
Definition nl : string := String newline_char EmptyString.

(** WhiteSpace and LineTerminator code units below 256: TAB, LF, VT, FF, CR,
    SP and NBSP.  This is the set [\s] matches and [trim] strips. *)
Definition isWhiteSpace (c : ascii) : bool :=
  let n := nat_of_ascii c in
  ((9 <=? n) && (n <=? 13)) || (n =? 32) || (n =? 160).

Definition isLineTerminator (c : ascii) : bool :=
  let n := nat_of_ascii c in (n =? 10) || (n =? 13).

Definition isDigit (c : ascii) : bool :=
  let n := nat_of_ascii c in (48 <=? n) && (n <=? 57).

Definition isUpper (c : ascii) : bool :=
  let n := nat_of_ascii c in (65 <=? n) && (n <=? 90).

Definition isLower (c : ascii) : bool :=
  let n := nat_of_ascii c in (97 <=? n) && (n <=? 122).

(** [\w]: letters, digits and underscore. *)
Definition isWordChar (c : ascii) : bool :=
  isUpper c || isLower c || isDigit c || (nat_of_ascii c =? 95).

Definition upcase (c : ascii) : ascii :=
  if isLower c then ascii_of_nat (nat_of_ascii c - 32) else c.

Definition downcase (c : ascii) : ascii :=
  if isUpper c then ascii_of_nat (nat_of_ascii c + 32) else c.

(** [String.prototype.toLowerCase] on code units below 256: the ASCII capitals
    and the Latin-1 capitals 192..222 except the multiplication sign 215. *)
Definition lowerChar (c : ascii) : ascii :=
  let n := nat_of_ascii c in
  if isUpper c then ascii_of_nat (n + 32)
  else if (192 <=? n) && (n <=? 222) && negb (n =? 215) then ascii_of_nat (n + 32)
  else c.

Fixpoint toLowerCase (s : string) : string :=
  match s with
  | EmptyString => EmptyString
  | String c t => String (lowerChar c) (toLowerCase t)
  end.

(** Truthiness of a string value: every string but the empty one. *)
Definition truthy (s : string) : bool :=
  match s with EmptyString => false | String _ _ => true end.

(** Truthiness of a possibly-undefined string ([if (x)], [x || d]). *)
Definition truthyOpt (o : option string) : bool :=
  match o with Some s => truthy s | None => false end.

(** [x || d] for a possibly-undefined string [x]. *)
Definition orDefault (o : option string) (d : string) : string :=
  match o with
  | Some s => if truthy s then s else d
  | None => d
  end.

Fixpoint trimStart (s : string) : string :=
  match s with
  | EmptyString => EmptyString
  | String c t => if isWhiteSpace c then trimStart t else s
  end.

Fixpoint trimEnd (s : string) : string :=
  match s with
  | EmptyString => EmptyString
  | String c t =>
      match trimEnd t with
      | EmptyString => if isWhiteSpace c then EmptyString else String c EmptyString
      | t' => String c t'
      end
  end.

Definition trim (s : string) : string := trimEnd (trimStart s).

(** [s.indexOf(c)] for a one-character needle; [None] stands for -1. *)
Fixpoint indexOf (c : ascii) (s : string) : option nat :=
  match s with
  | EmptyString => None
  | String d t =>
      if Ascii.eqb d c then Some 0
      else match indexOf c t with Some i => Some (S i) | None => None end
  end.

(** [s.slice(0, n)] and [s.slice(n)] for 0 <= n. *)
Fixpoint take (n : nat) (s : string) : string :=
  match n, s with
  | S n', String c t => String c (take n' t)
  | _, _ => EmptyString
  end.

Fixpoint drop (n : nat) (s : string) : string :=
  match n, s with
  | S n', String _ t => drop n' t
  | _, _ => s
  end.

(** [s.startsWith(p)]; on success the remainder after the prefix. *)
Fixpoint stripPrefix (p s : string) : option string :=
  match p, s with
  | EmptyString, _ => Some s
  | String a p', String b s' => if Ascii.eqb a b then stripPrefix p' s' else None
  | String _ _, EmptyString => None
  end.

(** [s.includes(p)]. *)
Fixpoint includes (p s : string) : bool :=
  match stripPrefix p s with
  | Some _ => true
  | None => match s with
            | EmptyString => false
            | String _ t => includes p t
            end
  end.

(** [s.split(sep)] for a one-character separator: never the empty list. *)
Fixpoint split (sep : ascii) (s : string) : list string :=
  match s with
  | EmptyString => [EmptyString]
  | String c t =>
      if Ascii.eqb c sep then EmptyString :: split sep t
      else match split sep t with
           | h :: rest => String c h :: rest
           | [] => [String c EmptyString]
           end
  end.

(** [xs.join(sep)]. *)
Fixpoint join (sep : string) (xs : list string) : string :=
  match xs with
  | [] => EmptyString
  | [x] => x
  | x :: rest => x ++ sep ++ join sep rest
  end.

(** [xs.pop()] on a copy: the last element and the list before it. *)
Fixpoint unsnoc (xs : list string) : option (list string * string) :=
  match xs with
  | [] => None
  | x :: rest =>
      match unsnoc rest with
      | None => Some ([], x)
      | Some (front, lastx) => Some (x :: front, lastx)
      end
  end.

(** Decimal rendering of a non-negative integer inside a template string. *)
Definition showNat (n : nat) : string := NilEmpty.string_of_uint (Nat.to_uint n).

(** Association lists: the own properties of an object, and [Map]s, which
    keep insertion order. *)
Section Assoc.
Context {K V : Type}.
Variable keq : K -> K -> bool.

Fixpoint get (o : list (K * V)) (k : K) : option V :=
  match o with
  | [] => None
  | (k', v) :: rest => if keq k' k then Some v else get rest k
  end.

(** [o[k] = v] / [map.set(k, v)]: an existing key keeps its position. *)
Fixpoint set (o : list (K * V)) (k : K) (v : V) : list (K * V) :=
  match o with
  | [] => [(k, v)]
  | (k', v') :: rest => if keq k' k then (k', v) :: rest else (k', v') :: set rest k v
  end.

Fixpoint delete (o : list (K * V)) (k : K) : list (K * V) :=
  match o with
  | [] => []
  | (k', v') :: rest => if keq k' k then rest else (k', v') :: delete rest k
  end.

Definition has (o : list (K * V)) (k : K) : bool :=
  match get o k with Some _ => true | None => false end.

Definition keys (o : list (K * V)) : list K := map fst o.
End Assoc.

(** The value of a run of decimal digits, read after [acc]. *)
Fixpoint decimalValue (acc : N) (s : string) : option N :=
  match s with
  | EmptyString => Some acc
  | String c t =>
      if isDigit c
      then decimalValue (acc * 10 + N.of_nat (nat_of_ascii c - 48))%N t
      else None
  end.

(** An array index: the canonical decimal text of an integer from 0 to
    2^32 - 2 (no sign, no leading zero). *)
Definition arrayIndex (k : string) : option N :=
  match k with
  | EmptyString => None
  | String c t =>
      if Ascii.eqb c "0" && truthy t then None
      else match decimalValue 0 k with
           | Some n => if (n <=? 4294967294)%N then Some n else None
           | None => None
           end
  end.

(** Plain objects.  The own keys of an ordinary object are listed
    ([Object.keys], [for in], spread) with the array indices first, in
    ascending order, then the other keys in the order of their creation. *)
Section Objects.
Context {V : Type}.

(** [o[k]], own properties only. *)
Definition oget (o : list (string * V)) (k : string) : option V := get String.eqb o k.

(** The place of a new key. *)
Fixpoint insertKey (o : list (string * V)) (k : string) (v : V) : list (string * V) :=
  match o with
  | [] => [(k, v)]
  | (k', v') :: rest =>
      match arrayIndex k, arrayIndex k' with
      | Some n, Some n' =>
          if (n <? n')%N then (k, v) :: o else (k', v') :: insertKey rest k v
      | Some _, None => (k, v) :: o
      | None, _ => (k', v') :: insertKey rest k v
      end
  end.

(** [o[k] = v] for a key other than [__proto__]: an existing key keeps its
    place, a new one is created. *)
Definition oset (o : list (string * V)) (k : string) (v : V) : list (string * V) :=
  if has String.eqb o k then set String.eqb o k v else insertKey o k v.

End Objects.

(** A record of strings keyed by strings. *)
Definition obj : Type := list (string * string).

(** The members of [Object.prototype], which every ordinary object inherits:
    those of the language and the legacy ones every host of the code has. *)
Definition OBJECT_PROTOTYPE : list string :=
  [ "constructor"; "hasOwnProperty"; "isPrototypeOf"; "propertyIsEnumerable";
    "toLocaleString"; "toString"; "valueOf";
    "__defineGetter__"; "__defineSetter__"; "__lookupGetter__"; "__lookupSetter__";
    "__proto__" ].

(** What a property read on an environment record gives: a string, or a
    member of [Object.prototype] (a function; for [__proto__] the prototype
    itself). *)
Inductive jsval : Type :=
| Str (s : string)
| Builtin (member : string).

(** An environment record: string keys, values as they are read and
    assigned.  [process.env] and the object literal the builder fills are
    ordinary objects with [Object.prototype] as prototype. *)
Definition record : Type := list (string * jsval).

(** Truthiness of a value that was read: a function or an object is truthy. *)
Definition truthyVal (v : option jsval) : bool :=
  match v with
  | Some (Str s) => truthy s
  | Some (Builtin _) => true
  | None => false
  end.

(** The text of a member of [Object.prototype] when it is used as a property
    key: the source text of a native function, or the text of an object. *)
Definition memberText (member : string) : string :=
  if String.eqb member "__proto__" then "[object Object]"
  else if String.eqb member "constructor" then "function Object() { [native code] }"
  else "function " ++ member ++ "() { [native code] }".

(** [o[v]]: the property key a value stands for. *)
Definition keyText (v : jsval) : string :=
  match v with
  | Str s => s
  | Builtin member => memberText member
  end.

(** [o[k]] on an ordinary object: the own property, else the member of
    [Object.prototype] of that name. *)
Definition read (o : record) (k : string) : option jsval :=
  match oget o k with
  | Some v => Some v
  | None => if existsb (String.eqb k) OBJECT_PROTOTYPE then Some (Builtin k) else None
  end.

(** [o[k] = v] on an ordinary object: [__proto__] is an accessor of
    [Object.prototype], so that assigning to it creates no own property. *)
Definition assign (o : record) (k : string) (v : jsval) : record :=
  if String.eqb k "__proto__" then o else oset o k v.

(** [xs.includes(x)] on an array of strings. *)
Definition inList (x : string) (xs : list string) : bool :=
  existsb (String.eqb x) xs.

End JS.

(* ===================================================================== *)
(** * Regular expressions *)
(* ===================================================================== *)

Module Regex.
Import JS.

(** The abstract syntax of the literals used in the sources.  A character
    class is its membership test; [negated] is the leading [^]. *)
Inductive regex : Type :=
| Empty
| Char (c : ascii)
| Class (negated : bool) (member : ascii -> bool)
| Dot
| Seq (r1 r2 : regex)
| Alt (r1 r2 : regex)
| Star (greedy : bool) (r : regex)
| Opt (r : regex)
| Bol
| Eol
| WordBoundary
| Group (n : nat) (r : regex).

(** The [i] and [m] flags. *)
Record flags : Type := { ignoreCase : bool; multiline : bool }.

Definition noFlags : flags := {| ignoreCase := false; multiline := false |}.
Definition flagI : flags := {| ignoreCase := true; multiline := false |}.
Definition flagM : flags := {| ignoreCase := false; multiline := true |}.

(** A matcher state: the code unit before the current position (for [^] and
    [\b]), the input still to read, and the captures so far. *)
Record mstate : Type := {
  prev : option ascii;
  rest : string;
  caps : list (nat * string)
}.

Definition advance (c : ascii) (t : string) (s : mstate) : mstate :=
  {| prev := Some c; rest := t; caps := caps s |}.

(** The literal [s] as a pattern. *)
Fixpoint lit (s : string) : regex :=
  match s with
  | EmptyString => Empty
  | String c EmptyString => Char c
  | String c t => Seq (Char c) (lit t)
  end.

(** [r1 r2 ... rn] and [(r1|r2|...|rn)]. *)
Fixpoint seqs (rs : list regex) : regex :=
  match rs with
  | [] => Empty
  | [r] => r
  | r :: rest => Seq r (seqs rest)
  end.

Fixpoint alts (rs : list regex) : regex :=
  match rs with
  | [] => Empty
  | [r] => r
  | r :: rest => Alt r (alts rest)
  end.

Definition oneOf (chars : string) : ascii -> bool :=
  fun c => existsb (Ascii.eqb c) (list_ascii_of_string chars).

Definition space : regex := Class false isWhiteSpace.
Definition anyChar : regex := Class false (fun _ => true).

Section Matcher.
Variable fl : flags.

(** Canonicalize of the [i] flag.  The patterns hold ASCII literals only, and
    Canonicalize never maps a code unit above 127 to one below 128, so
    folding the ASCII letters decides every comparison. *)
Definition canon (c : ascii) : ascii := if ignoreCase fl then upcase c else c.

Definition charMatches (p c : ascii) : bool := Ascii.eqb (canon p) (canon c).

Definition classMatches (negated : bool) (member : ascii -> bool) (c : ascii) : bool :=
  let found := member c || (ignoreCase fl && (member (upcase c) || member (downcase c))) in
  if negated then negb found else found.

Definition atLineStart (s : mstate) : bool :=
  match prev s with
  | None => true
  | Some c => multiline fl && isLineTerminator c
  end.

Definition atLineEnd (s : mstate) : bool :=
  match rest s with
  | EmptyString => true
  | String c _ => multiline fl && isLineTerminator c
  end.

Definition isWordBefore (s : mstate) : bool :=
  match prev s with Some c => isWordChar c | None => false end.

Definition isWordAfter (s : mstate) : bool :=
  match rest s with String c _ => isWordChar c | EmptyString => false end.

(** The text consumed between two states of one run. *)
Definition consumed (s s' : mstate) : string :=
  take (String.length (rest s) - String.length (rest s')) (rest s).

Definition progressed (s s' : mstate) : bool :=
  String.length (rest s') <? String.length (rest s).

(** RepeatMatcher for [r*] and [r*?]: [step] tries the body once.  An
    iteration that consumes nothing is refused, so the loop needs at most one
    round per remaining code unit, which is what [fuel] counts. *)
Fixpoint starLoop (step : mstate -> (mstate -> option mstate) -> option mstate)
    (greedy : bool) (k : mstate -> option mstate) (fuel : nat) (s0 : mstate)
    {struct fuel} : option mstate :=
  match fuel with
  | O => k s0
  | S fuel' =>
      if greedy then
        match step s0 (fun s' => if progressed s0 s' then starLoop step greedy k fuel' s'
                                 else None) with
        | Some res => Some res
        | None => k s0
        end
      else
        match k s0 with
        | Some res => Some res
        | None => step s0 (fun s' => if progressed s0 s' then starLoop step greedy k fuel' s'
                                     else None)
        end
  end.

(** The matcher in continuation-passing style: [m r s k] tries the ways [r]
    can match at [s] in priority order and returns the first for which the
    continuation [k] succeeds. *)
Fixpoint m (r : regex) (s : mstate) (k : mstate -> option mstate) {struct r}
  : option mstate :=
  match r with
  | Empty => k s
  | Char p =>
      match rest s with
      | String c t => if charMatches p c then k (advance c t s) else None
      | EmptyString => None
      end
  | Class negated member =>
      match rest s with
      | String c t => if classMatches negated member c then k (advance c t s) else None
      | EmptyString => None
      end
  | Dot =>
      match rest s with
      | String c t => if isLineTerminator c then None else k (advance c t s)
      | EmptyString => None
      end
  | Seq r1 r2 => m r1 s (fun s' => m r2 s' k)
  | Alt r1 r2 =>
      match m r1 s k with
      | Some res => Some res
      | None => m r2 s k
      end
  | Opt r' =>
      match m r' s (fun s' => if progressed s s' then k s' else None) with
      | Some res => Some res
      | None => k s
      end
  | Star greedy r' => starLoop (m r') greedy k (S (String.length (rest s))) s
  | Bol => if atLineStart s then k s else None
  | Eol => if atLineEnd s then k s else None
  | WordBoundary => if xorb (isWordBefore s) (isWordAfter s) then k s else None
  | Group n r' =>
      m r' s (fun s' =>
        k {| prev := prev s'; rest := rest s'; caps := set Nat.eqb (caps s') n (consumed s s') |})
  end.

(** One attempt at the current position. *)
Definition matchHere (r : regex) (p : option ascii) (s : string) : option mstate :=
  m r {| prev := p; rest := s; caps := [] |} Some.

(** What [exec] reports: where the match starts, its text, the captures and
    the input after it. *)
Record found : Type := {
  index : nat;
  matched : string;
  groups : list (nat * string);
  after : string
}.

(** The leftmost match at or after the current position. *)
Fixpoint searchFrom (r : regex) (i : nat) (p : option ascii) (s : string) : option found :=
  match matchHere r p s with
  | Some st =>
      Some {| index := i;
              matched := take (String.length s - String.length (rest st)) s;
              groups := caps st;
              after := rest st |}
  | None =>
      match s with
      | EmptyString => None
      | String c t => searchFrom r (S i) (Some c) t
      end
  end.

(** [re.exec(s)] for a pattern without the [g] flag, and [re.test(s)]. *)
Definition exec (r : regex) (s : string) : option found := searchFrom r 0 None s.

Definition test (r : regex) (s : string) : bool :=
  match exec r s with Some _ => true | None => false end.

(** The n-th capture of a match; a group that took no part is [undefined]. *)
Definition group (f : found) (n : nat) : option string := get Nat.eqb (groups f) n.

End Matcher.

(** A regular-expression literal with its flags. *)
Record pattern : Type := { re : regex; fl : flags }.

Definition testPattern (p : pattern) (s : string) : bool := test (fl p) (re p) s.

(** [s.split(re)] for a pattern without capture groups
    (RegExp.prototype[Symbol.split]): [tok] is the text since the last
    separator, [atP] says that no code unit was read since then, and a match
    that ends where the current piece starts is skipped. *)
Fixpoint splitLoop (p : pattern) (fuel : nat) (before : option ascii)
    (tok : string) (atP : bool) (s : string) {struct fuel} : list string :=
  match fuel with
  | O => [tok ++ s]
  | S fuel' =>
      match s with
      | EmptyString => [tok]
      | String c t =>
          match matchHere (fl p) (re p) before s with
          | None => splitLoop p fuel' (Some c) (tok ++ String c EmptyString) false t
          | Some st =>
              if (String.length (rest st) =? String.length s) && atP
              then splitLoop p fuel' (Some c) (tok ++ String c EmptyString) false t
              else tok :: splitLoop p fuel' (prev st) EmptyString true (rest st)
          end
      end
  end.

Definition splitRegex (p : pattern) (s : string) : list string :=
  match s with
  | EmptyString =>
      match matchHere (fl p) (re p) None s with
      | Some _ => []
      | None => [EmptyString]
      end
  | _ => splitLoop p (2 * String.length s + 2) None EmptyString true s
  end.

(** GetSubstitution for a pattern without capture groups: in a replacement
    string, [$$] is a dollar sign, [$&] the matched text, [$`] the text
    before the match and [$'] the text after it; a dollar sign before
    anything else (a digit or [<] included, as there is no group to refer to)
    stands for itself. *)
Fixpoint getSubstitution (matchedText before afterText : string)
    (replacement : string) : string :=
  match replacement with
  | EmptyString => EmptyString
  | String c t =>
      if Ascii.eqb c "$" then
        match t with
        | String d t' =>
            if Ascii.eqb d "$" then
              String "$" (getSubstitution matchedText before afterText t')
            else if Ascii.eqb d "&" then
              matchedText ++ getSubstitution matchedText before afterText t'
            else if Ascii.eqb d "`" then
              before ++ getSubstitution matchedText before afterText t'
            else if Ascii.eqb d "'" then
              afterText ++ getSubstitution matchedText before afterText t'
            else String c (getSubstitution matchedText before afterText t)
        | EmptyString => String c EmptyString
        end
      else String c (getSubstitution matchedText before afterText t)
  end.

Definition lastChar (d : option ascii) (s : string) : option ascii :=
  (fix go (d : option ascii) (s : string) : option ascii :=
     match s with
     | EmptyString => d
     | String c t => go (Some c) t
     end) d s.

(** [s.replace(re, replacement)] for a pattern with the [g] flag and a
    replacement string: [done] is the input before the current position.
    Every match is replaced; after an empty match the search resumes one
    code unit further. *)
Fixpoint replaceLoop (p : pattern) (replacement : string) (fuel : nat)
    (done : string) (before : option ascii) (s : string) {struct fuel} : string :=
  match fuel with
  | O => s
  | S fuel' =>
      match matchHere (fl p) (re p) before s with
      | Some st =>
          let n := String.length s - String.length (rest st) in
          let matchedText := take n s in
          let sub := getSubstitution matchedText done (rest st) replacement in
          match n, s with
          | O, EmptyString => sub
          | O, String c t =>
              sub ++ String c
                (replaceLoop p replacement fuel' (done ++ String c EmptyString) (Some c) t)
          | S _, _ =>
              sub ++ replaceLoop p replacement fuel' (done ++ matchedText)
                       (lastChar before matchedText) (rest st)
          end
      | None =>
          match s with
          | EmptyString => EmptyString
          | String c t =>
              String c
                (replaceLoop p replacement fuel' (done ++ String c EmptyString) (Some c) t)
          end
      end
  end.

Definition replaceAll (p : pattern) (replacement : string) (s : string) : string :=
  replaceLoop p replacement (S (String.length s)) EmptyString None s.

End Regex.

(* ===================================================================== *)
(** * extensions/utils/subprocess-env.ts *)
(* ===================================================================== *)

Module SubprocessEnv.
Import JS Regex.

(** [PROVIDER_KEY_MAP], an object literal. *)
Definition PROVIDER_KEY_MAP : record :=
  [ ("anthropic", Str "ANTHROPIC_API_KEY");
    ("openai", Str "OPENAI_API_KEY");
    ("google", Str "GEMINI_API_KEY");
    ("openrouter", Str "OPENROUTER_API_KEY") ].


(** [SYSTEM_VARS]. *)
Definition SYSTEM_VARS : list string :=
  ["PATH"; "HOME"; "TERM"; "LANG"; "SHELL"; "USER"; "TMPDIR"].

Definition sepClass : regex := Class false (oneOf "_ -").

Definition problemWords : regex :=
  Group 1 (alts [lit "not"; lit "missing"; lit "invalid"; lit "required"]).

(** [CREDENTIAL_PATTERNS], in source order. *)
Definition CREDENTIAL_PATTERNS : list pattern :=
  [ (* /\b401\b/i *)
    {| re := seqs [WordBoundary; lit "401"; WordBoundary]; fl := flagI |};
    (* /\b403\b/i *)
    {| re := seqs [WordBoundary; lit "403"; WordBoundary]; fl := flagI |};
    (* /unauthorized/i *)
    {| re := lit "unauthorized"; fl := flagI |};
    (* /authentication failed/i *)
    {| re := lit "authentication failed"; fl := flagI |};
    (* /api[_ -]?key[_ -]?(not|missing|invalid|required)/i *)
    {| re := seqs [lit "api"; Opt sepClass; lit "key"; Opt sepClass; problemWords];
       fl := flagI |};
    (* /no api key/i *)
    {| re := lit "no api key"; fl := flagI |};
    (* /access denied/i *)
    {| re := lit "access denied"; fl := flagI |};
    (* /permission denied/i *)
    {| re := lit "permission denied"; fl := flagI |};
    (* /EACCES/ *)
    {| re := lit "EACCES"; fl := noFlags |};
    (* /token[_ -]?(expired|invalid|missing|required)/i *)
    {| re := seqs [lit "token"; Opt sepClass;
                   Group 1 (alts [lit "expired"; lit "invalid"; lit "missing"; lit "required"])];
       fl := flagI |};
    (* /credentials?[_ -]?(not|missing|invalid|required)/i *)
    {| re := seqs [lit "credential"; Opt (Char "s"); Opt sepClass; problemWords];
       fl := flagI |} ].

(** [extractProvider]: the lowercased text before the first slash. *)
Definition extractProvider (model : string) : option string :=
  if negb (truthy model) then None
  else match indexOf "/" model with
       | None => None
       | Some slash => Some (toLowerCase (take slash model))
       end.

(** [getProviderKeyName]: [PROVIDER_KEY_MAP[provider] ?? null].  The read
    goes through the prototype of the table, and a member found there is
    neither null nor undefined. *)
Definition getProviderKeyName (provider : string) : option jsval :=
  read PROVIDER_KEY_MAP provider.

(** [/[,\s]+/]. *)
Definition envFieldSeparator : pattern :=
  let cls := Class false (fun c => Ascii.eqb c "," || isWhiteSpace c) in
  {| re := Seq cls (Star true cls); fl := noFlags |}.

(** [parseAgentEnvField]. *)
Definition parseAgentEnvField (envField : option string) : list string :=
  match envField with
  | None => []
  | Some f =>
      if negb (truthy f) then []
      else filter truthy (map trim (splitRegex envFieldSeparator f))
  end.

(** [env[key] = parentEnv[key]!], reached when the value read is truthy. *)
Definition assignFrom (parentEnv : record) (env : record) (key : string) : record :=
  match read parentEnv key with
  | Some v => assign env key v
  | None => env
  end.

(** The body of the two copying loops: [if (parentEnv[key]) env[key] =
    parentEnv[key]]. *)
Definition copyVar (parentEnv : record) (env : record) (key : string) : record :=
  if truthyVal (read parentEnv key) then assignFrom parentEnv env key else env.

(** [buildSubprocessEnv(model, agentEnv, parentEnv)].  A key name that is
    no string is turned into one where it is used as a property key. *)
Definition buildSubprocessEnv (model : string) (agentEnv : option string)
    (parentEnv : record) : record :=
  (* 1. System essentials *)
  let env1 := fold_left (copyVar parentEnv) SYSTEM_VARS [] in
  (* 2. The API key for the selected model provider *)
  let env2 :=
    match extractProvider model with
    | Some provider =>
        if truthy provider then
          match getProviderKeyName provider with
          | Some keyName =>
              if truthyVal (Some keyName) && truthyVal (read parentEnv (keyText keyName))
              then assignFrom parentEnv env1 (keyText keyName)
              else env1
          | None => env1
          end
        else env1
    | None => env1
    end in
  (* 3. Extra vars declared by the agent *)
  fold_left (copyVar parentEnv) (parseAgentEnvField agentEnv) env2.

(** [describeEnv]: the keys that are not system variables. *)
Definition describeEnv (env : record) : list string :=
  filter (fun k => negb (inList k SYSTEM_VARS)) (keys env).

Definition backticked (k : string) : string := "`" ++ k ++ "`".

(** [detectCredentialFailure]. *)
Definition detectCredentialFailure (output agentName : string) (env : record)
  : option string :=
  if negb (truthy output) then None
  else
    let matched := existsb (fun p => testPattern p output) CREDENTIAL_PATTERNS in
    if negb matched then None
    else
      let passedKeys := describeEnv env in
      let passedList :=
        if 0 <? List.length passedKeys
        then join ", " (map backticked passedKeys)
        else "no API keys" in
      Some ("Subagent " ++ dquote ++ agentName ++ dquote
              ++ " failed with what looks like a missing credential." ++ nl
            ++ "Only " ++ passedList ++ " "
              ++ (if List.length passedKeys =? 1 then "was" else "were")
              ++ " passed to this subprocess." ++ nl
            ++ "If this agent needs additional env vars, add them to the `env` field in its agent .md frontmatter:" ++ nl
            ++ nl
            ++ "  env: NPM_TOKEN, GITHUB_TOKEN").

End SubprocessEnv.

(* ===================================================================== *)
(** * extensions/utils/agent-loader.ts *)
(* ===================================================================== *)

Module AgentLoader.
Import JS Regex.

(** [AgentDef]. *)
Record AgentDef : Type := {
  name : string;
  description : string;
  tools : string;
  systemPrompt : string;
  file : string
}.

Inductive Severity : Type := error | warning.

Definition isError (s : Severity) : bool :=
  match s with error => true | warning => false end.

(** [ValidationWarning]. *)
Record ValidationWarning : Type := {
  field : string;
  message : string;
  severity : Severity
}.

(** [LoadResult]; a null [agent] is [None]. *)
Record LoadResult : Type := {
  agent : option AgentDef;
  warnings : list ValidationWarning
}.

Definition MAX_SYSTEM_PROMPT_LENGTH : nat := 50 * 1000.
Definition MAX_NAME_LENGTH : nat := 64.

Definition isAlnum (c : ascii) : bool := isLower c || isUpper c || isDigit c.

(** [VALID_NAME_PATTERN = /^[a-zA-Z0-9][a-zA-Z0-9._-]*$/]. *)
Definition VALID_NAME_PATTERN : regex :=
  seqs [ Bol;
         Class false isAlnum;
         Star true (Class false (fun c => isAlnum c || oneOf "._-" c));
         Eol ].

(** [KNOWN_TOOLS]. *)
Definition KNOWN_TOOLS : list string :=
  [ "read"; "write"; "edit"; "bash"; "grep"; "find"; "ls";
    "fetch"; "firecrawl"; "dispatch_agent"; "run_chain";
    "query_experts"; "tilldone"; "subagent_create";
    "subagent_continue"; "subagent_remove"; "subagent_list" ].

(** One entry of [SUSPICIOUS_PATTERNS]. *)
Record Suspicious : Type := {
  pat : regex;
  patFlags : flags;
  reason : string
}.

Definition backtick : ascii := "`"%char.

Definition shellWords : regex :=
  Group 1 (alts [ lit "rm"; lit "dd"; lit "mkfs"; lit "chmod"; lit "chown"; lit "kill";
                  lit "curl"; lit "wget"; lit "sh"; lit "bash"; lit "eval" ]).

(** [/(?:^|[^`])`(rm|dd|...|eval)\s[^`\n]*`/m]. *)
Definition backtickCommand : regex :=
  seqs [ Alt Bol (Class true (Ascii.eqb backtick));
         Char backtick;
         shellWords;
         space;
         Star true (Class true (fun c => Ascii.eqb c backtick || Ascii.eqb c newline_char));
         Char backtick ].

(** [SUSPICIOUS_PATTERNS], in source order.  The reasons of the first entry
    holds a character beyond Latin-1 (the ellipsis); no code measures or
    scans a reason, so it is written as the source spells it. *)
Definition SUSPICIOUS_PATTERNS : list Suspicious :=
  [ (* /\$\(.*\)/ *)
    {| pat := seqs [Char "$"; Char "("; Star true Dot; Char ")"];
       patFlags := noFlags;
       reason := "contains shell command substitution $(…)" |};
    {| pat := backtickCommand;
       patFlags := flagM;
       reason := "contains backtick expression with shell command" |};
    (* /\x00/ *)
    {| pat := Char (ascii_of_nat 0);
       patFlags := noFlags;
       reason := "contains null byte" |};
    (* /\\\x27/ *)
    {| pat := Seq (Char "\") (Char (ascii_of_nat 39));
       patFlags := noFlags;
       reason := "contains escaped single quote" |};
    (* /;\s*(rm|dd|mkfs|kill|chmod|chown)\s/ *)
    {| pat := seqs [ Char ";"; Star true space;
                     Group 1 (alts [lit "rm"; lit "dd"; lit "mkfs"; lit "kill"; lit "chmod"; lit "chown"]);
                     space ];
       patFlags := noFlags;
       reason := "contains chained destructive shell command" |};
    (* /\|\s*(sh|bash|zsh|dash)\b/ *)
    {| pat := seqs [ Char "|"; Star true space;
                     Group 1 (alts [lit "sh"; lit "bash"; lit "zsh"; lit "dash"]);
                     WordBoundary ];
       patFlags := noFlags;
       reason := "contains pipe to shell" |};
    (* />\s*\/dev\// *)
    {| pat := seqs [Char ">"; Star true space; lit "/dev/"];
       patFlags := noFlags;
       reason := "contains redirect to /dev/" |};
    (* /\beval\s*\(/ *)
    {| pat := seqs [WordBoundary; lit "eval"; Star true space; Char "("];
       patFlags := noFlags;
       reason := "contains eval() call" |} ].

(** [ParsedFile]. *)
Record ParsedFile : Type := {
  fields : obj;
  body : string
}.

(** The frontmatter pattern of [parseFrontmatter]: at the start of the text
    three dashes, whitespace, a newline; group 1, lazily, any code units; a
    newline, three dashes, whitespace, a newline; group 2, greedily, any code
    units up to the end of the text.  With the last star spelled as a
    counted repetition: ^---\s*\n([\s\S]*?)\n---\s*\n([\s\S]{0,})$ *)
Definition FRONTMATTER : regex :=
  seqs [ Bol; lit "---"; Star true space; Char newline_char;
         Group 1 (Star false anyChar);
         Char newline_char; lit "---"; Star true space; Char newline_char;
         Group 2 (Star true anyChar);
         Eol ].

(** The loop body of [parseFrontmatter]: a line with a colon after its first
    code unit sets a field.  Assigning a string to the key [__proto__] of a
    plain object creates no property. *)
Definition addField (fields : obj) (line : string) : obj :=
  match indexOf ":" line with
  | Some idx =>
      if 0 <? idx then
        let key := trim (take idx line) in
        if String.eqb key "__proto__" then fields
        else oset fields key (trim (drop (idx + 1) line))
      else fields
  | None => fields
  end.

(** [parseFrontmatter]. *)
Definition parseFrontmatter (raw : string) : option ParsedFile :=
  match exec noFlags FRONTMATTER raw with
  | None => None
  | Some mt =>
      let header := match group mt 1 with Some h => h | None => EmptyString end in
      let rest := match group mt 2 with Some b => b | None => EmptyString end in
      Some {| fields := fold_left addField (split newline_char header) [];
              body := rest |}
  end.

(** [validateName]. *)
Definition validateName (name : string) : list ValidationWarning :=
  if negb (truthy name) then
    [ {| field := "name"; message := "agent name is empty"; severity := error |} ]
  else
    (if MAX_NAME_LENGTH <? String.length name then
       [ {| field := "name";
            message := "agent name exceeds " ++ showNat MAX_NAME_LENGTH
                       ++ " characters (got " ++ showNat (String.length name) ++ ")";
            severity := error |} ]
     else [])
    ++
    (if negb (test noFlags VALID_NAME_PATTERN name) then
       [ {| field := "name";
            message := "agent name " ++ dquote ++ name ++ dquote
                       ++ " contains invalid characters (allowed: a-z, 0-9, dash, underscore, dot)";
            severity := error |} ]
     else [])%list.

(** [validateTools]; the message holds a dash beyond Latin-1, written as the
    source spells it. *)
Definition validateTools (tools : string) (knownTools : list string)
  : list ValidationWarning :=
  if negb (truthy tools) then []
  else
    let toolList := filter truthy (map trim (split "," tools)) in
    flat_map
      (fun tool =>
         if negb (inList tool knownTools) then
           [ {| field := "tools";
                message := "unknown tool " ++ dquote ++ tool ++ dquote
                           ++ " — not in the known tools allowlist";
                severity := warning |} ]
         else [])
      toolList.

(** [validateSystemPrompt]. *)
Definition validateSystemPrompt (body : string) : list ValidationWarning :=
  (if MAX_SYSTEM_PROMPT_LENGTH <? String.length body then
     [ {| field := "systemPrompt";
          message := "system prompt exceeds " ++ showNat MAX_SYSTEM_PROMPT_LENGTH
                     ++ " characters (got " ++ showNat (String.length body) ++ ")";
          severity := error |} ]
   else [])
  ++
  flat_map
    (fun sp =>
       if test (patFlags sp) (pat sp) body then
         [ {| field := "systemPrompt";
              message := "suspicious content in system prompt: " ++ reason sp;
              severity := warning |} ]
       else [])
    SUSPICIOUS_PATTERNS.

(** [validateAgent]. *)
Definition validateAgent (a : AgentDef) : list ValidationWarning :=
  validateName (name a) ++ validateTools (tools a) KNOWN_TOOLS
    ++ validateSystemPrompt (systemPrompt a).

Definition hasErrors (ws : list ValidationWarning) : bool :=
  existsb (fun w => isError (severity w)) ws.

(** The host functions the loader calls: [readFileSync(path, "utf-8")]
    returns the text or throws with a message; [basename(path, ext)];
    [existsSync]; [readdirSync], which throws on an unreadable directory;
    [resolve(dir, file)]. *)
Section Host.
Variable readFileSync : string -> string + string.
Variable basename : string -> string -> string.
Variable existsSync : string -> bool.
Variable readdirSync : string -> option (list string).
Variable resolve : string -> string -> string.

(** The object literal of [loadAgentFile]: the fields of the frontmatter
    with their defaults ([fields.name || basename(filePath, ".md")] and so
    on) and the trimmed body. *)
Definition agentOf (filePath : string) (parsed : ParsedFile) : AgentDef :=
  {| name := orDefault (oget (fields parsed) "name") (basename filePath ".md");
     description := orDefault (oget (fields parsed) "description") "";
     tools := orDefault (oget (fields parsed) "tools") "read,grep,find,ls";
     systemPrompt := trim (body parsed);
     file := filePath |}.

(** [loadAgentFile]. *)
Definition loadAgentFile (filePath : string) : LoadResult :=
  match readFileSync filePath with
  | inr errMessage =>
      {| agent := None;
         warnings := [ {| field := "file";
                          message := "could not read file: " ++ errMessage;
                          severity := error |} ] |}
  | inl raw =>
      match parseFrontmatter raw with
      | None =>
          {| agent := None;
             warnings := [ {| field := "file";
                              message := "file does not have valid frontmatter (---\n...\n---)";
                              severity := error |} ] |}
      | Some parsed =>
          let a := agentOf filePath parsed in
          let ws := validateAgent a in
          {| agent := if hasErrors ws then None else Some a;
             warnings := ws |}
      end
  end.

(** [file.endsWith(".md")]. *)
Definition endsWithMd (f : string) : bool :=
  (3 <=? String.length f) && String.eqb (drop (String.length f - 3) f) ".md".

(** The loop body of [scanAgentDirectory]: the map of agents so far and the
    calls made to [onWarning] so far, each with the file it reports. *)
Definition scanFile (dir : string)
    (acc : list (string * AgentDef) * list (string * ValidationWarning))
    (f : string) : list (string * AgentDef) * list (string * ValidationWarning) :=
  if negb (endsWithMd f) then acc
  else
    let fullPath := resolve dir f in
    let result := loadAgentFile fullPath in
    let calls := (snd acc ++ map (fun w => (fullPath, w)) (warnings result))%list in
    match agent result with
    | Some a =>
        let key := toLowerCase (name a) in
        if negb (has String.eqb (fst acc) key)
        then (set String.eqb (fst acc) key a, calls)
        else (fst acc, calls)
    | None => (fst acc, calls)
    end.

(** [scanAgentDirectory(dir, onWarning)] with a callback supplied: the
    returned map, and the arguments of the callback's calls in order. *)
Definition scanAgentDirectory (dir : string)
  : list (string * AgentDef) * list (string * ValidationWarning) :=
  if negb (existsSync dir) then ([], [])
  else match readdirSync dir with
       | None => ([], [])
       | Some files => fold_left (scanFile dir) files ([], [])
       end.

End Host.

End AgentLoader.

(* ===================================================================== *)
(** * Structured events: the values [JSON.parse] returns *)
(* ===================================================================== *)

Module Json.
Import JS.

Section Values.
(** JSON numbers are IEEE doubles; the code only asks whether one is falsy
    and, when one is pushed where text is expected, for its decimal text. *)
Variable num : Type.

Inductive json : Type :=
| JNull
| JBool (b : bool)
| JNum (n : num)
| JStr (s : string)
| JArr (items : list json)
| JObj (props : list (string * json)).

End Values.

Arguments JNull {num}.
Arguments JBool {num} b.
Arguments JNum {num} n.
Arguments JStr {num} s.
Arguments JArr {num} items.
Arguments JObj {num} props.

(** What the host runtime supplies to the spawners: the number type with its
    zero test and [Number::toString], [JSON.parse] (which throws on malformed
    text: [None]), [path.join] of two segments, [fs.existsSync], and
    [process.env]. *)
Class Host : Type := {
  num : Type;
  numFalsy : num -> bool;
  numText : num -> string;
  JSON_parse : string -> option (json num);
  pathJoin : string -> string -> string;
  existsSync : string -> bool;
  process_env : record
}.

Section WithHost.
Context {H : Host}.

Definition value : Type := json num.

(** [v.k] for a value [v] that is neither null nor undefined: an own property
    of an object; a primitive or an array has none of the keys the code
    reads. *)
Definition getProp (v : value) (k : string) : option value :=
  match v with
  | JObj props => get String.eqb props k
  | _ => None
  end.

(** [v?.k]. *)
Definition getPropOpt (v : option value) (k : string) : option value :=
  match v with
  | None => None
  | Some JNull => None
  | Some w => getProp w k
  end.

(** [v === "text"]. *)
Definition isString (v : option value) (text : string) : bool :=
  match v with
  | Some (JStr s) => String.eqb s text
  | _ => false
  end.

(** Truthiness of a parsed value. *)
Definition truthyValue (v : option value) : bool :=
  match v with
  | None => false
  | Some JNull => false
  | Some (JBool b) => b
  | Some (JNum n) => negb (numFalsy n)
  | Some (JStr s) => truthy s
  | Some (JArr _) => true
  | Some (JObj _) => true
  end.

(** The text [Array.prototype.join] gives an element. *)
Fixpoint elementText (v : value) : string :=
  match v with
  | JNull => ""
  | JBool true => "true"
  | JBool false => "false"
  | JNum n => numText n
  | JStr s => s
  | JArr items => join "," (map elementText items)
  | JObj _ => "[object Object]"
  end.

(** [delta.delta || ""], as [textChunks.join("")] will render it. *)
Definition deltaText (delta : value) : string :=
  let d := getProp delta "delta" in
  if truthyValue d
  then match d with Some v => elementText v | None => "" end
  else "".

(** The part of a line handler all three spawners share: inside [try],
    [JSON.parse(line)], then the test for a text delta.  The result is the
    text pushed to [textChunks], if any.  Reading [event.type] of [null]
    throws, which the [catch] swallows like a parse error. *)
Definition textDeltaOf (event : value) : option string :=
  match event with
  | JNull => None
  | _ =>
      if isString (getProp event "type") "message_update" then
        let delta := getProp event "assistantMessageEvent" in
        if isString (getPropOpt delta "type") "text_delta"
        then match delta with Some d => Some (deltaText d) | None => None end
        else None
      else None
  end.

(** [event.type === "tool_execution_start"], reached when the event is no
    message update. *)
Definition isToolStart (event : value) : bool :=
  match event with
  | JNull => false
  | _ => isString (getProp event "type") "tool_execution_start"
  end.

(** [full.split("\n").filter(l => l.trim()).pop() || ""]. *)
Definition lastNonBlankLine (full : string) : string :=
  match unsnoc (filter (fun l => truthy (trim l)) (split newline_char full)) with
  | Some (_, l) => l
  | None => ""
  end.

(** [ctx.model ? `${ctx.model.provider}/${ctx.model.id}` : default]. *)
Definition modelString (ctxModel : option (string * string)) : string :=
  match ctxModel with
  | Some (provider, id) => provider ++ "/" ++ id
  | None => "openrouter/google/gemini-3-flash-preview"
  end.

End WithHost.

(** One [spawn(command, args, { stdio, env })] call. *)
Record SpawnCall : Type := {
  command : string;
  args : list string;
  env : record
}.

End Json.

(* ===================================================================== *)
(** * extensions/agent-team.ts: the Dispatcher *)
(* ===================================================================== *)

Module AgentTeam.
Import JS Regex Json.

Inductive Status : Type := idle | running | done | error.

Definition isRunning (s : Status) : bool :=
  match s with running => true | _ => false end.

(** [AgentState].  The context percentage (a quotient of doubles, shown in
    the grid only) is left out; the interval timer lives with the child
    process that owns it. *)
Record AgentState : Type := {
  def : AgentLoader.AgentDef;
  status : Status;
  task : string;
  toolCount : nat;
  elapsed : nat;
  lastWork : string;
  sessionFile : option string;
  runCount : nat
}.

(** The value a dispatch promise resolves with. *)
Record Result : Type := {
  output : string;
  exitCode : Z;
  resultElapsed : nat
}.

(** What the closures of one [dispatchAgent] call hold while its child runs:
    the state object they captured (by address), the identity it was looked
    up under, the session file, the start time, the partial line and the
    text chunks. *)
Record Proc : Type := {
  owner : nat;
  ownerKey : string;
  agentSessionFile : string;
  startTime : nat;
  buffer : string;
  textChunks : list string
}.

(** The extension's variables.  State objects live in [heap] and the map
    holds their addresses, because the handlers of a running child keep the
    object they captured even after [activateTeam] has put a fresh one under
    the same key.  [procs] are the children whose [close] or [error] event is
    still to come; [spawned] lists every [spawn] call; [timers] are the
    interval timers that no handler will clear, each with the state object
    and the start time its callback captured. *)
Record World : Type := {
  agentStates : list (string * nat);
  heap : list (nat * AgentState);
  nextAddr : nat;
  allAgentDefs : list AgentLoader.AgentDef;
  teams : list (string * list string);
  activeTeamName : string;
  sessionDir : string;
  procs : list (nat * Proc);
  nextPid : nat;
  spawned : list SpawnCall;
  timers : list (nat * nat)
}.

(** [w.charAt(0).toUpperCase() + w.slice(1)] on ASCII words. *)
Definition capitalize (w : string) : string :=
  match w with
  | EmptyString => EmptyString
  | String c t => String (upcase c) t
  end.

(** [displayName]. *)
Definition displayName (name : string) : string :=
  join " " (map capitalize (split "-" name)).

(** [/\s+/g]. *)
Definition whitespaceRun : pattern :=
  {| re := Seq space (Star true space); fl := noFlags |}.

(** [def.name.toLowerCase().replace(/\s+/g, "-")]. *)
Definition agentKeyOf (d : AgentLoader.AgentDef) : string :=
  replaceAll whitespaceRun "-" (toLowerCase (AgentLoader.name d)).

Definition stateAt (w : World) (addr : nat) : option AgentState :=
  get Nat.eqb (heap w) addr.

(** [agentStates.get(key)]: the state object now under the key. *)
Definition lookupState (w : World) (key : string) : option (nat * AgentState) :=
  match get String.eqb (agentStates w) key with
  | Some addr =>
      match stateAt w addr with
      | Some st => Some (addr, st)
      | None => None
      end
  | None => None
  end.

(** [Array.from(agentStates.values())]. *)
Definition rosterStates (w : World) : list AgentState :=
  flat_map (fun kv => match stateAt w (snd kv) with Some st => [st] | None => [] end)
           (agentStates w).

Definition withHeap (w : World) (h : list (nat * AgentState)) : World :=
  {| agentStates := agentStates w; heap := h; nextAddr := nextAddr w;
     allAgentDefs := allAgentDefs w; teams := teams w;
     activeTeamName := activeTeamName w; sessionDir := sessionDir w;
     procs := procs w; nextPid := nextPid w; spawned := spawned w;
     timers := timers w |}.

Definition withProcs (w : World) (ps : list (nat * Proc)) : World :=
  {| agentStates := agentStates w; heap := heap w; nextAddr := nextAddr w;
     allAgentDefs := allAgentDefs w; teams := teams w;
     activeTeamName := activeTeamName w; sessionDir := sessionDir w;
     procs := ps; nextPid := nextPid w; spawned := spawned w;
     timers := timers w |}.

(** Mutation of the state object at an address. *)
Definition updateState (w : World) (addr : nat) (f : AgentState -> AgentState) : World :=
  match stateAt w addr with
  | Some st => withHeap w (set Nat.eqb (heap w) addr (f st))
  | None => w
  end.

Section WithHost.
Context {H : Host}.

(** The loop body of [activateTeam]: a member with a definition gets a fresh
    idle state object under its lowercased name. *)
Definition addMember (defsByName : list (string * AgentLoader.AgentDef))
    (w : World) (member : string) : World :=
  match get String.eqb defsByName (toLowerCase member) with
  | None => w
  | Some d =>
      let sessFile := pathJoin (sessionDir w) (agentKeyOf d ++ ".json") in
      let st := {| def := d; status := idle; task := ""; toolCount := 0;
                   elapsed := 0; lastWork := "";
                   sessionFile := if existsSync sessFile then Some sessFile else None;
                   runCount := 0 |} in
      {| agentStates := set String.eqb (agentStates w) (toLowerCase (AgentLoader.name d)) (nextAddr w);
         heap := set Nat.eqb (heap w) (nextAddr w) st;
         nextAddr := S (nextAddr w);
         allAgentDefs := allAgentDefs w; teams := teams w;
         activeTeamName := activeTeamName w; sessionDir := sessionDir w;
         procs := procs w; nextPid := nextPid w; spawned := spawned w;
     timers := timers w |}
  end.

(** [activateTeam]; the grid sizing it ends with is display only. *)
Definition activateTeam (w : World) (teamName : string) : World :=
  let members := match get String.eqb (teams w) teamName with
                 | Some ms => ms
                 | None => []
                 end in
  let defsByName :=
    fold_left (fun acc d => set String.eqb acc (toLowerCase (AgentLoader.name d)) d)
              (allAgentDefs w) [] in
  let cleared :=
    {| agentStates := []; heap := heap w; nextAddr := nextAddr w;
       allAgentDefs := allAgentDefs w; teams := teams w;
       activeTeamName := teamName; sessionDir := sessionDir w;
       procs := procs w; nextPid := nextPid w; spawned := spawned w;
     timers := timers w |} in
  fold_left (addMember defsByName) members cleared.

(** The arguments of the [spawn] call in [dispatchAgent]. *)
Definition dispatchArgs (st : AgentState) (model agentSessFile task : string)
  : list string :=
  ([ "--mode"; "json"; "-p"; "--no-extensions";
     "--model"; model;
     "--tools"; AgentLoader.tools (def st);
     "--thinking"; "off";
     "--append-system-prompt"; AgentLoader.systemPrompt (def st);
     "--session"; agentSessFile ]
   ++ (match sessionFile st with Some _ => ["-c"] | None => [] end)
   ++ [task])%list.

(** The [spawn] call of [dispatchAgent]: the environment is a copy of the
    whole of [process.env]. *)
Definition dispatchSpawn (st : AgentState) (ctxModel : option (string * string))
    (sessDir task : string) : SpawnCall :=
  let model := modelString ctxModel in
  let agentSessFile := pathJoin sessDir (agentKeyOf (def st) ++ ".json") in
  {| command := "pi";
     args := dispatchArgs st model agentSessFile task;
     env := process_env |}.

(** What a [dispatchAgent] call returns: a promise already resolved, or one
    that waits for the events of the child it spawned. *)
Inductive Dispatched : Type :=
| Resolved (r : Result)
| Pending (pid : nat).

(** [dispatchAgent(agentName, task, ctx)] up to the return of the promise,
    when [spawn] returns a child; [dispatchThrown] below is the call when
    [spawn] throws. *)
Definition dispatchAgent (w : World) (agentName task : string)
    (ctxModel : option (string * string)) (now : nat) : World * Dispatched :=
  let key := toLowerCase agentName in
  match lookupState w key with
  | None =>
      (w, Resolved
            {| output := "Agent " ++ dquote ++ agentName ++ dquote ++ " not found. Available: "
                         ++ join ", " (map (fun s => displayName (AgentLoader.name (def s)))
                                           (rosterStates w));
               exitCode := 1%Z;
               resultElapsed := 0 |})
  | Some (addr, st) =>
      if isRunning (status st) then
        (w, Resolved
              {| output := "Agent " ++ dquote ++ displayName (AgentLoader.name (def st)) ++ dquote
                           ++ " is already running. Wait for it to finish.";
                 exitCode := 1%Z;
                 resultElapsed := 0 |})
      else
        let st' := {| def := def st; status := running; task := task; toolCount := 0;
                      elapsed := 0; lastWork := ""; sessionFile := sessionFile st;
                      runCount := S (runCount st) |} in
        let call := dispatchSpawn st' ctxModel (sessionDir w) task in
        let proc := {| owner := addr; ownerKey := key;
                       agentSessionFile := pathJoin (sessionDir w) (agentKeyOf (def st) ++ ".json");
                       startTime := now; buffer := ""; textChunks := [] |} in
        ({| agentStates := agentStates w;
            heap := set Nat.eqb (heap w) addr st';
            nextAddr := nextAddr w;
            allAgentDefs := allAgentDefs w; teams := teams w;
            activeTeamName := activeTeamName w; sessionDir := sessionDir w;
            procs := set Nat.eqb (procs w) (nextPid w) proc;
            nextPid := S (nextPid w);
            spawned := (spawned w ++ [call])%list;
            timers := timers w |},
         Pending (nextPid w))
  end.

(** [dispatchAgent(agentName, task, ctx)] when [spawn] throws (an argument
    holds a NUL code unit, or the arguments are too long for the system):
    the state object is marked running already and its interval timer is
    started, the executor of the promise is left by the exception, and the
    promise is rejected ([None]).  No handler exists that would clear the
    timer or write the status again. *)
Definition dispatchThrown (w : World) (agentName task : string)
    (ctxModel : option (string * string)) (now : nat) : World * option Result :=
  let key := toLowerCase agentName in
  match lookupState w key with
  | None =>
      (w, Some
            {| output := "Agent " ++ dquote ++ agentName ++ dquote ++ " not found. Available: "
                         ++ join ", " (map (fun s => displayName (AgentLoader.name (def s)))
                                           (rosterStates w));
               exitCode := 1%Z;
               resultElapsed := 0 |})
  | Some (addr, st) =>
      if isRunning (status st) then
        (w, Some
              {| output := "Agent " ++ dquote ++ displayName (AgentLoader.name (def st)) ++ dquote
                           ++ " is already running. Wait for it to finish.";
                 exitCode := 1%Z;
                 resultElapsed := 0 |})
      else
        let st' := {| def := def st; status := running; task := task; toolCount := 0;
                      elapsed := 0; lastWork := ""; sessionFile := sessionFile st;
                      runCount := S (runCount st) |} in
        let call := dispatchSpawn st' ctxModel (sessionDir w) task in
        ({| agentStates := agentStates w;
            heap := set Nat.eqb (heap w) addr st';
            nextAddr := nextAddr w;
            allAgentDefs := allAgentDefs w; teams := teams w;
            activeTeamName := activeTeamName w; sessionDir := sessionDir w;
            procs := procs w;
            nextPid := nextPid w;
            spawned := (spawned w ++ [call])%list;
            timers := (timers w ++ [(addr, now)])%list |},
         None)
  end.

(** The callback of the [n]-th of the timers that are never cleared:
    [state.elapsed = Date.now() - startTime]. *)
Definition timerTick (w : World) (n : nat) (now : nat) : World :=
  match nth_error (timers w) n with
  | Some (addr, start) =>
      updateState w addr
        (fun st => {| def := def st; status := status st; task := task st;
                      toolCount := toolCount st; elapsed := now - start;
                      lastWork := lastWork st; sessionFile := sessionFile st;
                      runCount := runCount st |})
  | None => w
  end.

(** What one line does inside the [stdout] handler. *)
Inductive LineEffect : Type :=
| NoEffect
| PushText (text : string)
| ToolStarted.

(** The loop body of the [stdout] handler: blank lines are skipped, a line
    that does not parse is dropped by the [catch], a text delta is pushed, a
    tool start is counted; the remaining event kinds update the context
    percentage only. *)
Definition lineEffect (line : string) : LineEffect :=
  if negb (truthy (trim line)) then NoEffect
  else match JSON_parse line with
       | None => NoEffect
       | Some event =>
           match textDeltaOf event with
           | Some text => PushText text
           | None =>
               match event with
               | JNull => NoEffect
               | _ =>
                   if isString (getProp event "type") "message_update" then NoEffect
                   else if isToolStart event then ToolStarted
                   else NoEffect
               end
           end
       end.

(** The parser state one child's handlers share, with the two fields of the
    agent state they write. *)
Record Parser : Type := {
  pBuffer : string;
  pChunks : list string;
  pLastWork : string;
  pToolCount : nat
}.

Definition applyLine (p : Parser) (line : string) : Parser :=
  match lineEffect line with
  | NoEffect => p
  | PushText text =>
      let chunks := (pChunks p ++ [text])%list in
      {| pBuffer := pBuffer p; pChunks := chunks;
         pLastWork := lastNonBlankLine (join "" chunks);
         pToolCount := pToolCount p |}
  | ToolStarted =>
      {| pBuffer := pBuffer p; pChunks := pChunks p;
         pLastWork := pLastWork p; pToolCount := S (pToolCount p) |}
  end.

(** [proc.stdout.on("data", chunk => ...)]: append, split on newlines, keep
    the last piece as the new buffer, handle the others. *)
Definition onData (p : Parser) (chunk : string) : Parser :=
  let buf := pBuffer p ++ chunk in
  match unsnoc (split newline_char buf) with
  | Some (lines, lastPiece) =>
      fold_left applyLine lines
        {| pBuffer := lastPiece; pChunks := pChunks p;
           pLastWork := pLastWork p; pToolCount := pToolCount p |}
  | None =>
      {| pBuffer := ""; pChunks := pChunks p;
         pLastWork := pLastWork p; pToolCount := pToolCount p |}
  end.

(** The first statement of the [close] handler: a buffer that is not blank
    is parsed once more, and only a text delta counts. *)
Definition flushBuffer (p : Parser) : list string :=
  if truthy (trim (pBuffer p)) then
    match JSON_parse (pBuffer p) with
    | Some event =>
        match textDeltaOf event with
        | Some text => (pChunks p ++ [text])%list
        | None => pChunks p
        end
    | None => pChunks p
    end
  else pChunks p.


(** The events of a running child, as the handlers installed by
    [dispatchAgent] see them. *)
Inductive ProcEvent : Type :=
| StdoutData (chunk : string)
| Tick (now : nat)
| Close (code : option Z) (now : nat)
| SpawnError (message : string) (now : nat).

Definition parserOf (p : Proc) (st : AgentState) : Parser :=
  {| pBuffer := buffer p; pChunks := textChunks p;
     pLastWork := lastWork st; pToolCount := toolCount st |}.

Definition isZeroCode (code : option Z) : bool :=
  match code with Some z => Z.eqb z 0 | None => false end.

(** The handlers.  [close] resolves the promise and ends the child's life.
    An [error] is delivered for a child that could not be started, and the
    host emits the [close] of such a child, with a negative error number as
    exit code, right after it: the [error] handler resolves the promise and
    the [close] handler then writes the state once more. *)
Definition onEvent (w : World) (pid : nat) (ev : ProcEvent) : World * option Result :=
  match get Nat.eqb (procs w) pid with
  | None => (w, None)
  | Some p =>
      match stateAt w (owner p) with
      | None => (w, None)
      | Some st =>
          match ev with
          | StdoutData chunk =>
              let ps := onData (parserOf p st) chunk in
              let st' := {| def := def st; status := status st; task := task st;
                            toolCount := pToolCount ps; elapsed := elapsed st;
                            lastWork := pLastWork ps; sessionFile := sessionFile st;
                            runCount := runCount st |} in
              let p' := {| owner := owner p; ownerKey := ownerKey p;
                           agentSessionFile := agentSessionFile p;
                           startTime := startTime p;
                           buffer := pBuffer ps; textChunks := pChunks ps |} in
              (withProcs (withHeap w (set Nat.eqb (heap w) (owner p) st'))
                         (set Nat.eqb (procs w) pid p'), None)
          | Tick now =>
              let st' := {| def := def st; status := status st; task := task st;
                            toolCount := toolCount st; elapsed := now - startTime p;
                            lastWork := lastWork st; sessionFile := sessionFile st;
                            runCount := runCount st |} in
              (withHeap w (set Nat.eqb (heap w) (owner p) st'), None)
          | Close code now =>
              let chunks := flushBuffer (parserOf p st) in
              let full := join "" chunks in
              let st' := {| def := def st;
                            status := if isZeroCode code then done else error;
                            task := task st; toolCount := toolCount st;
                            elapsed := now - startTime p;
                            lastWork := lastNonBlankLine full;
                            sessionFile := if isZeroCode code
                                           then Some (agentSessionFile p)
                                           else sessionFile st;
                            runCount := runCount st |} in
              (withProcs (withHeap w (set Nat.eqb (heap w) (owner p) st'))
                         (delete Nat.eqb (procs w) pid),
               Some {| output := full;
                       exitCode := match code with Some z => z | None => 1%Z end;
                       resultElapsed := now - startTime p |})
          | SpawnError msg now =>
              (* the [error] handler *)
              let st1 := {| def := def st; status := error; task := task st;
                            toolCount := toolCount st; elapsed := elapsed st;
                            lastWork := "Error: " ++ msg;
                            sessionFile := sessionFile st; runCount := runCount st |} in
              (* the [close] handler, the code not being 0 *)
              let full := join "" (flushBuffer (parserOf p st1)) in
              let st2 := {| def := def st1; status := error;
                            task := task st1; toolCount := toolCount st1;
                            elapsed := now - startTime p;
                            lastWork := lastNonBlankLine full;
                            sessionFile := sessionFile st1;
                            runCount := runCount st1 |} in
              (withProcs (withHeap w (set Nat.eqb (heap w) (owner p) st2))
                         (delete Nat.eqb (procs w) pid),
               Some {| output := "Error spawning agent: " ++ msg;
                       exitCode := 1%Z;
                       resultElapsed := now - startTime p |})
          end
      end
  end.

(** What can happen to the extension between two turns of the event loop. *)
Inductive Op : Type :=
| Dispatch (agentName task : string) (ctxModel : option (string * string)) (now : nat)
| Event (pid : nat) (ev : ProcEvent)
| ActivateTeam (teamName : string)
| DispatchThrows (agentName task : string) (ctxModel : option (string * string)) (now : nat)
| TimerTick (n : nat) (now : nat).

(** An operation that replaces the roster's state objects. *)
Definition isActivation (op : Op) : bool :=
  match op with
  | ActivateTeam _ => true
  | _ => false
  end.

Definition step (w : World) (op : Op) : World :=
  match op with
  | Dispatch agentName task ctxModel now => fst (dispatchAgent w agentName task ctxModel now)
  | Event pid ev => fst (onEvent w pid ev)
  | ActivateTeam teamName => activateTeam w teamName
  | DispatchThrows agentName task ctxModel now =>
      fst (dispatchThrown w agentName task ctxModel now)
  | TimerTick n now => timerTick w n now
  end.

Definition run (w : World) (ops : list Op) : World := fold_left step ops w.

(** The children now running that were spawned for an identity. *)
Definition runningFor (w : World) (key : string) : list (nat * Proc) :=
  filter (fun kp => String.eqb (ownerKey (snd kp)) key) (procs w).

End WithHost.

End AgentTeam.

(* ===================================================================== *)
(** * extensions/agent-chain.ts: the Pipeline *)
(* ===================================================================== *)

Module AgentChain.
Import JS Regex Json.

(** [ChainStep] and [ChainDef]. *)
Record ChainStep : Type := {
  agent : string;
  prompt : string
}.

Record ChainDef : Type := {
  chainName : string;
  chainDescription : string;
  steps : list ChainStep
}.

Inductive StepStatus : Type := pending | running | done | error.

(** [StepState]. *)
Record StepState : Type := {
  stepAgent : string;
  status : StepStatus;
  elapsed : nat;
  lastWork : string
}.

(** What [runAgent] resolves with. *)
Record Result : Type := {
  output : string;
  exitCode : Z;
  resultElapsed : nat
}.

(** What [runChain] resolves with. *)
Record ChainResult : Type := {
  chainOutput : string;
  success : bool;
  chainElapsed : nat
}.

(** How a child process ends: [close] with an exit code (null after a
    signal), or [error] because it could not be started. *)
Inductive Ending : Type :=
| Exit (code : option Z)
| CannotSpawn (message : string).

(** Everything one child does, as its handlers see it: the chunks on its
    two streams, how it ends, and the time it took. *)
Record Behaviour : Type := {
  stdoutChunks : list string;
  stderrChunks : list string;
  ending : Ending;
  duration : nat
}.

(** The extension's variables, with the [spawn] calls made so far and the
    lines written to [console.error]. *)
Record State : Type := {
  allAgents : list (string * AgentLoader.AgentDef);
  agentSessions : list (string * option string);
  activeChain : option ChainDef;
  stepStates : list StepState;
  sessionDir : string;
  spawned : list SpawnCall;
  consoleErrors : list string
}.

(** [/\$INPUT/g] and [/\$ORIGINAL/g]. *)
Definition INPUT_PLACEHOLDER : pattern := {| re := lit "$INPUT"; fl := noFlags |}.
Definition ORIGINAL_PLACEHOLDER : pattern := {| re := lit "$ORIGINAL"; fl := noFlags |}.

(** [step.prompt.replace(/\$INPUT/g, input).replace(/\$ORIGINAL/g,
    originalPrompt)]. *)
Definition resolvePrompt (template input originalPrompt : string) : string :=
  replaceAll ORIGINAL_PLACEHOLDER originalPrompt
    (replaceAll INPUT_PLACEHOLDER input template).

(** [agentDef.env]: [AgentDef] has no such property and [loadAgentFile] sets
    none, so the read yields [undefined]. *)
Definition agentEnvOf (d : AgentLoader.AgentDef) : option string := None.

(** [agentDef.name.toLowerCase().replace(/\s+/g, "-")]. *)
Definition agentKeyOf (d : AgentLoader.AgentDef) : string :=
  replaceAll AgentTeam.whitespaceRun "-" (toLowerCase (AgentLoader.name d)).

(** [stepStates[i] = f(stepStates[i])]; the array is as long as the chain,
    so the index is in range. *)
Fixpoint updateStep (i : nat) (f : StepState -> StepState) (ss : list StepState)
  : list StepState :=
  match i, ss with
  | _, [] => []
  | O, s :: rest => f s :: rest
  | S i', s :: rest => s :: updateStep i' f rest
  end.

Definition setStatus (st : StepStatus) (s : StepState) : StepState :=
  {| stepAgent := stepAgent s; status := st; elapsed := elapsed s; lastWork := lastWork s |}.

Definition setLastWork (lw : string) (s : StepState) : StepState :=
  {| stepAgent := stepAgent s; status := status s; elapsed := elapsed s; lastWork := lw |}.

Definition setProgress (el : nat) (lw : string) (s : StepState) : StepState :=
  {| stepAgent := stepAgent s; status := status s; elapsed := el; lastWork := lw |}.

Definition withSteps (c : State) (ss : list StepState) : State :=
  {| allAgents := allAgents c; agentSessions := agentSessions c;
     activeChain := activeChain c; stepStates := ss; sessionDir := sessionDir c;
     spawned := spawned c; consoleErrors := consoleErrors c |}.

(** [stepStates[i].status = "running"], the first statement of the loop. *)
Definition startStep (c : State) (i : nat) : State :=
  withSteps c (updateStep i (setStatus running) (stepStates c)).

(** The reset at the start of [runChain]: every step pending. *)
Definition resetSteps (c : State) (chain : ChainDef) : State :=
  withSteps c
    (map (fun s => {| stepAgent := agent s; status := pending; elapsed := 0; lastWork := "" |})
         (steps chain)).

Section WithHost.
Context {H : Host}.

(** What the n-th child of a run does, given the call that spawned it. *)
Variable child : nat -> SpawnCall -> Behaviour.

(** The [spawn] call of [runAgent]: the environment is the one
    [buildSubprocessEnv] builds from [process.env]. *)
Definition runAgentSpawn (c : State) (agentDef : AgentLoader.AgentDef)
    (task : string) (ctxModel : option (string * string)) : SpawnCall :=
  let model := modelString ctxModel in
  let agentKey := agentKeyOf agentDef in
  let agentSessFile := pathJoin (sessionDir c) ("chain-" ++ agentKey ++ ".json") in
  let hasSession :=
    match get String.eqb (agentSessions c) agentKey with
    | Some (Some f) => truthy f
    | _ => false
    end in
  {| command := "pi";
     args := ([ "--mode"; "json"; "-p"; "--no-extensions";
                "--model"; model;
                "--tools"; AgentLoader.tools agentDef;
                "--thinking"; "off";
                "--append-system-prompt"; AgentLoader.systemPrompt agentDef;
                "--session"; agentSessFile ]
              ++ (if hasSession then ["-c"] else [])
              ++ [task])%list;
     env := SubprocessEnv.buildSubprocessEnv model (agentEnvOf agentDef) process_env |}.

(** The [stdout] handler of [runAgent], on its buffer and text chunks. *)
Definition pushIfDelta (chunks : list string) (line : string) : list string :=
  if negb (truthy (trim line)) then chunks
  else match JSON_parse line with
       | Some event =>
           match textDeltaOf event with
           | Some text => (chunks ++ [text])%list
           | None => chunks
           end
       | None => chunks
       end.

Definition onData (bc : string * list string) (chunk : string) : string * list string :=
  match unsnoc (split newline_char (fst bc ++ chunk)) with
  | Some (lines, lastPiece) => (lastPiece, fold_left pushIfDelta lines (snd bc))
  | None => ("", snd bc)
  end.

(** [runAgent(agentDef, task, stepIndex, ctx)], awaited: the state after the
    child has ended and the value the promise resolved with. *)
Definition runAgent (c : State) (agentDef : AgentLoader.AgentDef) (task : string)
    (stepIndex : nat) (ctxModel : option (string * string)) : State * Result :=
  let call := runAgentSpawn c agentDef task ctxModel in
  let b := child (List.length (spawned c)) call in
  let c1 := {| allAgents := allAgents c; agentSessions := agentSessions c;
               activeChain := activeChain c; stepStates := stepStates c;
               sessionDir := sessionDir c;
               spawned := (spawned c ++ [call])%list;
               consoleErrors := consoleErrors c |} in
  match ending b with
  | CannotSpawn msg =>
      (c1, {| output := "Error spawning agent: " ++ msg;
              exitCode := 1%Z;
              resultElapsed := duration b |})
  | Exit code =>
      let bc := fold_left onData (stdoutChunks b) ("", []) in
      let chunks := pushIfDelta (snd bc) (fst bc) in
      let out := join "" chunks in
      let agentKey := agentKeyOf agentDef in
      let sessions :=
        if AgentTeam.isZeroCode code
        then set String.eqb (agentSessions c)
               agentKey (Some (pathJoin (sessionDir c) ("chain-" ++ agentKey ++ ".json")))
        else agentSessions c in
      let errs :=
        if AgentTeam.isZeroCode code then consoleErrors c
        else match SubprocessEnv.detectCredentialFailure
                     (out ++ nl ++ join "" (stderrChunks b))
                     (AgentLoader.name agentDef) (env call) with
             | Some diagnostic => (consoleErrors c ++ [("[agent-chain] " ++ diagnostic)%string])%list
             | None => consoleErrors c
             end in
      ({| allAgents := allAgents c; agentSessions := sessions;
          activeChain := activeChain c;
          stepStates := updateStep stepIndex
                          (setProgress (duration b) (lastNonBlankLine out))
                          (stepStates c);
          sessionDir := sessionDir c;
          spawned := (spawned c ++ [call])%list;
          consoleErrors := errs |},
       {| output := out;
          exitCode := match code with Some z => z | None => 1%Z end;
          resultElapsed := duration b |})
  end.

(** The loop of [runChain] from step [i] on: [remaining] are the steps not
    yet started, [input] the previous output, [spent] the time so far. *)
Fixpoint runSteps (remaining : list ChainStep) (i : nat) (input originalPrompt : string)
    (ctxModel : option (string * string)) (spent : nat) (c : State)
  : State * ChainResult :=
  match remaining with
  | [] => (c, {| chainOutput := input; success := true; chainElapsed := spent |})
  | step :: later =>
      let c1 := startStep c i in
      let resolvedPrompt := resolvePrompt (prompt step) input originalPrompt in
      match get String.eqb (allAgents c1) (toLowerCase (agent step)) with
      | None =>
          let c2 := withSteps c1
                      (updateStep i
                         (fun s => setLastWork
                                     ("Agent " ++ dquote ++ agent step ++ dquote ++ " not found")
                                     (setStatus error s))
                         (stepStates c1)) in
          (c2, {| chainOutput := "Error at step " ++ showNat (i + 1) ++ ": Agent " ++ dquote
                                 ++ agent step ++ dquote ++ " not found. Available: "
                                 ++ join ", " (keys (allAgents c1));
                  success := false;
                  chainElapsed := spent |})
      | Some agentDef =>
          let '(c2, result) := runAgent c1 agentDef resolvedPrompt i ctxModel in
          if negb (Z.eqb (exitCode result) 0) then
            let c3 := withSteps c2 (updateStep i (setStatus error) (stepStates c2)) in
            (c3, {| chainOutput := "Error at step " ++ showNat (i + 1) ++ " (" ++ agent step
                                   ++ "): " ++ output result;
                    success := false;
                    chainElapsed := spent + resultElapsed result |})
          else
            let c3 := withSteps c2 (updateStep i (setStatus done) (stepStates c2)) in
            runSteps later (S i) (output result) originalPrompt ctxModel
                     (spent + resultElapsed result) c3
      end
  end.

(** [runChain(task, ctx)]. *)
Definition runChain (c : State) (task : string) (ctxModel : option (string * string))
  : State * ChainResult :=
  match activeChain c with
  | None => (c, {| chainOutput := "No chain active"; success := false; chainElapsed := 0 |})
  | Some chain => runSteps (steps chain) 0 task task ctxModel 0 (resetSteps c chain)
  end.

End WithHost.

End AgentChain.

(* ===================================================================== *)
(** * extensions/subagent-widget.ts: the Pool *)
(* ===================================================================== *)

Module SubagentWidget.
Import JS Regex Json.

Inductive Status : Type := running | done | error.

Definition isRunning (s : Status) : bool :=
  match s with running => true | _ => false end.

Definition statusText (s : Status) : string :=
  match s with running => "running" | done => "done" | error => "error" end.

Definition statusUpper (s : Status) : string :=
  match s with running => "RUNNING" | done => "DONE" | error => "ERROR" end.

(** [SubState]; [proc] is the handle of the active child, if any. *)
Record SubState : Type := {
  id : nat;
  status : Status;
  task : string;
  textChunks : list string;
  toolCount : nat;
  elapsed : nat;
  sessionFile : string;
  turnCount : nat;
  proc : option nat
}.

(** What the closures of one [spawnAgent] call hold: the state object they
    captured (by address), the identity it had, the prompt, the start time
    and the partial line. *)
Record Proc : Type := {
  owner : nat;
  ownerId : nat;
  procPrompt : string;
  startTime : nat;
  buffer : string
}.

(** The extension's variables.  As in the Dispatcher, state objects live in
    [heap]; [procs] are the children whose [close] or [error] is still to
    come, [killed] the handles that were sent SIGTERM, [followUps] the
    messages handed to [pi.sendMessage]. *)
Record World : Type := {
  agents : list (nat * nat);
  heap : list (nat * SubState);
  nextAddr : nat;
  nextId : nat;
  subagentsDir : string;
  procs : list (nat * Proc);
  nextPid : nat;
  spawned : list SpawnCall;
  killed : list nat;
  followUps : list string
}.

(** The variables as the extension function creates them: an empty map and
    the counter at 1. *)
Definition initial (dir : string) : World :=
  {| agents := []; heap := []; nextAddr := 0; nextId := 1; subagentsDir := dir;
     procs := []; nextPid := 0; spawned := []; killed := []; followUps := [] |}.

Definition stateAt (w : World) (addr : nat) : option SubState :=
  get Nat.eqb (heap w) addr.

(** [agents.get(id)]. *)
Definition lookupState (w : World) (n : nat) : option (nat * SubState) :=
  match get Nat.eqb (agents w) n with
  | Some addr =>
      match stateAt w addr with
      | Some st => Some (addr, st)
      | None => None
      end
  | None => None
  end.

Definition withStatus (s : SubState) (st : Status) : SubState :=
  {| id := id s; status := st; task := task s; textChunks := textChunks s;
     toolCount := toolCount s; elapsed := elapsed s; sessionFile := sessionFile s;
     turnCount := turnCount s; proc := proc s |}.

Section WithHost.
Context {H : Host}.

(** [makeSessionFile(id)] at time [now]. *)
Definition makeSessionFile (w : World) (n now : nat) : string :=
  pathJoin (subagentsDir w) ("subagent-" ++ showNat n ++ "-" ++ showNat now ++ ".jsonl").

(** [processLine(state, line)]. *)
Definition processLine (st : SubState) (line : string) : SubState :=
  if negb (truthy (trim line)) then st
  else match JSON_parse line with
       | None => st
       | Some event =>
           match textDeltaOf event with
           | Some text =>
               {| id := id st; status := status st; task := task st;
                  textChunks := (textChunks st ++ [text])%list;
                  toolCount := toolCount st; elapsed := elapsed st;
                  sessionFile := sessionFile st; turnCount := turnCount st;
                  proc := proc st |}
           | None =>
               match event with
               | JNull => st
               | _ =>
                   if isString (getProp event "type") "message_update" then st
                   else if isToolStart event then
                     {| id := id st; status := status st; task := task st;
                        textChunks := textChunks st;
                        toolCount := S (toolCount st); elapsed := elapsed st;
                        sessionFile := sessionFile st; turnCount := turnCount st;
                        proc := proc st |}
                   else st
               end
           end
       end.

(** The [spawn] call of [spawnAgent]: the environment is a copy of the whole
    of [process.env]. *)
Definition spawnCallOf (st : SubState) (promptText : string)
    (ctxModel : option (string * string)) : SpawnCall :=
  {| command := "pi";
     args := [ "--mode"; "json"; "-p";
               "--session"; sessionFile st;
               "--no-extensions";
               "--model"; modelString ctxModel;
               "--tools"; "read,bash,grep,find,ls";
               "--thinking"; "off";
               promptText ];
     env := process_env |}.

(** [spawnAgent(state, prompt, ctx)] up to the return of the promise, when
    [spawn] returns a child: the child is spawned and its handle stored in
    the state object at [addr].  [spawnThrown] below is the call when
    [spawn] throws. *)
Definition spawnAgent (w : World) (addr : nat) (st : SubState) (promptText : string)
    (ctxModel : option (string * string)) (now : nat) : World :=
  let st' := {| id := id st; status := status st; task := task st;
                textChunks := textChunks st; toolCount := toolCount st;
                elapsed := elapsed st; sessionFile := sessionFile st;
                turnCount := turnCount st; proc := Some (nextPid w) |} in
  {| agents := agents w;
     heap := set Nat.eqb (heap w) addr st';
     nextAddr := nextAddr w; nextId := nextId w; subagentsDir := subagentsDir w;
     procs := set Nat.eqb (procs w) (nextPid w)
                {| owner := addr; ownerId := id st; procPrompt := promptText;
                   startTime := now; buffer := "" |};
     nextPid := S (nextPid w);
     spawned := (spawned w ++ [spawnCallOf st promptText ctxModel])%list;
     killed := killed w; followUps := followUps w |}.

(** [spawnAgent(state, prompt, ctx)] when [spawn] throws (an argument holds
    a NUL code unit, or the arguments are too long for the system): the
    executor of the promise is left by the exception before it stores a
    handle, starts the timer or installs a handler, and the promise, which
    no caller awaits, is rejected.  The state object stays as the caller
    made it.  What the host does with a rejection that nothing handles is
    outside this model. *)
Definition spawnThrown (w : World) (st : SubState) (promptText : string)
    (ctxModel : option (string * string)) : World :=
  {| agents := agents w; heap := heap w;
     nextAddr := nextAddr w; nextId := nextId w; subagentsDir := subagentsDir w;
     procs := procs w; nextPid := nextPid w;
     spawned := (spawned w ++ [spawnCallOf st promptText ctxModel])%list;
     killed := killed w; followUps := followUps w |}.

(** The body shared by the [subagent_create] tool and the [/sub] command:
    take the next identity, make a running state, spawn. *)
Definition create (w : World) (taskText : string) (ctxModel : option (string * string))
    (now : nat) : World * nat :=
  let n := nextId w in
  let st := {| id := n; status := running; task := taskText; textChunks := [];
               toolCount := 0; elapsed := 0; sessionFile := makeSessionFile w n now;
               turnCount := 1; proc := None |} in
  let w1 := {| agents := set Nat.eqb (agents w) n (nextAddr w);
               heap := set Nat.eqb (heap w) (nextAddr w) st;
               nextAddr := S (nextAddr w);
               nextId := S (nextId w);
               subagentsDir := subagentsDir w;
               procs := procs w; nextPid := nextPid w; spawned := spawned w;
               killed := killed w; followUps := followUps w |} in
  (spawnAgent w1 (nextAddr w) st taskText ctxModel now, n).

(** The same body when [spawn] throws. *)
Definition createThrown (w : World) (taskText : string) (ctxModel : option (string * string))
    (now : nat) : World * nat :=
  let n := nextId w in
  let st := {| id := n; status := running; task := taskText; textChunks := [];
               toolCount := 0; elapsed := 0; sessionFile := makeSessionFile w n now;
               turnCount := 1; proc := None |} in
  let w1 := {| agents := set Nat.eqb (agents w) n (nextAddr w);
               heap := set Nat.eqb (heap w) (nextAddr w) st;
               nextAddr := S (nextAddr w);
               nextId := S (nextId w);
               subagentsDir := subagentsDir w;
               procs := procs w; nextPid := nextPid w; spawned := spawned w;
               killed := killed w; followUps := followUps w |} in
  (spawnThrown w1 st taskText ctxModel, n).

(** [subagent_create]. *)
Definition subagent_create (w : World) (taskText : string)
    (ctxModel : option (string * string)) (now : nat) : World * string :=
  let '(w', n) := create w taskText ctxModel now in
  (w', "Subagent #" ++ showNat n ++ " spawned and running in background.").

(** [subagent_continue]. *)
Definition subagent_continue (w : World) (n : nat) (promptText : string)
    (ctxModel : option (string * string)) (now : nat) : World * string :=
  match lookupState w n with
  | None => (w, "Error: No subagent #" ++ showNat n ++ " found.")
  | Some (addr, st) =>
      if isRunning (status st) then
        (w, "Error: Subagent #" ++ showNat n ++ " is still running.")
      else
        let st' := {| id := id st; status := running; task := promptText;
                      textChunks := []; toolCount := toolCount st; elapsed := 0;
                      sessionFile := sessionFile st; turnCount := S (turnCount st);
                      proc := proc st |} in
        (spawnAgent w addr st' promptText ctxModel now,
         "Subagent #" ++ showNat n ++ " continuing conversation in background.")
  end.

(** [subagent_continue] when [spawn] throws: the tool has marked the state
    running and answers as if the child had been started. *)
Definition continueThrown (w : World) (n : nat) (promptText : string)
    (ctxModel : option (string * string)) : World * string :=
  match lookupState w n with
  | None => (w, "Error: No subagent #" ++ showNat n ++ " found.")
  | Some (addr, st) =>
      if isRunning (status st) then
        (w, "Error: Subagent #" ++ showNat n ++ " is still running.")
      else
        let st' := {| id := id st; status := running; task := promptText;
                      textChunks := []; toolCount := toolCount st; elapsed := 0;
                      sessionFile := sessionFile st; turnCount := S (turnCount st);
                      proc := proc st |} in
        (spawnThrown
           {| agents := agents w;
              heap := set Nat.eqb (heap w) addr st';
              nextAddr := nextAddr w; nextId := nextId w; subagentsDir := subagentsDir w;
              procs := procs w; nextPid := nextPid w; spawned := spawned w;
              killed := killed w; followUps := followUps w |}
           st' promptText ctxModel,
         "Subagent #" ++ showNat n ++ " continuing conversation in background.")
  end.

(** The kill both removal paths and both clearing paths perform:
    [if (state.proc && state.status === "running") state.proc.kill("SIGTERM")]. *)
Definition killIfRunning (st : SubState) (ks : list nat) : list nat :=
  match proc st with
  | Some pid => if isRunning (status st) then (ks ++ [pid])%list else ks
  | None => ks
  end.

(** [subagent_remove]. *)
Definition subagent_remove (w : World) (n : nat) : World * string :=
  match lookupState w n with
  | None => (w, "Error: No subagent #" ++ showNat n ++ " found.")
  | Some (addr, st) =>
      ({| agents := delete Nat.eqb (agents w) n;
          heap := heap w; nextAddr := nextAddr w; nextId := nextId w;
          subagentsDir := subagentsDir w;
          procs := procs w; nextPid := nextPid w; spawned := spawned w;
          killed := killIfRunning st (killed w); followUps := followUps w |},
       "Subagent #" ++ showNat n ++ " removed successfully.")
  end.

(** [subagent_list]. *)
Definition subagent_list (w : World) : string :=
  match agents w with
  | [] => "No active subagents."
  | _ =>
      "Subagents:" ++ nl ++
      join nl
        (flat_map
           (fun kv =>
              match stateAt w (snd kv) with
              | Some s =>
                  [ "#" ++ showNat (id s) ++ " [" ++ statusUpper (status s) ++ "] (Turn "
                    ++ showNat (turnCount s) ++ ") - " ++ task s ]
              | None => []
              end)
           (agents w))
  end.

(** The loop and the two assignments shared by [/subclear] and the
    [session_start] handler: every running child is sent SIGTERM, the map is
    emptied and the counter starts again at 1. *)
Definition clearAll (w : World) : World :=
  {| agents := [];
     heap := heap w; nextAddr := nextAddr w;
     nextId := 1;
     subagentsDir := subagentsDir w;
     procs := procs w; nextPid := nextPid w; spawned := spawned w;
     killed := fold_left
                 (fun ks kv => match stateAt w (snd kv) with
                               | Some st => killIfRunning st ks
                               | None => ks
                               end)
                 (agents w) (killed w);
     followUps := followUps w |}.

(** The events of a running child, as the handlers installed by
    [spawnAgent] see them. *)
Inductive ProcEvent : Type :=
| StdoutData (chunk : string)
| StderrData (chunk : string)
| Tick (now : nat)
| Close (code : option Z) (now : nat)
| SpawnError (message : string) (now : nat).

Definition withHeapProcs (w : World) (h : list (nat * SubState))
    (ps : list (nat * Proc)) : World :=
  {| agents := agents w; heap := h; nextAddr := nextAddr w; nextId := nextId w;
     subagentsDir := subagentsDir w; procs := ps; nextPid := nextPid w;
     spawned := spawned w; killed := killed w; followUps := followUps w |}.

(** [Math.round(ms / 1000)] on a non-negative integer. *)
Definition roundSeconds (ms : nat) : nat := (ms + 500) / 1000.

(** The follow-up message of the [close] handler. *)
Definition resultMessage (st : SubState) (promptText : string) : string :=
  let result := join "" (textChunks st) in
  "Subagent #" ++ showNat (id st)
  ++ (if 1 <? turnCount st then " (Turn " ++ showNat (turnCount st) ++ ")" else "")
  ++ " finished " ++ dquote ++ promptText ++ dquote ++ " in "
  ++ showNat (roundSeconds (elapsed st)) ++ "s." ++ nl ++ nl ++ "Result:" ++ nl
  ++ take 8000 result
  ++ (if 8000 <? String.length result then nl ++ nl ++ "... [truncated]" else "").

(** The handlers.  [close] resolves the promise and ends the child's life.
    An [error] is delivered for a child that could not be started, and the
    host emits the [close] of such a child, with a negative error number as
    exit code, right after it: the [close] handler runs on what the [error]
    handler left. *)
Definition onEvent (w : World) (pid : nat) (ev : ProcEvent) : World :=
  match get Nat.eqb (procs w) pid with
  | None => w
  | Some p =>
      match stateAt w (owner p) with
      | None => w
      | Some st =>
          match ev with
          | StdoutData chunk =>
              match unsnoc (split newline_char (buffer p ++ chunk)) with
              | Some (lines, lastPiece) =>
                  withHeapProcs w
                    (set Nat.eqb (heap w) (owner p) (fold_left processLine lines st))
                    (set Nat.eqb (procs w) pid
                       {| owner := owner p; ownerId := ownerId p;
                          procPrompt := procPrompt p; startTime := startTime p;
                          buffer := lastPiece |})
              | None => w
              end
          | StderrData chunk =>
              if truthy (trim chunk) then
                withHeapProcs w
                  (set Nat.eqb (heap w) (owner p)
                     {| id := id st; status := status st; task := task st;
                        textChunks := (textChunks st ++ [chunk])%list;
                        toolCount := toolCount st; elapsed := elapsed st;
                        sessionFile := sessionFile st; turnCount := turnCount st;
                        proc := proc st |})
                  (procs w)
              else w
          | Tick now =>
              withHeapProcs w
                (set Nat.eqb (heap w) (owner p)
                   {| id := id st; status := status st; task := task st;
                      textChunks := textChunks st; toolCount := toolCount st;
                      elapsed := now - startTime p;
                      sessionFile := sessionFile st; turnCount := turnCount st;
                      proc := proc st |})
                (procs w)
          | Close code now =>
              let st1 := if truthy (trim (buffer p)) then processLine st (buffer p) else st in
              let st2 := {| id := id st1;
                            status := if AgentTeam.isZeroCode code then done else error;
                            task := task st1; textChunks := textChunks st1;
                            toolCount := toolCount st1;
                            elapsed := now - startTime p;
                            sessionFile := sessionFile st1; turnCount := turnCount st1;
                            proc := None |} in
              {| agents := agents w;
                 heap := set Nat.eqb (heap w) (owner p) st2;
                 nextAddr := nextAddr w; nextId := nextId w;
                 subagentsDir := subagentsDir w;
                 procs := delete Nat.eqb (procs w) pid;
                 nextPid := nextPid w; spawned := spawned w; killed := killed w;
                 followUps := (followUps w ++ [resultMessage st2 (procPrompt p)])%list |}
          | SpawnError msg now =>
              (* the [error] handler *)
              let st0 := {| id := id st; status := error; task := task st;
                            textChunks := (textChunks st ++ [("Error: " ++ msg)%string])%list;
                            toolCount := toolCount st; elapsed := elapsed st;
                            sessionFile := sessionFile st; turnCount := turnCount st;
                            proc := None |} in
              (* the [close] handler, the code not being 0 *)
              let st1 := if truthy (trim (buffer p)) then processLine st0 (buffer p) else st0 in
              let st2 := {| id := id st1; status := error;
                            task := task st1; textChunks := textChunks st1;
                            toolCount := toolCount st1;
                            elapsed := now - startTime p;
                            sessionFile := sessionFile st1; turnCount := turnCount st1;
                            proc := None |} in
              {| agents := agents w;
                 heap := set Nat.eqb (heap w) (owner p) st2;
                 nextAddr := nextAddr w; nextId := nextId w;
                 subagentsDir := subagentsDir w;
                 procs := delete Nat.eqb (procs w) pid;
                 nextPid := nextPid w; spawned := spawned w; killed := killed w;
                 followUps := (followUps w ++ [resultMessage st2 (procPrompt p)])%list |}
          end
      end
  end.

(** The pool operations: the four tools, the commands (after their argument
    parsing), the session start, the events of the children, and the
    operations that spawn when [spawn] throws. *)
Inductive Op : Type :=
| Create (taskText : string) (ctxModel : option (string * string)) (now : nat)
| Continue (n : nat) (promptText : string) (ctxModel : option (string * string)) (now : nat)
| Remove (n : nat)
| ListAll
| CmdSub (argsText : string) (ctxModel : option (string * string)) (now : nat)
| CmdSubcont (n : nat) (promptText : string) (ctxModel : option (string * string)) (now : nat)
| CmdSubrm (n : nat)
| CmdSubclear
| SessionStart
| Event (pid : nat) (ev : ProcEvent)
| CreateThrows (taskText : string) (ctxModel : option (string * string)) (now : nat)
| ContinueThrows (n : nat) (promptText : string) (ctxModel : option (string * string))
| CmdSubThrows (argsText : string) (ctxModel : option (string * string)) (now : nat)
| CmdSubcontThrows (n : nat) (promptText : string) (ctxModel : option (string * string)).

(** An operation that empties the pool and restarts the counter. *)
Definition isReset (op : Op) : bool :=
  match op with
  | CmdSubclear => true
  | SessionStart => true
  | _ => false
  end.

(** One operation: the next state and, for an operation that creates a
    worker, the identity it gave out. *)
Definition step (w : World) (op : Op) : World * option nat :=
  match op with
  | Create taskText ctxModel now =>
      let '(w', n) := create w taskText ctxModel now in (w', Some n)
  | Continue n promptText ctxModel now =>
      (fst (subagent_continue w n promptText ctxModel now), None)
  | Remove n => (fst (subagent_remove w n), None)
  | ListAll => (w, None)
  | CmdSub argsText ctxModel now =>
      let taskText := trim argsText in
      if negb (truthy taskText) then (w, None)
      else let '(w', n) := create w taskText ctxModel now in (w', Some n)
  | CmdSubcont n promptText ctxModel now =>
      (fst (subagent_continue w n promptText ctxModel now), None)
  | CmdSubrm n => (fst (subagent_remove w n), None)
  | CmdSubclear => (clearAll w, None)
  | SessionStart => (clearAll w, None)
  | Event pid ev => (onEvent w pid ev, None)
  | CreateThrows taskText ctxModel now =>
      let '(w', n) := createThrown w taskText ctxModel now in (w', Some n)
  | ContinueThrows n promptText ctxModel =>
      (fst (continueThrown w n promptText ctxModel), None)
  | CmdSubThrows argsText ctxModel now =>
      let taskText := trim argsText in
      if negb (truthy taskText) then (w, None)
      else let '(w', n) := createThrown w taskText ctxModel now in (w', Some n)
  | CmdSubcontThrows n promptText ctxModel =>
      (fst (continueThrown w n promptText ctxModel), None)
  end.

(** A run of operations, with the identities given out in order. *)
Fixpoint run (w : World) (ops : list Op) : World * list nat :=
  match ops with
  | [] => (w, [])
  | op :: rest =>
      let '(w1, created) := step w op in
      let '(w2, ids) := run w1 rest in
      (w2, (match created with Some n => [n] | None => [] end ++ ids)%list)
  end.

(** The children now running that were spawned for an identity. *)
Definition runningFor (w : World) (n : nat) : list (nat * Proc) :=
  filter (fun kp => Nat.eqb (ownerId (snd kp)) n) (procs w).

(** Whether a handle was sent SIGTERM. *)
Definition wasKilled (w : World) (pid : nat) : bool := existsb (Nat.eqb pid) (killed w).

(** The children now running for an identity that were not sent SIGTERM. *)
Definition activeFor (w : World) (n : nat) : list (nat * Proc) :=
  filter (fun kp => Nat.eqb (ownerId (snd kp)) n && negb (wasKilled w (fst kp))) (procs w).

End WithHost.

End SubagentWidget.

(* ===================================================================== *)
(** * The specification's own notions *)
(* ===================================================================== *)

(** Definitions that follow the words of the specification rather than the
    code; the theorems below compare the code with them. *)
Module Spec.
Import JS Regex Json.

(** "Present in the source environment" as the builder tests it: the
    source yields a truthy value under the name, that is, it sets the name
    to a string that is not empty, or it does not set it and the name is
    that of a member of [Object.prototype]. *)
Definition presentValue (parentEnv : record) (k : string) : option jsval :=
  match oget parentEnv k with
  | Some (Str s) => if truthy s then Some (Str s) else None
  | Some (Builtin member) => Some (Builtin member)
  | None => if inList k OBJECT_PROTOTYPE then Some (Builtin k) else None
  end.

(** The provider of a model: the lowercased text before the first slash. *)
Definition providerOf (model : string) : option string :=
  match indexOf "/" model with
  | Some slash => Some (toLowerCase (take slash model))
  | None => None
  end.

(** The static table as the code reads it: the four providers, and the two
    lowercase names that the table inherits, for which the variable is the
    text of the inherited member. *)
Definition tableEntry (provider : string) : option string :=
  if String.eqb provider "anthropic" then Some "ANTHROPIC_API_KEY"
  else if String.eqb provider "openai" then Some "OPENAI_API_KEY"
  else if String.eqb provider "google" then Some "GEMINI_API_KEY"
  else if String.eqb provider "openrouter" then Some "OPENROUTER_API_KEY"
  else if String.eqb provider "constructor" then Some "function Object() { [native code] }"
  else if String.eqb provider "__proto__" then Some "[object Object]"
  else None.

(** The credential variable of a model: the table entry of its provider. *)
Definition credentialOf (model : string) : option string :=
  match providerOf model with
  | Some provider => tableEntry provider
  | None => None
  end.

Definition isCredentialOf (model k : string) : bool :=
  match credentialOf model with
  | Some keyName => String.eqb keyName k
  | None => false
  end.

(** The variables a build selects: the system essentials, the credential of
    the model's provider, and the declared extras. *)
Definition selected (model : string) (agentEnv : option string) (k : string) : bool :=
  inList k SubprocessEnv.SYSTEM_VARS
  || isCredentialOf model k
  || inList k (SubprocessEnv.parseAgentEnvField agentEnv).

(** The listing of a credential diagnostic: the variables in backticks,
    separated by commas, or a fixed phrase when there is none. *)
Definition listing (passedKeys : list string) : string :=
  if 0 <? List.length passedKeys
  then join ", " (map SubprocessEnv.backticked passedKeys)
  else "no API keys".

(** The prompt the specification describes: in the template, the previous
    output for every [$INPUT] and the task for every [$ORIGINAL], neither
    text being read again. *)
Fixpoint promptOf (fuel : nat) (template input original : string) : string :=
  match fuel with
  | O => template
  | S fuel' =>
      match template with
      | EmptyString => EmptyString
      | String c t =>
          match stripPrefix "$INPUT" template with
          | Some after => input ++ promptOf fuel' after input original
          | None =>
              match stripPrefix "$ORIGINAL" template with
              | Some after => original ++ promptOf fuel' after input original
              | None => String c (promptOf fuel' t input original)
              end
          end
      end
  end.

Definition expectedPrompt (template input original : string) : string :=
  promptOf (S (String.length template)) template input original.

Section WithHost.
Context {H : Host}.




End WithHost.

End Spec.

(* ===================================================================== *)
(** * Concrete inputs for the examples *)
(* ===================================================================== *)

Module Fixture.
Import JS Regex Json.

(** [path.basename(p, ext)] of Node for POSIX paths, as its documentation
    describes it: the last segment of the path, trailing separators ignored,
    without the extension when the segment ends with it and is longer. *)
Definition lastSegment (p : string) : string :=
  match unsnoc (filter truthy (split "/" p)) with
  | Some (_, seg) => seg
  | None => ""
  end.

Definition posixBasename (p ext : string) : string :=
  let base := lastSegment p in
  let n := String.length base - String.length ext in
  if truthy ext && (String.length ext <? String.length base)
     && String.eqb (drop n base) ext
  then take n base
  else base.

(** A stand-in for [JSON.parse] on a shorthand for the worker's events:
    [D:text] is a message update carrying the text delta [text], [T] a tool
    start; everything else is malformed. *)
Definition shorthandParse (line : string) : option (json nat) :=
  match stripPrefix "D:" line with
  | Some text =>
      Some (JObj [ ("type", JStr "message_update");
                   ("assistantMessageEvent",
                    JObj [("type", JStr "text_delta"); ("delta", JStr text)]) ])
  | None =>
      if String.eqb line "T" then Some (JObj [("type", JStr "tool_execution_start")])
      else None
  end.

(** A parent environment that holds two providers' keys. *)
Definition twoKeys : record :=
  [ ("PATH", Str "/usr/bin"); ("HOME", Str "/home/op");
    ("ANTHROPIC_API_KEY", Str "sk-ant"); ("OPENAI_API_KEY", Str "sk-oa") ].

Definition host : Host :=
  {| num := nat;
     numFalsy := Nat.eqb 0;
     numText := showNat;
     JSON_parse := shorthandParse;
     pathJoin := fun a b => a ++ "/" ++ b;
     existsSync := fun _ => false;
     process_env := twoKeys |}.

Definition anthropic : option (string * string) := Some ("anthropic", "x").

Definition scout : AgentLoader.AgentDef :=
  {| AgentLoader.name := "scout";
     AgentLoader.description := "Fast recon";
     AgentLoader.tools := "read,grep,find,ls";
     AgentLoader.systemPrompt := "You are a scout agent.";
     AgentLoader.file := "/repo/.pi/agents/scout.md" |}.

Definition builder : AgentLoader.AgentDef :=
  {| AgentLoader.name := "builder";
     AgentLoader.description := "Implements";
     AgentLoader.tools := "read,write,edit,bash";
     AgentLoader.systemPrompt := "You are a builder agent.";
     AgentLoader.file := "/repo/.pi/agents/builder.md" |}.

(** A Dispatcher with one team of one worker, before any activation. *)
Definition team0 : AgentTeam.World :=
  {| AgentTeam.agentStates := [];
     AgentTeam.heap := [];
     AgentTeam.nextAddr := 0;
     AgentTeam.allAgentDefs := [scout];
     AgentTeam.teams := [("all", ["scout"])];
     AgentTeam.activeTeamName := "";
     AgentTeam.sessionDir := "/repo/.pi/agent-sessions";
     AgentTeam.procs := [];
     AgentTeam.nextPid := 0;
     AgentTeam.spawned := [];
     AgentTeam.timers := [] |}.

(** The Pool as the extension creates it. *)
Definition pool0 : SubagentWidget.World :=
  {| SubagentWidget.agents := [];
     SubagentWidget.heap := [];
     SubagentWidget.nextAddr := 0;
     SubagentWidget.nextId := 1;
     SubagentWidget.subagentsDir := "/home/op/.pi/agent/sessions/subagents";
     SubagentWidget.procs := [];
     SubagentWidget.nextPid := 0;
     SubagentWidget.spawned := [];
     SubagentWidget.killed := [];
     SubagentWidget.followUps := [] |}.

(** A three-step chain over two known workers. *)
Definition chain3 : AgentChain.ChainDef :=
  {| AgentChain.chainName := "plan-build-review";
     AgentChain.chainDescription := "";
     AgentChain.steps :=
       [ {| AgentChain.agent := "scout"; AgentChain.prompt := "Explore: $INPUT" |};
         {| AgentChain.agent := "builder"; AgentChain.prompt := "Build: $INPUT" |};
         {| AgentChain.agent := "scout"; AgentChain.prompt := "Review $INPUT for $ORIGINAL" |} ] |}.

Definition chainState : AgentChain.State :=
  {| AgentChain.allAgents := [("scout", scout); ("builder", builder)];
     AgentChain.agentSessions := [("scout", None); ("builder", None)];
     AgentChain.activeChain := Some chain3;
     AgentChain.stepStates := [];
     AgentChain.sessionDir := "/repo/.pi/agent-sessions";
     AgentChain.spawned := [];
     AgentChain.consoleErrors := [] |}.

(** Children for the chain: the first prints one delta and exits 0, every
    later one prints a delta and exits 2. *)
Definition secondFails (n : nat) (call : SpawnCall) : AgentChain.Behaviour :=
  match n with
  | O => {| AgentChain.stdoutChunks := ["D:fou"; "nd" ++ nl];
            AgentChain.stderrChunks := [];
            AgentChain.ending := AgentChain.Exit (Some 0%Z);
            AgentChain.duration := 1200 |}
  | S _ => {| AgentChain.stdoutChunks := ["D:boom" ++ nl];
              AgentChain.stderrChunks := ["HTTP 401"];
              AgentChain.ending := AgentChain.Exit (Some 2%Z);
              AgentChain.duration := 300 |}
  end.

(** Persona files. *)
Definition fence : string := "---" ++ nl.

Definition files (path : string) : string + string :=
  if String.eqb path "/agents/scout.md" then
    inl (fence ++ "name: scout" ++ nl ++ "tools: read,grep,find,ls" ++ nl ++ fence
         ++ "Run this: `rm -rf /`")
  else if String.eqb path "/agents/minimal.md" then
    inl (fence ++ "description: only a description" ++ nl ++ fence)
  else if String.eqb path "/agents/my agent.md" then
    inl (fence ++ "description: only a description" ++ nl ++ fence)
  else if String.eqb path "/agents/doubled.md" then
    inl (fence ++ "name: doubled" ++ nl ++ fence ++ "Run ``rm -rf /`` now")
  else if String.eqb path "/agents/tools.md" then
    inl (fence ++ "name: tools" ++ nl ++ "tools: read, teleport" ++ nl ++ fence ++ "Look around.")
  else inr "ENOENT: no such file or directory".

End Fixture.

(* ===================================================================== *)
(** * Invariants *)
(* ===================================================================== *)

(** The invariants the proofs below carry through the runs of the parser,
    the Dispatcher and the Pool. *)
Module Invariants.
Import JS Regex Json.


(** Dispatcher.  The handles of the running children are distinct and below
    the next handle; the state object a running child captured is marked
    running; no two running children captured the same object; and the
    object a child captured is the one now under its identity. *)
Record TeamInv (w : AgentTeam.World) : Prop := {
  team_nodup : NoDup (keys (AgentTeam.procs w));
  team_fresh : forall pid p,
      get Nat.eqb (AgentTeam.procs w) pid = Some p -> pid < AgentTeam.nextPid w;
  team_running : forall pid p,
      get Nat.eqb (AgentTeam.procs w) pid = Some p ->
      exists st, AgentTeam.stateAt w (AgentTeam.owner p) = Some st
                 /\ AgentTeam.status st = AgentTeam.running;
  team_unique : forall pid p pid' p',
      get Nat.eqb (AgentTeam.procs w) pid = Some p ->
      get Nat.eqb (AgentTeam.procs w) pid' = Some p' ->
      AgentTeam.owner p = AgentTeam.owner p' -> pid = pid';
  team_current : forall pid p,
      get Nat.eqb (AgentTeam.procs w) pid = Some p ->
      get String.eqb (AgentTeam.agentStates w) (AgentTeam.ownerKey p)
      = Some (AgentTeam.owner p)
}.

(** Pool.  As for the Dispatcher, with the identity of a state object in
    place of its key: identities and addresses in the heap are below the
    next ones, and no two state objects share an identity. *)
Record PoolInv (w : SubagentWidget.World) : Prop := {
  pool_nodup : NoDup (keys (SubagentWidget.procs w));
  pool_fresh : forall pid p,
      get Nat.eqb (SubagentWidget.procs w) pid = Some p -> pid < SubagentWidget.nextPid w;
  pool_running : forall pid p,
      get Nat.eqb (SubagentWidget.procs w) pid = Some p ->
      exists st, SubagentWidget.stateAt w (SubagentWidget.owner p) = Some st
                 /\ SubagentWidget.status st = SubagentWidget.running
                 /\ SubagentWidget.id st = SubagentWidget.ownerId p;
  pool_unique : forall pid p pid' p',
      get Nat.eqb (SubagentWidget.procs w) pid = Some p ->
      get Nat.eqb (SubagentWidget.procs w) pid' = Some p' ->
      SubagentWidget.owner p = SubagentWidget.owner p' -> pid = pid';
  pool_bounds : forall a st,
      SubagentWidget.stateAt w a = Some st ->
      a < SubagentWidget.nextAddr w /\ SubagentWidget.id st < SubagentWidget.nextId w;
  pool_ids : forall a b sa sb,
      SubagentWidget.stateAt w a = Some sa ->
      SubagentWidget.stateAt w b = Some sb ->
      SubagentWidget.id sa = SubagentWidget.id sb -> a = b
}.

(** Pool, across clears.  A child that was not sent SIGTERM captured the
    state object now under its identity, that object is marked running and
    holds the child's handle; the object a signalled child captured is under
    no identity any more; the handle an object holds leads back to it;
    identities in the map, addresses and handles are below the next ones. *)
Record PoolLive (w : SubagentWidget.World) : Prop := {
  live_procs_nodup : NoDup (keys (SubagentWidget.procs w));
  live_agents_nodup : NoDup (keys (SubagentWidget.agents w));
  live_proc_bound : forall pid p,
      get Nat.eqb (SubagentWidget.procs w) pid = Some p ->
      pid < SubagentWidget.nextPid w
      /\ SubagentWidget.owner p < SubagentWidget.nextAddr w;
  live_killed_bound : forall pid,
      In pid (SubagentWidget.killed w) -> pid < SubagentWidget.nextPid w;
  live_heap_bound : forall a st,
      SubagentWidget.stateAt w a = Some st ->
      a < SubagentWidget.nextAddr w
      /\ forall pid, SubagentWidget.proc st = Some pid -> pid < SubagentWidget.nextPid w;
  live_handle : forall a st pid p,
      SubagentWidget.stateAt w a = Some st ->
      SubagentWidget.proc st = Some pid ->
      get Nat.eqb (SubagentWidget.procs w) pid = Some p ->
      SubagentWidget.owner p = a;
  live_agents : forall n a,
      get Nat.eqb (SubagentWidget.agents w) n = Some a ->
      n < SubagentWidget.nextId w
      /\ exists st, SubagentWidget.stateAt w a = Some st /\ SubagentWidget.id st = n;
  live_current : forall pid p,
      get Nat.eqb (SubagentWidget.procs w) pid = Some p ->
      ~ In pid (SubagentWidget.killed w) ->
      get Nat.eqb (SubagentWidget.agents w) (SubagentWidget.ownerId p)
      = Some (SubagentWidget.owner p)
      /\ exists st, SubagentWidget.stateAt w (SubagentWidget.owner p) = Some st
                    /\ SubagentWidget.status st = SubagentWidget.running
                    /\ SubagentWidget.proc st = Some pid;
  live_orphan : forall pid p n,
      get Nat.eqb (SubagentWidget.procs w) pid = Some p ->
      In pid (SubagentWidget.killed w) ->
      get Nat.eqb (SubagentWidget.agents w) n <> Some (SubagentWidget.owner p)
}.

End Invariants.

(* ===================================================================== *)
(** * Further definitions: notions and functions beside the claims *)
(* ===================================================================== *)

Module Notions.
Import JS Regex.

(** The code units of a string. *)
Definition chars (s : string) : list ascii := list_ascii_of_string s.

(** [/c+/] for a class [c] given by its membership test. *)
Definition plusClass (mem : ascii -> bool) : pattern :=
  {| re := Seq (Class false mem) (Star true (Class false mem)); fl := noFlags |}.

(** A string without a member of a class. *)
Definition free (mem : ascii -> bool) (s : string) : Prop :=
  forall c, In c (chars s) -> mem c = false.

(** The members of the separator class of [parseAgentEnvField]. *)
Definition isSep (c : ascii) : bool := Ascii.eqb c "," || isWhiteSpace c.

(** The class after the first code unit of [VALID_NAME_PATTERN]. *)
Definition nameChar (c : ascii) : bool :=
  AgentLoader.isAlnum c || oneOf "._-" c.

(** The own properties of the object that results from assigning the
    entries, in order, to an empty object. *)
Definition assigned {V : Type} (entries : list (string * V)) : list (string * V) :=
  fold_left (fun o kv => oset o (fst kv) (snd kv)) entries [].

(** A key that is no array index. *)
Definition plainKey (k : string) : bool :=
  match arrayIndex k with None => true | Some _ => false end.

End Notions.

Module ScanDefs.
Import JS Regex AgentLoader.

Section Host.
Variable readFileSync : string -> string + string.
Variable basename : string -> string -> string.
Variable resolve : string -> string -> string.

(** The definition of the first file of a listing that ends in [.md], loads
    without an error finding and has the given lowercased name. *)
Fixpoint firstAgent (dir key : string) (files : list string) : option AgentDef :=
  match files with
  | [] => None
  | f :: later =>
      if endsWithMd f then
        match agent (loadAgentFile readFileSync basename (resolve dir f)) with
        | Some a =>
            if String.eqb (toLowerCase (name a)) key then Some a
            else firstAgent dir key later
        | None => firstAgent dir key later
        end
      else firstAgent dir key later
  end.

End Host.
End ScanDefs.

Module RosterDefs.
Import JS Regex Json AgentTeam.

(** A state object as [activateTeam] creates it for a key. *)
Definition freshFor (defs : list AgentLoader.AgentDef) (key : string) (st : AgentState)
  : Prop :=
  status st = idle /\ task st = "" /\ toolCount st = 0 /\ elapsed st = 0
  /\ lastWork st = "" /\ runCount st = 0
  /\ toLowerCase (AgentLoader.name (def st)) = key
  /\ In (def st) defs.

(** A child event that is neither [close] nor [error]. *)
Definition isProgress (ev : ProcEvent) : bool :=
  match ev with
  | StdoutData _ => true
  | Tick _ => true
  | _ => false
  end.

(** The state object at an address is the object of a dispatch whose
    [spawn] threw: its timer is one of those that are never cleared. *)
Definition stuck (w : World) (addr : nat) : Prop := In addr (map fst (timers w)).

(** The addresses and the handles in use are below the next ones, and the
    handles are distinct; every child holds a state object that is marked
    running, and no two hold the same; every state object marked running is
    held by a child or is stuck; and a stuck state object is marked running
    and held by no child. *)
Record Attended (w : World) : Prop := {
  att_bound : forall addr st, stateAt w addr = Some st -> addr < nextAddr w;
  att_fresh : forall pid p, get Nat.eqb (procs w) pid = Some p -> pid < nextPid w;
  att_nodup : NoDup (keys (procs w));
  att_held : forall pid p,
      get Nat.eqb (procs w) pid = Some p ->
      exists st, stateAt w (owner p) = Some st /\ status st = running;
  att_unique : forall pid p pid' p',
      get Nat.eqb (procs w) pid = Some p ->
      get Nat.eqb (procs w) pid' = Some p' ->
      owner p = owner p' -> pid = pid';
  att_running : forall addr st,
      stateAt w addr = Some st -> status st = running ->
      (exists pid p, get Nat.eqb (procs w) pid = Some p /\ owner p = addr)
      \/ stuck w addr;
  att_stuck : forall addr,
      stuck w addr ->
      (exists st, stateAt w addr = Some st /\ status st = running)
      /\ forall pid p, get Nat.eqb (procs w) pid = Some p -> owner p <> addr
}.

(** What the loop of [activateTeam] keeps. *)
Definition rosterFresh (w0 w : World) : Prop :=
  procs w = procs w0 /\ spawned w = spawned w0 /\ nextPid w = nextPid w0
  /\ nextAddr w0 <= nextAddr w
  /\ forall key addr,
       get String.eqb (agentStates w) key = Some addr ->
       addr < nextAddr w
       /\ exists st, stateAt w addr = Some st /\ freshFor (allAgentDefs w0) key st.

End RosterDefs.

Module ResumeDefs.
Import JS Regex Json.

(** The argument list of a worker of the Dispatcher or of the Pipeline:
    the flags, the session file, [-c] when the conversation is resumed, and
    the task. *)
Definition workerArgs (d : AgentLoader.AgentDef) (model file : string) (resume : bool)
    (task : string) : list string :=
  ([ "--mode"; "json"; "-p"; "--no-extensions";
     "--model"; model;
     "--tools"; AgentLoader.tools d;
     "--thinking"; "off";
     "--append-system-prompt"; AgentLoader.systemPrompt d;
     "--session"; file ]
   ++ (if resume then ["-c"] else [])
   ++ [task])%list.

Definition isSome {A : Type} (o : option A) : bool :=
  match o with Some _ => true | None => false end.

End ResumeDefs.

Module TeamResumeDefs.
Import JS Regex Json AgentTeam.

(** What a child's progress events keep of the world. *)
Definition sameRun (pid addr : nat) (file : string) (st : AgentState) (w0 w : World)
  : Prop :=
  agentStates w = agentStates w0 /\ sessionDir w = sessionDir w0
  /\ spawned w = spawned w0
  /\ (exists p, get Nat.eqb (procs w) pid = Some p
                /\ owner p = addr /\ agentSessionFile p = file)
  /\ (exists st', stateAt w addr = Some st'
                  /\ def st' = def st /\ sessionFile st' = sessionFile st).

End TeamResumeDefs.

Module ChainDefs.
Import JS Regex Json AgentChain.

Section WithHost.
Context {H : Host}.


(** [agentSessions.get(agentKey)] read as a condition. *)
Definition hasSession (c : State) (d : AgentLoader.AgentDef) : bool :=
  match get String.eqb (agentSessions c) (agentKeyOf d) with
  | Some (Some f) => truthy f
  | _ => false
  end.

End WithHost.
End ChainDefs.

Module PoolDefs.
Import JS Regex Json SubagentWidget.

(** The argument list of a worker of the Pool. *)
Definition poolArgs (file model promptText : string) : list string :=
  [ "--mode"; "json"; "-p";
    "--session"; file;
    "--no-extensions";
    "--model"; model;
    "--tools"; "read,bash,grep,find,ls";
    "--thinking"; "off";
    promptText ].

(** A child event that is neither [close] nor [error]. *)
Definition isProgress (ev : ProcEvent) : bool :=
  match ev with
  | StdoutData _ => true
  | StderrData _ => true
  | Tick _ => true
  | _ => false
  end.

(** What a child's progress events keep of the world: the map, the [spawn]
    calls, the child's closure and, of the state object it captured, the
    identity, the session file, the turn counter and the status. *)
Definition sameTurn (pid addr : nat) (st : SubState) (w0 w : World) : Prop :=
  agents w = agents w0 /\ spawned w = spawned w0
  /\ (exists p, get Nat.eqb (procs w) pid = Some p /\ owner p = addr)
  /\ (exists st', stateAt w addr = Some st'
                  /\ id st' = id st /\ sessionFile st' = sessionFile st
                  /\ turnCount st' = turnCount st).

End PoolDefs.

Module PromptDefs.
Import JS Regex.

(** A prompt template read as its parts: plain text and the two
    placeholders. *)
Inductive piece : Type :=
| Text (s : string)
| Input
| Original.

(** A string without a dollar sign. *)
Fixpoint dollarFree (s : string) : bool :=
  match s with
  | EmptyString => true
  | String c t => negb (Ascii.eqb c "$") && dollarFree t
  end.

Definition plain (p : piece) : bool :=
  match p with
  | Text s => dollarFree s
  | _ => true
  end.

(** The template the parts spell, and the parts with the two texts in the
    place of the placeholders. *)
Fixpoint templateOf (ps : list piece) : string :=
  match ps with
  | [] => EmptyString
  | Text s :: later => s ++ templateOf later
  | Input :: later => "$INPUT" ++ templateOf later
  | Original :: later => "$ORIGINAL" ++ templateOf later
  end.

Fixpoint filled (input original : string) (ps : list piece) : string :=
  match ps with
  | [] => EmptyString
  | Text s :: later => s ++ filled input original later
  | Input :: later => input ++ filled input original later
  | Original :: later => original ++ filled input original later
  end.

(** The parts after the first [replace] and after the second. *)
Definition fillInput (input : string) (p : piece) : piece :=
  match p with Input => Text input | other => other end.

Definition fillOriginal (original : string) (p : piece) : piece :=
  match p with Original => Text original | other => other end.

End PromptDefs.

Module SessionReplay.
Import JS.

Local Open Scope Z_scope.

(** What [matchesKey] tells [handleInput] about the data it received. *)
Inductive Key : Type := Up | Down | Enter | Escape | OtherKey.

(** What happens to the component: a key, or a rendering at a height. *)
Inductive Event : Type :=
| KeyPress (key : Key)
| Render (height : Z).

(** A rendering at a height of at least one entry. *)
Definition tallEnough (ev : Event) : bool :=
  match ev with
  | KeyPress _ => true
  | Render height => 3 <=? height
  end.

Section Items.
(** [HistoryItem]; the class reads no field of it outside the texts it
    draws. *)
Variable Item : Type.

(** [SessionReplayUI]: its fields, with the calls made to [onDone] and to
    [tui.requestRender]. *)
Record UI : Type := {
  items : list Item;
  selectedIndex : Z;
  expandedIndex : option Z;
  scrollOffset : Z;
  doneCalls : nat;
  renderRequests : nat
}.

Definition itemCount (ui : UI) : Z := Z.of_nat (List.length (items ui)).

(** [ensureVisible(height)]. *)
Definition ensureVisible (ui : UI) (height : Z) : UI :=
  let pageSize := height / 3 in
  if selectedIndex ui <? scrollOffset ui then
    {| items := items ui; selectedIndex := selectedIndex ui;
       expandedIndex := expandedIndex ui; scrollOffset := selectedIndex ui;
       doneCalls := doneCalls ui; renderRequests := renderRequests ui |}
  else if scrollOffset ui + pageSize <=? selectedIndex ui then
    {| items := items ui; selectedIndex := selectedIndex ui;
       expandedIndex := expandedIndex ui;
       scrollOffset := selectedIndex ui - pageSize + 1;
       doneCalls := doneCalls ui; renderRequests := renderRequests ui |}
  else ui.

(** The constructor: the last entry is selected. *)
Definition create (its : list Item) : UI :=
  ensureVisible
    {| items := its;
       selectedIndex := Z.max 0 (Z.of_nat (List.length its) - 1);
       expandedIndex := None; scrollOffset := 0;
       doneCalls := 0; renderRequests := 0 |}
    20.

Definition withSelection (ui : UI) (sel : Z) (expanded : option Z) : UI :=
  {| items := items ui; selectedIndex := sel; expandedIndex := expanded;
     scrollOffset := scrollOffset ui;
     doneCalls := doneCalls ui; renderRequests := S (renderRequests ui) |}.

(** [handleInput(data, tui)]. *)
Definition handleInput (ui : UI) (key : Key) : UI :=
  match key with
  | Up => withSelection ui (Z.max 0 (selectedIndex ui - 1)) (expandedIndex ui)
  | Down => withSelection ui (Z.min (itemCount ui - 1) (selectedIndex ui + 1))
                         (expandedIndex ui)
  | Enter =>
      withSelection ui (selectedIndex ui)
        (match expandedIndex ui with
         | Some e => if e =? selectedIndex ui then None else Some (selectedIndex ui)
         | None => Some (selectedIndex ui)
         end)
  | Escape =>
      {| items := items ui; selectedIndex := selectedIndex ui;
         expandedIndex := expandedIndex ui; scrollOffset := scrollOffset ui;
         doneCalls := S (doneCalls ui); renderRequests := renderRequests ui |}
  | OtherKey => withSelection ui (selectedIndex ui) (expandedIndex ui)
  end.

(** The index [items.slice(start)] begins at. *)
Definition sliceStart (len start : Z) : Z :=
  if start <? 0 then Z.max (len + start) 0 else Z.min start len.

(** One card of a rendering: the entry, its index in the history and
    whether it is drawn as selected and as expanded. *)
Record Card : Type := {
  absoluteIndex : Z;
  cardItem : Item;
  isSelected : bool;
  isExpanded : bool
}.

(** The [forEach] over the visible entries, [idx] counting from 0. *)
Fixpoint cardsFrom (ui : UI) (idx : nat) (visible : list Item) : list Card :=
  match visible with
  | [] => []
  | it :: later =>
      let absolute := Z.of_nat idx + scrollOffset ui in
      {| absoluteIndex := absolute; cardItem := it;
         isSelected := absolute =? selectedIndex ui;
         isExpanded := match expandedIndex ui with
                       | Some e => absolute =? e
                       | None => false
                       end |}
      :: cardsFrom ui (S idx) later
  end.

(** [render(width, height, theme)]: the scroll window is adjusted, then one
    card is drawn for every entry from the scroll offset on. *)
Definition render (ui : UI) (height : Z) : UI * list Card :=
  let ui' := ensureVisible ui height in
  (ui', cardsFrom ui' 0
          (skipn (Z.to_nat (sliceStart (itemCount ui') (scrollOffset ui'))) (items ui'))).

Definition step (ui : UI) (ev : Event) : UI :=
  match ev with
  | KeyPress key => handleInput ui key
  | Render height => fst (render ui height)
  end.

End Items.

Arguments items {Item} _.
Arguments selectedIndex {Item} _.
Arguments expandedIndex {Item} _.
Arguments scrollOffset {Item} _.
Arguments doneCalls {Item} _.
Arguments renderRequests {Item} _.
Arguments itemCount {Item} ui.
Arguments ensureVisible {Item} ui height.
Arguments create {Item} its.
Arguments handleInput {Item} ui key.
Arguments absoluteIndex {Item} _.
Arguments cardItem {Item} _.
Arguments isSelected {Item} _.
Arguments isExpanded {Item} _.
Arguments cardsFrom {Item} ui idx visible.
Arguments render {Item} ui height.
Arguments step {Item} ui ev.

End SessionReplay.

Module FrontmatterDefs.
Import JS Regex AgentLoader.

(** A string without a given code unit. *)
Definition noChar (c : ascii) (s : string) : bool :=
  match indexOf c s with None => true | Some _ => false end.

(** A frontmatter key as an agent file is written with: not empty, without
    colon or newline, without whitespace at its ends, not starting with a
    dash, and not the key that plain objects do not store. *)
Definition keyOk (k : string) : bool :=
  match k with
  | EmptyString => false
  | String c _ =>
      negb (isWhiteSpace c) && negb (Ascii.eqb c "-")
      && String.eqb (trim k) k
      && noChar ":" k && noChar newline_char k
      && negb (String.eqb k "__proto__")
  end.

(** A frontmatter value: without newline and without whitespace at its
    ends. *)
Definition valueOk (v : string) : bool :=
  String.eqb (trim v) v && noChar newline_char v.

Definition fieldOk (kv : string * string) : bool :=
  keyOk (fst kv) && valueOk (snd kv).

(** A body that does not start with whitespace. *)
Definition bodyOk (body : string) : bool :=
  match body with
  | EmptyString => true
  | String c _ => negb (isWhiteSpace c)
  end.

(** The line of one field and the text of an agent file: the fields
    between two lines of three dashes, then the body. *)
Definition fieldLine (kv : string * string) : string :=
  fst kv ++ ": " ++ snd kv.

Definition frontmatterOf (fs : obj) (body : string) : string :=
  "---" ++ nl ++ join nl (map fieldLine fs) ++ nl ++ "---" ++ nl ++ body.

(** A header in which no line after the first starts with a dash. *)
Fixpoint plainHeader (h : string) : bool :=
  match h with
  | EmptyString => true
  | String c t =>
      (negb (Ascii.eqb c newline_char)
       || match t with
          | String d _ => negb (Ascii.eqb d "-")
          | EmptyString => true
          end)
      && plainHeader t
  end.

(** The pattern after the header: the closing line of dashes and the
    body. *)
Definition closing : regex :=
  seqs [ Char newline_char; lit "---"; Star true space; Char newline_char;
         Group 2 (Star true anyChar); Eol ].

End FrontmatterDefs.

Module ChainYaml.
Import JS Regex AgentChain.

(** The pattern of a chain's first line: at the start a code unit that is
    no whitespace, then any code units but colons, as group 1, then a colon
    at the end of the line.  With the star spelled as a counted
    repetition: ^(\S[^:]{0,}):$ *)
Definition CHAIN_HEADER : regex :=
  seqs [ Bol;
         Group 1 (Seq (Class true isWhiteSpace)
                      (Star true (Class true (fun c => Ascii.eqb c ":"))));
         Char ":"; Eol ].

(** [\s+] and [(.+)]. *)
Definition spaces : regex := Seq space (Star true space).
Definition content (n : nat) : regex := Group n (Seq Dot (Star true Dot)).

(** [/^\s+description:\s+(.+)$/]. *)
Definition DESCRIPTION_LINE : regex :=
  seqs [Bol; spaces; lit "description:"; spaces; content 1; Eol].

(** [/^\s+steps:\s*$/]. *)
Definition STEPS_LINE : regex :=
  seqs [Bol; spaces; lit "steps:"; Star true space; Eol].

(** [/^\s+-\s+agent:\s+(.+)$/]. *)
Definition AGENT_LINE : regex :=
  seqs [Bol; spaces; Char "-"; spaces; lit "agent:"; spaces; content 1; Eol].

(** [/^\s+prompt:\s+(.+)$/]. *)
Definition PROMPT_LINE : regex :=
  seqs [Bol; spaces; lit "prompt:"; spaces; content 1; Eol].

(** [/\\n/g]: a backslash followed by the letter n. *)
Definition ESCAPED_NEWLINE : pattern :=
  {| re := Seq (Char "\") (Char "n"); fl := noFlags |}.

(** [line.match(re)] for a pattern without the [g] flag, read for its first
    group. *)
Definition firstGroup (r : regex) (line : string) : option string :=
  match exec noFlags r line with
  | Some mt => Some (match group mt 1 with Some g => g | None => EmptyString end)
  | None => None
  end.

Definition startsWithChar (q : ascii) (s : string) : bool :=
  match s with
  | String c _ => Ascii.eqb c q
  | EmptyString => false
  end.

Definition endsWithChar (q : ascii) (s : string) : bool :=
  match lastChar None s with
  | Some c => Ascii.eqb c q
  | None => false
  end.

Definition dquote_char : ascii := ascii_of_nat 34.
Definition squote_char : ascii := ascii_of_nat 39.

(** The removal of a pair of quotes around a value: [s.slice(1, -1)] when
    the value starts and ends with the same kind of quote. *)
Definition unquote (s : string) : string :=
  if (startsWithChar dquote_char s && endsWithChar dquote_char s)
     || (startsWithChar squote_char s && endsWithChar squote_char s)
  then take (String.length s - 2) (drop 1 s)
  else s.

(** The variables of the loop of [parseChainYaml].  The chain being read is
    the last element of the array [chains], which the loop changes through
    [current]; [finished] are the elements before it. *)
Record Reader : Type := {
  finished : list ChainDef;
  current : option ChainDef;
  currentStep : option ChainStep
}.

(** [c.steps.push(s)]. *)
Definition pushStep (c : ChainDef) (s : ChainStep) : ChainDef :=
  {| chainName := chainName c; chainDescription := chainDescription c;
     steps := (steps c ++ [s])%list |}.

(** The array [chains]. *)
Definition chainsOf (r : Reader) : list ChainDef :=
  (finished r ++ match current r with Some c => [c] | None => [] end)%list.

(** The body of the loop for one line. *)
Definition readLine (r : Reader) (line : string) : Reader :=
  match firstGroup CHAIN_HEADER line with
  | Some g =>
      let fresh := {| chainName := trim g; chainDescription := ""; steps := [] |} in
      match current r, currentStep r with
      | Some c, Some s =>
          {| finished := (finished r ++ [pushStep c s])%list;
             current := Some fresh; currentStep := None |}
      | _, _ =>
          {| finished := chainsOf r; current := Some fresh; currentStep := currentStep r |}
      end
  | None =>
      match firstGroup DESCRIPTION_LINE line, current r, currentStep r with
      | Some g, Some c, None =>
          {| finished := finished r;
             current := Some {| chainName := chainName c;
                                chainDescription := unquote (trim g);
                                steps := steps c |};
             currentStep := None |}
      | _, _, _ =>
          match exec noFlags STEPS_LINE line, current r with
          | Some _, Some _ => r
          | _, _ =>
              match firstGroup AGENT_LINE line, current r with
              | Some g, Some c =>
                  {| finished := finished r;
                     current := Some match currentStep r with
                                     | Some s => pushStep c s
                                     | None => c
                                     end;
                     currentStep := Some {| agent := trim g; prompt := "" |} |}
              | _, _ =>
                  match firstGroup PROMPT_LINE line, currentStep r with
                  | Some g, Some s =>
                      {| finished := finished r; current := current r;
                         currentStep :=
                           Some {| agent := agent s;
                                   prompt := replaceAll ESCAPED_NEWLINE nl
                                               (unquote (trim g)) |} |}
                  | _, _ => r
                  end
              end
          end
      end
  end.

(** [parseChainYaml(raw)]. *)
Definition parseChainYaml (raw : string) : list ChainDef :=
  let r := fold_left readLine (split newline_char raw)
                     {| finished := []; current := None; currentStep := None |} in
  match current r, currentStep r with
  | Some c, Some s => (finished r ++ [pushStep c s])%list
  | _, _ => chainsOf r
  end.

End ChainYaml.

Module ChainYamlDefs.
Import JS Regex AgentChain Notions FrontmatterDefs ChainYaml.

(** A text whose first code unit is not [x]. *)
Definition headNot (x : ascii) (s : string) : Prop :=
  match s with
  | String c _ => Ascii.eqb x c = false
  | EmptyString => True
  end.

(** A text without line terminator. *)
Definition oneLine (s : string) : bool :=
  forallb (fun c => negb (isLineTerminator c)) (chars s).

(** A chain name as a chain file is written with: not empty, without colon
    or newline, and without whitespace at its ends. *)
Definition nameOk (n : string) : bool :=
  match n with
  | EmptyString => false
  | String c _ =>
      negb (isWhiteSpace c) && String.eqb (trim n) n
      && noChar ":" n && noChar newline_char n
  end.

(** An agent name: not empty, on one line, without whitespace at its
    ends. *)
Definition agentOk (a : string) : bool :=
  match a with
  | EmptyString => false
  | String c _ => negb (isWhiteSpace c) && String.eqb (trim a) a && oneLine a
  end.

Definition stepOk (s : ChainStep) : bool :=
  agentOk (agent s) && oneLine (prompt s).

Definition chainOk (c : ChainDef) : bool :=
  nameOk (chainName c) && oneLine (chainDescription c) && forallb stepOk (steps c).

(** A value between double quotes. *)
Definition quoted (s : string) : string :=
  String dquote_char (s ++ String dquote_char EmptyString).

(** The lines of a step and of a chain, and the text of a chain file. *)
Definition stepLines (s : ChainStep) : list string :=
  [ "    - agent: " ++ agent s;
    "      prompt: " ++ quoted (prompt s) ].

Definition chainLines (c : ChainDef) : list string :=
  (chainName c ++ ":")
  :: ("  description: " ++ quoted (chainDescription c))
  :: "  steps:"
  :: flat_map stepLines (steps c).

Definition chainFileOf (chains : list ChainDef) : string :=
  join nl (flat_map chainLines chains).

(** A chain as it is read: in its prompts, a backslash followed by the
    letter n stands for a newline. *)
Definition decodedStep (s : ChainStep) : ChainStep :=
  {| agent := agent s; prompt := replaceAll ESCAPED_NEWLINE nl (prompt s) |}.

Definition decoded (c : ChainDef) : ChainDef :=
  {| chainName := chainName c; chainDescription := chainDescription c;
     steps := map decodedStep (steps c) |}.

(** The chain being read with its pending step, and the chains read so
    far. *)
Definition flush (c : ChainDef) (pending : option ChainStep) : ChainDef :=
  match pending with
  | Some s => pushStep c s
  | None => c
  end.

Definition readSoFar (r : Reader) : list ChainDef :=
  (finished r ++ match current r with
                 | Some c => [flush c (currentStep r)]
                 | None => []
                 end)%list.

End ChainYamlDefs.

Module TeamsYaml.
Import JS Regex ChainYaml.

(** The pattern of a team's first line, the same as that of a chain:
    ^(\S[^:]{0,}):$ *)
Definition TEAM_HEADER : regex :=
  seqs [ Bol;
         Group 1 (Seq (Class true isWhiteSpace)
                      (Star true (Class true (fun c => Ascii.eqb c ":"))));
         Char ":"; Eol ].

(** [/^\s+-\s+(.+)$/]. *)
Definition MEMBER_LINE : regex :=
  seqs [Bol; spaces; Char "-"; spaces; content 1; Eol].

(** The variables of the loop of [parseTeamsYaml]: the own properties of
    the object [teams], and [current]. *)
Record Reader : Type := {
  teams : list (string * list string);
  current : option string
}.

(** The body of the loop for one line.  Assigning to the key [__proto__]
    of a plain object creates no property, and a [push] to what is then
    read under that key changes none. *)
Definition readLine (r : Reader) (line : string) : Reader :=
  match firstGroup TEAM_HEADER line with
  | Some g =>
      let name := trim g in
      {| teams := if String.eqb name "__proto__" then teams r
                  else oset (teams r) name [];
         current := Some name |}
  | None =>
      match firstGroup MEMBER_LINE line, current r with
      | Some g, Some name =>
          if truthy name then
            match get String.eqb (teams r) name with
            | Some members =>
                {| teams := set String.eqb (teams r) name (members ++ [trim g])%list;
                   current := current r |}
            | None => r
            end
          else r
      | _, _ => r
      end
  end.

(** [parseTeamsYaml(raw)]. *)
Definition parseTeamsYaml (raw : string) : list (string * list string) :=
  teams (fold_left readLine (split newline_char raw) {| teams := []; current := None |}).

End TeamsYaml.

Module TeamsYamlDefs.
Import JS Regex Notions FrontmatterDefs ChainYaml ChainYamlDefs TeamsYaml.

(** A team as a teams file is written with: a name as for a chain that is
    not the key plain objects do not store, and members that are not
    empty, on one line and without whitespace at their ends. *)
Definition teamOk (t : string * list string) : bool :=
  nameOk (fst t) && negb (String.eqb (fst t) "__proto__") && forallb agentOk (snd t).

(** The lines of a team and the text of a teams file. *)
Definition teamLines (t : string * list string) : list string :=
  (fst t ++ ":") :: map (fun member => "  - " ++ member) (snd t).

Definition teamsFileOf (ts : list (string * list string)) : string :=
  join nl (flat_map teamLines ts).

End TeamsYamlDefs.

Module PoolAttendedDefs.
Import JS Regex Json SubagentWidget.

(** Every state object of the Pool that is marked running has a child
    whose handlers hold it. *)
Definition PoolAttended (w : World) : Prop :=
  forall addr st,
    stateAt w addr = Some st -> status st = running ->
    exists pid p, get Nat.eqb (procs w) pid = Some p /\ owner p = addr.

(** The state object at an address is marked running and no child holds
    it. *)
Definition Unheld (w : World) (addr : nat) : Prop :=
  (exists st, stateAt w addr = Some st /\ status st = running)
  /\ forall pid p, get Nat.eqb (procs w) pid = Some p -> owner p <> addr.

(** An operation whose [spawn] throws. *)
Definition spawnThrows (op : Op) : bool :=
  match op with
  | CreateThrows _ _ _ => true
  | ContinueThrows _ _ _ => true
  | CmdSubThrows _ _ _ => true
  | CmdSubcontThrows _ _ _ => true
  | _ => false
  end.

End PoolAttendedDefs.

Module TeamLoader.
Import JS Regex Json AgentLoader AgentTeam.

Section Host.
Context {H : Host}.
Variable readFileSync : string -> string + string.
Variable basename : string -> string -> string.
Variable readdirSync : string -> option (list string).
Variable resolve : string -> string -> string.
(** [mkdirSync(dir, { recursive: true })]: whether it returns; it throws
    otherwise. *)
Variable mkdirSync : string -> bool.

(** The three directories of agent definitions, in the order they are
    scanned.  [join] of three segments is the join of the join of the first
    two with the third. *)
Definition agentDirs (cwd : string) : list string :=
  [ pathJoin cwd "agents";
    pathJoin (pathJoin cwd ".claude") "agents";
    pathJoin (pathJoin cwd ".pi") "agents" ].

(** The callback [loadAgents] hands to [scanAgentDirectory]: the lines it
    writes to [console.error]. *)
Definition errorLines (calls : list (string * ValidationWarning)) : list string :=
  flat_map
    (fun call =>
       match severity (snd call) with
       | AgentLoader.error => [ "[agent-team] " ++ fst call ++ ": " ++ message (snd call) ]
       | AgentLoader.warning => []
       end)
    calls.

(** The inner loop of [loadAgents]: [seen] and [allAgentDefs]. *)
Definition addNew (acc : list string * list AgentDef) (entry : string * AgentDef)
  : list string * list AgentDef :=
  if negb (inList (fst entry) (fst acc))
  then ((fst acc ++ [fst entry])%list, (snd acc ++ [snd entry])%list)
  else acc.

(** What [loadAgents] leaves: the variables, the lines written to
    [console.error], and whether it threw. *)
Record Loaded : Type := {
  world : World;
  consoleErrors : list string;
  threw : bool
}.

Definition withSessionDir (w : World) (dir : string) : World :=
  {| agentStates := agentStates w; heap := heap w; nextAddr := nextAddr w;
     allAgentDefs := allAgentDefs w; teams := teams w;
     activeTeamName := activeTeamName w; sessionDir := dir;
     procs := procs w; nextPid := nextPid w; spawned := spawned w;
     timers := timers w |}.

(** [loadAgents(cwd)].  The directory it may create is none of those it
    reads afterwards. *)
Definition loadAgents (w : World) (cwd : string) : Loaded :=
  let sessDir := pathJoin (pathJoin cwd ".pi") "agent-sessions" in
  if negb (existsSync sessDir) && negb (mkdirSync sessDir) then
    {| world := withSessionDir w sessDir; consoleErrors := []; threw := true |}
  else
    let scans := map (scanAgentDirectory readFileSync basename existsSync readdirSync resolve)
                     (agentDirs cwd) in
    let defs := snd (fold_left (fun acc scan => fold_left addNew (fst scan) acc)
                               scans ([], [])) in
    let teamsPath := pathJoin (pathJoin (pathJoin cwd ".pi") "agents") "teams.yaml" in
    let parsed :=
      if existsSync teamsPath then
        match readFileSync teamsPath with
        | inl raw => TeamsYaml.parseTeamsYaml raw
        | inr _ => []
        end
      else [] in
    {| world :=
         {| agentStates := agentStates w; heap := heap w; nextAddr := nextAddr w;
            allAgentDefs := defs;
            teams := match parsed with
                     | [] => [("all", map name defs)]
                     | _ => parsed
                     end;
            activeTeamName := activeTeamName w; sessionDir := sessDir;
            procs := procs w; nextPid := nextPid w; spawned := spawned w;
            timers := timers w |};
       consoleErrors := flat_map (fun scan => errorLines (snd scan)) scans;
       threw := false |}.

End Host.

End TeamLoader.

Module TeamLoaderDefs.
Import JS Regex Json AgentLoader.

(** A list of definitions as a map from their lowercased names. *)
Definition byKey (defs : list AgentDef) : list (string * AgentDef) :=
  map (fun d => (toLowerCase (name d), d)) defs.

(** The first of two lookups that finds something. *)
Definition orElse {A : Type} (a b : option A) : option A :=
  match a with
  | Some x => Some x
  | None => b
  end.

End TeamLoaderDefs.

Module ChainLoader.
Import JS Regex Json AgentLoader AgentChain.

Section Host.
Context {H : Host}.
Variable readFileSync : string -> string + string.
Variable basename : string -> string -> string.
Variable readdirSync : string -> option (list string).
Variable resolve : string -> string -> string.
(** [mkdirSync(dir, { recursive: true })]: whether it returns; it throws
    otherwise. *)
Variable mkdirSync : string -> bool.

(** The lines the callback of [loadChains] writes to [console.error]. *)
Definition errorLines (calls : list (string * ValidationWarning)) : list string :=
  flat_map
    (fun call =>
       match severity (snd call) with
       | AgentLoader.error => [ "[agent-chain] " ++ fst call ++ ": " ++ message (snd call) ]
       | AgentLoader.warning => []
       end)
    calls.

(** [if (!allAgents.has(key)) allAgents.set(key, def)]. *)
Definition addAgent (acc : list (string * AgentDef)) (entry : string * AgentDef)
  : list (string * AgentDef) :=
  if negb (has String.eqb acc (fst entry))
  then set String.eqb acc (fst entry) (snd entry)
  else acc.

(** The loop over [allAgents] that fills [agentSessions]. *)
Definition addSession (sessDir : string) (acc : list (string * option string))
    (entry : string * AgentDef) : list (string * option string) :=
  let sessionFile := pathJoin sessDir ("chain-" ++ fst entry ++ ".json") in
  set String.eqb acc (fst entry)
      (if existsSync sessionFile then Some sessionFile else None).

(** What [loadChains] leaves: the variables of the extension, the variable
    [chains], and whether it threw. *)
Record Loaded : Type := {
  state : State;
  chains : list ChainDef;
  threw : bool
}.

(** [loadChains(cwd)], [previous] being the value of [chains] before.  The
    directory it may create is none of those it reads afterwards. *)
Definition loadChains (c : State) (previous : list ChainDef) (cwd : string) : Loaded :=
  let sessDir := pathJoin (pathJoin cwd ".pi") "agent-sessions" in
  if negb (existsSync sessDir) && negb (mkdirSync sessDir) then
    {| state := {| allAgents := allAgents c; agentSessions := agentSessions c;
                   activeChain := activeChain c; stepStates := stepStates c;
                   sessionDir := sessDir; spawned := spawned c;
                   consoleErrors := AgentChain.consoleErrors c |};
       chains := previous; threw := true |}
  else
    let scans := map (scanAgentDirectory readFileSync basename existsSync readdirSync resolve)
                     [ pathJoin cwd "agents";
                       pathJoin (pathJoin cwd ".claude") "agents";
                       pathJoin (pathJoin cwd ".pi") "agents" ] in
    let agents := fold_left (fun acc scan => fold_left addAgent (fst scan) acc) scans [] in
    let chainPath := pathJoin (pathJoin (pathJoin cwd ".pi") "agents") "agent-chain.yaml" in
    {| state := {| allAgents := agents;
                   agentSessions := fold_left (addSession sessDir) agents [];
                   activeChain := activeChain c; stepStates := stepStates c;
                   sessionDir := sessDir; spawned := spawned c;
                   consoleErrors := (AgentChain.consoleErrors c
                                     ++ flat_map (fun scan => errorLines (snd scan)) scans)%list |};
       chains := if existsSync chainPath then
                   match readFileSync chainPath with
                   | inl raw => ChainYaml.parseChainYaml raw
                   | inr _ => []
                   end
                 else [];
       threw := false |}.

End Host.

End ChainLoader.

(* ===================================================================== *)
(** * Facts about the host-language primitives *)
(* ===================================================================== *)

Module Facts.
Import JS.

(** ** Association lists *)
Section AssocFacts.
Context {K V : Type}.
Variable keq : K -> K -> bool.
Hypothesis keq_spec : forall a b, keq a b = true <-> a = b.

Lemma keq_refl (a : K) : keq a a = true.
Proof. now apply keq_spec. Qed.

Lemma keq_neq (a b : K) : a <> b -> keq a b = false.
Proof.
  intros Hne. destruct (keq a b) eqn:E; [|reflexivity].
  apply keq_spec in E. contradiction.
Qed.

Lemma get_set_same (o : list (K * V)) k v : get keq (set keq o k v) k = Some v.
Proof.
  induction o as [|[k' v'] o IH]; simpl.
  - now rewrite keq_refl.
  - destruct (keq k' k) eqn:E; simpl; rewrite E; auto.
Qed.

Lemma get_set_other (o : list (K * V)) k k' v :
  k <> k' -> get keq (set keq o k v) k' = get keq o k'.
Proof.
  intros Hne. induction o as [|[k0 v0] o IH]; simpl.
  - now rewrite keq_neq.
  - destruct (keq k0 k) eqn:E; simpl.
    + apply keq_spec in E. subst k0. now rewrite keq_neq.
    + destruct (keq k0 k'); auto.
Qed.

Lemma get_set (o : list (K * V)) k k' v :
  get keq (set keq o k v) k' = if keq k k' then Some v else get keq o k'.
Proof.
  destruct (keq k k') eqn:E.
  - apply keq_spec in E. subst. apply get_set_same.
  - apply get_set_other. intros ->. now rewrite keq_refl in E.
Qed.

Lemma get_In (o : list (K * V)) k v : get keq o k = Some v -> In (k, v) o.
Proof.
  induction o as [|[k' v'] o IH]; simpl; [discriminate|].
  destruct (keq k' k) eqn:E.
  - apply keq_spec in E. intros [= ->]. subst. now left.
  - intros Hg. right. auto.
Qed.

Lemma get_None_keys (o : list (K * V)) k : get keq o k = None -> ~ In k (keys o).
Proof.
  induction o as [|[k' v'] o IH]; simpl; [tauto|].
  destruct (keq k' k) eqn:E; [discriminate|].
  intros Hg [->|Hin]; [now rewrite keq_refl in E | now apply IH].
Qed.

Lemma keys_get_None (o : list (K * V)) k : ~ In k (keys o) -> get keq o k = None.
Proof.
  induction o as [|[k' v'] o IH]; simpl; [reflexivity|].
  intros Hn. rewrite keq_neq by tauto. apply IH. tauto.
Qed.

Lemma In_get (o : list (K * V)) k v :
  NoDup (keys o) -> In (k, v) o -> get keq o k = Some v.
Proof.
  induction o as [|[k' v'] o IH]; simpl; [tauto|].
  intros Hnd [[= -> ->]|Hin].
  - now rewrite keq_refl.
  - inversion Hnd as [|? ? Hnotin Hnd']; subst.
    rewrite keq_neq; [auto|].
    intros ->. apply Hnotin. change k with (fst (k, v)). now apply in_map.
Qed.

Lemma keys_set_present (o : list (K * V)) k v :
  In k (keys o) -> keys (set keq o k v) = keys o.
Proof.
  induction o as [|[k' v'] o IH]; simpl; [tauto|].
  intros Hin. destruct (keq k' k) eqn:E; simpl; [reflexivity|].
  f_equal. apply IH. destruct Hin as [->|]; [now rewrite keq_refl in E | assumption].
Qed.

Lemma set_fresh (o : list (K * V)) k v :
  ~ In k (keys o) -> set keq o k v = (o ++ [(k, v)])%list.
Proof.
  induction o as [|[k' v'] o IH]; simpl; [reflexivity|].
  intros Hn. rewrite keq_neq by tauto. f_equal. apply IH. tauto.
Qed.

Lemma NoDup_keys_set (o : list (K * V)) k v :
  NoDup (keys o) -> NoDup (keys (set keq o k v)).
Proof.
  intros Hnd. destruct (get keq o k) eqn:G.
  - rewrite keys_set_present; [assumption|].
    apply get_In in G. change k with (fst (k, v0)). now apply in_map.
  - apply get_None_keys in G. rewrite set_fresh by assumption.
    unfold keys. rewrite map_app. simpl.
    apply NoDup_app; [assumption | repeat constructor; simpl; tauto |].
    intros x Hx [<-|[]]. contradiction.
Qed.

Lemma keys_delete_incl (o : list (K * V)) k x :
  In x (keys (delete keq o k)) -> In x (keys o).
Proof.
  induction o as [|[k' v'] o IH]; simpl; [tauto|].
  destruct (keq k' k); simpl; [tauto|]. intros [->|Hin]; auto.
Qed.

Lemma NoDup_keys_delete (o : list (K * V)) k :
  NoDup (keys o) -> NoDup (keys (delete keq o k)).
Proof.
  induction o as [|[k' v'] o IH]; simpl; [auto|].
  intros Hnd. inversion Hnd as [|? ? Hnotin Hnd']; subst.
  destruct (keq k' k); simpl; [assumption|].
  constructor; [|auto]. intros Hin. apply Hnotin. eapply keys_delete_incl; eauto.
Qed.

Lemma get_delete_same (o : list (K * V)) k :
  NoDup (keys o) -> get keq (delete keq o k) k = None.
Proof.
  induction o as [|[k' v'] o IH]; simpl; [reflexivity|].
  intros Hnd. inversion Hnd as [|? ? Hnotin Hnd']; subst.
  destruct (keq k' k) eqn:E; simpl.
  - apply keq_spec in E. subst. now apply keys_get_None.
  - rewrite E. auto.
Qed.

Lemma get_delete_other (o : list (K * V)) k k' :
  k <> k' -> get keq (delete keq o k) k' = get keq o k'.
Proof.
  intros Hne. induction o as [|[k0 v0] o IH]; simpl; [reflexivity|].
  destruct (keq k0 k) eqn:E; simpl.
  - apply keq_spec in E. subst. now rewrite keq_neq.
  - destruct (keq k0 k'); auto.
Qed.

(** Entries selected by a test that at most one key passes. *)
Lemma filter_at_most_one (f : K * V -> bool) (o : list (K * V)) :
  NoDup (keys o) ->
  (forall k v k' v', In (k, v) o -> In (k', v') o ->
                     f (k, v) = true -> f (k', v') = true -> k = k') ->
  List.length (filter f o) <= 1.
Proof.
  induction o as [|[k v] o IH]; simpl; [lia|].
  intros Hnd Hone. inversion Hnd as [|? ? Hnotin Hnd']; subst.
  destruct (f (k, v)) eqn:Ef; simpl.
  - assert (Hnone : filter f o = []).
    { destruct (filter f o) as [|[k' v'] rest] eqn:Efl; [reflexivity|exfalso].
      assert (Hin : In (k', v') (filter f o)) by (rewrite Efl; now left).
      apply filter_In in Hin. destruct Hin as [Hin Hf'].
      assert (k = k').
      { apply (Hone k v k' v'); [now left | now right | assumption | assumption]. }
      subst k'. apply Hnotin. change k with (fst (k, v')). now apply in_map. }
    rewrite Hnone. simpl. lia.
  - apply IH; [assumption|].
    intros k1 v1 k2 v2 H1 H2. apply Hone; now right.
Qed.

End AssocFacts.

(** ** Strings *)
Lemma append_nil_r (s : string) : s ++ "" = s.
Proof. induction s as [|c s IH]; simpl; [reflexivity | now rewrite IH]. Qed.

Lemma append_assoc (a b c : string) : (a ++ b) ++ c = a ++ b ++ c.
Proof. induction a as [|x a IH]; simpl; [reflexivity | now rewrite IH]. Qed.

Lemma length_append (a b : string) :
  String.length (a ++ b) = String.length a + String.length b.
Proof. induction a as [|x a IH]; simpl; [reflexivity | now rewrite IH]. Qed.

(** ** Plain objects *)
Section ObjectFacts.
Context {V : Type}.
Implicit Types o : list (string * V).

Lemma get_insertKey_other o k k' v :
  k <> k' -> get String.eqb (insertKey o k v) k' = get String.eqb o k'.
Proof.
  intros Hne. apply String.eqb_neq in Hne.
  induction o as [|[k0 v0] o IH]; cbn [insertKey get]; [now rewrite Hne|].
  destruct (arrayIndex k) as [n|]; [destruct (arrayIndex k0) as [n0|]|].
  - destruct (n <? n0)%N; cbn [get]; [now rewrite Hne|].
    now destruct (String.eqb k0 k').
  - cbn [get]. now rewrite Hne.
  - cbn [get]. now destruct (String.eqb k0 k').
Qed.

Lemma get_insertKey_same o k v :
  get String.eqb o k = None -> get String.eqb (insertKey o k v) k = Some v.
Proof.
  induction o as [|[k0 v0] o IH]; cbn [insertKey get]; intros Hnone;
    [now rewrite String.eqb_refl|].
  destruct (String.eqb k0 k) eqn:E; [discriminate|].
  destruct (arrayIndex k) as [n|]; [destruct (arrayIndex k0) as [n0|]|].
  - destruct (n <? n0)%N; cbn [get]; [now rewrite String.eqb_refl|].
    rewrite E. now apply IH.
  - cbn [get]. now rewrite String.eqb_refl.
  - cbn [get]. rewrite E. now apply IH.
Qed.

Lemma oget_oset o k k' v :
  oget (oset o k v) k' = if String.eqb k k' then Some v else oget o k'.
Proof.
  unfold oget, oset, has. destruct (get String.eqb o k) eqn:E.
  - apply get_set. apply String.eqb_eq.
  - destruct (String.eqb_spec k k') as [<-|Hne].
    + now apply get_insertKey_same.
    + now apply get_insertKey_other.
Qed.

(** A key that is no array index goes to the end. *)
Lemma oset_plain o k v :
  arrayIndex k = None -> oset o k v = set String.eqb o k v.
Proof.
  intros Hk. unfold oset, has. destruct (get String.eqb o k) eqn:E; [reflexivity|].
  induction o as [|[k0 v0] o IH]; cbn [insertKey set get] in *; [reflexivity|].
  rewrite Hk. destruct (String.eqb k0 k); [discriminate|]. f_equal. now apply IH.
Qed.

End ObjectFacts.

Lemma inList_In (x : string) (xs : list string) : inList x xs = true <-> In x xs.
Proof.
  unfold inList. rewrite existsb_exists. split.
  - intros [y [Hin Heq]]. apply String.eqb_eq in Heq. now subst.
  - intros Hin. exists x. split; [assumption | apply String.eqb_refl].
Qed.

End Facts.

(* ===================================================================== *)
(** * The environment builder (C1, C2) *)
(* ===================================================================== *)

Module EnvProofs.
Import JS Regex Json SubprocessEnv Facts.

(** A value the source yields is the value read, when that is truthy. *)
Lemma presentValue_read (parentEnv : record) (k : string) :
  Spec.presentValue parentEnv k =
  if truthyVal (read parentEnv k) then read parentEnv k else None.
Proof.
  unfold Spec.presentValue, read, inList.
  destruct (oget parentEnv k) as [[s|member]|]; cbn [truthyVal].
  - now destruct (truthy s).
  - reflexivity.
  - now destruct (existsb (String.eqb k) OBJECT_PROTOTYPE).
Qed.

(** One copying step extends the set of selected variables by its key,
    unless the key is [__proto__]. *)
Lemma copyVar_lookup (parentEnv env : record) (sel : string -> bool) (key : string) :
  (forall k, oget env k = if sel k then Spec.presentValue parentEnv k else None) ->
  forall k, oget (copyVar parentEnv env key) k =
            if sel k || (String.eqb key k && negb (String.eqb k "__proto__"))
            then Spec.presentValue parentEnv k else None.
Proof.
  intros Henv k. unfold copyVar, assignFrom, assign.
  pose proof (presentValue_read parentEnv key) as Hkey.
  destruct (String.eqb_spec key k) as [<-|Hne].
  - destruct (truthyVal (read parentEnv key)) eqn:Hv.
    + destruct (read parentEnv key) as [v|] eqn:Hr; [|discriminate Hv].
      destruct (String.eqb key "__proto__") eqn:Hp; cbn [negb andb].
      * rewrite orb_false_r. apply Henv.
      * rewrite oget_oset, String.eqb_refl, orb_true_r. now rewrite Hkey.
    + rewrite Henv, Hkey. now destruct (sel key || _), (sel key).
  - cbn [andb]. rewrite orb_false_r.
    destruct (truthyVal (read parentEnv key)); [|apply Henv].
    destruct (read parentEnv key) as [v|]; [|apply Henv].
    destruct (String.eqb key "__proto__"); [apply Henv|].
    rewrite oget_oset. apply String.eqb_neq in Hne. rewrite Hne. apply Henv.
Qed.

Lemma copyVars_lookup (parentEnv : record) (ks : list string) :
  forall (env : record) (sel : string -> bool),
  (forall k, oget env k = if sel k then Spec.presentValue parentEnv k else None) ->
  forall k, oget (fold_left (copyVar parentEnv) ks env) k =
            if sel k || (inList k ks && negb (String.eqb k "__proto__"))
            then Spec.presentValue parentEnv k else None.
Proof.
  induction ks as [|key ks IH]; intros env sel Henv k; cbn [fold_left inList existsb].
  - cbn [andb]. rewrite orb_false_r. apply Henv.
  - rewrite (IH _ (fun k => sel k || (String.eqb key k && negb (String.eqb k "__proto__")))).
    + rewrite (String.eqb_sym k key). fold (inList k ks).
      now destruct (sel k), (String.eqb key k), (inList k ks), (String.eqb k "__proto__").
    + now apply copyVar_lookup.
Qed.

(** Lowercasing leaves no capital letter. *)
Lemma lowerChar_not_upper (c : ascii) : isUpper (lowerChar c) = false.
Proof. destruct c as [[] [] [] [] [] [] [] []]; reflexivity. Qed.

Lemma toLowerCase_not_upper (x : string) (c : ascii) :
  In c (list_ascii_of_string (toLowerCase x)) -> isUpper c = false.
Proof.
  induction x as [|d x IH]; cbn [toLowerCase list_ascii_of_string]; [intros []|].
  intros [<-|Hin]; [apply lowerChar_not_upper | now apply IH].
Qed.

Lemma lowercase_differs (x name : string) (c : ascii) :
  In c (list_ascii_of_string name) -> isUpper c = true ->
  String.eqb (toLowerCase x) name = false.
Proof.
  intros Hin Hup. apply String.eqb_neq. intros Heq. rewrite <- Heq in Hin.
  apply toLowerCase_not_upper in Hin. congruence.
Qed.

(** What the table gives for a lowercased provider: the specification's
    entries. *)
Lemma table_lookup (x : string) :
  option_map keyText (getProviderKeyName (toLowerCase x)) = Spec.tableEntry (toLowerCase x).
Proof.
  unfold getProviderKeyName, read, oget, PROVIDER_KEY_MAP, Spec.tableEntry, OBJECT_PROTOTYPE.
  cbn [get existsb].
  rewrite !(String.eqb_sym (toLowerCase x)).
  destruct (String.eqb "anthropic" (toLowerCase x)); [reflexivity|].
  destruct (String.eqb "openai" (toLowerCase x)); [reflexivity|].
  destruct (String.eqb "google" (toLowerCase x)); [reflexivity|].
  destruct (String.eqb "openrouter" (toLowerCase x)); [reflexivity|].
  rewrite !(String.eqb_sym _ (toLowerCase x)).
  rewrite (lowercase_differs x "hasOwnProperty" "O") by (cbn; tauto).
  rewrite (lowercase_differs x "isPrototypeOf" "P") by (cbn; tauto).
  rewrite (lowercase_differs x "propertyIsEnumerable" "I") by (cbn; tauto).
  rewrite (lowercase_differs x "toLocaleString" "L") by (cbn; tauto).
  rewrite (lowercase_differs x "toString" "S") by (cbn; tauto).
  rewrite (lowercase_differs x "valueOf" "O") by (cbn; tauto).
  rewrite (lowercase_differs x "__defineGetter__" "G") by (cbn; tauto).
  rewrite (lowercase_differs x "__defineSetter__" "S") by (cbn; tauto).
  rewrite (lowercase_differs x "__lookupGetter__" "G") by (cbn; tauto).
  rewrite (lowercase_differs x "__lookupSetter__" "S") by (cbn; tauto).
  cbn [orb].
  destruct (String.eqb_spec (toLowerCase x) "constructor") as [->|]; [reflexivity|].
  destruct (String.eqb_spec (toLowerCase x) "__proto__") as [->|]; reflexivity.
Qed.

(** Every entry the table gives is truthy. *)
Lemma providerKey_truthy (provider : string) (keyName : jsval) :
  getProviderKeyName provider = Some keyName -> truthyVal (Some keyName) = true.
Proof.
  unfold getProviderKeyName, read, oget, PROVIDER_KEY_MAP. cbn [get].
  repeat match goal with
         | |- context [String.eqb ?a provider] =>
             destruct (String.eqb a provider); [intros [= <-]; reflexivity|]
         end.
  destruct (existsb _ _); [intros [= <-]; reflexivity | discriminate].
Qed.

(** The code's two-step lookup is the specification's [credentialOf]. *)
Lemma credential_lookup (model : string) :
  match extractProvider model with
  | Some provider =>
      if truthy provider then option_map keyText (getProviderKeyName provider) else None
  | None => None
  end = Spec.credentialOf model.
Proof.
  unfold extractProvider, Spec.credentialOf, Spec.providerOf.
  destruct model as [|c t]; [reflexivity|]. cbn [truthy negb].
  destruct (indexOf "/" (String c t)) as [slash|]; [|reflexivity].
  rewrite table_lookup.
  now destruct (toLowerCase (take slash (String c t))).
Qed.

(** The second stage of the builder as one copying step. *)
Lemma credential_stage (model : string) (parentEnv env1 : record) :
  match extractProvider model with
  | Some provider =>
      if truthy provider then
        match getProviderKeyName provider with
        | Some keyName =>
            if truthyVal (Some keyName) && truthyVal (read parentEnv (keyText keyName))
            then assignFrom parentEnv env1 (keyText keyName)
            else env1
        | None => env1
        end
      else env1
  | None => env1
  end =
  match Spec.credentialOf model with
  | Some keyName => copyVar parentEnv env1 keyName
  | None => env1
  end.
Proof.
  rewrite <- credential_lookup.
  destruct (extractProvider model) as [provider|]; [|reflexivity].
  destruct (truthy provider); [|reflexivity].
  destruct (getProviderKeyName provider) as [keyName|] eqn:E; [|reflexivity].
  apply providerKey_truthy in E. rewrite E. reflexivity.
Qed.

Lemma system_var_not_proto (k : string) :
  inList k SYSTEM_VARS = true -> String.eqb k "__proto__" = false.
Proof.
  intros Hk. apply inList_In in Hk. cbn in Hk.
  repeat (destruct Hk as [<-|Hk]; [reflexivity|]). destruct Hk.
Qed.

Lemma buildSubprocessEnv_lookup (model : string) (agentEnv : option string)
    (parentEnv : record) (k : string) :
  oget (buildSubprocessEnv model agentEnv parentEnv) k =
  if Spec.selected model agentEnv k && negb (String.eqb k "__proto__")
  then Spec.presentValue parentEnv k else None.
Proof.
  unfold buildSubprocessEnv. rewrite credential_stage.
  rewrite (copyVars_lookup parentEnv (parseAgentEnvField agentEnv) _
             (fun k => inList k SYSTEM_VARS
                       || (Spec.isCredentialOf model k && negb (String.eqb k "__proto__")))).
  - unfold Spec.selected.
    destruct (inList k SYSTEM_VARS) eqn:Hs.
    + now rewrite (system_var_not_proto k Hs).
    + now destruct (Spec.isCredentialOf model k), (inList k (parseAgentEnvField agentEnv)),
        (String.eqb k "__proto__").
  - intros k'.
    assert (Hsys : forall k0, oget (fold_left (copyVar parentEnv) SYSTEM_VARS []) k0
                              = if inList k0 SYSTEM_VARS
                                then Spec.presentValue parentEnv k0 else None).
    { intros k0.
      rewrite (copyVars_lookup parentEnv SYSTEM_VARS [] (fun _ => false)) by reflexivity.
      cbn [orb]. destruct (inList k0 SYSTEM_VARS) eqn:Hs; [|reflexivity].
      now rewrite (system_var_not_proto k0 Hs). }
    unfold Spec.isCredentialOf.
    destruct (Spec.credentialOf model) as [keyName|].
    + now apply (copyVar_lookup parentEnv _ (fun k => inList k SYSTEM_VARS)).
    + cbn [andb]. rewrite orb_false_r. apply Hsys.
Qed.




(** Nor is every variable of the result set by the source, or every
    provider outside the table without a variable: a declared extra named
    like a member of [Object.prototype] is copied from a source that does
    not set it, and the provider [constructor] selects the variable named
    by the text of the inherited member. *)
Lemma buildSubprocessEnv_inherited_members :
  buildSubprocessEnv "mistral/x" (Some "toString") [] = [("toString", Builtin "toString")]
  /\ buildSubprocessEnv "mistral/x" (Some "toString") [("toString", Str "")] = []
  /\ buildSubprocessEnv "constructor/x" None
       [("function Object() { [native code] }", Str "v")]
     = [("function Object() { [native code] }", Str "v")]
  /\ buildSubprocessEnv "mistral/x" (Some "__proto__") [] = [].
Proof. repeat split. Qed.

(** C1, at the failing input.  The Pipeline passes the builder's minimal
    environment, but without the persona's declared extras, which the loader
    never records; the Dispatcher and the Pool pass the whole of
    [process.env].  With ANTHROPIC_API_KEY and OPENAI_API_KEY both set and an
    anthropic model selected, the workers of the Dispatcher and of the Pool
    receive OPENAI_API_KEY, which the builder's environment does not hold. *)
Theorem spawn_environments :
  (forall (H : Host) c agentDef task ctxModel,
      env (AgentChain.runAgentSpawn c agentDef task ctxModel) =
      buildSubprocessEnv (modelString ctxModel) None process_env)
  /\ (forall (H : Host) st ctxModel sessDir task,
        env (AgentTeam.dispatchSpawn st ctxModel sessDir task) = process_env)
  /\ (forall (H : Host) st promptText ctxModel,
        env (SubagentWidget.spawnCallOf st promptText ctxModel) = process_env)
  /\ (forall st sessDir task,
        oget (env (AgentTeam.dispatchSpawn (H := Fixture.host) st Fixture.anthropic sessDir task))
             "OPENAI_API_KEY" = Some (Str "sk-oa"))
  /\ (forall st promptText,
        oget (env (SubagentWidget.spawnCallOf (H := Fixture.host) st promptText Fixture.anthropic))
             "OPENAI_API_KEY" = Some (Str "sk-oa"))
  /\ oget (buildSubprocessEnv (modelString Fixture.anthropic) None Fixture.twoKeys)
          "OPENAI_API_KEY" = None.
Proof. repeat split. Qed.

End EnvProofs.

(* ===================================================================== *)
(** * Credential-failure diagnosis (C7) *)
(* ===================================================================== *)

Module DiagnosisProofs.
Import JS Regex SubprocessEnv Facts.

Lemma includes_unfold (p s : string) :
  includes p s =
  match stripPrefix p s with
  | Some _ => true
  | None => match s with
            | EmptyString => false
            | String _ t => includes p t
            end
  end.
Proof. destruct s; reflexivity. Qed.

Lemma stripPrefix_app (p s : string) : stripPrefix p (p ++ s) = Some s.
Proof.
  induction p as [|c p IH]; simpl.
  - now destruct s.
  - now rewrite Ascii.eqb_refl.
Qed.

Lemma stripPrefix_extend (p a r b : string) :
  stripPrefix p a = Some r -> stripPrefix p (a ++ b) = Some (r ++ b).
Proof.
  revert a. induction p as [|c p IH]; intros a; simpl.
  - destruct a; intros [= <-]; now destruct b.
  - destruct a as [|d a]; [discriminate|]. simpl.
    destruct (Ascii.eqb c d); [apply IH | discriminate].
Qed.

Lemma includes_here (p s : string) : includes p (p ++ s) = true.
Proof. rewrite includes_unfold. now rewrite stripPrefix_app. Qed.

Lemma includes_right (p a b : string) :
  includes p b = true -> includes p (a ++ b) = true.
Proof.
  intros Hb. induction a as [|c a IH]; simpl; [assumption|].
  destruct (stripPrefix p (String c (a ++ b))); [reflexivity | exact IH].
Qed.

Lemma includes_left (p a b : string) :
  includes p a = true -> includes p (a ++ b) = true.
Proof.
  induction a as [|c a IH].
  - rewrite includes_unfold. destruct (stripPrefix p "") as [r|] eqn:E; [|discriminate].
    intros _. rewrite includes_unfold.
    now rewrite (stripPrefix_extend p "" r b E).
  - rewrite includes_unfold. destruct (stripPrefix p (String c a)) as [r|] eqn:E.
    + intros _. rewrite includes_unfold.
      now rewrite (stripPrefix_extend p (String c a) r b E).
    + intros Ha. change (String c a ++ b) with (String c (a ++ b)).
      rewrite includes_unfold.
      destruct (stripPrefix p (String c (a ++ b))); [reflexivity | now apply IH].
Qed.

Lemma includes_inside (p a x b : string) :
  includes p x = true -> includes p (a ++ x ++ b) = true.
Proof. intros Hx. apply includes_right. now apply includes_left. Qed.

(** A joined list mentions each of its elements. *)
Lemma includes_join (sep x : string) (xs : list string) :
  In x xs -> includes x (join sep xs) = true.
Proof.
  induction xs as [|y ys IH]; [intros []|].
  intros Hin. destruct ys as [|z zs].
  - destruct Hin as [->|[]]. simpl.
    rewrite <- (append_nil_r x) at 2. apply includes_here.
  - change (join sep (y :: z :: zs)) with (y ++ sep ++ join sep (z :: zs)).
    destruct Hin as [->|Hin].
    + apply includes_here.
    + apply includes_right, includes_right. now apply IH.
Qed.

Lemma includes_prefix3 (a b c r : string) :
  includes (a ++ b ++ c) (a ++ b ++ c ++ r) = true.
Proof.
  replace (a ++ b ++ c ++ r) with ((a ++ b ++ c) ++ r)
    by (now rewrite !append_assoc).
  apply includes_here.
Qed.

Lemma describeEnv_spec (env : record) (k : string) :
  In k (describeEnv env) <-> In k (keys env) /\ ~ In k SYSTEM_VARS.
Proof.
  unfold describeEnv. rewrite filter_In. rewrite negb_true_iff.
  split; intros [Hin Hsys]; split; try assumption.
  - intros Hs. apply inList_In in Hs. congruence.
  - destruct (inList k SYSTEM_VARS) eqn:E; [|reflexivity].
    apply inList_In in E. contradiction.
Qed.

Lemma detect_shape (output agentName : string) (env : record) (d : string) :
  detectCredentialFailure output agentName env = Some d ->
  d = "Subagent " ++ dquote ++ agentName ++ dquote
      ++ " failed with what looks like a missing credential." ++ nl
      ++ "Only " ++ Spec.listing (describeEnv env) ++ " "
      ++ (if List.length (describeEnv env) =? 1 then "was" else "were")
      ++ " passed to this subprocess." ++ nl
      ++ "If this agent needs additional env vars, add them to the `env` field in its agent .md frontmatter:" ++ nl
      ++ nl
      ++ "  env: NPM_TOKEN, GITHUB_TOKEN".
Proof.
  unfold detectCredentialFailure.
  destruct (negb (truthy output)); [discriminate|].
  destruct (negb (existsb (fun p => testPattern p output) CREDENTIAL_PATTERNS));
    [discriminate|].
  now intros [= <-].
Qed.

(** C7.  [detectCredentialFailure] returns a diagnostic exactly when the
    output is not empty and some credential-failure signature matches it.
    The diagnostic names the worker in quotes and lists, in backticks,
    exactly the variables of the worker's environment that are not system
    variables (or says that there were none).  For the output HTTP 401,
    worker w and an environment holding ANTHROPIC_API_KEY it is a non-empty
    text mentioning both; for empty output, and for text matching no
    signature, there is none. *)
Theorem detectCredentialFailure_diagnoses :
  (forall output agentName env,
      (exists d, detectCredentialFailure output agentName env = Some d) <->
      (output <> "" /\
       exists p, In p CREDENTIAL_PATTERNS /\ testPattern p output = true))
  /\ (forall output agentName env d,
        detectCredentialFailure output agentName env = Some d ->
        d <> ""
        /\ includes (dquote ++ agentName ++ dquote) d = true
        /\ includes ("Only " ++ Spec.listing (describeEnv env) ++ " ") d = true
        /\ (forall k, In k (describeEnv env) -> includes (backticked k) d = true))
  /\ (forall env k, In k (describeEnv env) <-> In k (keys env) /\ ~ In k SYSTEM_VARS)
  /\ (exists d,
        detectCredentialFailure "HTTP 401" "w" [("ANTHROPIC_API_KEY", Str "k")] = Some d
        /\ d <> "" /\ includes "w" d = true /\ includes "ANTHROPIC_API_KEY" d = true)
  /\ (forall agentName env, detectCredentialFailure "" agentName env = None)
  /\ (forall agentName env,
        detectCredentialFailure "SyntaxError: Unexpected token" agentName env = None).
Proof.
  split; [|split; [|split; [|split; [|split]]]].
  - intros output agentName env. unfold detectCredentialFailure. split.
    + intros [d Hd]. destruct output as [|c t]; [discriminate|]. cbn [truthy negb] in Hd.
      split; [discriminate|].
      destruct (existsb (fun p => testPattern p (String c t)) CREDENTIAL_PATTERNS) eqn:E;
        [|discriminate].
      apply existsb_exists in E. exact E.
    + intros [Hne [p [Hin Hp]]]. destruct output as [|c t]; [contradiction|].
      cbn [truthy negb].
      assert (E : existsb (fun p => testPattern p (String c t)) CREDENTIAL_PATTERNS = true)
        by (apply existsb_exists; eauto).
      rewrite E. cbn [negb]. eauto.
  - intros output agentName env d Hd. apply detect_shape in Hd. subst d.
    split; [discriminate|]. split; [|split].
    + apply (includes_right _ "Subagent "). apply includes_prefix3.
    + apply (includes_right _ "Subagent "), (includes_right _ dquote),
        (includes_right _ agentName), (includes_right _ dquote),
        (includes_right _ " failed with what looks like a missing credential."),
        (includes_right _ nl).
      apply includes_prefix3.
    + intros k Hk.
      apply (includes_right _ "Subagent "), (includes_right _ dquote),
        (includes_right _ agentName), (includes_right _ dquote),
        (includes_right _ " failed with what looks like a missing credential."),
        (includes_right _ nl), (includes_right _ "Only ").
      apply includes_left. unfold Spec.listing.
      destruct (describeEnv env) as [|k0 ks] eqn:E; [destruct Hk|].
      cbn [List.length Nat.ltb Nat.leb].
      apply includes_join. now apply in_map.
  - exact describeEnv_spec.
  - eexists. split; [vm_compute; reflexivity|]. split; [discriminate|].
    split; vm_compute; reflexivity.
  - reflexivity.
  - intros agentName env. vm_compute. reflexivity.
Qed.

End DiagnosisProofs.

(* ===================================================================== *)
(** * The streaming parser (C5) *)
(* ===================================================================== *)

Module StreamProofs.
Import JS Regex Json Facts Invariants.








Section WithHost.
Context {H : Host}.








(** A piece of a split holds no separator, and a text without separator is
    its own single piece. *)
Lemma split_no_sep (sep : ascii) (s : string) :
  indexOf sep s = None -> split sep s = [s].
Proof.
  induction s as [|c s IH]; simpl; [reflexivity|].
  destruct (Ascii.eqb c sep); [discriminate|].
  destruct (indexOf sep s); [discriminate|]. intros _. now rewrite IH.
Qed.

Lemma split_line (sep : ascii) (line rest : string) :
  indexOf sep line = None ->
  split sep (line ++ String sep rest) = line :: split sep rest.
Proof.
  induction line as [|c line IH]; simpl.
  - intros _. now rewrite Ascii.eqb_refl.
  - destruct (Ascii.eqb c sep); [discriminate|].
    destruct (indexOf sep line); [discriminate|]. intros _. now rewrite IH.
Qed.





End WithHost.


End StreamProofs.

(* ===================================================================== *)
(** * The Pipeline (C4) *)
(* ===================================================================== *)

Module ChainProofs.
Import JS Regex Json Facts AgentChain.

Lemma updateStep_other (i j : nat) (f : StepState -> StepState) (ss : list StepState) :
  i <> j -> nth_error (updateStep i f ss) j = nth_error ss j.
Proof.
  revert i j. induction ss as [|s ss IH]; intros i j Hne.
  - now destruct i.
  - destruct i as [|i], j as [|j]; simpl; try reflexivity; try congruence.
    apply IH. congruence.
Qed.

Section WithHost.
Context {H : Host}.
Variable child : nat -> SpawnCall -> Behaviour.

Lemma runAgent_steps c agentDef task i ctxModel (j : nat) :
  i <> j ->
  nth_error (stepStates (fst (runAgent child c agentDef task i ctxModel))) j =
  nth_error (stepStates c) j.
Proof.
  intros Hne. unfold runAgent.
  destruct (ending (child (List.length (spawned c)) (runAgentSpawn c agentDef task ctxModel)));
    simpl; [now apply updateStep_other | reflexivity].
Qed.

(** A run from step [i] on leaves the states of the steps it does not reach
    as they were. *)
Lemma runSteps_untouched (remaining : list ChainStep) :
  forall i input originalPrompt ctxModel spent c j,
    (j < i \/ i + List.length remaining <= j) ->
    nth_error (stepStates (fst (runSteps child remaining i input originalPrompt
                                         ctxModel spent c))) j =
    nth_error (stepStates c) j.
Proof.
  induction remaining as [|step later IH]; intros i input originalPrompt ctxModel spent c j Hj;
    [reflexivity|].
  simpl in Hj. assert (Hne : i <> j) by lia.
  cbn [runSteps].
  destruct (get String.eqb (allAgents (startStep c i)) (toLowerCase (agent step)))
    as [agentDef|].
  - destruct (runAgent child (startStep c i) agentDef
                (resolvePrompt (prompt step) input originalPrompt) i ctxModel)
      as [c2 result] eqn:Erun.
    assert (H2 : nth_error (stepStates c2) j = nth_error (stepStates c) j).
    { replace c2 with (fst (runAgent child (startStep c i) agentDef
                              (resolvePrompt (prompt step) input originalPrompt) i ctxModel))
        by (now rewrite Erun).
      rewrite runAgent_steps by assumption. simpl. now apply updateStep_other. }
    destruct (negb (Z.eqb (exitCode result) 0)).
    + simpl. now rewrite updateStep_other.
    + rewrite IH by lia. simpl. now rewrite updateStep_other.
  - simpl. rewrite updateStep_other by assumption. now apply updateStep_other.
Qed.

(** A run over [pre ++ rest] is the run over [pre], continued with [rest]
    when every step of [pre] succeeded. *)
Lemma runSteps_app (pre rest : list ChainStep) :
  forall i input originalPrompt ctxModel spent c,
    runSteps child (pre ++ rest) i input originalPrompt ctxModel spent c =
    let '(c', r) := runSteps child pre i input originalPrompt ctxModel spent c in
    if success r
    then runSteps child rest (i + List.length pre) (chainOutput r) originalPrompt
                  ctxModel (chainElapsed r) c'
    else (c', r).
Proof.
  induction pre as [|step pre IH]; intros i input originalPrompt ctxModel spent c.
  - simpl. now rewrite Nat.add_0_r.
  - cbn [app runSteps].
    destruct (get String.eqb (allAgents (startStep c i)) (toLowerCase (agent step)))
      as [agentDef|]; [|reflexivity].
    destruct (runAgent child (startStep c i) agentDef
                (resolvePrompt (prompt step) input originalPrompt) i ctxModel)
      as [c2 result].
    destruct (negb (Z.eqb (exitCode result) 0)); [reflexivity|].
    rewrite IH. cbn [List.length]. now rewrite Nat.add_succ_r.
Qed.

Lemma reset_pending (c : State) (chain : ChainDef) (j : nat) :
  nth_error (stepStates (resetSteps c chain)) j =
  option_map (fun s => {| stepAgent := agent s; status := pending;
                          elapsed := 0; lastWork := "" |})
             (nth_error (steps chain) j).
Proof. unfold resetSteps. simpl. apply nth_error_map. Qed.

(** C4.  In a run of the active chain, let the steps before some step all
    have succeeded.  If that step names a persona that is not in the agent
    map, or its worker resolves with a non-zero exit code, the run returns at
    once: success is false, the output is the failure message with the
    step's 1-based index and its worker name (built from this step alone, so
    no earlier output is part of it), no further worker is spawned, and every
    later step is still pending. *)
Theorem runChain_fails_fast :
  (forall c chain pre step post task ctxModel cPre rPre,
      activeChain c = Some chain ->
      steps chain = (pre ++ step :: post)%list ->
      runSteps child pre 0 task task ctxModel 0 (resetSteps c chain) = (cPre, rPre) ->
      success rPre = true ->
      get String.eqb (allAgents cPre) (toLowerCase (agent step)) = None ->
      exists final,
        runChain child c task ctxModel =
        (final,
         {| chainOutput := "Error at step " ++ showNat (List.length pre + 1) ++ ": Agent "
                           ++ dquote ++ agent step ++ dquote ++ " not found. Available: "
                           ++ join ", " (keys (allAgents cPre));
            success := false;
            chainElapsed := chainElapsed rPre |})
        /\ spawned final = spawned cPre
        /\ forall j, List.length pre < j ->
             nth_error (stepStates final) j =
             option_map (fun s => {| stepAgent := agent s; status := pending;
                                     elapsed := 0; lastWork := "" |})
                        (nth_error (steps chain) j))
  /\ (forall c chain pre step post task ctxModel cPre rPre agentDef cRun result,
        activeChain c = Some chain ->
        steps chain = (pre ++ step :: post)%list ->
        runSteps child pre 0 task task ctxModel 0 (resetSteps c chain) = (cPre, rPre) ->
        success rPre = true ->
        get String.eqb (allAgents cPre) (toLowerCase (agent step)) = Some agentDef ->
        runAgent child (startStep cPre (List.length pre)) agentDef
                 (resolvePrompt (prompt step) (chainOutput rPre) task)
                 (List.length pre) ctxModel = (cRun, result) ->
        exitCode result <> 0%Z ->
        exists final,
          runChain child c task ctxModel =
          (final,
           {| chainOutput := "Error at step " ++ showNat (List.length pre + 1) ++ " ("
                             ++ agent step ++ "): " ++ output result;
              success := false;
              chainElapsed := chainElapsed rPre + resultElapsed result |})
          /\ spawned final = spawned cRun
          /\ List.length (spawned final) = S (List.length (spawned cPre))
          /\ forall j, List.length pre < j ->
               nth_error (stepStates final) j =
               option_map (fun s => {| stepAgent := agent s; status := pending;
                                       elapsed := 0; lastWork := "" |})
                          (nth_error (steps chain) j)).
Proof.
  split.
  - intros c chain pre step post task ctxModel cPre rPre Hactive Hsteps Hpre Hok Hmissing.
    unfold runChain. rewrite Hactive, Hsteps, runSteps_app.
    rewrite <- Hsteps, Hpre, Hok. cbn [runSteps Nat.add].
    change (allAgents (startStep cPre (List.length pre))) with (allAgents cPre).
    rewrite Hmissing. eexists. split; [reflexivity|]. split; [reflexivity|].
    intros j Hj. simpl. rewrite !updateStep_other by lia.
    replace cPre with (fst (runSteps child pre 0 task task ctxModel 0 (resetSteps c chain)))
      by (now rewrite Hpre).
    rewrite runSteps_untouched by lia. apply reset_pending.
  - intros c chain pre step post task ctxModel cPre rPre agentDef cRun result
           Hactive Hsteps Hpre Hok Hfound Hrun Hcode.
    unfold runChain. rewrite Hactive, Hsteps, runSteps_app.
    rewrite <- Hsteps, Hpre, Hok. cbn [runSteps Nat.add].
    change (allAgents (startStep cPre (List.length pre))) with (allAgents cPre).
    rewrite Hfound, Hrun.
    assert (Hne : negb (Z.eqb (exitCode result) 0) = true).
    { apply negb_true_iff. now apply Z.eqb_neq. }
    rewrite Hne. eexists. split; [reflexivity|]. split; [reflexivity|]. split.
    + simpl. replace cRun with (fst (runAgent child (startStep cPre (List.length pre)) agentDef
                 (resolvePrompt (prompt step) (chainOutput rPre) task)
                 (List.length pre) ctxModel)) by (now rewrite Hrun).
      unfold runAgent.
      destruct (ending (child (List.length (spawned (startStep cPre (List.length pre))))
                          (runAgentSpawn (startStep cPre (List.length pre)) agentDef
                             (resolvePrompt (prompt step) (chainOutput rPre) task) ctxModel)));
        simpl; rewrite length_app; simpl; lia.
    + intros j Hj. simpl. rewrite updateStep_other by lia.
      replace cRun with (fst (runAgent child (startStep cPre (List.length pre)) agentDef
                 (resolvePrompt (prompt step) (chainOutput rPre) task)
                 (List.length pre) ctxModel)) by (now rewrite Hrun).
      rewrite runAgent_steps by lia. simpl. rewrite updateStep_other by lia.
      replace cPre with (fst (runSteps child pre 0 task task ctxModel 0 (resetSteps c chain)))
        by (now rewrite Hpre).
      rewrite runSteps_untouched by lia. apply reset_pending.
Qed.

End WithHost.

(** The three-step chain whose second worker exits with code 2: the first
    step succeeds, the result names step 2 and builder, two workers were
    spawned and the third step is still pending. *)
Lemma runChain_second_of_three_fails :
  exists final,
    runChain (H := Fixture.host) Fixture.secondFails Fixture.chainState "fix it"
             Fixture.anthropic =
    (final,
     {| chainOutput := "Error at step 2 (builder): boom";
        success := false;
        chainElapsed := 1500 |})
    /\ List.length (spawned final) = 2
    /\ option_map status (nth_error (stepStates final) 2) = Some pending.
Proof.
  pose (first := {| agent := "scout"; prompt := "Explore: $INPUT" |}).
  pose (second := {| agent := "builder"; prompt := "Build: $INPUT" |}).
  pose (third := {| agent := "scout"; prompt := "Review $INPUT for $ORIGINAL" |}).
  pose (pre := runSteps (H := Fixture.host) Fixture.secondFails [first] 0 "fix it" "fix it"
                        Fixture.anthropic 0 (resetSteps Fixture.chainState Fixture.chain3)).
  pose (ran := runAgent (H := Fixture.host) Fixture.secondFails
                        (startStep (fst pre) 1) Fixture.builder
                        (resolvePrompt (prompt second) (chainOutput (snd pre)) "fix it")
                        1 Fixture.anthropic).
  destruct (proj2 (runChain_fails_fast (H := Fixture.host) Fixture.secondFails)
              Fixture.chainState Fixture.chain3 [first] second [third] "fix it"
              Fixture.anthropic (fst pre) (snd pre) Fixture.builder (fst ran) (snd ran)
              eq_refl eq_refl (surjective_pairing pre) eq_refl eq_refl
              (surjective_pairing ran))
    as [final [Hrun [_ [Hlen Hpending]]]].
  - vm_compute. discriminate.
  - exists final. split; [exact Hrun|]. split; [exact Hlen|].
    rewrite (Hpending 2) by (simpl; lia). reflexivity.
Defined.

End ChainProofs.

(* ===================================================================== *)
(** * One running child per identity: the Dispatcher (C3) *)
(* ===================================================================== *)

Module TeamProofs.
Import JS Regex Json Facts Invariants AgentTeam.

Lemma nget_set {V : Type} (o : list (nat * V)) k k' v :
  get Nat.eqb (set Nat.eqb o k v) k' = if Nat.eqb k k' then Some v else get Nat.eqb o k'.
Proof. apply get_set. apply Nat.eqb_eq. Qed.

Lemma nget_delete_same {V : Type} (o : list (nat * V)) k :
  NoDup (keys o) -> get Nat.eqb (delete Nat.eqb o k) k = None.
Proof. apply get_delete_same. apply Nat.eqb_eq. Qed.

Lemma nget_delete_other {V : Type} (o : list (nat * V)) k k' :
  k <> k' -> get Nat.eqb (delete Nat.eqb o k) k' = get Nat.eqb o k'.
Proof. apply get_delete_other. apply Nat.eqb_eq. Qed.

Lemma nget_delete {V : Type} (o : list (nat * V)) k k' v :
  NoDup (keys o) ->
  get Nat.eqb (delete Nat.eqb o k) k' = Some v -> k <> k' /\ get Nat.eqb o k' = Some v.
Proof.
  intros Hnd Hg. destruct (Nat.eq_dec k k') as [->|Hne].
  - rewrite nget_delete_same in Hg by assumption. discriminate.
  - rewrite nget_delete_other in Hg by assumption. now split.
Qed.

Lemma lookupState_inv (w : World) (key : string) (addr : nat) (st : AgentState) :
  lookupState w key = Some (addr, st) ->
  get String.eqb (agentStates w) key = Some addr /\ stateAt w addr = Some st.
Proof.
  unfold lookupState. destruct (get String.eqb (agentStates w) key) as [a|]; [|discriminate].
  destruct (stateAt w a) as [s|] eqn:E; [|discriminate].
  intros [= <- <-]. now split.
Qed.

(** A heap update that keeps the status of the object keeps the invariant. *)
Lemma heap_update_preserves (w : World) (a : nat) (st st' : AgentState) :
  TeamInv w -> stateAt w a = Some st -> status st' = status st ->
  TeamInv (withHeap w (set Nat.eqb (heap w) a st')).
Proof.
  intros Hinv Hst Hsame. destruct Hinv as [Hnd Hfr Hrun Huni Hcur].
  constructor; simpl; try assumption.
  intros pid p Hg. destruct (Hrun pid p Hg) as [s [Hs Hr]].
  unfold stateAt. simpl. rewrite nget_set.
  destruct (Nat.eqb a (owner p)) eqn:E.
  - apply Nat.eqb_eq in E. subst a. exists st'. split; [reflexivity|].
    unfold stateAt in *. rewrite Hs in Hst. injection Hst as <-. congruence.
  - now exists s.
Qed.

(** Replacing the closure state of a child by one with the same captured
    object and identity keeps the invariant. *)
Lemma proc_update_preserves (w : World) (pid : nat) (p p' : Proc) :
  TeamInv w -> get Nat.eqb (procs w) pid = Some p ->
  owner p' = owner p -> ownerKey p' = ownerKey p ->
  TeamInv (withProcs w (set Nat.eqb (procs w) pid p')).
Proof.
  intros Hinv Hp Ho Hk. destruct Hinv as [Hnd Hfr Hrun Huni Hcur].
  constructor; simpl.
  - apply NoDup_keys_set; [apply Nat.eqb_eq | assumption].
  - intros q pq. rewrite nget_set. destruct (Nat.eqb pid q) eqn:E.
    + apply Nat.eqb_eq in E. subst q. intros _. eauto.
    + apply Hfr.
  - intros q pq. rewrite nget_set. destruct (Nat.eqb pid q) eqn:E.
    + intros [= <-]. rewrite Ho. eauto.
    + apply Hrun.
  - intros q pq q' pq'. rewrite !nget_set.
    destruct (Nat.eqb pid q) eqn:E, (Nat.eqb pid q') eqn:E';
      try apply Nat.eqb_eq in E; try apply Nat.eqb_eq in E'; subst.
    + reflexivity.
    + intros [= <-] Hq' Hown. rewrite Ho in Hown. eauto.
    + intros Hq [= <-] Hown. rewrite Ho in Hown. eauto.
    + apply Huni.
  - intros q pq. rewrite nget_set. destruct (Nat.eqb pid q) eqn:E.
    + intros [= <-]. rewrite Ho, Hk. eauto.
    + apply Hcur.
Qed.

(** The end of a child: its handle leaves the set, and its state object may
    take any status. *)
Lemma proc_end_preserves (w : World) (pid : nat) (p : Proc) (st' : AgentState) :
  TeamInv w -> get Nat.eqb (procs w) pid = Some p ->
  TeamInv (withProcs (withHeap w (set Nat.eqb (heap w) (owner p) st'))
                     (delete Nat.eqb (procs w) pid)).
Proof.
  intros Hinv Hp. destruct Hinv as [Hnd Hfr Hrun Huni Hcur].
  constructor; simpl.
  - apply NoDup_keys_delete. assumption.
  - intros q pq Hq. apply nget_delete in Hq; [|assumption]. destruct Hq. eauto.
  - intros q pq Hq. apply nget_delete in Hq; [|assumption]. destruct Hq as [Hne Hq].
    destruct (Hrun q pq Hq) as [s [Hs Hr]].
    exists s. split; [|assumption]. unfold stateAt. simpl. rewrite nget_set.
    destruct (Nat.eqb (owner p) (owner pq)) eqn:E; [|exact Hs].
    apply Nat.eqb_eq in E. exfalso. apply Hne. now apply (Huni pid p q pq).
  - intros q pq q' pq' Hq Hq'.
    apply nget_delete in Hq; [|assumption]. apply nget_delete in Hq'; [|assumption].
    destruct Hq, Hq'. eauto.
  - intros q pq Hq. apply nget_delete in Hq; [|assumption]. destruct Hq. eauto.
Qed.

Section WithHost.
Context {H : Host}.

Lemma dispatch_preserves (w : World) agentName task ctxModel now :
  TeamInv w -> TeamInv (fst (dispatchAgent w agentName task ctxModel now)).
Proof.
  intros Hinv. unfold dispatchAgent.
  destruct (lookupState w (toLowerCase agentName)) as [[addr st]|] eqn:El; [|exact Hinv].
  destruct (isRunning (status st)) eqn:Er; [exact Hinv|].
  apply lookupState_inv in El. destruct El as [Hkey Hst].
  destruct Hinv as [Hnd Hfr Hrun Huni Hcur].
  assert (Hfree : forall q pq, get Nat.eqb (procs w) q = Some pq -> owner pq <> addr).
  { intros q pq Hq Heq. destruct (Hrun q pq Hq) as [s [Hs Hr]].
    rewrite Heq, Hst in Hs. injection Hs as <-. rewrite Hr in Er. discriminate. }
  simpl. constructor; simpl.
  - apply NoDup_keys_set; [apply Nat.eqb_eq | assumption].
  - intros q pq. rewrite nget_set. destruct (Nat.eqb (nextPid w) q) eqn:E.
    + apply Nat.eqb_eq in E. subst q. lia.
    + intros Hq. apply Hfr in Hq. lia.
  - intros q pq. rewrite nget_set. unfold stateAt. simpl.
    destruct (Nat.eqb (nextPid w) q) eqn:E.
    + intros [= <-]. simpl. rewrite nget_set, Nat.eqb_refl. eauto.
    + intros Hq. destruct (Hrun q pq Hq) as [s [Hs Hr]].
      rewrite nget_set. destruct (Nat.eqb addr (owner pq)) eqn:Ea.
      * apply Nat.eqb_eq in Ea. exfalso. now apply (Hfree q pq Hq).
      * eauto.
  - intros q pq q' pq'. rewrite !nget_set.
    destruct (Nat.eqb (nextPid w) q) eqn:E, (Nat.eqb (nextPid w) q') eqn:E';
      try apply Nat.eqb_eq in E; try apply Nat.eqb_eq in E'; subst.
    + reflexivity.
    + intros [= <-] Hq' Hown. simpl in Hown. exfalso. now apply (Hfree q' pq' Hq').
    + intros Hq [= <-] Hown. simpl in Hown. exfalso. now apply (Hfree q pq Hq).
    + apply Huni.
  - intros q pq. rewrite nget_set. destruct (Nat.eqb (nextPid w) q) eqn:E.
    + intros [= <-]. simpl. exact Hkey.
    + apply Hcur.
Qed.

Lemma event_preserves (w : World) (pid : nat) (ev : ProcEvent) :
  TeamInv w -> TeamInv (fst (onEvent w pid ev)).
Proof.
  intros Hinv. unfold onEvent.
  destruct (get Nat.eqb (procs w) pid) as [p|] eqn:Ep; [|exact Hinv].
  destruct (stateAt w (owner p)) as [st|] eqn:Es; [|exact Hinv].
  destruct ev as [chunk|now|code now|msg now]; simpl fst.
  - match goal with
    | |- TeamInv (withProcs ?w0 _) =>
        apply (proc_update_preserves w0 pid p); [|exact Ep|reflexivity|reflexivity]
    end.
    now apply (heap_update_preserves w (owner p) st).
  - now apply (heap_update_preserves w (owner p) st).
  - now apply proc_end_preserves.
  - now apply proc_end_preserves.
Qed.

(** A dispatch whose [spawn] throws adds no child, and the object it marks
    running was captured by none. *)
Lemma thrown_preserves (w : World) agentName task ctxModel now :
  TeamInv w -> TeamInv (fst (dispatchThrown w agentName task ctxModel now)).
Proof.
  intros Hinv. unfold dispatchThrown.
  destruct (lookupState w (toLowerCase agentName)) as [[addr st]|] eqn:El; [|exact Hinv].
  destruct (isRunning (status st)) eqn:Er; [exact Hinv|].
  apply lookupState_inv in El. destruct El as [Hkey Hst].
  destruct Hinv as [Hnd Hfr Hrun Huni Hcur].
  constructor; simpl; try assumption.
  intros q pq Hq. destruct (Hrun q pq Hq) as [s [Hs Hr]].
  unfold stateAt. simpl. rewrite nget_set.
  destruct (Nat.eqb addr (owner pq)) eqn:Ea; [|now exists s].
  apply Nat.eqb_eq in Ea. subst addr. rewrite Hst in Hs. injection Hs as <-.
  rewrite Hr in Er. discriminate.
Qed.

Lemma tick_preserves (w : World) (n now : nat) :
  TeamInv w -> TeamInv (timerTick w n now).
Proof.
  intros Hinv. unfold timerTick.
  destruct (nth_error (timers w) n) as [[addr start]|]; [|exact Hinv].
  unfold updateState. destruct (stateAt w addr) as [st|] eqn:Es; [|exact Hinv].
  now apply (heap_update_preserves w addr st).
Qed.

Lemma team_run_preserves (ops : list Op) :
  forall w, forallb (fun op => negb (isActivation op)) ops = true ->
            TeamInv w -> TeamInv (run w ops).
Proof.
  induction ops as [|op ops IH]; intros w Hops Hinv; [exact Hinv|].
  simpl in Hops. apply andb_true_iff in Hops. destruct Hops as [Hop Hops].
  unfold run. simpl. apply IH; [assumption|].
  destruct op; simpl; try discriminate.
  - now apply dispatch_preserves.
  - now apply event_preserves.
  - now apply thrown_preserves.
  - now apply tick_preserves.
Qed.

Lemma no_children_inv (w : World) : procs w = [] -> TeamInv w.
Proof.
  intros E. constructor; rewrite E; simpl; try (intros; discriminate). constructor.
Qed.

Lemma inv_one_child (w : World) (key : string) :
  TeamInv w -> List.length (runningFor w key) <= 1.
Proof.
  intros [Hnd Hfr Hrun Huni Hcur]. unfold runningFor.
  apply filter_at_most_one; [assumption|].
  intros k v k' v' Hin Hin' Hf Hf'. simpl in Hf, Hf'.
  apply String.eqb_eq in Hf, Hf'.
  apply (In_get Nat.eqb Nat.eqb_eq) in Hin, Hin'; try assumption.
  apply (Huni k v k' v'); try assumption.
  pose proof (Hcur k v Hin) as H1. pose proof (Hcur k' v' Hin') as H2.
  rewrite Hf in H1. rewrite Hf' in H2. congruence.
Qed.

End WithHost.

End TeamProofs.

(* ===================================================================== *)
(** * The Pool: identities (C9) and one running child each (C3) *)
(* ===================================================================== *)

Module PoolProofs.
Import JS Regex Json Facts Invariants SubagentWidget.
Import TeamProofs.

Lemma pool_lookup_inv (w : World) (n addr : nat) (st : SubState) :
  lookupState w n = Some (addr, st) ->
  get Nat.eqb (agents w) n = Some addr /\ stateAt w addr = Some st.
Proof.
  unfold lookupState. destruct (get Nat.eqb (agents w) n) as [a|]; [|discriminate].
  destruct (stateAt w a) as [s|] eqn:E; [|discriminate].
  intros [= <- <-]. now split.
Qed.

(** The invariant reads the heap, the children and the three counters
    only. *)
Lemma inv_ext (w w' : World) :
  PoolInv w -> heap w' = heap w -> procs w' = procs w -> nextPid w' = nextPid w ->
  nextAddr w' = nextAddr w -> nextId w' = nextId w -> PoolInv w'.
Proof.
  intros [Hnd Hfr Hrun Huni Hbd Hids] Hh Hp Hn Ha Hi.
  constructor; unfold stateAt in *; rewrite ?Hh, ?Hp, ?Hn, ?Ha, ?Hi; assumption.
Qed.

Lemma pool_heap_update (w : World) (a : nat) (st st' : SubState) :
  PoolInv w -> stateAt w a = Some st ->
  status st' = status st -> id st' = id st ->
  PoolInv (withHeapProcs w (set Nat.eqb (heap w) a st') (procs w)).
Proof.
  intros [Hnd Hfr Hrun Huni Hbd Hids] Hst Hs Hi.
  constructor; simpl; try assumption; unfold stateAt in *; simpl.
  - intros pid p Hg. destruct (Hrun pid p Hg) as [s [Hs0 [Hr Hid]]].
    rewrite nget_set. destruct (Nat.eqb a (owner p)) eqn:E.
    + apply Nat.eqb_eq in E. subst a. rewrite Hs0 in Hst. injection Hst as <-.
      exists st'. repeat split; congruence.
    + now exists s.
  - intros b sb. rewrite nget_set. destruct (Nat.eqb a b) eqn:E.
    + apply Nat.eqb_eq in E. subst b. intros [= <-].
      destruct (Hbd a st Hst). split; [assumption | now rewrite Hi].
    + apply Hbd.
  - intros b c sb sc. rewrite !nget_set.
    destruct (Nat.eqb a b) eqn:E, (Nat.eqb a c) eqn:E';
      try apply Nat.eqb_eq in E; try apply Nat.eqb_eq in E'; subst.
    + reflexivity.
    + intros [= <-] Hc Hid. rewrite Hi in Hid. eauto.
    + intros Hb [= <-] Hid. rewrite Hi in Hid. eauto.
    + apply Hids.
Qed.

Lemma pool_proc_update (w : World) (pid : nat) (p p' : Proc) :
  PoolInv w -> get Nat.eqb (procs w) pid = Some p ->
  owner p' = owner p -> ownerId p' = ownerId p ->
  PoolInv (withHeapProcs w (heap w) (set Nat.eqb (procs w) pid p')).
Proof.
  intros [Hnd Hfr Hrun Huni Hbd Hids] Hp Ho Hi.
  constructor; simpl; try assumption.
  - apply NoDup_keys_set; [apply Nat.eqb_eq | assumption].
  - intros q pq. rewrite nget_set. destruct (Nat.eqb pid q) eqn:E.
    + apply Nat.eqb_eq in E. subst q. intros _. eauto.
    + apply Hfr.
  - intros q pq. rewrite nget_set. destruct (Nat.eqb pid q) eqn:E.
    + intros [= <-]. rewrite Ho, Hi. eauto.
    + apply Hrun.
  - intros q pq q' pq'. rewrite !nget_set.
    destruct (Nat.eqb pid q) eqn:E, (Nat.eqb pid q') eqn:E';
      try apply Nat.eqb_eq in E; try apply Nat.eqb_eq in E'; subst.
    + reflexivity.
    + intros [= <-] Hq' Hown. rewrite Ho in Hown. eauto.
    + intros Hq [= <-] Hown. rewrite Ho in Hown. eauto.
    + apply Huni.
Qed.

Lemma pool_end (w : World) (pid : nat) (p : Proc) (st st' : SubState) :
  PoolInv w -> get Nat.eqb (procs w) pid = Some p ->
  stateAt w (owner p) = Some st -> id st' = id st ->
  PoolInv (withHeapProcs w (set Nat.eqb (heap w) (owner p) st')
                         (delete Nat.eqb (procs w) pid)).
Proof.
  intros [Hnd Hfr Hrun Huni Hbd Hids] Hp Hst Hi.
  constructor; simpl; unfold stateAt in *; simpl.
  - now apply NoDup_keys_delete.
  - intros q pq Hq. apply nget_delete in Hq; [|assumption]. destruct Hq. eauto.
  - intros q pq Hq. apply nget_delete in Hq; [|assumption]. destruct Hq as [Hne Hq].
    destruct (Hrun q pq Hq) as [s [Hs Hr]].
    exists s. split; [|assumption]. rewrite nget_set.
    destruct (Nat.eqb (owner p) (owner pq)) eqn:E; [|exact Hs].
    apply Nat.eqb_eq in E. exfalso. apply Hne. now apply (Huni pid p q pq).
  - intros q pq q' pq' Hq Hq'.
    apply nget_delete in Hq; [|assumption]. apply nget_delete in Hq'; [|assumption].
    destruct Hq, Hq'. eauto.
  - intros b sb. rewrite nget_set. destruct (Nat.eqb (owner p) b) eqn:E.
    + apply Nat.eqb_eq in E. subst b. intros [= <-].
      destruct (Hbd (owner p) st Hst). split; [assumption | now rewrite Hi].
    + apply Hbd.
  - intros b c sb sc. rewrite !nget_set.
    destruct (Nat.eqb (owner p) b) eqn:E, (Nat.eqb (owner p) c) eqn:E';
      try apply Nat.eqb_eq in E; try apply Nat.eqb_eq in E'; subst.
    + reflexivity.
    + intros [= <-] Hc Hid. rewrite Hi in Hid. eauto.
    + intros Hb [= <-] Hid. rewrite Hi in Hid. eauto.
    + apply Hids.
Qed.

Section WithHost.
Context {H : Host}.

Lemma processLine_keeps (st : SubState) (line : string) :
  status (processLine st line) = status st /\ id (processLine st line) = id st.
Proof.
  unfold processLine.
  destruct (negb (truthy (trim line))); [now split|].
  destruct (JSON_parse line) as [event|]; [|now split].
  destruct (textDeltaOf event); [now split|].
  destruct event; try (now split);
    destruct (isString _ "message_update"); try (now split);
    destruct (isToolStart _); now split.
Qed.

Lemma processLines_keep (lines : list string) (st : SubState) :
  status (fold_left processLine lines st) = status st
  /\ id (fold_left processLine lines st) = id st.
Proof.
  revert st. induction lines as [|l lines IH]; intros st; simpl; [now split|].
  destruct (IH (processLine st l)) as [-> ->]. apply processLine_keeps.
Qed.

(** Spawning for a state object that no running child has captured. *)
Lemma spawn_preserves (w : World) (addr : nat) (st0 st : SubState) promptText ctxModel now :
  PoolInv w -> stateAt w addr = Some st0 ->
  (forall q pq, get Nat.eqb (procs w) q = Some pq -> owner pq <> addr) ->
  status st = running -> id st = id st0 ->
  PoolInv (spawnAgent w addr st promptText ctxModel now).
Proof.
  intros [Hnd Hfr Hrun Huni Hbd Hids] Hst Hfree Hs Hi.
  unfold spawnAgent. constructor; simpl; unfold stateAt in *; simpl.
  - apply NoDup_keys_set; [apply Nat.eqb_eq | assumption].
  - intros q pq. rewrite nget_set. destruct (Nat.eqb (nextPid w) q) eqn:E.
    + apply Nat.eqb_eq in E. subst q. lia.
    + intros Hq. apply Hfr in Hq. lia.
  - intros q pq. rewrite nget_set. destruct (Nat.eqb (nextPid w) q) eqn:E.
    + intros [= <-]. simpl. rewrite nget_set, Nat.eqb_refl. eexists. repeat split.
      exact Hs.
    + intros Hq. destruct (Hrun q pq Hq) as [s [Hs0 Hr]].
      rewrite nget_set. destruct (Nat.eqb addr (owner pq)) eqn:Ea.
      * apply Nat.eqb_eq in Ea. exfalso. now apply (Hfree q pq Hq).
      * eauto.
  - intros q pq q' pq'. rewrite !nget_set.
    destruct (Nat.eqb (nextPid w) q) eqn:E, (Nat.eqb (nextPid w) q') eqn:E';
      try apply Nat.eqb_eq in E; try apply Nat.eqb_eq in E'; subst.
    + reflexivity.
    + intros [= <-] Hq' Hown. simpl in Hown. exfalso. now apply (Hfree q' pq' Hq').
    + intros Hq [= <-] Hown. simpl in Hown. exfalso. now apply (Hfree q pq Hq).
    + apply Huni.
  - intros b sb. rewrite nget_set. destruct (Nat.eqb addr b) eqn:E.
    + apply Nat.eqb_eq in E. subst b. intros [= <-]. simpl.
      destruct (Hbd addr st0 Hst). split; [assumption | now rewrite Hi].
    + apply Hbd.
  - intros b c sb sc. rewrite !nget_set.
    destruct (Nat.eqb addr b) eqn:E, (Nat.eqb addr c) eqn:E';
      try apply Nat.eqb_eq in E; try apply Nat.eqb_eq in E'; subst.
    + reflexivity.
    + intros [= <-] Hc Hid. simpl in Hid. rewrite Hi in Hid. eauto.
    + intros Hb [= <-] Hid. simpl in Hid. rewrite Hi in Hid. eauto.
    + apply Hids.
Qed.

Lemma create_preserves (w : World) taskText ctxModel now :
  PoolInv w -> PoolInv (fst (create w taskText ctxModel now)).
Proof.
  intros Hinv. unfold create. cbn [fst].
  pose proof Hinv as [Hnd Hfr Hrun Huni Hbd Hids].
  match goal with
  | |- PoolInv (spawnAgent ?w1 ?a ?st _ _ _) =>
      apply (spawn_preserves w1 a st st); try reflexivity
  end.
  - constructor; simpl; try assumption; unfold stateAt in *; simpl.
    + intros pid p Hg. destruct (Hrun pid p Hg) as [s [Hs Hr]].
      exists s. split; [|assumption]. rewrite nget_set.
      destruct (Nat.eqb (nextAddr w) (owner p)) eqn:E; [|exact Hs].
      apply Nat.eqb_eq in E. destruct (Hbd (owner p) s Hs). lia.
    + intros b sb. rewrite nget_set. destruct (Nat.eqb (nextAddr w) b) eqn:E.
      * apply Nat.eqb_eq in E. subst b. intros [= <-]. simpl. lia.
      * intros Hb. destruct (Hbd b sb Hb). lia.
    + intros b c sb sc. rewrite !nget_set.
      destruct (Nat.eqb (nextAddr w) b) eqn:E, (Nat.eqb (nextAddr w) c) eqn:E';
        try apply Nat.eqb_eq in E; try apply Nat.eqb_eq in E'; subst.
      * reflexivity.
      * intros [= <-] Hc Hid. simpl in Hid. destruct (Hbd c sc Hc). lia.
      * intros Hb [= <-] Hid. simpl in Hid. destruct (Hbd b sb Hb). lia.
      * apply Hids.
  - unfold stateAt. simpl. now rewrite nget_set, Nat.eqb_refl.
  - simpl. intros q pq Hq Heq. destruct (Hrun q pq Hq) as [s [Hs Hr]].
    destruct (Hbd (owner pq) s Hs). lia.
Qed.

Lemma continue_preserves (w : World) n promptText ctxModel now :
  PoolInv w -> PoolInv (fst (subagent_continue w n promptText ctxModel now)).
Proof.
  intros Hinv. unfold subagent_continue.
  destruct (lookupState w n) as [[addr st]|] eqn:El; [|exact Hinv].
  destruct (isRunning (status st)) eqn:Er; [exact Hinv|].
  apply pool_lookup_inv in El. destruct El as [_ Hst]. cbn [fst].
  apply (spawn_preserves w addr st); try assumption; try reflexivity.
  intros q pq Hq Heq. destruct (pool_running w Hinv q pq Hq) as [s [Hs [Hr _]]].
  rewrite Heq, Hst in Hs. injection Hs as <-. rewrite Hr in Er. discriminate.
Qed.

(** Marking running a state object that no running child has captured. *)
Lemma mark_preserves (w : World) (addr : nat) (st0 st : SubState) :
  PoolInv w -> stateAt w addr = Some st0 ->
  (forall q pq, get Nat.eqb (procs w) q = Some pq -> owner pq <> addr) ->
  id st = id st0 ->
  PoolInv (withHeapProcs w (set Nat.eqb (heap w) addr st) (procs w)).
Proof.
  intros [Hnd Hfr Hrun Huni Hbd Hids] Hst Hfree Hi.
  constructor; simpl; try assumption; unfold stateAt in *; simpl.
  - intros q pq Hq. destruct (Hrun q pq Hq) as [s [Hs0 Hr]].
    rewrite nget_set. destruct (Nat.eqb addr (owner pq)) eqn:Ea.
    + apply Nat.eqb_eq in Ea. exfalso. now apply (Hfree q pq Hq).
    + eauto.
  - intros b sb. rewrite nget_set. destruct (Nat.eqb addr b) eqn:E.
    + apply Nat.eqb_eq in E. subst b. intros [= <-].
      destruct (Hbd addr st0 Hst). split; [assumption | now rewrite Hi].
    + apply Hbd.
  - intros b c sb sc. rewrite !nget_set.
    destruct (Nat.eqb addr b) eqn:E, (Nat.eqb addr c) eqn:E';
      try apply Nat.eqb_eq in E; try apply Nat.eqb_eq in E'; subst.
    + reflexivity.
    + intros [= <-] Hc Hid. rewrite Hi in Hid. eauto.
    + intros Hb [= <-] Hid. rewrite Hi in Hid. eauto.
    + apply Hids.
Qed.

Lemma createThrown_preserves (w : World) taskText ctxModel now :
  PoolInv w -> PoolInv (fst (createThrown w taskText ctxModel now)).
Proof.
  intros Hinv. unfold createThrown, spawnThrown. cbn [fst].
  pose proof Hinv as [Hnd Hfr Hrun Huni Hbd Hids].
  constructor; simpl; try assumption; unfold stateAt in *; simpl.
  - intros pid p Hg. destruct (Hrun pid p Hg) as [s [Hs Hr]].
    exists s. split; [|assumption]. rewrite nget_set.
    destruct (Nat.eqb (nextAddr w) (owner p)) eqn:E; [|exact Hs].
    apply Nat.eqb_eq in E. destruct (Hbd (owner p) s Hs). lia.
  - intros b sb. rewrite nget_set. destruct (Nat.eqb (nextAddr w) b) eqn:E.
    + apply Nat.eqb_eq in E. subst b. intros [= <-]. simpl. lia.
    + intros Hb. destruct (Hbd b sb Hb). lia.
  - intros b c sb sc. rewrite !nget_set.
    destruct (Nat.eqb (nextAddr w) b) eqn:E, (Nat.eqb (nextAddr w) c) eqn:E';
      try apply Nat.eqb_eq in E; try apply Nat.eqb_eq in E'; subst.
    + reflexivity.
    + intros [= <-] Hc Hid. simpl in Hid. destruct (Hbd c sc Hc). lia.
    + intros Hb [= <-] Hid. simpl in Hid. destruct (Hbd b sb Hb). lia.
    + apply Hids.
Qed.

Lemma continueThrown_preserves (w : World) n promptText ctxModel :
  PoolInv w -> PoolInv (fst (continueThrown w n promptText ctxModel)).
Proof.
  intros Hinv. unfold continueThrown.
  destruct (lookupState w n) as [[addr st]|] eqn:El; [|exact Hinv].
  destruct (isRunning (status st)) eqn:Er; [exact Hinv|].
  apply pool_lookup_inv in El. destruct El as [_ Hst]. cbn [fst].
  match goal with
  | |- PoolInv (spawnThrown ?w1 _ _ _) =>
      apply (inv_ext (withHeapProcs w (heap w1) (procs w))); try reflexivity
  end.
  apply (mark_preserves w addr st); try assumption; try reflexivity.
  intros q pq Hq Heq. destruct (pool_running w Hinv q pq Hq) as [s [Hs [Hr _]]].
  rewrite Heq, Hst in Hs. injection Hs as <-. rewrite Hr in Er. discriminate.
Qed.

Lemma remove_preserves (w : World) n :
  PoolInv w -> PoolInv (fst (subagent_remove w n)).
Proof.
  intros Hinv. unfold subagent_remove.
  destruct (lookupState w n) as [[addr st]|]; [|exact Hinv].
  now apply (inv_ext w).
Qed.

Lemma pool_event_preserves (w : World) (pid : nat) (ev : ProcEvent) :
  PoolInv w -> PoolInv (onEvent w pid ev).
Proof.
  intros Hinv. unfold onEvent.
  destruct (get Nat.eqb (procs w) pid) as [p|] eqn:Ep; [|exact Hinv].
  destruct (stateAt w (owner p)) as [st|] eqn:Es; [|exact Hinv].
  destruct ev as [chunk|chunk|now|code now|msg now].
  - destruct (unsnoc (split newline_char (buffer p ++ chunk))) as [[lines lastPiece]|];
      [|exact Hinv].
    destruct (processLines_keep lines st) as [Hs Hi].
    match goal with
    | |- PoolInv (withHeapProcs w ?h (set Nat.eqb (procs w) pid ?p')) =>
        apply (inv_ext (withHeapProcs (withHeapProcs w h (procs w)) h
                          (set Nat.eqb (procs w) pid p'))); try reflexivity;
        apply (pool_proc_update (withHeapProcs w h (procs w)) pid p p');
          try reflexivity; try exact Ep
    end.
    now apply (pool_heap_update w (owner p) st).
  - destruct (truthy (trim chunk)); [|exact Hinv].
    now apply (pool_heap_update w (owner p) st).
  - now apply (pool_heap_update w (owner p) st).
  - match goal with
    | |- PoolInv ?w' =>
        apply (inv_ext (withHeapProcs w (heap w') (procs w'))); try reflexivity
    end.
    simpl. apply (pool_end w pid p st); try assumption. simpl.
    destruct (truthy (trim (buffer p))); [|reflexivity].
    apply processLine_keeps.
  - match goal with
    | |- PoolInv ?w' =>
        apply (inv_ext (withHeapProcs w (heap w') (procs w'))); try reflexivity
    end.
    simpl. apply (pool_end w pid p st); try assumption. simpl.
    destruct (truthy (trim (buffer p))); [|reflexivity].
    now rewrite (proj2 (processLine_keeps _ _)).
Qed.

Lemma step_preserves (w : World) (op : Op) :
  isReset op = false -> PoolInv w -> PoolInv (fst (step w op)).
Proof.
  intros Hop Hinv. destruct op; simpl in *; try discriminate; try assumption.
  - now apply create_preserves.
  - now apply continue_preserves.
  - now apply remove_preserves.
  - destruct (negb (truthy (trim argsText))); [exact Hinv | now apply create_preserves].
  - now apply continue_preserves.
  - now apply remove_preserves.
  - now apply pool_event_preserves.
  - now apply createThrown_preserves.
  - now apply continueThrown_preserves.
  - destruct (negb (truthy (trim argsText))); [exact Hinv | now apply createThrown_preserves].
  - now apply continueThrown_preserves.
Qed.

(** What one operation that is no reset does to the counter: a creation
    gives out its value and advances it by one, anything else leaves it. *)
Lemma step_counter (w : World) (op : Op) :
  isReset op = false ->
  match snd (step w op) with
  | Some n => n = nextId w /\ nextId (fst (step w op)) = S (nextId w)
  | None => nextId (fst (step w op)) = nextId w
  end.
Proof.
  intros Hop. destruct op; simpl in *; try discriminate; try reflexivity.
  - now split.
  - unfold subagent_continue. destruct (lookupState w n) as [[addr st]|]; [|reflexivity].
    now destruct (isRunning (status st)).
  - unfold subagent_remove. now destruct (lookupState w n) as [[addr st]|].
  - destruct (negb (truthy (trim argsText))); simpl; [reflexivity | now split].
  - unfold subagent_continue. destruct (lookupState w n) as [[addr st]|]; [|reflexivity].
    now destruct (isRunning (status st)).
  - unfold subagent_remove. now destruct (lookupState w n) as [[addr st]|].
  - unfold onEvent. destruct (get Nat.eqb (procs w) pid) as [p|]; [|reflexivity].
    destruct (stateAt w (owner p)) as [st|]; [|reflexivity].
    destruct ev; simpl; try reflexivity.
    + now destruct (unsnoc (split newline_char (buffer p ++ chunk))) as [[? ?]|].
    + now destruct (truthy (trim chunk)).
  - now split.
  - unfold continueThrown. destruct (lookupState w n) as [[addr st]|]; [|reflexivity].
    now destruct (isRunning (status st)).
  - destruct (negb (truthy (trim argsText))); simpl; [reflexivity | now split].
  - unfold continueThrown. destruct (lookupState w n) as [[addr st]|]; [|reflexivity].
    now destruct (isRunning (status st)).
Qed.

Lemma run_cons (w : World) (op : Op) (ops : list Op) :
  run w (op :: ops) =
  (fst (run (fst (step w op)) ops),
   (match snd (step w op) with Some n => [n] | None => [] end
    ++ snd (run (fst (step w op)) ops))%list).
Proof.
  simpl. destruct (step w op) as [w1 created]. simpl.
  now destruct (run w1 ops) as [w2 ids].
Qed.

Lemma run_ids (ops : list Op) :
  forall w, forallb (fun op => negb (isReset op)) ops = true ->
            StronglySorted lt (snd (run w ops))
            /\ Forall (fun n => nextId w <= n) (snd (run w ops)).
Proof.
  induction ops as [|op ops IH]; intros w Hops.
  - simpl. split; constructor.
  - simpl in Hops. apply andb_true_iff in Hops. destruct Hops as [Hop Hops].
    apply negb_true_iff in Hop.
    rewrite run_cons. cbn [snd].
    destruct (IH (fst (step w op)) Hops) as [Hsorted Hall].
    pose proof (step_counter w op Hop) as Hc.
    destruct (snd (step w op)) as [n|].
    + destruct Hc as [-> Hnext]. rewrite Hnext in Hall. simpl. split.
      * constructor; [assumption|].
        eapply Forall_impl; [|exact Hall]. simpl. intros a Ha. lia.
      * constructor; [lia|]. eapply Forall_impl; [|exact Hall]. simpl. intros a Ha. lia.
    + simpl. rewrite Hc in Hall. now split.
Qed.

Lemma pool_run_preserves (ops : list Op) :
  forall w, forallb (fun op => negb (isReset op)) ops = true ->
            PoolInv w -> PoolInv (fst (run w ops)).
Proof.
  induction ops as [|op ops IH]; intros w Hops Hinv; [exact Hinv|].
  simpl in Hops. apply andb_true_iff in Hops. destruct Hops as [Hop Hops].
  apply negb_true_iff in Hop. rewrite run_cons. cbn [fst].
  apply IH; [assumption|]. now apply step_preserves.
Qed.

Lemma initial_inv (dir : string) : PoolInv (initial dir).
Proof.
  constructor; simpl; unfold stateAt; simpl; try (intros; discriminate). constructor.
Qed.

Lemma pool_inv_one_child (w : World) (n : nat) :
  PoolInv w -> List.length (runningFor w n) <= 1.
Proof.
  intros [Hnd Hfr Hrun Huni Hbd Hids]. unfold runningFor.
  apply filter_at_most_one; [assumption|].
  intros k v k' v' Hin Hin' Hf Hf'. simpl in Hf, Hf'.
  apply Nat.eqb_eq in Hf, Hf'.
  apply (In_get Nat.eqb Nat.eqb_eq) in Hin, Hin'; try assumption.
  apply (Huni k v k' v'); try assumption.
  destruct (Hrun k v Hin) as [s [Hs [_ Hi]]].
  destruct (Hrun k' v' Hin') as [s' [Hs' [_ Hi']]].
  apply (Hids _ _ s s'); try assumption. congruence.
Qed.

End WithHost.

End PoolProofs.

(* ===================================================================== *)
(** * The Pool across clears *)
(* ===================================================================== *)

Module PoolLiveProofs.
Import JS Regex Json Facts Invariants SubagentWidget.
Import TeamProofs PoolProofs.

Lemma wasKilled_In (w : World) (pid : nat) : wasKilled w pid = true <-> In pid (killed w).
Proof.
  unfold wasKilled. rewrite existsb_exists. split.
  - intros [x [Hin Hx]]. apply Nat.eqb_eq in Hx. now subst.
  - intros Hin. exists pid. split; [assumption | apply Nat.eqb_refl].
Qed.

(** A heap update that keeps the status, the handle and the identity of the
    object. *)
Lemma live_heap_update (w : World) (a : nat) (st st' : SubState) :
  PoolLive w -> stateAt w a = Some st ->
  status st' = status st -> proc st' = proc st -> id st' = id st ->
  PoolLive (withHeapProcs w (set Nat.eqb (heap w) a st') (procs w)).
Proof.
  intros [Hpn Han Hpb Hkb Hhb Hh Hag Hcur Horph] Hst Hs Hp Hi.
  constructor; simpl; try assumption; unfold stateAt in *; simpl.
  - intros b sb. rewrite nget_set. destruct (Nat.eqb a b) eqn:E.
    + apply Nat.eqb_eq in E. subst b. intros [= <-]. rewrite Hp. now apply Hhb.
    + apply Hhb.
  - intros b sb pid p. rewrite nget_set. destruct (Nat.eqb a b) eqn:E.
    + apply Nat.eqb_eq in E. subst b. intros [= <-]. rewrite Hp. now apply Hh.
    + apply Hh.
  - intros n b Hg. destruct (Hag n b Hg) as [Hn [s [Hs0 Hid]]]. split; [assumption|].
    rewrite nget_set. destruct (Nat.eqb a b) eqn:E.
    + apply Nat.eqb_eq in E. subst b. exists st'. split; [reflexivity | congruence].
    + now exists s.
  - intros pid p Hg Hnk. destruct (Hcur pid p Hg Hnk) as [Ha [s [Hs0 [Hr Hpr]]]].
    split; [assumption|]. rewrite nget_set. destruct (Nat.eqb a (owner p)) eqn:E.
    + apply Nat.eqb_eq in E. subst a. exists st'. repeat split; congruence.
    + now exists s.
Qed.

Lemma live_proc_update (w : World) (pid : nat) (p p' : Proc) :
  PoolLive w -> get Nat.eqb (procs w) pid = Some p ->
  owner p' = owner p -> ownerId p' = ownerId p ->
  PoolLive (withHeapProcs w (heap w) (set Nat.eqb (procs w) pid p')).
Proof.
  intros [Hpn Han Hpb Hkb Hhb Hh Hag Hcur Horph] Hp Ho Hi.
  constructor; simpl; try assumption.
  - apply NoDup_keys_set; [apply Nat.eqb_eq | assumption].
  - intros q pq. rewrite nget_set. destruct (Nat.eqb pid q) eqn:E.
    + apply Nat.eqb_eq in E. subst q. intros [= <-]. rewrite Ho. eauto.
    + apply Hpb.
  - intros a st q pq Hst Hpr. rewrite nget_set. destruct (Nat.eqb pid q) eqn:E.
    + apply Nat.eqb_eq in E. subst q. intros [= <-]. rewrite Ho. eauto.
    + eauto.
  - intros q pq. rewrite nget_set. destruct (Nat.eqb pid q) eqn:E.
    + apply Nat.eqb_eq in E. subst q. intros [= <-]. rewrite Ho, Hi. eauto.
    + apply Hcur.
  - intros q pq n. rewrite nget_set. destruct (Nat.eqb pid q) eqn:E.
    + apply Nat.eqb_eq in E. subst q. intros [= <-]. rewrite Ho. eauto.
    + apply Horph.
Qed.

(** The end of a child: its entry goes, and the object it captured is marked
    as no longer running, without a handle. *)
Lemma live_end (w : World) (pid : nat) (p : Proc) (st st' : SubState) :
  PoolLive w -> get Nat.eqb (procs w) pid = Some p ->
  stateAt w (owner p) = Some st -> id st' = id st -> proc st' = None ->
  PoolLive (withHeapProcs w (set Nat.eqb (heap w) (owner p) st')
                          (delete Nat.eqb (procs w) pid)).
Proof.
  intros [Hpn Han Hpb Hkb Hhb Hh Hag Hcur Horph] Hp Hst Hi Hnone.
  constructor; simpl; try assumption; unfold stateAt in *; simpl.
  - now apply NoDup_keys_delete.
  - intros q pq Hq. apply nget_delete in Hq; [|assumption]. destruct Hq. eauto.
  - intros b sb. rewrite nget_set. destruct (Nat.eqb (owner p) b) eqn:E.
    + apply Nat.eqb_eq in E. subst b. intros [= <-]. rewrite Hnone.
      split; [now apply (Hhb _ st) | discriminate].
    + apply Hhb.
  - intros b sb q pq. rewrite nget_set. destruct (Nat.eqb (owner p) b) eqn:E.
    + intros [= <-]. rewrite Hnone. discriminate.
    + intros Hb Hpr Hq. apply nget_delete in Hq; [|assumption]. destruct Hq. eauto.
  - intros n b Hg. destruct (Hag n b Hg) as [Hn [s [Hs0 Hid]]]. split; [assumption|].
    rewrite nget_set. destruct (Nat.eqb (owner p) b) eqn:E.
    + apply Nat.eqb_eq in E. subst b. exists st'. split; [reflexivity | congruence].
    + now exists s.
  - intros q pq Hq Hnk. apply nget_delete in Hq; [|assumption]. destruct Hq as [Hne Hq].
    destruct (Hcur q pq Hq Hnk) as [Ha [s [Hs0 [Hr Hpr]]]].
    split; [assumption|]. rewrite nget_set.
    destruct (Nat.eqb (owner p) (owner pq)) eqn:E; [exfalso | now exists s].
    apply Nat.eqb_eq in E.
    destruct (in_dec Nat.eq_dec pid (killed w)) as [Hk|Hk].
    + apply (Horph pid p (ownerId pq) Hp Hk). now rewrite E.
    + destruct (Hcur pid p Hp Hk) as [_ [s' [Hs' [_ Hpr']]]].
      rewrite E, Hs0 in Hs'. injection Hs' as <-. congruence.
  - intros q pq n Hq Hk. apply nget_delete in Hq; [|assumption]. destruct Hq. eauto.
Qed.

Section WithHost.
Context {H : Host}.

Lemma processLine_handle (st : SubState) (line : string) :
  proc (processLine st line) = proc st.
Proof.
  unfold processLine.
  destruct (negb (truthy (trim line))); [reflexivity|].
  destruct (JSON_parse line) as [event|]; [|reflexivity].
  destruct (textDeltaOf event); [reflexivity|].
  destruct event; try reflexivity;
    destruct (isString _ "message_update"); try reflexivity;
    destruct (isToolStart _); reflexivity.
Qed.

Lemma processLines_handle (lines : list string) (st : SubState) :
  proc (fold_left processLine lines st) = proc st.
Proof.
  revert st. induction lines as [|l lines IH]; intros st; simpl; [reflexivity|].
  rewrite IH. apply processLine_handle.
Qed.

(** Spawning for the state object under its identity, when no child that
    was not signalled has captured it. *)
Lemma live_spawn (w : World) (addr : nat) (st0 st : SubState) promptText ctxModel now :
  PoolLive w -> stateAt w addr = Some st0 ->
  get Nat.eqb (agents w) (id st) = Some addr ->
  (forall q pq, get Nat.eqb (procs w) q = Some pq -> ~ In q (killed w) -> owner pq <> addr) ->
  status st = running -> id st = id st0 ->
  PoolLive (spawnAgent w addr st promptText ctxModel now).
Proof.
  intros [Hpn Han Hpb Hkb Hhb Hh Hag Hcur Horph] Hst Hmap Hfree Hs Hi.
  unfold spawnAgent. constructor; simpl; try assumption; unfold stateAt in *; simpl.
  - apply NoDup_keys_set; [apply Nat.eqb_eq | assumption].
  - intros q pq. rewrite nget_set. destruct (Nat.eqb (nextPid w) q) eqn:E.
    + apply Nat.eqb_eq in E. subst q. intros [= <-]. simpl.
      split; [lia | now apply (Hhb _ st0)].
    + intros Hq. destruct (Hpb q pq Hq). split; [lia | assumption].
  - intros q Hq. apply Hkb in Hq. lia.
  - intros b sb. rewrite nget_set. destruct (Nat.eqb addr b) eqn:E.
    + apply Nat.eqb_eq in E. subst b. intros [= <-]. simpl.
      split; [now apply (Hhb _ st0) | intros pid [= <-]; lia].
    + intros Hb. destruct (Hhb b sb Hb) as [Hlt Hpr]. split; [assumption|].
      intros pid Hpid. apply Hpr in Hpid. lia.
  - intros b sb q pq. rewrite !nget_set. destruct (Nat.eqb addr b) eqn:E.
    + apply Nat.eqb_eq in E. subst b. intros [= <-]. simpl. intros [= <-].
      rewrite Nat.eqb_refl. now intros [= <-].
    + intros Hb Hpr. destruct (Nat.eqb (nextPid w) q) eqn:E'.
      * apply Nat.eqb_eq in E'. subst q.
        destruct (Hhb b sb Hb) as [_ Hlt]. apply Hlt in Hpr. lia.
      * eauto.
  - intros n b Hg. destruct (Hag n b Hg) as [Hn [s [Hs0 Hid]]]. split; [assumption|].
    rewrite nget_set. destruct (Nat.eqb addr b) eqn:E.
    + apply Nat.eqb_eq in E. subst b. eexists. split; [reflexivity|]. simpl. congruence.
    + now exists s.
  - intros q pq. rewrite nget_set. destruct (Nat.eqb (nextPid w) q) eqn:E.
    + apply Nat.eqb_eq in E. subst q. intros [= <-] _. simpl. split; [assumption|].
      rewrite nget_set, Nat.eqb_refl. eexists. split; [reflexivity|].
      split; [exact Hs | reflexivity].
    + intros Hq Hnk. destruct (Hcur q pq Hq Hnk) as [Ha [s [Hs0 Hr]]].
      split; [assumption|]. rewrite nget_set.
      destruct (Nat.eqb addr (owner pq)) eqn:Ea; [|now exists s].
      apply Nat.eqb_eq in Ea. exfalso. now apply (Hfree q pq Hq Hnk).
  - intros q pq n. rewrite nget_set. destruct (Nat.eqb (nextPid w) q) eqn:E.
    + apply Nat.eqb_eq in E. subst q. intros _ Hk. apply Hkb in Hk. lia.
    + apply Horph.
Qed.

Lemma live_create (w : World) taskText ctxModel now :
  PoolLive w -> PoolLive (fst (create w taskText ctxModel now)).
Proof.
  intros Hinv. unfold create. cbn [fst].
  pose proof Hinv as [Hpn Han Hpb Hkb Hhb Hh Hag Hcur Horph].
  match goal with
  | |- PoolLive (spawnAgent ?w1 ?a ?st _ _ _) =>
      apply (live_spawn w1 a st st); try reflexivity
  end.
  - constructor; simpl; try assumption; unfold stateAt in *; simpl.
    + apply NoDup_keys_set; [apply Nat.eqb_eq | assumption].
    + intros q pq Hq. destruct (Hpb q pq Hq). split; [assumption | lia].
    + intros b sb. rewrite nget_set. destruct (Nat.eqb (nextAddr w) b) eqn:E.
      * apply Nat.eqb_eq in E. subst b. intros [= <-]. simpl. split; [lia | discriminate].
      * intros Hb. destruct (Hhb b sb Hb). split; [lia | assumption].
    + intros b sb q pq. rewrite nget_set. destruct (Nat.eqb (nextAddr w) b) eqn:E.
      * intros [= <-]. discriminate.
      * apply Hh.
    + intros n b. rewrite !nget_set. destruct (Nat.eqb (nextId w) n) eqn:E.
      * apply Nat.eqb_eq in E. subst n. intros [= <-]. rewrite Nat.eqb_refl.
        split; [lia|]. eexists. split; reflexivity.
      * intros Hg. destruct (Hag n b Hg) as [Hn [s [Hs0 Hid]]]. split; [lia|].
        destruct (Nat.eqb (nextAddr w) b) eqn:E'; [|now exists s].
        apply Nat.eqb_eq in E'. subst b. destruct (Hhb _ s Hs0). lia.
    + intros q pq Hq Hnk. destruct (Hcur q pq Hq Hnk) as [Ha [s [Hs0 Hr]]].
      rewrite !nget_set.
      destruct (Nat.eqb (nextId w) (ownerId pq)) eqn:E.
      * apply Nat.eqb_eq in E. destruct (Hag _ _ Ha). lia.
      * split; [assumption|].
        destruct (Nat.eqb (nextAddr w) (owner pq)) eqn:E'; [|now exists s].
        apply Nat.eqb_eq in E'. destruct (Hpb q pq Hq). lia.
    + intros q pq n Hq Hk. rewrite nget_set. destruct (Nat.eqb (nextId w) n) eqn:E.
      * intros [= Heq]. destruct (Hpb q pq Hq). lia.
      * now apply (Horph q pq).
  - unfold stateAt. simpl. now rewrite nget_set, Nat.eqb_refl.
  - simpl. now rewrite nget_set, Nat.eqb_refl.
  - simpl. intros q pq Hq _ Heq. destruct (Hpb q pq Hq). lia.
Qed.

Lemma live_continue (w : World) n promptText ctxModel now :
  PoolLive w -> PoolLive (fst (subagent_continue w n promptText ctxModel now)).
Proof.
  intros Hinv. unfold subagent_continue.
  destruct (lookupState w n) as [[addr st]|] eqn:El; [|exact Hinv].
  destruct (isRunning (status st)) eqn:Er; [exact Hinv|].
  apply pool_lookup_inv in El. destruct El as [Hmap Hst]. cbn [fst].
  destruct (live_agents w Hinv n addr Hmap) as [_ [s [Hs Hid]]].
  rewrite Hst in Hs. injection Hs as <-.
  apply (live_spawn w addr st); try assumption; try reflexivity.
  - simpl. now rewrite Hid.
  - intros q pq Hq Hnk Heq.
    destruct (live_current w Hinv q pq Hq Hnk) as [_ [s [Hs [Hr _]]]].
    rewrite Heq, Hst in Hs. injection Hs as <-. rewrite Hr in Er. discriminate.
Qed.

(** Marking running a state object that no live child has captured. *)
Lemma live_mark (w : World) (addr : nat) (st0 st : SubState) :
  PoolLive w -> stateAt w addr = Some st0 ->
  (forall q pq, get Nat.eqb (procs w) q = Some pq -> ~ In q (killed w) -> owner pq <> addr) ->
  proc st = proc st0 -> id st = id st0 ->
  PoolLive (withHeapProcs w (set Nat.eqb (heap w) addr st) (procs w)).
Proof.
  intros [Hpn Han Hpb Hkb Hhb Hh Hag Hcur Horph] Hst Hfree Hp Hi.
  constructor; simpl; try assumption; unfold stateAt in *; simpl.
  - intros b sb. rewrite nget_set. destruct (Nat.eqb addr b) eqn:E.
    + apply Nat.eqb_eq in E. subst b. intros [= <-]. rewrite Hp. now apply Hhb.
    + apply Hhb.
  - intros b sb pid p. rewrite nget_set. destruct (Nat.eqb addr b) eqn:E.
    + apply Nat.eqb_eq in E. subst b. intros [= <-]. rewrite Hp. now apply Hh.
    + apply Hh.
  - intros n b Hg. destruct (Hag n b Hg) as [Hn [s [Hs0 Hid]]]. split; [assumption|].
    rewrite nget_set. destruct (Nat.eqb addr b) eqn:E.
    + apply Nat.eqb_eq in E. subst b. exists st. split; [reflexivity | congruence].
    + now exists s.
  - intros pid p Hg Hnk. destruct (Hcur pid p Hg Hnk) as [Ha [s [Hs0 [Hr Hpr]]]].
    split; [assumption|]. rewrite nget_set. destruct (Nat.eqb addr (owner p)) eqn:E.
    + apply Nat.eqb_eq in E. exfalso. now apply (Hfree pid p Hg Hnk).
    + now exists s.
Qed.

Lemma live_createThrown (w : World) taskText ctxModel now :
  PoolLive w -> PoolLive (fst (createThrown w taskText ctxModel now)).
Proof.
  intros Hinv. unfold createThrown, spawnThrown. cbn [fst].
  pose proof Hinv as [Hpn Han Hpb Hkb Hhb Hh Hag Hcur Horph].
  constructor; simpl; try assumption; unfold stateAt in *; simpl.
  - apply NoDup_keys_set; [apply Nat.eqb_eq | assumption].
  - intros q pq Hq. destruct (Hpb q pq Hq). split; [assumption | lia].
  - intros b sb. rewrite nget_set. destruct (Nat.eqb (nextAddr w) b) eqn:E.
    + apply Nat.eqb_eq in E. subst b. intros [= <-]. simpl. split; [lia | discriminate].
    + intros Hb. destruct (Hhb b sb Hb). split; [lia | assumption].
  - intros b sb q pq. rewrite nget_set. destruct (Nat.eqb (nextAddr w) b) eqn:E.
    + intros [= <-]. discriminate.
    + apply Hh.
  - intros n b. rewrite !nget_set. destruct (Nat.eqb (nextId w) n) eqn:E.
    + apply Nat.eqb_eq in E. subst n. intros [= <-]. rewrite Nat.eqb_refl.
      split; [lia|]. eexists. split; reflexivity.
    + intros Hg. destruct (Hag n b Hg) as [Hn [s [Hs0 Hid]]]. split; [lia|].
      destruct (Nat.eqb (nextAddr w) b) eqn:E'; [|now exists s].
      apply Nat.eqb_eq in E'. subst b. destruct (Hhb _ s Hs0). lia.
  - intros q pq Hq Hnk. destruct (Hcur q pq Hq Hnk) as [Ha [s [Hs0 Hr]]].
    rewrite !nget_set.
    destruct (Nat.eqb (nextId w) (ownerId pq)) eqn:E.
    + apply Nat.eqb_eq in E. destruct (Hag _ _ Ha). lia.
    + split; [assumption|].
      destruct (Nat.eqb (nextAddr w) (owner pq)) eqn:E'; [|now exists s].
      apply Nat.eqb_eq in E'. destruct (Hpb q pq Hq). lia.
  - intros q pq n Hq Hk. rewrite nget_set. destruct (Nat.eqb (nextId w) n) eqn:E.
    + intros [= Heq]. destruct (Hpb q pq Hq). lia.
    + now apply (Horph q pq).
Qed.

Lemma live_continueThrown (w : World) n promptText ctxModel :
  PoolLive w -> PoolLive (fst (continueThrown w n promptText ctxModel)).
Proof.
  intros Hinv. unfold continueThrown.
  destruct (lookupState w n) as [[addr st]|] eqn:El; [|exact Hinv].
  destruct (isRunning (status st)) eqn:Er; [exact Hinv|].
  apply pool_lookup_inv in El. destruct El as [Hmap Hst]. cbn [fst].
  match goal with
  | |- PoolLive (spawnThrown ?w1 _ _ _) =>
      assert (Hmark : PoolLive (withHeapProcs w (heap w1) (procs w)))
  end.
  { apply (live_mark w addr st); try assumption; try reflexivity.
    intros q pq Hq Hnk Heq.
    destruct (live_current w Hinv q pq Hq Hnk) as [_ [s [Hs [Hr _]]]].
    rewrite Heq, Hst in Hs. injection Hs as <-. rewrite Hr in Er. discriminate. }
  destruct Hmark as [Hpn Han Hpb Hkb Hhb Hh Hag Hcur Horph].
  constructor; assumption.
Qed.

Lemma killIfRunning_incl (st : SubState) (ks : list nat) (x : nat) :
  In x ks -> In x (killIfRunning st ks).
Proof.
  intros Hin. unfold killIfRunning. destruct (proc st); [|assumption].
  destruct (isRunning (status st)); [|assumption]. apply in_or_app. now left.
Qed.

Lemma killIfRunning_adds (st : SubState) (ks : list nat) (pid : nat) :
  status st = running -> proc st = Some pid -> In pid (killIfRunning st ks).
Proof.
  intros Hs Hp. unfold killIfRunning. rewrite Hp, Hs. simpl.
  apply in_or_app. right. now left.
Qed.

Lemma killIfRunning_from (st : SubState) (ks : list nat) (x : nat) :
  In x (killIfRunning st ks) -> In x ks \/ (status st = running /\ proc st = Some x).
Proof.
  unfold killIfRunning. destruct (proc st) as [pid|]; [|now left].
  destruct (status st); simpl; try (now left).
  intros Hin. apply in_app_or in Hin. destruct Hin as [Hin|[<-|[]]]; [now left|].
  right. now split.
Qed.

Lemma live_remove (w : World) n :
  PoolLive w -> PoolLive (fst (subagent_remove w n)).
Proof.
  intros Hinv. unfold subagent_remove.
  destruct (lookupState w n) as [[addr st]|] eqn:El; [|exact Hinv].
  apply pool_lookup_inv in El. destruct El as [Hmap Hst]. cbn [fst].
  pose proof Hinv as [Hpn Han Hpb Hkb Hhb Hh Hag Hcur Horph].
  constructor; simpl; try assumption; unfold stateAt in *; simpl.
  - now apply NoDup_keys_delete.
  - intros q Hq. apply killIfRunning_from in Hq. destruct Hq as [Hq|[_ Hq]]; [auto|].
    now apply (Hhb addr st Hst).
  - intros n' a Hg. apply nget_delete in Hg; [|assumption]. destruct Hg. auto.
  - intros q pq Hq Hnk.
    assert (Hnk0 : ~ In q (killed w)).
    { intros Hin. apply Hnk. now apply killIfRunning_incl. }
    destruct (Hcur q pq Hq Hnk0) as [Ha [s [Hs0 [Hr Hpr]]]].
    split; [|now exists s].
    destruct (Nat.eq_dec n (ownerId pq)) as [Heq|Hne].
    + exfalso. subst n. rewrite Hmap in Ha. injection Ha as ->.
      rewrite Hst in Hs0. injection Hs0 as <-.
      apply Hnk. now apply killIfRunning_adds.
    + now rewrite nget_delete_other.
  - intros q pq n' Hq Hk Hg. apply nget_delete in Hg; [|assumption].
    destruct Hg as [Hne Hg].
    apply killIfRunning_from in Hk. destruct Hk as [Hk|[Hr Hpr]].
    + now apply (Horph q pq n').
    + assert (Hown : owner pq = addr) by (apply (Hh addr st q pq); assumption).
      rewrite Hown in Hg.
      destruct (Hag n addr Hmap) as [_ [s [Hs Hid]]].
      destruct (Hag n' addr Hg) as [_ [s' [Hs' Hid']]].
      unfold stateAt in *. congruence.
Qed.

(** What the loop of a clear adds to the signalled handles. *)
Lemma clear_incl (w : World) (entries : list (nat * nat)) :
  forall ks x, In x ks ->
    In x (fold_left (fun ks kv => match stateAt w (snd kv) with
                                  | Some st => killIfRunning st ks
                                  | None => ks
                                  end) entries ks).
Proof.
  induction entries as [|[n a] entries IH]; intros ks x Hin; simpl; [assumption|].
  apply IH. destruct (stateAt w a); [now apply killIfRunning_incl | assumption].
Qed.

Lemma clear_adds (w : World) (entries : list (nat * nat)) (n a pid : nat) (st : SubState) :
  In (n, a) entries -> stateAt w a = Some st ->
  status st = running -> proc st = Some pid ->
  forall ks,
    In pid (fold_left (fun ks kv => match stateAt w (snd kv) with
                                    | Some st => killIfRunning st ks
                                    | None => ks
                                    end) entries ks).
Proof.
  intros Hin Hst Hr Hp. induction entries as [|[n' a'] entries IH]; intros ks; [destruct Hin|].
  simpl. destruct Hin as [[= -> ->]|Hin].
  - rewrite Hst. apply clear_incl. now apply killIfRunning_adds.
  - now apply IH.
Qed.

Lemma clear_from (w : World) (entries : list (nat * nat)) :
  forall ks x,
    In x (fold_left (fun ks kv => match stateAt w (snd kv) with
                                  | Some st => killIfRunning st ks
                                  | None => ks
                                  end) entries ks) ->
    In x ks \/ exists a st, stateAt w a = Some st /\ proc st = Some x.
Proof.
  induction entries as [|[n a] entries IH]; intros ks x Hin; simpl in Hin; [now left|].
  apply IH in Hin. destruct Hin as [Hin|Hin]; [|now right].
  destruct (stateAt w a) as [st|] eqn:E; [|now left].
  apply killIfRunning_from in Hin. destruct Hin as [Hin|[_ Hp]]; [now left|].
  right. now exists a, st.
Qed.

Lemma live_clear (w : World) : PoolLive w -> PoolLive (clearAll w).
Proof.
  intros Hinv. pose proof Hinv as [Hpn Han Hpb Hkb Hhb Hh Hag Hcur Horph].
  unfold clearAll. constructor; simpl; try assumption; unfold stateAt in *; simpl.
  - constructor.
  - intros q Hq. apply clear_from in Hq. destruct Hq as [Hq|[a [st [Hst Hp]]]]; [auto|].
    now apply (Hhb a st Hst).
  - intros n a. discriminate.
  - intros q pq Hq Hnk. exfalso.
    assert (Hnk0 : ~ In q (killed w)).
    { intros Hin. apply Hnk. now apply clear_incl. }
    destruct (Hcur q pq Hq Hnk0) as [Ha [s [Hs0 [Hr Hpr]]]].
    apply Hnk. apply (clear_adds w (agents w) (ownerId pq) (owner pq) q s); try assumption.
    apply (get_In Nat.eqb Nat.eqb_eq). exact Ha.
  - intros q pq n _ _. discriminate.
Qed.

Lemma live_event (w : World) (pid : nat) (ev : ProcEvent) :
  PoolLive w -> PoolLive (onEvent w pid ev).
Proof.
  intros Hinv. unfold onEvent.
  destruct (get Nat.eqb (procs w) pid) as [p|] eqn:Ep; [|exact Hinv].
  destruct (stateAt w (owner p)) as [st|] eqn:Es; [|exact Hinv].
  destruct ev as [chunk|chunk|now|code now|msg now].
  - destruct (unsnoc (split newline_char (buffer p ++ chunk))) as [[lines lastPiece]|];
      [|exact Hinv].
    destruct (processLines_keep lines st) as [Hs Hi].
    pose proof (processLines_handle lines st) as Hp.
    match goal with
    | |- PoolLive (withHeapProcs w ?h (set Nat.eqb (procs w) pid ?p')) =>
        change (PoolLive (withHeapProcs (withHeapProcs w h (procs w)) h
                            (set Nat.eqb (procs w) pid p')));
        apply (live_proc_update (withHeapProcs w h (procs w)) pid p p');
          try reflexivity; try exact Ep
    end.
    now apply (live_heap_update w (owner p) st).
  - destruct (truthy (trim chunk)); [|exact Hinv].
    now apply (live_heap_update w (owner p) st).
  - now apply (live_heap_update w (owner p) st).
  - pose proof (live_end w pid p st) as Hend.
    match goal with
    | |- PoolLive {| heap := set Nat.eqb (heap w) (owner p) ?st2 |} =>
        specialize (Hend st2 Hinv Ep Es)
    end.
    destruct Hend as [Hpn Han Hpb Hkb Hhb Hh Hag Hcur Horph]; [|reflexivity|].
    + simpl. destruct (truthy (trim (buffer p))); [|reflexivity]. apply processLine_keeps.
    + constructor; assumption.
  - pose proof (live_end w pid p st) as Hend.
    match goal with
    | |- PoolLive {| heap := set Nat.eqb (heap w) (owner p) ?st2 |} =>
        specialize (Hend st2 Hinv Ep Es)
    end.
    destruct Hend as [Hpn Han Hpb Hkb Hhb Hh Hag Hcur Horph]; [|reflexivity|].
    + simpl. destruct (truthy (trim (buffer p))); [|reflexivity].
      now rewrite (proj2 (processLine_keeps _ _)).
    + constructor; assumption.
Qed.

Lemma live_step (w : World) (op : Op) : PoolLive w -> PoolLive (fst (step w op)).
Proof.
  intros Hinv. destruct op; simpl; try assumption.
  - now apply live_create.
  - now apply live_continue.
  - now apply live_remove.
  - destruct (negb (truthy (trim argsText))); [exact Hinv | now apply live_create].
  - now apply live_continue.
  - now apply live_remove.
  - now apply live_clear.
  - now apply live_clear.
  - now apply live_event.
  - now apply live_createThrown.
  - now apply live_continueThrown.
  - destruct (negb (truthy (trim argsText))); [exact Hinv | now apply live_createThrown].
  - now apply live_continueThrown.
Qed.

Lemma live_run (ops : list Op) :
  forall w, PoolLive w -> PoolLive (fst (run w ops)).
Proof.
  induction ops as [|op ops IH]; intros w Hinv; [exact Hinv|].
  rewrite run_cons. cbn [fst]. apply IH. now apply live_step.
Qed.

Lemma live_initial (dir : string) : PoolLive (initial dir).
Proof.
  constructor; simpl; unfold stateAt; simpl; try (intros; discriminate);
    try constructor; try (intros ? []).
Qed.

Lemma live_one_child (w : World) (n : nat) :
  PoolLive w -> List.length (activeFor w n) <= 1.
Proof.
  intros [Hpn Han Hpb Hkb Hhb Hh Hag Hcur Horph]. unfold activeFor.
  apply filter_at_most_one; [assumption|].
  intros k v k' v' Hin Hin' Hf Hf'. cbn [fst snd] in Hf, Hf'.
  apply andb_true_iff in Hf, Hf'. destruct Hf as [Hid Hk], Hf' as [Hid' Hk'].
  apply Nat.eqb_eq in Hid, Hid'. apply negb_true_iff in Hk, Hk'.
  assert (Hnk : ~ In k (killed w)).
  { intros Hx. apply wasKilled_In in Hx. congruence. }
  assert (Hnk' : ~ In k' (killed w)).
  { intros Hx. apply wasKilled_In in Hx. congruence. }
  apply (In_get Nat.eqb Nat.eqb_eq) in Hin, Hin'; try assumption.
  destruct (Hcur k v Hin Hnk) as [Ha [s [Hs [_ Hp]]]].
  destruct (Hcur k' v' Hin' Hnk') as [Ha' [s' [Hs' [_ Hp']]]].
  rewrite Hid in Ha. rewrite Hid' in Ha'. rewrite Ha in Ha'. injection Ha' as Heq.
  rewrite Heq in Hs. rewrite Hs in Hs'. injection Hs' as <-. congruence.
Qed.

End WithHost.
End PoolLiveProofs.


(* ===================================================================== *)
(** * Worker lifecycle: the claims (C3, C9) *)
(* ===================================================================== *)

Module LifecycleProofs.
Import JS Regex Json Facts Invariants.

Section WithHost.
Context {H : Host}.

(** C3, as amended.  A Dispatcher dispatch to an identity whose state is
    running returns the already-running result and leaves every variable,
    the list of spawn calls included, as it was; a Pool continue on an
    identity whose state is running returns the still-running result and
    spawns nothing, and this is the case right after a create.  Starting
    with no child running, after any run of dispatches and child events
    without a roster activation no identity of the Dispatcher has more than
    one running child.  Starting from the Pool as the extension creates it,
    after any run of pool operations and child events no identity of the
    Pool has more than one running child that was not sent the termination
    signal, and after a run without a clear or a session start none has more
    than one running child at all. *)
Theorem one_running_child_between_resets :
  (forall w agentName task ctxModel now addr st,
      AgentTeam.lookupState w (toLowerCase agentName) = Some (addr, st) ->
      AgentTeam.status st = AgentTeam.running ->
      AgentTeam.dispatchAgent w agentName task ctxModel now =
      (w, AgentTeam.Resolved
            {| AgentTeam.output :=
                 "Agent " ++ dquote
                 ++ AgentTeam.displayName (AgentLoader.name (AgentTeam.def st)) ++ dquote
                 ++ " is already running. Wait for it to finish.";
               AgentTeam.exitCode := 1%Z;
               AgentTeam.resultElapsed := 0 |}))
  /\ (forall w n promptText ctxModel now addr st,
        SubagentWidget.lookupState w n = Some (addr, st) ->
        SubagentWidget.status st = SubagentWidget.running ->
        SubagentWidget.subagent_continue w n promptText ctxModel now =
        (w, "Error: Subagent #" ++ showNat n ++ " is still running."))
  /\ (forall w taskText ctxModel now promptText ctxModel' now',
        SubagentWidget.subagent_continue
          (fst (SubagentWidget.create w taskText ctxModel now))
          (snd (SubagentWidget.create w taskText ctxModel now))
          promptText ctxModel' now' =
        (fst (SubagentWidget.create w taskText ctxModel now),
         "Error: Subagent #" ++ showNat (snd (SubagentWidget.create w taskText ctxModel now))
         ++ " is still running."))
  /\ (forall w ops key,
        AgentTeam.procs w = [] ->
        forallb (fun op => negb (AgentTeam.isActivation op)) ops = true ->
        List.length (AgentTeam.runningFor (AgentTeam.run w ops) key) <= 1)
  /\ (forall dir ops n,
        List.length (SubagentWidget.activeFor
                       (fst (SubagentWidget.run (SubagentWidget.initial dir) ops)) n) <= 1)
  /\ (forall dir ops n,
        forallb (fun op => negb (SubagentWidget.isReset op)) ops = true ->
        List.length (SubagentWidget.runningFor
                       (fst (SubagentWidget.run (SubagentWidget.initial dir) ops)) n) <= 1).
Proof.
  split; [|split; [|split; [|split; [|split]]]].
  - intros w agentName task ctxModel now addr st Hl Hr.
    unfold AgentTeam.dispatchAgent. rewrite Hl, Hr. reflexivity.
  - intros w n promptText ctxModel now addr st Hl Hr.
    unfold SubagentWidget.subagent_continue. rewrite Hl, Hr. reflexivity.
  - intros w taskText ctxModel now promptText ctxModel' now'.
    unfold SubagentWidget.create. cbn [fst snd].
    unfold SubagentWidget.subagent_continue, SubagentWidget.lookupState,
      SubagentWidget.stateAt, SubagentWidget.spawnAgent.
    cbn [SubagentWidget.agents SubagentWidget.heap SubagentWidget.nextAddr
         SubagentWidget.status SubagentWidget.id].
    rewrite TeamProofs.nget_set, Nat.eqb_refl. cbv beta iota.
    rewrite TeamProofs.nget_set, Nat.eqb_refl. reflexivity.
  - intros w ops key Hnone Hops. apply TeamProofs.inv_one_child.
    apply TeamProofs.team_run_preserves; [assumption|]. now apply TeamProofs.no_children_inv.
  - intros dir ops n. apply PoolLiveProofs.live_one_child.
    apply PoolLiveProofs.live_run. apply PoolLiveProofs.live_initial.
  - intros dir ops n Hops. apply PoolProofs.pool_inv_one_child.
    apply PoolProofs.pool_run_preserves; [assumption|]. apply PoolProofs.initial_inv.
Qed.

(** C9, as amended.  In a run of pool operations and child events without a
    clear or a session start, the identities given out by the creations
    (the tool and the /sub command alike) increase strictly: each is greater
    than every one given out before it, whatever continue, remove, list and
    child events come between.  A clear or a session start sets the counter
    back, so that the next creation gives out 1. *)
Theorem created_ids_increase :
  (forall w ops,
      forallb (fun op => negb (SubagentWidget.isReset op)) ops = true ->
      StronglySorted lt (snd (SubagentWidget.run w ops))
      /\ Forall (fun n => SubagentWidget.nextId w <= n) (snd (SubagentWidget.run w ops)))
  /\ (forall w op taskText ctxModel now,
        SubagentWidget.isReset op = true ->
        snd (SubagentWidget.create (fst (SubagentWidget.step w op)) taskText ctxModel now)
        = 1).
Proof.
  split.
  - intros w ops Hops. now apply PoolProofs.run_ids.
  - intros w op taskText ctxModel now Hop. destruct op; try discriminate; reflexivity.
Qed.

End WithHost.

(** The operations of the examples. *)
Lemma dispatch_while_running_is_refused :
  let w1 := AgentTeam.activateTeam (H := Fixture.host) Fixture.team0 "all" in
  let ops := [ AgentTeam.Dispatch "scout" "first task" Fixture.anthropic 0;
               AgentTeam.Event 0 (AgentTeam.StdoutData ("D:working" ++ nl));
               AgentTeam.Dispatch "Scout" "second task" Fixture.anthropic 5 ] in
  List.length (AgentTeam.runningFor (AgentTeam.run (H := Fixture.host) w1 ops) "scout") <= 1
  /\ List.length (AgentTeam.spawned (AgentTeam.run (H := Fixture.host) w1 ops)) = 1.
Proof.
  split.
  - apply (proj1 (proj2 (proj2 (proj2 (one_running_child_between_resets (H := Fixture.host)))))).
    + reflexivity.
    + reflexivity.
  - reflexivity.
Defined.

(** C3, as stated, fails: a roster activation puts fresh idle state objects
    under the identities while the children already running go on, so the
    next dispatch to the same identity spawns a second child beside the
    first. *)
Lemma reactivation_allows_second_child :
  let w1 := AgentTeam.activateTeam (H := Fixture.host) Fixture.team0 "all" in
  let w := AgentTeam.run (H := Fixture.host) w1
             [ AgentTeam.Dispatch "scout" "first task" Fixture.anthropic 0;
               AgentTeam.ActivateTeam "all";
               AgentTeam.Dispatch "scout" "second task" Fixture.anthropic 5 ] in
  List.length (AgentTeam.runningFor w "scout") = 2
  /\ List.length (AgentTeam.spawned w) = 2.
Proof. repeat split. Qed.

Lemma created_ids_example :
  let ops := [ SubagentWidget.Create "first" None 0;
               SubagentWidget.Continue 1 "too early" None 1;
               SubagentWidget.Event 0 (SubagentWidget.Close (Some 0%Z) 9);
               SubagentWidget.Continue 1 "more" None 10;
               SubagentWidget.ListAll;
               SubagentWidget.CmdSub "  second  " None 11;
               SubagentWidget.Remove 1;
               SubagentWidget.Create "third" None 12 ] in
  snd (SubagentWidget.run (H := Fixture.host) Fixture.pool0 ops) = [1; 2; 3]
  /\ StronglySorted lt (snd (SubagentWidget.run (H := Fixture.host) Fixture.pool0 ops)).
Proof.
  split.
  - reflexivity.
  - apply (proj1 (created_ids_increase (H := Fixture.host))). reflexivity.
Defined.

(** C9, as stated, fails: clearing the widgets restarts the counter, so the
    creation after it returns identity 1 again. *)
Lemma subclear_restarts_ids :
  snd (SubagentWidget.run (H := Fixture.host) Fixture.pool0
         [ SubagentWidget.Create "first task" None 0;
           SubagentWidget.CmdSubclear;
           SubagentWidget.Create "second task" None 5 ]) = [1; 1].
Proof. reflexivity. Qed.

End LifecycleProofs.

(* ===================================================================== *)
(** * The matcher on the backtick pattern of the loader *)
(* ===================================================================== *)

Module RegexProofs.
Import JS Regex Facts AgentLoader.


(** The greedy star over a class reads a run of members of the class and
    succeeds when the rest of the pattern succeeds after the run (or after
    more of the input). *)
Lemma starLoop_class_run (fl : flags) (neg : bool) (mem : ascii -> bool)
    (k : mstate -> option mstate) (tail : string) (cs : list (nat * string)) :
  forall run fuel p0,
    String.length run < fuel ->
    (forall c, In c (list_ascii_of_string run) -> classMatches fl neg mem c = true) ->
    k {| prev := lastChar p0 run; rest := tail; caps := cs |} <> None ->
    starLoop (m fl (Class neg mem)) true k fuel
      {| prev := p0; rest := run ++ tail; caps := cs |} <> None.
Proof.
  induction run as [|c t IH]; intros fuel p0 Hf Hall Hk.
  - destruct fuel as [|fuel]; [inversion Hf|]. cbn [starLoop String.append].
    destruct (m fl (Class neg mem) _ _); [discriminate | exact Hk].
  - destruct fuel as [|fuel]; [inversion Hf|].
    cbn [starLoop String.append m rest].
    rewrite (Hall c (or_introl eq_refl)).
    assert (Hp : progressed {| prev := p0; rest := String c (t ++ tail); caps := cs |}
                   (advance c (t ++ tail) {| prev := p0; rest := String c (t ++ tail); caps := cs |})
                 = true).
    { unfold progressed, advance. cbn [rest String.length]. apply Nat.ltb_lt. lia. }
    rewrite Hp. unfold advance. cbn [caps].
    assert (Hrec : starLoop (m fl (Class neg mem)) true k fuel
                     {| prev := Some c; rest := t ++ tail; caps := cs |} <> None).
    { apply IH.
      - simpl in Hf. lia.
      - intros d Hd. apply Hall. now right.
      - exact Hk. }
    destruct (starLoop _ _ _ _ _); [discriminate | now elim Hrec].
Qed.

(** Sufficient conditions for each construct to match. *)
Section Steps.
Variable fl : flags.


Lemma m_seq (r1 r2 : regex) (s : mstate) (k : mstate -> option mstate) :
  m fl r1 s (fun s' => m fl r2 s' k) <> None -> m fl (Seq r1 r2) s k <> None.
Proof. exact (fun H => H). Qed.




Lemma m_class (neg : bool) (mem : ascii -> bool) (c : ascii) (t : string)
    (s : mstate) (k : mstate -> option mstate) :
  rest s = String c t ->
  classMatches fl neg mem c = true ->
  k (advance c t s) <> None ->
  m fl (Class neg mem) s k <> None.
Proof. intros Hr Hc Hk. cbn [m]. now rewrite Hr, Hc. Qed.



Lemma m_star_class (neg : bool) (mem : ascii -> bool) (run tail : string)
    (s : mstate) (k : mstate -> option mstate) :
  rest s = run ++ tail ->
  (forall c, In c (list_ascii_of_string run) -> classMatches fl neg mem c = true) ->
  k {| prev := lastChar (prev s) run; rest := tail; caps := caps s |} <> None ->
  m fl (Star true (Class neg mem)) s k <> None.
Proof.
  intros Hr Hall Hk. destruct s as [p r cs]. cbn [rest prev caps] in Hr, Hk. subst r.
  change (starLoop (m fl (Class neg mem)) true k (S (String.length (run ++ tail)))
            {| prev := p; rest := run ++ tail; caps := cs |} <> None).
  apply starLoop_class_run; [|exact Hall|exact Hk].
  rewrite length_append. lia.
Qed.

End Steps.



Lemma lastChar_snoc (s : string) (c : ascii) :
  forall p, lastChar p (s ++ String c "") = Some c.
Proof. induction s as [|d t IH]; intros p; [reflexivity | apply (IH (Some d))]. Qed.


End RegexProofs.

(* ===================================================================== *)
(** * The persona loader (C6, C10) *)
(* ===================================================================== *)

Module LoaderProofs.
Import JS Regex Json Facts AgentLoader.

(** Case analysis on membership in a list given by its elements. *)
Ltac in_cases H :=
  repeat match type of H with
         | _ \/ _ => destruct H as [H|H]
         | False => destruct H
         | In _ [] => destruct H
         | In _ (_ :: _) => destruct H as [H|H]
         end.

Lemma hasErrors_spec (ws : list ValidationWarning) :
  hasErrors ws = true <-> exists w, In w ws /\ severity w = error.
Proof.
  unfold hasErrors. rewrite existsb_exists. split; intros [w [Hin Hs]]; exists w; split; auto.
  - now destruct (severity w).
  - now rewrite Hs.
Qed.

Lemma validateName_findings (nm : string) (w : ValidationWarning) :
  In w (validateName nm) -> severity w = error /\ field w = "name".
Proof.
  unfold validateName. destruct (negb (truthy nm)).
  - intros [<-|[]]. now split.
  - rewrite in_app_iff.
    destruct (MAX_NAME_LENGTH <? String.length nm), (negb (test noFlags VALID_NAME_PATTERN nm));
      intros Hin; in_cases Hin; subst w; now split.
Qed.

Lemma validateName_clean (nm : string) :
  validateName nm = [] <->
  nm <> "" /\ String.length nm <= MAX_NAME_LENGTH
  /\ test noFlags VALID_NAME_PATTERN nm = true.
Proof.
  unfold validateName. destruct nm as [|c t].
  - simpl. split; [discriminate | intros [Hne _]; congruence].
  - cbn [truthy negb].
    destruct (MAX_NAME_LENGTH <? String.length (String c t)) eqn:El;
      destruct (test noFlags VALID_NAME_PATTERN (String c t)) eqn:Et; cbn [negb app].
    + split; [discriminate|]. intros [_ [Hl _]]. apply Nat.ltb_lt in El. lia.
    + split; [discriminate|]. intros [_ [_ Ht]]. discriminate.
    + split; [|reflexivity]. intros _. apply Nat.ltb_ge in El.
      repeat split; [discriminate | assumption].
    + split; [discriminate|]. intros [_ [_ Ht]]. discriminate.
Qed.

Lemma validateTools_findings (tls : string) (known : list string) (w : ValidationWarning) :
  In w (validateTools tls known) -> severity w = warning /\ field w = "tools".
Proof.
  unfold validateTools. destruct (negb (truthy tls)); [intros []|].
  rewrite in_flat_map. intros [tool [_ Hin]].
  destruct (negb (inList tool known)); [|destruct Hin].
  destruct Hin as [<-|[]]. now split.
Qed.


Lemma validateSystemPrompt_findings (text : string) (w : ValidationWarning) :
  In w (validateSystemPrompt text) ->
  field w = "systemPrompt"
  /\ (severity w = error -> MAX_SYSTEM_PROMPT_LENGTH < String.length text).
Proof.
  unfold validateSystemPrompt. rewrite in_app_iff. intros [Hin|Hin].
  - destruct (MAX_SYSTEM_PROMPT_LENGTH <? String.length text) eqn:El; [|destruct Hin].
    destruct Hin as [<-|[]]. split; [reflexivity|]. intros _. now apply Nat.ltb_lt.
  - apply in_flat_map in Hin. destruct Hin as [sp [_ Hin]].
    destruct (test (patFlags sp) (pat sp) text); [|destruct Hin].
    destruct Hin as [<-|[]]. split; [reflexivity | discriminate].
Qed.

Lemma validateSystemPrompt_oversize (text : string) :
  MAX_SYSTEM_PROMPT_LENGTH < String.length text ->
  exists w, In w (validateSystemPrompt text) /\ severity w = error.
Proof.
  intros Hl. unfold validateSystemPrompt. apply Nat.ltb_lt in Hl. rewrite Hl.
  eexists. split; [now left | reflexivity].
Qed.


(** The findings of a parsed file with error severity come from the name or
    from the length of the body. *)
Lemma validateAgent_errors (a : AgentDef) :
  hasErrors (validateAgent a) = false <->
  validateName (name a) = []
  /\ String.length (systemPrompt a) <= MAX_SYSTEM_PROMPT_LENGTH.
Proof.
  split.
  - intros Hno. split.
    + destruct (validateName (name a)) as [|w ws] eqn:E; [reflexivity|exfalso].
      assert (Hin : In w (validateName (name a))) by (rewrite E; now left).
      destruct (validateName_findings _ _ Hin) as [Hs _].
      assert (Herr : hasErrors (validateAgent a) = true).
      { apply hasErrors_spec. exists w. split; [|assumption].
        unfold validateAgent. apply in_or_app. now left. }
      congruence.
    + destruct (Nat.le_gt_cases (String.length (systemPrompt a)) MAX_SYSTEM_PROMPT_LENGTH)
        as [Hle|Hgt]; [assumption|exfalso].
      destruct (validateSystemPrompt_oversize _ Hgt) as [w [Hin Hs]].
      assert (Herr : hasErrors (validateAgent a) = true).
      { apply hasErrors_spec. exists w. split; [|assumption].
        unfold validateAgent. apply in_or_app. right. apply in_or_app. now right. }
      congruence.
  - intros [Hname Hlen].
    destruct (hasErrors (validateAgent a)) eqn:E; [exfalso|reflexivity].
    apply hasErrors_spec in E. destruct E as [w [Hin Hs]].
    unfold validateAgent in Hin. rewrite Hname in Hin. simpl in Hin.
    apply in_app_or in Hin. destruct Hin as [Hin|Hin].
    + apply validateTools_findings in Hin. destruct Hin. congruence.
    + apply validateSystemPrompt_findings in Hin. destruct Hin as [_ Hover].
      specialize (Hover Hs). lia.
Qed.

Section Host.
Variable readFileSync : string -> string + string.
Variable basename : string -> string -> string.
Variable existsSync : string -> bool.
Variable readdirSync : string -> option (list string).
Variable resolve : string -> string -> string.






(** C10, as amended.  For a persona file that parses: a missing name becomes
    the basename of the file without its extension, missing tools become the
    read-only list, a missing description becomes the empty string; the
    defaults are validated like given values.  So a file with frontmatter
    only and neither name nor tools is returned as a fully populated
    definition, without findings, when its basename is a valid name, and is
    rejected when it is not. *)
Theorem loadAgentFile_defaults (filePath raw : string) (parsed : ParsedFile) :
  readFileSync filePath = inl raw ->
  parseFrontmatter raw = Some parsed ->
  (oget (fields parsed) "name" = None ->
   name (agentOf basename filePath parsed) = basename filePath ".md")
  /\ (oget (fields parsed) "tools" = None ->
      tools (agentOf basename filePath parsed) = "read,grep,find,ls")
  /\ (oget (fields parsed) "description" = None ->
      description (agentOf basename filePath parsed) = "")
  /\ (forall a, agent (loadAgentFile readFileSync basename filePath) = Some a ->
                a = agentOf basename filePath parsed)
  /\ (oget (fields parsed) "name" = None ->
      oget (fields parsed) "tools" = None ->
      trim (body parsed) = "" ->
      validateName (basename filePath ".md") = [] ->
      loadAgentFile readFileSync basename filePath =
      {| agent := Some (agentOf basename filePath parsed); warnings := [] |})
  /\ (oget (fields parsed) "name" = None ->
      validateName (basename filePath ".md") <> [] ->
      agent (loadAgentFile readFileSync basename filePath) = None).
Proof.
  intros Hread Hparse.
  split; [|split; [|split; [|split; [|split]]]].
  - intros Hn. unfold agentOf. simpl. now rewrite Hn.
  - intros Ht. unfold agentOf. simpl. now rewrite Ht.
  - intros Hd. unfold agentOf. simpl. now rewrite Hd.
  - intros a. unfold loadAgentFile. rewrite Hread, Hparse. cbn [agent].
    destruct (hasErrors (validateAgent (agentOf basename filePath parsed)));
      [discriminate | now intros [= <-]].
  - intros Hn Ht Hb Hvalid. unfold loadAgentFile. rewrite Hread, Hparse.
    assert (Hws : validateAgent (agentOf basename filePath parsed) = []).
    { unfold validateAgent, agentOf. cbn [name tools systemPrompt].
      rewrite Hn, Ht, Hb. cbn [orDefault]. rewrite Hvalid. reflexivity. }
    rewrite Hws. reflexivity.
  - intros Hn Hbad. unfold loadAgentFile. rewrite Hread, Hparse. cbn [agent].
    destruct (hasErrors (validateAgent (agentOf basename filePath parsed))) eqn:E;
      [reflexivity|exfalso].
    apply validateAgent_errors in E. destruct E as [Hname _].
    unfold agentOf in Hname. cbn [name] in Hname. rewrite Hn in Hname. now apply Hbad.
Qed.

End Host.



(** A persona that lists a tool outside the allowlist is returned, with the
    warning that names the tool. *)
Lemma loadAgentFile_warns_unknown_tool :
  loadAgentFile Fixture.files Fixture.posixBasename "/agents/tools.md"
  = {| agent := Some {| name := "tools"; description := "";
                        tools := "read, teleport";
                        systemPrompt := "Look around.";
                        file := "/agents/tools.md" |};
       warnings := [ {| field := "tools";
                        message := "unknown tool " ++ dquote ++ "teleport" ++ dquote
                                   ++ " — not in the known tools allowlist";
                        severity := warning |} ] |}.
Proof. vm_compute. reflexivity. Qed.

(** A frontmatter-only file with a valid basename. *)
Lemma loadAgentFile_minimal :
  loadAgentFile Fixture.files Fixture.posixBasename "/agents/minimal.md" =
  {| agent := Some {| name := "minimal"; description := "only a description";
                      tools := "read,grep,find,ls"; systemPrompt := "";
                      file := "/agents/minimal.md" |};
     warnings := [] |}.
Proof.
  pose (raw := Fixture.fence ++ "description: only a description" ++ nl ++ Fixture.fence).
  pose (parsed := {| fields := [("description", "only a description")]; body := "" |}).
  exact (proj1 (proj2 (proj2 (proj2 (proj2
           (loadAgentFile_defaults Fixture.files Fixture.posixBasename
              "/agents/minimal.md" raw parsed eq_refl eq_refl)))))
           eq_refl eq_refl eq_refl eq_refl).
Defined.

(** C10, as stated, fails: a frontmatter-only file without name and tools
    whose basename is not a valid name is rejected, not returned. *)
Lemma loadAgentFile_rejects_default_name :
  parseFrontmatter (Fixture.fence ++ "description: only a description" ++ nl ++ Fixture.fence)
  = Some {| fields := [("description", "only a description")]; body := "" |}
  /\ Fixture.files "/agents/my agent.md"
     = inl (Fixture.fence ++ "description: only a description" ++ nl ++ Fixture.fence)
  /\ Fixture.posixBasename "/agents/my agent.md" ".md" = "my agent"
  /\ agent (loadAgentFile Fixture.files Fixture.posixBasename "/agents/my agent.md") = None.
Proof. repeat split. Qed.

End LoaderProofs.

(* ===================================================================== *)
(** * Prompt templates of the Pipeline (C8) *)
(* ===================================================================== *)

Module PromptProofs.
Import JS Regex.

(** C8, at the failing input.  The substituted texts are read as
    replacement patterns, and the previous output is searched again for the
    second placeholder: an output holding [$&] comes back with the
    placeholder in its place, an output holding [$ORIGINAL] comes back with
    the task in its place, and a task holding two dollar signs comes back
    with one.  The prompt the specification describes keeps each text as it
    is.  On the last example, whose texts hold no dollar sign, the two
    agree. *)
Theorem resolvePrompt_reads_replacement_patterns :
  AgentChain.resolvePrompt "Review: $INPUT" "price is $& now" "fix it"
  = "Review: price is $INPUT now"
  /\ Spec.expectedPrompt "Review: $INPUT" "price is $& now" "fix it"
     = "Review: price is $& now"
  /\ AgentChain.resolvePrompt "Next: $INPUT" "worker wrote $ORIGINAL" "fix it"
     = "Next: worker wrote fix it"
  /\ Spec.expectedPrompt "Next: $INPUT" "worker wrote $ORIGINAL" "fix it"
     = "Next: worker wrote $ORIGINAL"
  /\ AgentChain.resolvePrompt "Task: $ORIGINAL" "out" "pay $$5"
     = "Task: pay $5"
  /\ Spec.expectedPrompt "Task: $ORIGINAL" "out" "pay $$5"
     = "Task: pay $$5"
  /\ AgentChain.resolvePrompt "Review $INPUT for $ORIGINAL" "found" "fix it"
     = Spec.expectedPrompt "Review $INPUT for $ORIGINAL" "found" "fix it".
Proof. repeat split. Qed.

End PromptProofs.

(* ===================================================================== *)
(** * Further properties *)
(* ===================================================================== *)

Module SplitProofs.
Import JS Regex Facts Notions.

(** Rewriting the scrutinee of the goal with an equation that holds up to
    unfolding of the matcher. *)
Ltac rewrite_scrutinee E :=
  match type of E with
  | ?L = _ =>
      match goal with
      | |- context [match ?X with Some _ => _ | None => _ end] =>
          change X with L; rewrite E
      end
  end.

Lemma chars_app (a b : string) : chars (a ++ b) = (chars a ++ chars b)%list.
Proof. induction a as [|c a IH]; simpl; [reflexivity | now rewrite <- IH]. Qed.

Section ClassRuns.
Variable fl : flags.
Variable neg : bool.
Variable mem : ascii -> bool.

(** The greedy star over a class, before anything that accepts the state it
    is given: it reads the longest run of members. *)
Lemma starLoop_class_exact (tail : string) (cs : list (nat * string)) :
  (match tail with
   | EmptyString => True
   | String d _ => classMatches fl neg mem d = false
   end) ->
  forall run fuel p0,
    String.length run < fuel ->
    (forall c, In c (chars run) -> classMatches fl neg mem c = true) ->
    starLoop (m fl (Class neg mem)) true Some fuel
      {| prev := p0; rest := run ++ tail; caps := cs |}
    = Some {| prev := lastChar p0 run; rest := tail; caps := cs |}.
Proof.
  intros Htail. induction run as [|c t IH]; intros fuel p0 Hf Hall.
  - destruct fuel as [|fuel]; [inversion Hf|]. cbn [starLoop String.append m rest lastChar].
    destruct tail as [|d tl]; [reflexivity|]. now rewrite Htail.
  - destruct fuel as [|fuel]; [inversion Hf|].
    cbn [starLoop String.append m rest].
    rewrite (Hall c (or_introl eq_refl)).
    assert (Hp : progressed {| prev := p0; rest := String c (t ++ tail); caps := cs |}
                   (advance c (t ++ tail) {| prev := p0; rest := String c (t ++ tail); caps := cs |})
                 = true).
    { unfold progressed, advance. cbn [rest String.length]. apply Nat.ltb_lt. lia. }
    rewrite Hp. unfold advance. cbn [caps].
    assert (Hrec : starLoop (m fl (Class neg mem)) true Some fuel
                     {| prev := Some c; rest := t ++ tail; caps := cs |}
                   = Some {| prev := lastChar (Some c) t; rest := tail; caps := cs |}).
    { apply IH; [simpl in Hf; lia|]. intros d Hd. apply Hall. now right. }
    rewrite_scrutinee Hrec. reflexivity.
Qed.

(** [c+] at a run of members followed by a non-member or the end. *)
Lemma plus_class_exact (p0 : option ascii) (c : ascii) (run tail : string) :
  (match tail with
   | EmptyString => True
   | String d _ => classMatches fl neg mem d = false
   end) ->
  (forall d, In d (chars (String c run)) -> classMatches fl neg mem d = true) ->
  matchHere fl (Seq (Class neg mem) (Star true (Class neg mem))) p0 (String c run ++ tail)
  = Some {| prev := lastChar (Some c) run; rest := tail; caps := [] |}.
Proof.
  intros Htail Hall. unfold matchHere. cbn [m rest String.append].
  rewrite (Hall c (or_introl eq_refl)). unfold advance. cbn [caps rest].
  apply starLoop_class_exact; [assumption | rewrite length_append; lia |].
  intros d Hd. apply Hall. now right.
Qed.

(** [c+] does not match at a non-member. *)
Lemma plus_class_none (p0 : option ascii) (c : ascii) (t : string) :
  classMatches fl neg mem c = false ->
  matchHere fl (Seq (Class neg mem) (Star true (Class neg mem))) p0 (String c t) = None.
Proof. intros Hc. unfold matchHere. cbn [m rest]. now rewrite Hc. Qed.

(** The star never fails before [Some], and never yields a longer rest. *)
Lemma starLoop_class_total (fuel : nat) :
  forall s0, exists st,
    starLoop (m fl (Class neg mem)) true Some fuel s0 = Some st
    /\ String.length (rest st) <= String.length (rest s0).
Proof.
  induction fuel as [|fuel IH]; intros s0; cbn [starLoop].
  - now exists s0.
  - cbn [m]. destruct (rest s0) as [|c t] eqn:Er.
    + exists s0. now rewrite Er.
    + destruct (classMatches fl neg mem c).
      * unfold progressed. rewrite Er. unfold advance at 1. cbn [rest String.length].
        rewrite (proj2 (Nat.ltb_lt _ _) (Nat.lt_succ_diag_r _)).
        destruct (IH (advance c t s0)) as [st [Hst Hlen]].
        rewrite_scrutinee Hst. exists st. split; [reflexivity|].
        unfold advance in Hlen. cbn [rest] in Hlen. lia.
      * exists s0. now rewrite Er.
Qed.

(** [c+] at a member matches, and reads at least that member. *)
Lemma plus_class_some (p0 : option ascii) (c : ascii) (t : string) :
  classMatches fl neg mem c = true ->
  exists st,
    matchHere fl (Seq (Class neg mem) (Star true (Class neg mem))) p0 (String c t) = Some st
    /\ String.length (rest st) <= String.length t.
Proof.
  intros Hc. unfold matchHere. cbn [m rest]. rewrite Hc.
  destruct (starLoop_class_total (S (String.length (rest (advance c t
              {| prev := p0; rest := String c t; caps := [] |}))))
              (advance c t {| prev := p0; rest := String c t; caps := [] |}))
    as [st [Hst Hlen]].
  exists st. split; [exact Hst | exact Hlen].
Qed.

End ClassRuns.

Section SplitOnClass.
Variable mem : ascii -> bool.

Lemma class_noFlags (c : ascii) : classMatches noFlags false mem c = mem c.
Proof. unfold classMatches. cbn. now rewrite orb_false_r. Qed.

Lemma free_snoc (tok : string) (c : ascii) :
  free mem tok -> mem c = false -> free mem (tok ++ String c "").
Proof.
  intros Ht Hc d Hd. rewrite chars_app in Hd. apply in_app_or in Hd.
  destruct Hd as [Hd|[<-|[]]]; auto.
Qed.

(** Every piece of a split on [c+] is free of members of the class. *)
Lemma splitLoop_free :
  forall fuel before tok atP s,
    String.length s < fuel -> free mem tok ->
    forall piece, In piece (splitLoop (plusClass mem) fuel before tok atP s) -> free mem piece.
Proof.
  induction fuel as [|fuel IH]; intros before tok atP s Hf Htok piece Hin; [inversion Hf|].
  cbn [splitLoop] in Hin. destruct s as [|c t].
  - destruct Hin as [<-|[]]. exact Htok.
  - cbn [fl re plusClass] in Hin. destruct (mem c) eqn:Hc.
    + destruct (plus_class_some noFlags false mem before c t) as [st [Hst Hlen]].
      { now rewrite class_noFlags. }
      rewrite Hst in Hin.
      replace (String.length (rest st) =? String.length (String c t)) with false in Hin.
      * cbn [andb] in Hin. destruct Hin as [<-|Hin]; [exact Htok|].
        apply (IH (prev st) "" true (rest st)); [simpl in Hf; lia | | exact Hin].
        intros d [].
      * symmetry. apply Nat.eqb_neq. simpl. lia.
    + rewrite (plus_class_none noFlags false mem before c t) in Hin
        by now rewrite class_noFlags.
      apply (IH (Some c) (tok ++ String c "") false t); [simpl in Hf; lia | | exact Hin].
      now apply free_snoc.
Qed.

Lemma splitRegex_free (s : string) (piece : string) :
  In piece (splitRegex (plusClass mem) s) -> free mem piece.
Proof.
  unfold splitRegex. destruct s as [|c t].
  - cbn. intros [<-|[]]. intros d [].
  - apply splitLoop_free; [simpl; lia | intros d []].
Qed.

(** Walking over a word that is free of members. *)
Lemma splitLoop_word (w : string) :
  free mem w ->
  forall fuel before tok atP s,
    splitLoop (plusClass mem) (String.length w + S fuel) before tok atP (w ++ s) =
    splitLoop (plusClass mem) (S fuel) (lastChar before w) (tok ++ w)
              (match w with EmptyString => atP | _ => false end) s.
Proof.
  induction w as [|c w IH]; intros Hw fuel before tok atP s.
  - cbn [String.length Nat.add String.append lastChar]. now rewrite append_nil_r.
  - cbn [String.length Nat.add String.append splitLoop fl re plusClass].
    rewrite (plus_class_none noFlags false mem before c (w ++ s))
      by (rewrite class_noFlags; apply Hw; now left).
    rewrite IH by (intros d Hd; apply Hw; now right).
    cbn [lastChar]. rewrite append_assoc. cbn [String.append].
    now destruct w.
Qed.

End SplitOnClass.

End SplitProofs.

Module EnvFieldProofs.
Import JS Regex Facts SubprocessEnv Notions SplitProofs.

Lemma trimStart_chars (s : string) (c : ascii) :
  In c (chars (trimStart s)) -> In c (chars s).
Proof.
  induction s as [|d t IH]; simpl; [tauto|].
  destruct (isWhiteSpace d); [intros Hin; right; auto | auto].
Qed.

Lemma trimEnd_chars (s : string) (c : ascii) :
  In c (chars (trimEnd s)) -> In c (chars s).
Proof.
  induction s as [|d t IH]; simpl; [tauto|].
  destruct (trimEnd t) as [|e t'] eqn:E.
  - destruct (isWhiteSpace d); simpl; [tauto|]. intros [<-|[]]. now left.
  - intros [<-|Hin]; [now left | right; auto].
Qed.

Lemma trim_chars (s : string) (c : ascii) : In c (chars (trim s)) -> In c (chars s).
Proof. intros Hin. apply trimStart_chars, trimEnd_chars. exact Hin. Qed.

Lemma trimEnd_id (s : string) :
  (forall c, In c (chars s) -> isWhiteSpace c = false) -> trimEnd s = s.
Proof.
  induction s as [|d t IH]; intros Hall; simpl; [reflexivity|].
  rewrite IH by (intros c Hc; apply Hall; now right).
  destruct t; [|reflexivity]. now rewrite (Hall d (or_introl eq_refl)).
Qed.

Lemma trim_id (s : string) :
  (forall c, In c (chars s) -> isWhiteSpace c = false) -> trim s = s.
Proof.
  intros Hall. unfold trim.
  assert (Hs : trimStart s = s).
  { destruct s as [|d t]; [reflexivity|]. simpl. now rewrite (Hall d (or_introl eq_refl)). }
  rewrite Hs. now apply trimEnd_id.
Qed.

Lemma isSep_space (c : ascii) : isSep c = false -> isWhiteSpace c = false.
Proof. unfold isSep. now intros H%orb_false_iff. Qed.

Lemma isSep_comma (c : ascii) : isSep c = false -> c <> ","%char.
Proof.
  unfold isSep. intros H%orb_false_iff. destruct H as [H _].
  intros ->. discriminate.
Qed.

(** Splitting a list of words joined by one separator. *)
Lemma splitLoop_join (sep : string) :
  sep <> "" -> (forall c, In c (chars sep) -> isSep c = true) ->
  forall others n fuel before tok atP,
    String.length (join sep (n :: others)) < fuel ->
    free isSep n ->
    (forall x, In x others -> x <> "" /\ free isSep x) ->
    splitLoop (plusClass isSep) fuel before tok atP (join sep (n :: others))
    = (tok ++ n) :: others.
Proof.
  intros Hne Hsep. induction others as [|n2 others IH]; intros n fuel before tok atP Hf Hn Hrest.
  - cbn [join] in *.
    replace fuel with (String.length n + S (fuel - String.length n - 1)) by lia.
    pose proof (splitLoop_word isSep n Hn (fuel - String.length n - 1) before tok atP "")
      as E.
    rewrite append_nil_r in E. rewrite E. reflexivity.
  - change (join sep (n :: n2 :: others)) with (n ++ sep ++ join sep (n2 :: others)) in *.
    rewrite !length_append in Hf.
    replace fuel with (String.length n + S (fuel - String.length n - 1)) by lia.
    rewrite splitLoop_word by assumption.
    destruct sep as [|c run]; [congruence|].
    destruct (Hrest n2 (or_introl eq_refl)) as [Hn2 Hfree2].
    destruct n2 as [|d n2']; [congruence|].
    assert (Htail : match join (String c run) (String d n2' :: others) with
                    | EmptyString => True
                    | String e _ => classMatches noFlags false isSep e = false
                    end).
    { destruct others; cbn [join String.append]; rewrite class_noFlags; apply Hfree2; now left. }
    cbn [splitLoop String.append fl re plusClass].
    change (String c (run ++ join (String c run) (String d n2' :: others)))
      with (String c run ++ join (String c run) (String d n2' :: others)).
    rewrite (plus_class_exact noFlags false isSep _ c run _ Htail)
      by (intros e He; rewrite class_noFlags; now apply Hsep).
    cbn [rest prev].
    replace (String.length (join (String c run) (String d n2' :: others))
             =? String.length (String c run ++ join (String c run) (String d n2' :: others)))
      with false
      by (symmetry; apply Nat.eqb_neq; rewrite length_append; simpl; lia).
    cbn [andb]. f_equal.
    rewrite IH.
    + reflexivity.
    + simpl in Hf. simpl. lia.
    + exact Hfree2.
    + intros x Hx. apply Hrest. now right.
Qed.

Lemma envFieldSeparator_plus : envFieldSeparator = plusClass isSep.
Proof. reflexivity. Qed.

(** X1.  [parseAgentEnvField] gives no name for an absent or empty field,
    and never gives an empty name or a name that holds a comma or a
    whitespace code unit. *)
Theorem parseAgentEnvField_names_are_clean :
  parseAgentEnvField None = []
  /\ parseAgentEnvField (Some "") = []
  /\ (forall envField name,
        In name (parseAgentEnvField envField) ->
        name <> ""
        /\ forall c, In c (list_ascii_of_string name) ->
                     c <> ","%char /\ isWhiteSpace c = false).
Proof.
  split; [reflexivity|]. split; [reflexivity|].
  intros envField name Hin. unfold parseAgentEnvField in Hin.
  destruct envField as [f|]; [|destruct Hin].
  destruct (negb (truthy f)); [destruct Hin|].
  apply filter_In in Hin. destruct Hin as [Hin Hne].
  apply in_map_iff in Hin. destruct Hin as [piece [<- Hpiece]].
  split; [intros E; rewrite E in Hne; discriminate|].
  intros c Hc. apply trim_chars in Hc.
  rewrite envFieldSeparator_plus in Hpiece.
  pose proof (splitRegex_free isSep f piece Hpiece c Hc) as Hfree.
  split; [now apply isSep_comma | now apply isSep_space].
Qed.

(** X2.  Declared names come back as written: for names that are not empty
    and hold no comma or whitespace, joined by any non-empty separator made
    of commas and whitespace, [parseAgentEnvField] returns the names in
    order. *)
Theorem parseAgentEnvField_round_trip (names : list string) (sep : string) :
  sep <> "" ->
  (forall c, In c (list_ascii_of_string sep) -> (Ascii.eqb c "," || isWhiteSpace c) = true) ->
  (forall n, In n names ->
             n <> "" /\ forall c, In c (list_ascii_of_string n) ->
                                  (Ascii.eqb c "," || isWhiteSpace c) = false) ->
  parseAgentEnvField (Some (join sep names)) = names.
Proof.
  intros Hne Hsep Hnames. destruct names as [|n others]; [reflexivity|].
  unfold parseAgentEnvField.
  assert (Hn : n <> "") by (apply Hnames; now left).
  assert (Hj : truthy (join sep (n :: others)) = true).
  { destruct n as [|c t]; [congruence|]. now destruct others. }
  rewrite Hj. cbn [negb].
  assert (Hsplit : splitRegex envFieldSeparator (join sep (n :: others)) = n :: others).
  { rewrite envFieldSeparator_plus. unfold splitRegex.
    destruct (join sep (n :: others)) as [|c t] eqn:Ej; [discriminate|].
    rewrite <- Ej.
    apply (splitLoop_join sep Hne Hsep others n _ None "" true).
    - lia.
    - exact (proj2 (Hnames n (or_introl eq_refl))).
    - intros x Hx. exact (Hnames x (or_intror Hx)). }
  rewrite Hsplit.
  assert (Htrim : map trim (n :: others) = n :: others).
  { rewrite <- (map_id (n :: others)) at 2. apply map_ext_in.
    intros x Hx. apply trim_id. intros c Hc.
    apply isSep_space. now apply (proj2 (Hnames x Hx)). }
  rewrite Htrim.
  apply forallb_filter_id. apply forallb_forall.
  intros x Hx. destruct (Hnames x Hx) as [Hx0 _]. destruct x; [congruence | reflexivity].
Qed.

Lemma parseAgentEnvField_two_tokens :
  parseAgentEnvField (Some "NPM_TOKEN, GITHUB_TOKEN") = ["NPM_TOKEN"; "GITHUB_TOKEN"].
Proof.
  apply (parseAgentEnvField_round_trip ["NPM_TOKEN"; "GITHUB_TOKEN"] ", ").
  - discriminate.
  - intros c [<-|[<-|[]]]; reflexivity.
  - intros n [<-|[<-|[]]]; (split; [discriminate|]);
      intros c Hc; simpl in Hc;
      repeat (destruct Hc as [<-|Hc]; [reflexivity|]); destruct Hc.
Defined.

End EnvFieldProofs.

Module EnvFrameProofs.
Import JS Regex Facts SubprocessEnv EnvProofs.

(** A copying step reads the source at its key only, and only for a truthy
    value. *)
Lemma copyVar_present (parentEnv env : record) (key : string) :
  copyVar parentEnv env key =
  match Spec.presentValue parentEnv key with
  | Some v => assign env key v
  | None => env
  end.
Proof.
  unfold copyVar, assignFrom. rewrite presentValue_read.
  destruct (truthyVal (read parentEnv key)) eqn:E; [reflexivity|].
  reflexivity.
Qed.

(** The key [__proto__] is never copied. *)
Lemma copyVar_proto (parentEnv env : record) : copyVar parentEnv env "__proto__" = env.
Proof. rewrite copyVar_present. now destruct (Spec.presentValue parentEnv "__proto__"). Qed.

Lemma copyVar_agree (p1 p2 env : record) (k : string) :
  (k <> "__proto__" -> Spec.presentValue p1 k = Spec.presentValue p2 k) ->
  copyVar p1 env k = copyVar p2 env k.
Proof.
  intros Hagree. destruct (String.eqb_spec k "__proto__") as [->|Hne].
  - now rewrite !copyVar_proto.
  - now rewrite (copyVar_present p1), (copyVar_present p2), (Hagree Hne).
Qed.

Lemma copyVars_agree (p1 p2 : record) (ks : list string) :
  (forall k, In k ks -> k <> "__proto__" ->
             Spec.presentValue p1 k = Spec.presentValue p2 k) ->
  forall env, fold_left (copyVar p1) ks env = fold_left (copyVar p2) ks env.
Proof.
  induction ks as [|k ks IH]; intros Hagree env; simpl; [reflexivity|].
  rewrite (copyVar_agree p1 p2 env k) by (apply Hagree; now left).
  apply IH. intros k' Hk'. apply Hagree. now right.
Qed.

Lemma build_agree (model : string) (agentEnv : option string) (p1 p2 : record) :
  (forall k, Spec.selected model agentEnv k = true -> k <> "__proto__" ->
             Spec.presentValue p1 k = Spec.presentValue p2 k) ->
  buildSubprocessEnv model agentEnv p1 = buildSubprocessEnv model agentEnv p2.
Proof.
  intros Hagree. unfold buildSubprocessEnv. rewrite !credential_stage.
  assert (Hsys : fold_left (copyVar p1) SYSTEM_VARS [] = fold_left (copyVar p2) SYSTEM_VARS []).
  { apply copyVars_agree. intros k Hk. apply Hagree. unfold Spec.selected.
    apply (inList_In k SYSTEM_VARS) in Hk. now rewrite Hk. }
  rewrite Hsys.
  assert (Hcred : match Spec.credentialOf model with
                  | Some keyName => copyVar p1 (fold_left (copyVar p2) SYSTEM_VARS []) keyName
                  | None => fold_left (copyVar p2) SYSTEM_VARS []
                  end =
                  match Spec.credentialOf model with
                  | Some keyName => copyVar p2 (fold_left (copyVar p2) SYSTEM_VARS []) keyName
                  | None => fold_left (copyVar p2) SYSTEM_VARS []
                  end).
  { destruct (Spec.credentialOf model) as [keyName|] eqn:Ec; [|reflexivity].
    apply copyVar_agree. apply Hagree.
    unfold Spec.selected, Spec.isCredentialOf. rewrite Ec, String.eqb_refl.
    now rewrite orb_true_r. }
  rewrite Hcred. apply copyVars_agree.
  intros k Hk. apply Hagree. unfold Spec.selected.
  apply (inList_In k (parseAgentEnvField agentEnv)) in Hk. rewrite Hk.
  now rewrite orb_true_r.
Qed.

(** What a source yields is truthy and is yielded again by a record that
    holds it. *)
Lemma presentValue_kept (o : record) (k : string) (v : jsval) :
  oget o k = Some v -> truthyVal (Some v) = true -> Spec.presentValue o k = Some v.
Proof.
  unfold Spec.presentValue. intros ->. destruct v as [s|member]; cbn [truthyVal].
  - now intros ->.
  - reflexivity.
Qed.

Lemma presentValue_truthy (o : record) (k : string) (v : jsval) :
  Spec.presentValue o k = Some v -> truthyVal (Some v) = true.
Proof.
  rewrite presentValue_read. destruct (truthyVal (read o k)) eqn:E; [|discriminate].
  now intros <-.
Qed.

(** X3.  The built environment is a function of what the source yields for
    the selected variables alone: two source environments that yield the
    same truthy values for the system essentials, the credential of the
    model's provider and the declared extras ([__proto__], which is never
    copied, apart) give the same environment, whatever else they hold.  A
    source yields a value under a name when it sets the name or when the
    name is that of a member of [Object.prototype]. *)
Theorem buildSubprocessEnv_reads_selected_only
    (model : string) (agentEnv : option string) (parentEnv1 parentEnv2 : record) :
  (forall k, Spec.selected model agentEnv k = true -> k <> "__proto__" ->
             Spec.presentValue parentEnv1 k = Spec.presentValue parentEnv2 k) ->
  buildSubprocessEnv model agentEnv parentEnv1 = buildSubprocessEnv model agentEnv parentEnv2.
Proof. exact (build_agree model agentEnv parentEnv1 parentEnv2). Qed.

(** Adding another provider's key and an unrelated secret to the source
    changes nothing. *)
Lemma buildSubprocessEnv_ignores_other_keys :
  buildSubprocessEnv "anthropic/x" (Some "NPM_TOKEN")
    [("PATH", Str "/usr/bin"); ("ANTHROPIC_API_KEY", Str "sk-ant"); ("NPM_TOKEN", Str "t");
     ("OPENAI_API_KEY", Str "sk-oa"); ("AWS_SECRET_ACCESS_KEY", Str "s3")]
  = buildSubprocessEnv "anthropic/x" (Some "NPM_TOKEN")
      [("PATH", Str "/usr/bin"); ("ANTHROPIC_API_KEY", Str "sk-ant"); ("NPM_TOKEN", Str "t")].
Proof.
  apply buildSubprocessEnv_reads_selected_only.
  intros k Hk _.
  destruct (String.eqb_spec "OPENAI_API_KEY" k) as [<-|Hopenai]; [discriminate Hk|].
  destruct (String.eqb_spec "AWS_SECRET_ACCESS_KEY" k) as [<-|Haws]; [discriminate Hk|].
  apply String.eqb_neq in Hopenai, Haws.
  unfold Spec.presentValue, oget. cbn [get]. now rewrite Hopenai, Haws.
Defined.

(** X4.  Building again from a built environment changes nothing, provided
    the source sets no selected variable that is named like a member of
    [Object.prototype] to the empty string (such a variable is left out of
    the first result and read from the prototype in the second): a worker
    that spawns workers of its own for the same model and the same declared
    extras then hands down the environment it received. *)
Theorem buildSubprocessEnv_idempotent
    (model : string) (agentEnv : option string) (parentEnv : record) :
  (forall k, Spec.selected model agentEnv k = true ->
             inList k OBJECT_PROTOTYPE = true ->
             oget parentEnv k <> Some (Str "")) ->
  buildSubprocessEnv model agentEnv (buildSubprocessEnv model agentEnv parentEnv)
  = buildSubprocessEnv model agentEnv parentEnv.
Proof.
  intros Hset. apply build_agree. intros k Hk Hproto.
  apply String.eqb_neq in Hproto.
  destruct (Spec.presentValue parentEnv k) as [v|] eqn:E.
  - apply presentValue_kept; [|exact (presentValue_truthy _ _ _ E)].
    rewrite buildSubprocessEnv_lookup, Hk, Hproto. exact E.
  - unfold Spec.presentValue at 1.
    rewrite buildSubprocessEnv_lookup, Hk, Hproto. cbn [andb negb]. rewrite E.
    destruct (inList k OBJECT_PROTOTYPE) eqn:Ep; [exfalso | reflexivity].
    apply (Hset k Hk Ep). unfold Spec.presentValue in E. rewrite Ep in E.
    destruct (oget parentEnv k) as [[s|member]|]; try discriminate E.
    now destruct s.
Qed.

(** A source with two providers' keys, the persona declaring one extra. *)
Lemma buildSubprocessEnv_twice :
  buildSubprocessEnv "anthropic/x" (Some "NPM_TOKEN")
    (buildSubprocessEnv "anthropic/x" (Some "NPM_TOKEN")
       [("PATH", Str "/usr/bin"); ("ANTHROPIC_API_KEY", Str "sk-ant");
        ("NPM_TOKEN", Str "t"); ("OPENAI_API_KEY", Str "sk-oa")])
  = [("PATH", Str "/usr/bin"); ("ANTHROPIC_API_KEY", Str "sk-ant"); ("NPM_TOKEN", Str "t")].
Proof.
  rewrite buildSubprocessEnv_idempotent; [reflexivity|].
  intros k _ Hk. apply inList_In in Hk. cbn in Hk.
  repeat (destruct Hk as [<-|Hk]; [discriminate|]). destruct Hk.
Defined.

Lemma lowerChar_slash (c : ascii) : Ascii.eqb (lowerChar c) "/" = Ascii.eqb c "/".
Proof. destruct c as [[] [] [] [] [] [] [] []]; reflexivity. Qed.

Lemma lowerChar_idem (c : ascii) : lowerChar (lowerChar c) = lowerChar c.
Proof. destruct c as [[] [] [] [] [] [] [] []]; reflexivity. Qed.

Lemma toLowerCase_idem (s : string) : toLowerCase (toLowerCase s) = toLowerCase s.
Proof. induction s as [|c t IH]; simpl; [reflexivity|]. now rewrite lowerChar_idem, IH. Qed.

Lemma indexOf_prefix (p r : string) :
  indexOf "/" p = None ->
  indexOf "/" (p ++ String "/" r) = Some (String.length p)
  /\ take (String.length p) (p ++ String "/" r) = p.
Proof.
  induction p as [|c t IH]; simpl.
  - intros _. now split.
  - destruct (Ascii.eqb c "/"); [discriminate|].
    destruct (indexOf "/" t) eqn:E; [discriminate|]. intros _.
    destruct (IH eq_refl) as [-> ->]. now split.
Qed.

Lemma indexOf_lower (p : string) :
  indexOf "/" p = None -> indexOf "/" (toLowerCase p) = None.
Proof.
  induction p as [|c t IH]; simpl; [reflexivity|].
  rewrite lowerChar_slash. destruct (Ascii.eqb c "/"); [discriminate|].
  destruct (indexOf "/" t); [discriminate|]. intros _. now rewrite IH.
Qed.

Lemma extractProvider_prefix (p r : string) :
  indexOf "/" p = None ->
  extractProvider (p ++ "/" ++ r) = Some (toLowerCase p).
Proof.
  intros Hp. unfold extractProvider. cbn [String.append].
  destruct (indexOf_prefix p r Hp) as [Hi Ht]. rewrite Hi, Ht.
  now destruct p.
Qed.

(** X5.  The model identifier matters only through the text before its
    first slash, read without regard to case: two identifiers whose
    providers differ in case only, with any texts after the slash, yield the
    same environment. *)
Theorem buildSubprocessEnv_provider_only
    (provider rest1 rest2 : string) (agentEnv : option string) (parentEnv : record) :
  indexOf "/" provider = None ->
  extractProvider (provider ++ "/" ++ rest1) = Some (toLowerCase provider)
  /\ buildSubprocessEnv (provider ++ "/" ++ rest1) agentEnv parentEnv
     = buildSubprocessEnv (toLowerCase provider ++ "/" ++ rest2) agentEnv parentEnv.
Proof.
  intros Hp. split; [now apply extractProvider_prefix|].
  unfold buildSubprocessEnv.
  rewrite (extractProvider_prefix provider rest1 Hp).
  rewrite (extractProvider_prefix (toLowerCase provider) rest2 (indexOf_lower _ Hp)).
  now rewrite toLowerCase_idem.
Qed.

(** A model of OpenRouter that names Google after the slash takes the key
    of OpenRouter, as a model written in capitals does. *)
Lemma buildSubprocessEnv_openrouter :
  extractProvider "OpenRouter/google/gemini-3-flash-preview" = Some "openrouter"
  /\ buildSubprocessEnv "OpenRouter/google/gemini-3-flash-preview" None
       [("GEMINI_API_KEY", Str "g"); ("OPENROUTER_API_KEY", Str "o")]
     = [("OPENROUTER_API_KEY", Str "o")].
Proof.
  destruct (buildSubprocessEnv_provider_only "OpenRouter" "google/gemini-3-flash-preview" "x"
              None [("GEMINI_API_KEY", Str "g"); ("OPENROUTER_API_KEY", Str "o")] eq_refl)
    as [Hprov Hbuild].
  split; [exact Hprov|].
  exact (eq_trans Hbuild eq_refl).
Defined.

End EnvFrameProofs.

Module NameProofs.
Import JS Regex Facts AgentLoader Notions SplitProofs RegexProofs LoaderProofs.

(** [^] cannot match after a code unit when the [m] flag is off. *)
Lemma searchFrom_anchored (r : regex) (s : string) :
  forall i c, searchFrom noFlags (Seq Bol r) i (Some c) s = None.
Proof.
  induction s as [|d t IH]; intros i c; cbn [searchFrom]; unfold matchHere; cbn [m];
    unfold atLineStart; cbn [prev multiline noFlags andb].
  - reflexivity.
  - apply IH.
Qed.

(** A greedy star over a class before [$]: when it matches, everything up
    to the end is in the class. *)
Lemma starLoop_to_end (mem : ascii -> bool) (fuel : nat) :
  forall s0,
    starLoop (m noFlags (Class false mem)) true (fun s' => m noFlags Eol s' Some) fuel s0
    <> None ->
    forall c, In c (chars (rest s0)) -> mem c = true.
Proof.
  induction fuel as [|fuel IH]; intros s0 Hm c Hc.
  - cbn [starLoop m] in Hm. unfold atLineEnd in Hm.
    destruct (rest s0); [destruct Hc | cbn in Hm; congruence].
  - cbn [starLoop] in Hm. cbn [m] in Hm.
    destruct (rest s0) as [|d t] eqn:Er; [destruct Hc|].
    rewrite class_noFlags in Hm.
    unfold atLineEnd in Hm. rewrite Er in Hm. cbn [multiline noFlags andb] in Hm.
    destruct (mem d) eqn:Hd; [|congruence].
    destruct (progressed s0 (advance d t s0)); [|congruence].
    destruct Hc as [<-|Hc]; [exact Hd|].
    apply (IH (advance d t s0)); [|exact Hc].
    intros E. apply Hm.
    match goal with
    | |- match ?X with _ => _ end = None =>
        change X with (starLoop (m noFlags (Class false mem)) true
                         (fun s' => m noFlags Eol s' Some) fuel (advance d t s0))
    end.
    now rewrite E.
Qed.

(** What [VALID_NAME_PATTERN] accepts. *)
Lemma valid_name_pattern (nm : string) :
  test noFlags VALID_NAME_PATTERN nm = true <->
  exists c t, nm = String c t /\ isAlnum c = true
              /\ forall d, In d (chars t) -> nameChar d = true.
Proof.
  unfold test, exec, VALID_NAME_PATTERN. cbn [seqs]. split.
  - intros Ht. destruct nm as [|c t].
    + cbn in Ht. discriminate.
    + cbn [searchFrom] in Ht. rewrite searchFrom_anchored in Ht.
      destruct (matchHere noFlags _ None (String c t)) as [st|] eqn:Em; [|discriminate].
      unfold matchHere in Em. cbn [m atLineStart prev rest] in Em.
      rewrite class_noFlags in Em.
      destruct (isAlnum c) eqn:Hc; [|discriminate].
      exists c, t. split; [reflexivity|]. split; [exact Hc|].
      intros d Hd.
      apply (starLoop_to_end nameChar (S (String.length t))
               (advance c t {| prev := None; rest := String c t; caps := [] |}));
        [|exact Hd].
      intros E.
      match type of Em with
      | ?X = Some st =>
          change X with (starLoop (m noFlags (Class false nameChar)) true
                           (fun s' => m noFlags Eol s' Some) (S (String.length t))
                           (advance c t {| prev := None; rest := String c t; caps := [] |}))
            in Em
      end.
      congruence.
  - intros [c [t [-> [Hc Hall]]]].
    assert (Hm : matchHere noFlags
                   (Seq Bol (Seq (Class false isAlnum)
                      (Seq (Star true (Class false (fun c => isAlnum c || oneOf "._-" c))) Eol)))
                   None (String c t) <> None).
    { unfold matchHere. apply m_seq.
      change (m noFlags (Seq (Class false isAlnum)
                           (Seq (Star true (Class false nameChar)) Eol))
                {| prev := None; rest := String c t; caps := [] |} Some <> None).
      apply m_seq, (m_class _ _ _ c t); [reflexivity | now rewrite class_noFlags |].
      apply m_seq.
      apply (m_star_class noFlags false nameChar t ""); [now rewrite append_nil_r | |].
      - intros d Hd. rewrite class_noFlags. now apply Hall.
      - cbn [m]. unfold atLineEnd. cbn [rest]. discriminate. }
    cbn [searchFrom]. destruct (matchHere noFlags _ None (String c t)); [reflexivity|].
    now elim Hm.
Qed.

(** X6.  [validateName] has no finding exactly for the names of 1 to 64
    code units that start with an ASCII letter or digit and go on with ASCII
    letters, digits, dots, dashes and underscores: no accepted name is
    empty, or holds whitespace, a path separator or a shell
    metacharacter. *)
Theorem validateName_accepts_exactly (nm : string) :
  validateName nm = [] <->
  exists c t,
    nm = String c t
    /\ String.length nm <= 64
    /\ isAlnum c = true
    /\ forall d, In d (list_ascii_of_string t) ->
                 (isAlnum d || oneOf "._-" d) = true.
Proof.
  rewrite validateName_clean, valid_name_pattern. split.
  - intros [_ [Hlen [c [t [-> [Hc Hall]]]]]]. exists c, t. repeat split; assumption.
  - intros [c [t [-> [Hlen [Hc Hall]]]]]. split; [discriminate|]. split; [exact Hlen|].
    exists c, t. repeat split; assumption.
Qed.

End NameProofs.

Module ScanProofs.
Import JS Regex Json Facts AgentLoader LoaderProofs ScanDefs.

Section Host.
Variable readFileSync : string -> string + string.
Variable basename : string -> string -> string.
Variable existsSync : string -> bool.
Variable readdirSync : string -> option (list string).
Variable resolve : string -> string -> string.

Lemma sget_set (o : list (string * AgentDef)) k k' v :
  get String.eqb (set String.eqb o k v) k'
  = if String.eqb k k' then Some v else get String.eqb o k'.
Proof. apply get_set. apply String.eqb_eq. Qed.

Lemma scan_lookup (dir key : string) (files : list string) :
  forall acc,
    get String.eqb (fst (fold_left (scanFile readFileSync basename resolve dir) files acc)) key =
    match get String.eqb (fst acc) key with
    | Some a => Some a
    | None => firstAgent readFileSync basename resolve dir key files
    end.
Proof.
  induction files as [|f files IH]; intros acc; cbn [fold_left firstAgent].
  - now destruct (get String.eqb (fst acc) key).
  - rewrite IH. unfold scanFile.
    destruct (endsWithMd f); cbn [negb]; [|reflexivity].
    destruct (agent (loadAgentFile readFileSync basename (resolve dir f))) as [a|];
      [|reflexivity].
    unfold has.
    destruct (get String.eqb (fst acc) (toLowerCase (name a))) as [b|] eqn:Eb; cbn [negb fst].
    + destruct (String.eqb (toLowerCase (name a)) key) eqn:Ek; [|reflexivity].
      apply String.eqb_eq in Ek. subst key. now rewrite Eb.
    + rewrite sget_set.
      destruct (String.eqb (toLowerCase (name a)) key) eqn:Ek; [|reflexivity].
      apply String.eqb_eq in Ek. subst key. now rewrite Eb.
Qed.

Lemma scan_nodup (dir : string) (files : list string) :
  forall acc, NoDup (keys (fst acc)) ->
              NoDup (keys (fst (fold_left (scanFile readFileSync basename resolve dir) files acc))).
Proof.
  induction files as [|f files IH]; intros acc Hnd; cbn [fold_left]; [exact Hnd|].
  apply IH. unfold scanFile.
  destruct (endsWithMd f); cbn [negb]; [|exact Hnd].
  destruct (agent (loadAgentFile readFileSync basename (resolve dir f))) as [a|];
    [|exact Hnd].
  destruct (negb (has String.eqb (fst acc) (toLowerCase (name a)))); cbn [fst]; [|exact Hnd].
  apply NoDup_keys_set; [apply String.eqb_eq | exact Hnd].
Qed.

Lemma first_sound (dir key : string) (files : list string) (a : AgentDef) :
  firstAgent readFileSync basename resolve dir key files = Some a ->
  toLowerCase (name a) = key
  /\ exists f, In f files /\ endsWithMd f = true
               /\ agent (loadAgentFile readFileSync basename (resolve dir f)) = Some a.
Proof.
  induction files as [|f files IH]; cbn [firstAgent]; [discriminate|].
  intros Hfirst.
  assert (Hlater : firstAgent readFileSync basename resolve dir key files = Some a ->
                   toLowerCase (name a) = key
                   /\ exists f0, In f0 (f :: files) /\ endsWithMd f0 = true
                                 /\ agent (loadAgentFile readFileSync basename (resolve dir f0))
                                    = Some a).
  { intros Hl. destruct (IH Hl) as [Hk [f0 [Hin Hrest]]].
    split; [exact Hk|]. exists f0. split; [now right | exact Hrest]. }
  destruct (endsWithMd f) eqn:Emd; [|auto].
  destruct (agent (loadAgentFile readFileSync basename (resolve dir f))) as [b|] eqn:Eb;
    [|auto].
  destruct (String.eqb (toLowerCase (name b)) key) eqn:Ek; [|auto].
  injection Hfirst as ->. apply String.eqb_eq in Ek.
  split; [exact Ek|]. exists f. split; [now left|]. now split.
Qed.

(** X7.  The map [scanAgentDirectory] returns: a directory that does not
    exist or cannot be listed gives the empty map and no call of the
    callback; otherwise every key is mapped to the definition of the first
    listed [.md] file that loads without an error finding and whose
    lowercased name is the key, so a later file with the same name never
    replaces an earlier one, every definition in the map passed validation,
    and no key occurs twice. *)
Theorem scanAgentDirectory_first_wins :
  (forall dir, existsSync dir = false ->
               scanAgentDirectory readFileSync basename existsSync readdirSync resolve dir
               = ([], []))
  /\ (forall dir, readdirSync dir = None ->
                  scanAgentDirectory readFileSync basename existsSync readdirSync resolve dir
                  = ([], []))
  /\ (forall dir files key,
        existsSync dir = true -> readdirSync dir = Some files ->
        get String.eqb
            (fst (scanAgentDirectory readFileSync basename existsSync readdirSync resolve dir))
            key
        = firstAgent readFileSync basename resolve dir key files)
  /\ (forall dir files key a,
        existsSync dir = true -> readdirSync dir = Some files ->
        get String.eqb
            (fst (scanAgentDirectory readFileSync basename existsSync readdirSync resolve dir))
            key = Some a ->
        toLowerCase (name a) = key
        /\ validateName (name a) = []
        /\ String.length (systemPrompt a) <= MAX_SYSTEM_PROMPT_LENGTH
        /\ exists f, In f files /\ endsWithMd f = true
                     /\ agent (loadAgentFile readFileSync basename (resolve dir f)) = Some a)
  /\ (forall dir,
        NoDup (keys (fst (scanAgentDirectory readFileSync basename existsSync readdirSync
                            resolve dir)))).
Proof.
  assert (Hlookup : forall dir files key,
             existsSync dir = true -> readdirSync dir = Some files ->
             get String.eqb
               (fst (scanAgentDirectory readFileSync basename existsSync readdirSync resolve dir))
               key
             = firstAgent readFileSync basename resolve dir key files).
  { intros dir files key He Hr. unfold scanAgentDirectory. rewrite He, Hr. cbn [negb].
    now rewrite scan_lookup. }
  split; [|split; [|split; [exact Hlookup|split]]].
  - intros dir He. unfold scanAgentDirectory. now rewrite He.
  - intros dir Hr. unfold scanAgentDirectory. rewrite Hr. now destruct (negb (existsSync dir)).
  - intros dir files key a He Hr Hg. rewrite (Hlookup dir files key He Hr) in Hg.
    destruct (first_sound dir key files a Hg) as [Hk [f [Hin [Hmd Hload]]]].
    split; [exact Hk|].
    assert (Hvalid : hasErrors (validateAgent a) = false).
    { unfold loadAgentFile in Hload.
      destruct (readFileSync (resolve dir f)) as [raw|msg]; [|discriminate].
      destruct (parseFrontmatter raw) as [parsed|]; [|discriminate].
      cbn [agent] in Hload.
      destruct (hasErrors (validateAgent (agentOf basename (resolve dir f) parsed))) eqn:E;
        [discriminate|].
      injection Hload as <-. exact E. }
    apply validateAgent_errors in Hvalid. destruct Hvalid as [Hname Hlen].
    split; [exact Hname|]. split; [exact Hlen|].
    exists f. now repeat split.
  - intros dir. unfold scanAgentDirectory.
    destruct (negb (existsSync dir)); [constructor|].
    destruct (readdirSync dir) as [files|]; [|constructor].
    apply scan_nodup. constructor.
Qed.

End Host.
End ScanProofs.

Module RosterProofs.
Import JS Regex Json Facts AgentTeam RosterDefs TeamProofs.

Section WithHost.
Context {H : Host}.

Lemma defsByName_sound (defs : list AgentLoader.AgentDef) :
  forall acc k d,
    get String.eqb
        (fold_left (fun acc d => set String.eqb acc (toLowerCase (AgentLoader.name d)) d)
                   defs acc) k = Some d ->
    (In d defs /\ toLowerCase (AgentLoader.name d) = k) \/ get String.eqb acc k = Some d.
Proof.
  induction defs as [|d0 defs IH]; intros acc k d; cbn [fold_left]; [now right|].
  intros Hg. apply IH in Hg. destruct Hg as [[Hin Hk]|Hg].
  - left. split; [now right | exact Hk].
  - rewrite (get_set String.eqb String.eqb_eq) in Hg.
    destruct (String.eqb (toLowerCase (AgentLoader.name d0)) k) eqn:E; [|now right].
    injection Hg as <-. apply String.eqb_eq in E. left. split; [now left | exact E].
Qed.

Lemma addMember_fresh (w0 : World) (defsByName : list (string * AgentLoader.AgentDef))
    (w : World) (member : string) :
  (forall k d, get String.eqb defsByName k = Some d ->
               In d (allAgentDefs w0) /\ toLowerCase (AgentLoader.name d) = k) ->
  rosterFresh w0 w -> rosterFresh w0 (addMember defsByName w member).
Proof.
  intros Hdefs Hfresh. unfold addMember.
  destruct (get String.eqb defsByName (toLowerCase member)) as [d|] eqn:Ed;
    [|exact Hfresh].
  destruct Hfresh as [Hp [Hs [Hn [Ha Hroster]]]].
  destruct (Hdefs _ _ Ed) as [Hin Hname].
  split; [exact Hp|]. split; [exact Hs|]. split; [exact Hn|].
  split; [cbn [nextAddr]; lia|].
  intros key addr Hg. cbn [agentStates] in Hg.
  rewrite (get_set String.eqb String.eqb_eq) in Hg.
  unfold stateAt. cbn [heap nextAddr]. rewrite nget_set.
  destruct (String.eqb (toLowerCase (AgentLoader.name d)) key) eqn:Ek.
  - injection Hg as <-. rewrite Nat.eqb_refl. split; [lia|].
    eexists. split; [reflexivity|].
    apply String.eqb_eq in Ek. repeat split; assumption.
  - destruct (Hroster key addr Hg) as [Hlt [st [Hst Hfr]]]. split; [lia|].
    destruct (Nat.eqb (nextAddr w) addr) eqn:Ea; [apply Nat.eqb_eq in Ea; lia|].
    now exists st.
Qed.

Lemma activateTeam_fresh (w : World) (teamName : string) :
  rosterFresh w (activateTeam w teamName).
Proof.
  unfold activateTeam.
  set (defsByName := fold_left _ (allAgentDefs w) []).
  set (cleared := {| agentStates := []; heap := heap w |}).
  assert (Hdefs : forall k d, get String.eqb defsByName k = Some d ->
                              In d (allAgentDefs w) /\ toLowerCase (AgentLoader.name d) = k).
  { intros k d Hg. apply defsByName_sound in Hg. destruct Hg as [Hg|Hg]; [exact Hg|discriminate]. }
  assert (Hstart : rosterFresh w cleared).
  { repeat split; cbn; try reflexivity; try lia; discriminate. }
  generalize dependent cleared. intros cleared Hstart.
  generalize (match get String.eqb (teams w) teamName with Some ms => ms | None => [] end).
  intros members. revert cleared Hstart.
  induction members as [|mb members IH]; intros cleared Hstart; cbn [fold_left]; [exact Hstart|].
  apply IH. now apply addMember_fresh.
Qed.

(** X8.  Roster activation ends no child and spawns none, and every state
    object it puts in the roster is idle with empty task and zeroed
    counters, belongs to a loaded definition and stands under that
    definition's lowercased name; a team name that is not defined gives an
    empty roster. *)
Theorem activateTeam_resets_roster :
  (forall w teamName,
      procs (activateTeam w teamName) = procs w
      /\ spawned (activateTeam w teamName) = spawned w)
  /\ (forall w teamName key addr st,
        lookupState (activateTeam w teamName) key = Some (addr, st) ->
        status st = idle /\ task st = "" /\ toolCount st = 0 /\ elapsed st = 0
        /\ lastWork st = "" /\ runCount st = 0
        /\ toLowerCase (AgentLoader.name (def st)) = key
        /\ In (def st) (allAgentDefs w))
  /\ (forall w teamName,
        get String.eqb (teams w) teamName = None ->
        agentStates (activateTeam w teamName) = []).
Proof.
  split; [|split].
  - intros w teamName. destruct (activateTeam_fresh w teamName) as [Hp [Hs _]]. now split.
  - intros w teamName key addr st Hl.
    destruct (activateTeam_fresh w teamName) as [_ [_ [_ [_ Hroster]]]].
    apply lookupState_inv in Hl. destruct Hl as [Hmap Hst].
    destruct (Hroster key addr Hmap) as [_ [st' [Hst' Hfresh]]].
    rewrite Hst in Hst'. injection Hst' as <-. exact Hfresh.
  - intros w teamName Hnone. unfold activateTeam. now rewrite Hnone.
Qed.

End WithHost.
End RosterProofs.

Module AttendedProofs.
Import JS Regex Json Facts AgentTeam RosterDefs TeamProofs RosterProofs.

(** A state object that is not marked running is held by no child and is
    not stuck. *)
Lemma idle_is_free (w : World) (addr : nat) (st : AgentState) :
  Attended w -> stateAt w addr = Some st -> status st <> running ->
  (forall pid p, get Nat.eqb (procs w) pid = Some p -> owner p <> addr)
  /\ ~ stuck w addr.
Proof.
  intros Hatt Hst Hs. split.
  - intros pid p Hg Ho. destruct (att_held w Hatt pid p Hg) as [s [Hs0 Hr]].
    rewrite Ho, Hst in Hs0. injection Hs0 as <-. contradiction.
  - intros Hstuck. destruct (att_stuck w Hatt addr Hstuck) as [[s [Hs0 Hr]] _].
    rewrite Hst in Hs0. injection Hs0 as <-. contradiction.
Qed.

Lemma attended_heap_update (w : World) (a : nat) (st st' : AgentState) :
  Attended w -> stateAt w a = Some st -> status st' = status st ->
  Attended (withHeap w (set Nat.eqb (heap w) a st')).
Proof.
  intros Hatt Hst Hs. destruct Hatt as [Hbd Hfr Hnd Hheld Huni Hrun Hstuck].
  constructor; cbn [withHeap procs nextPid nextAddr]; try assumption.
  - intros b s. unfold stateAt. cbn [heap withHeap withProcs]. rewrite nget_set.
    destruct (Nat.eqb a b) eqn:E; [|apply Hbd].
    apply Nat.eqb_eq in E. subst b. intros _. now apply (Hbd a st).
  - intros pid p Hg. destruct (Hheld pid p Hg) as [s [Hs0 Hr]].
    unfold stateAt. cbn [heap withHeap withProcs]. rewrite nget_set.
    destruct (Nat.eqb a (owner p)) eqn:E; [|now exists s].
    apply Nat.eqb_eq in E. subst a. unfold stateAt in Hst, Hs0. rewrite Hs0 in Hst.
    injection Hst as <-. exists st'. split; [reflexivity | congruence].
  - intros b s. unfold stateAt. cbn [heap withHeap withProcs]. rewrite nget_set.
    destruct (Nat.eqb a b) eqn:E.
    + apply Nat.eqb_eq in E. subst b. intros [= <-] Hr. apply (Hrun a st Hst). congruence.
    + apply Hrun.
  - intros b Hb. destruct (Hstuck b Hb) as [[s [Hs0 Hr]] Hfree].
    split; [|exact Hfree].
    unfold stateAt. cbn [heap withHeap withProcs]. rewrite nget_set.
    destruct (Nat.eqb a b) eqn:E; [|now exists s].
    apply Nat.eqb_eq in E. subst b. unfold stateAt in Hst, Hs0. rewrite Hs0 in Hst.
    injection Hst as <-. exists st'. split; [reflexivity | congruence].
Qed.

Lemma attended_proc_update (w : World) (pid : nat) (p p' : Proc) :
  Attended w -> get Nat.eqb (procs w) pid = Some p -> owner p' = owner p ->
  Attended (withProcs w (set Nat.eqb (procs w) pid p')).
Proof.
  intros Hatt Hp Ho. destruct Hatt as [Hbd Hfr Hnd Hheld Huni Hrun Hstuck].
  constructor; cbn [withProcs procs nextPid nextAddr]; try assumption.
  - intros q pq. rewrite nget_set. destruct (Nat.eqb pid q) eqn:E.
    + apply Nat.eqb_eq in E. subst q. intros _. eauto.
    + apply Hfr.
  - apply NoDup_keys_set; [apply Nat.eqb_eq | exact Hnd].
  - intros q pq. rewrite nget_set. destruct (Nat.eqb pid q) eqn:E.
    + intros [= <-]. rewrite Ho. exact (Hheld pid p Hp).
    + apply Hheld.
  - intros q pq q' pq'. rewrite !nget_set.
    destruct (Nat.eqb pid q) eqn:E, (Nat.eqb pid q') eqn:E';
      try apply Nat.eqb_eq in E; try apply Nat.eqb_eq in E'; subst.
    + reflexivity.
    + intros [= <-] Hq' Hown. rewrite Ho in Hown. eauto.
    + intros Hq [= <-] Hown. rewrite Ho in Hown. eauto.
    + apply Huni.
  - intros a s Hs Hr. destruct (Hrun a s Hs Hr) as [[q [pq [Hg Hown]]]|Hst]; [left|now right].
    destruct (Nat.eqb pid q) eqn:E.
    + apply Nat.eqb_eq in E. subst q. exists pid, p'.
      rewrite nget_set, Nat.eqb_refl. split; [reflexivity|]. congruence.
    + exists q, pq. rewrite nget_set, E. now split.
  - intros a Ha. destruct (Hstuck a Ha) as [Hs Hfree]. split; [exact Hs|].
    intros q pq. rewrite nget_set. destruct (Nat.eqb pid q) eqn:E.
    + intros [= <-]. rewrite Ho. now apply (Hfree pid p).
    + apply Hfree.
Qed.

Lemma attended_end (w : World) (pid : nat) (p : Proc) (st' : AgentState) :
  Attended w -> get Nat.eqb (procs w) pid = Some p -> status st' <> running ->
  Attended (withProcs (withHeap w (set Nat.eqb (heap w) (owner p) st'))
                      (delete Nat.eqb (procs w) pid)).
Proof.
  intros Hatt Hp Hs. destruct Hatt as [Hbd Hfr Hnd Hheld Huni Hrun Hstuck].
  constructor; cbn [withProcs withHeap procs nextPid nextAddr].
  - intros b s. unfold stateAt. cbn [heap withHeap withProcs]. rewrite nget_set.
    destruct (Nat.eqb (owner p) b) eqn:E; [|apply Hbd].
    apply Nat.eqb_eq in E. subst b. intros _.
    destruct (Hheld pid p Hp) as [s0 [Hs0 _]]. now apply (Hbd _ s0).
  - intros q pq Hq. apply nget_delete in Hq; [|exact Hnd]. destruct Hq. eauto.
  - now apply NoDup_keys_delete.
  - intros q pq Hq. apply nget_delete in Hq; [|exact Hnd]. destruct Hq as [Hne Hq].
    destruct (Hheld q pq Hq) as [s [Hs0 Hr]].
    exists s. split; [|exact Hr]. unfold stateAt. cbn [heap withHeap withProcs]. rewrite nget_set.
    destruct (Nat.eqb (owner p) (owner pq)) eqn:E; [|exact Hs0].
    apply Nat.eqb_eq in E. exfalso. apply Hne. now apply (Huni pid p q pq).
  - intros q pq q' pq' Hq Hq'.
    apply nget_delete in Hq; [|exact Hnd]. apply nget_delete in Hq'; [|exact Hnd].
    destruct Hq, Hq'. eauto.
  - intros a s. unfold stateAt. cbn [heap withHeap withProcs]. rewrite nget_set.
    destruct (Nat.eqb (owner p) a) eqn:E.
    + intros [= <-] Hr. contradiction.
    + intros Hst Hr. destruct (Hrun a s Hst Hr) as [[q [pq [Hg Hown]]]|Hstk]; [left|now right].
      exists q, pq. split; [|exact Hown].
      rewrite nget_delete_other; [exact Hg|].
      intros ->. rewrite Hp in Hg. injection Hg as <-.
      rewrite Hown, Nat.eqb_refl in E. discriminate.
  - intros a Ha. destruct (Hstuck a Ha) as [[s [Hs0 Hr]] Hfree]. split.
    + exists s. split; [|exact Hr]. unfold stateAt. cbn [heap withHeap withProcs]. rewrite nget_set.
      destruct (Nat.eqb (owner p) a) eqn:E; [|exact Hs0].
      apply Nat.eqb_eq in E. exfalso. now apply (Hfree pid p Hp).
    + intros q pq Hq. apply nget_delete in Hq; [|exact Hnd]. destruct Hq. eauto.
Qed.

Section WithHost.
Context {H : Host}.

Lemma attended_dispatch (w : World) agentName task ctxModel now :
  Attended w -> Attended (fst (dispatchAgent w agentName task ctxModel now)).
Proof.
  intros Hatt. unfold dispatchAgent.
  destruct (lookupState w (toLowerCase agentName)) as [[addr st]|] eqn:El; [|exact Hatt].
  destruct (isRunning (status st)) eqn:Er; [exact Hatt|].
  apply lookupState_inv in El. destruct El as [_ Hst].
  assert (Hidle : status st <> running) by (intros E; rewrite E in Er; discriminate).
  destruct (idle_is_free w addr st Hatt Hst Hidle) as [Hfree Hnot].
  destruct Hatt as [Hbd Hfr Hnd Hheld Huni Hrun Hstuck].
  cbn [fst]. constructor; cbn [procs nextPid nextAddr timers]; unfold stuck;
    cbn [timers].
  - intros b s. unfold stateAt. cbn [heap withHeap withProcs]. rewrite nget_set.
    destruct (Nat.eqb addr b) eqn:E; [|apply Hbd].
    apply Nat.eqb_eq in E. subst b. intros _. now apply (Hbd addr st).
  - intros pid p. rewrite nget_set. destruct (Nat.eqb (nextPid w) pid) eqn:E.
    + apply Nat.eqb_eq in E. lia.
    + intros Hg. apply Hfr in Hg. lia.
  - apply NoDup_keys_set; [apply Nat.eqb_eq | exact Hnd].
  - intros pid p. rewrite nget_set. unfold stateAt. cbn [heap withHeap withProcs].
    destruct (Nat.eqb (nextPid w) pid) eqn:E.
    + intros [= <-]. cbn [owner]. rewrite nget_set, Nat.eqb_refl.
      eexists. split; reflexivity.
    + intros Hg. destruct (Hheld pid p Hg) as [s [Hs0 Hr]].
      rewrite nget_set. destruct (Nat.eqb addr (owner p)) eqn:Ea; [|now exists s].
      apply Nat.eqb_eq in Ea. exfalso. now apply (Hfree pid p Hg).
  - intros q pq q' pq'. rewrite !nget_set.
    destruct (Nat.eqb (nextPid w) q) eqn:E, (Nat.eqb (nextPid w) q') eqn:E';
      try apply Nat.eqb_eq in E; try apply Nat.eqb_eq in E'; subst.
    + reflexivity.
    + intros [= <-] Hq' Hown. cbn [owner] in Hown. exfalso. now apply (Hfree q' pq' Hq').
    + intros Hq [= <-] Hown. cbn [owner] in Hown. exfalso. now apply (Hfree q pq Hq).
    + apply Huni.
  - intros a s. unfold stateAt. cbn [heap withHeap withProcs]. rewrite nget_set.
    destruct (Nat.eqb addr a) eqn:E.
    + apply Nat.eqb_eq in E. subst a. intros _ _. left.
      eexists (nextPid w), _. rewrite nget_set, Nat.eqb_refl. split; reflexivity.
    + intros Hs Hr. destruct (Hrun a s Hs Hr) as [[pid [p [Hg Ho]]]|Hstk]; [left|now right].
      exists pid, p. split; [|exact Ho]. rewrite nget_set.
      destruct (Nat.eqb (nextPid w) pid) eqn:E'; [|exact Hg].
      apply Nat.eqb_eq in E'. apply Hfr in Hg. lia.
  - intros a Ha. destruct (Hstuck a Ha) as [[s [Hs0 Hr]] Hfr0]. split.
    + exists s. split; [|exact Hr]. unfold stateAt. cbn [heap withHeap withProcs]. rewrite nget_set.
      destruct (Nat.eqb addr a) eqn:E; [|exact Hs0].
      apply Nat.eqb_eq in E. subst a. contradiction.
    + intros pid p. rewrite nget_set. destruct (Nat.eqb (nextPid w) pid) eqn:E.
      * intros [= <-]. cbn [owner]. intros ->. contradiction.
      * apply Hfr0.
Qed.

(** A dispatch whose [spawn] throws leaves its state object stuck. *)
Lemma attended_thrown (w : World) agentName task ctxModel now :
  Attended w -> Attended (fst (dispatchThrown w agentName task ctxModel now)).
Proof.
  intros Hatt. unfold dispatchThrown.
  destruct (lookupState w (toLowerCase agentName)) as [[addr st]|] eqn:El; [|exact Hatt].
  destruct (isRunning (status st)) eqn:Er; [exact Hatt|].
  apply lookupState_inv in El. destruct El as [_ Hst].
  assert (Hidle : status st <> running) by (intros E; rewrite E in Er; discriminate).
  destruct (idle_is_free w addr st Hatt Hst Hidle) as [Hfree Hnot].
  destruct Hatt as [Hbd Hfr Hnd Hheld Huni Hrun Hstuck].
  cbn [fst]. constructor; cbn [procs nextPid nextAddr]; try assumption; unfold stuck;
    cbn [timers]; rewrite ?map_app; cbn [map fst].
  - intros b s. unfold stateAt. cbn [heap withHeap withProcs]. rewrite nget_set.
    destruct (Nat.eqb addr b) eqn:E; [|apply Hbd].
    apply Nat.eqb_eq in E. subst b. intros _. now apply (Hbd addr st).
  - intros pid p Hg. destruct (Hheld pid p Hg) as [s [Hs0 Hr]].
    unfold stateAt. cbn [heap withHeap withProcs]. rewrite nget_set.
    destruct (Nat.eqb addr (owner p)) eqn:Ea; [|now exists s].
    apply Nat.eqb_eq in Ea. exfalso. now apply (Hfree pid p Hg).
  - intros a s. unfold stateAt. cbn [heap withHeap withProcs]. rewrite nget_set.
    destruct (Nat.eqb addr a) eqn:E.
    + apply Nat.eqb_eq in E. subst a. intros _ _. right. apply in_or_app. right. now left.
    + intros Hs Hr. destruct (Hrun a s Hs Hr) as [Hchild|Hstk]; [now left|right].
      apply in_or_app. now left.
  - intros a Ha. apply in_app_or in Ha. destruct Ha as [Ha|[<-|[]]].
    + destruct (Hstuck a Ha) as [[s [Hs0 Hr]] Hfr0]. split; [|exact Hfr0].
      exists s. split; [|exact Hr]. unfold stateAt. cbn [heap withHeap withProcs]. rewrite nget_set.
      destruct (Nat.eqb addr a) eqn:E; [|exact Hs0].
      apply Nat.eqb_eq in E. subst a. contradiction.
    + split; [|exact Hfree]. unfold stateAt. cbn [heap withHeap withProcs].
      rewrite nget_set, Nat.eqb_refl. eexists. split; reflexivity.
Qed.

Lemma attended_tick (w : World) (n now : nat) :
  Attended w -> Attended (timerTick w n now).
Proof.
  intros Hatt. unfold timerTick.
  destruct (nth_error (timers w) n) as [[addr start]|]; [|exact Hatt].
  unfold updateState. destruct (stateAt w addr) as [st|] eqn:Es; [|exact Hatt].
  now apply (attended_heap_update w addr st).
Qed.

Lemma attended_event (w : World) (pid : nat) (ev : ProcEvent) :
  Attended w -> Attended (fst (onEvent w pid ev)).
Proof.
  intros Hatt. unfold onEvent.
  destruct (get Nat.eqb (procs w) pid) as [p|] eqn:Ep; [|exact Hatt].
  destruct (stateAt w (owner p)) as [st|] eqn:Es; [|exact Hatt].
  destruct ev as [chunk|now|code now|msg now]; cbn [fst].
  - match goal with
    | |- Attended (withProcs ?w0 (set Nat.eqb (procs w) pid ?p')) =>
        apply (attended_proc_update w0 pid p p'); [| exact Ep | reflexivity]
    end.
    now apply (attended_heap_update w (owner p) st).
  - now apply (attended_heap_update w (owner p) st).
  - apply (attended_end w pid p); [exact Hatt | exact Ep |].
    cbn [status]. now destruct (isZeroCode code).
  - now apply (attended_end w pid p).
Qed.

Lemma attended_addMember (defsByName : list (string * AgentLoader.AgentDef))
    (w : World) (member : string) :
  Attended w -> Attended (addMember defsByName w member).
Proof.
  intros Hatt. unfold addMember.
  destruct (get String.eqb defsByName (toLowerCase member)) as [d|]; [|exact Hatt].
  destruct Hatt as [Hbd Hfr Hnd Hheld Huni Hrun Hstuck].
  assert (Hnew : stateAt w (nextAddr w) = None).
  { destruct (stateAt w (nextAddr w)) as [s|] eqn:E; [|reflexivity].
    apply Hbd in E. lia. }
  constructor; cbn [procs nextPid nextAddr]; try assumption; unfold stuck; cbn [timers].
  - intros b s. unfold stateAt. cbn [heap withHeap withProcs]. rewrite nget_set.
    destruct (Nat.eqb (nextAddr w) b) eqn:E.
    + apply Nat.eqb_eq in E. subst b. intros _. lia.
    + intros Hb. apply Hbd in Hb. lia.
  - intros pid p Hg. destruct (Hheld pid p Hg) as [s [Hs0 Hr]].
    exists s. split; [|exact Hr]. unfold stateAt. cbn [heap withHeap withProcs]. rewrite nget_set.
    destruct (Nat.eqb (nextAddr w) (owner p)) eqn:E; [|exact Hs0].
    apply Nat.eqb_eq in E. rewrite <- E, Hnew in Hs0. discriminate.
  - intros a s. unfold stateAt. cbn [heap withHeap withProcs]. rewrite nget_set.
    destruct (Nat.eqb (nextAddr w) a).
    + intros [= <-]. discriminate.
    + apply Hrun.
  - intros a Ha. destruct (Hstuck a Ha) as [[s [Hs0 Hr]] Hfr0]. split; [|exact Hfr0].
    exists s. split; [|exact Hr]. unfold stateAt. cbn [heap withHeap withProcs]. rewrite nget_set.
    destruct (Nat.eqb (nextAddr w) a) eqn:E; [|exact Hs0].
    apply Nat.eqb_eq in E. rewrite <- E, Hnew in Hs0. discriminate.
Qed.

Lemma attended_activate (w : World) (teamName : string) :
  Attended w -> Attended (activateTeam w teamName).
Proof.
  intros Hatt. unfold activateTeam.
  set (defsByName := fold_left _ (allAgentDefs w) []).
  set (cleared := {| agentStates := []; heap := heap w |}).
  assert (Hstart : Attended cleared) by (destruct Hatt; constructor; assumption).
  generalize dependent cleared. intros cleared Hstart.
  generalize (match get String.eqb (teams w) teamName with Some ms => ms | None => [] end).
  intros members. revert cleared Hstart.
  induction members as [|mb members IH]; intros cleared Hstart; cbn [fold_left]; [exact Hstart|].
  apply IH. now apply attended_addMember.
Qed.

Lemma attended_step (w : World) (op : Op) : Attended w -> Attended (step w op).
Proof.
  intros Hatt. destruct op; cbn [step].
  - now apply attended_dispatch.
  - now apply attended_event.
  - now apply attended_activate.
  - now apply attended_thrown.
  - now apply attended_tick.
Qed.

Lemma attended_run (ops : list Op) :
  forall w, Attended w -> Attended (run w ops).
Proof.
  unfold run. induction ops as [|op ops IH]; intros w Hatt; cbn [fold_left]; [exact Hatt|].
  apply IH. now apply attended_step.
Qed.

(** The timers that are never cleared only grow in number. *)
Lemma stuck_step (w : World) (op : Op) (addr : nat) :
  stuck w addr -> stuck (step w op) addr.
Proof.
  unfold stuck. intros Hin. destruct op; cbn [step].
  - unfold dispatchAgent. destruct (lookupState w _) as [[a st]|]; [|exact Hin].
    now destruct (isRunning (status st)).
  - unfold onEvent. destruct (get Nat.eqb (procs w) pid) as [p|]; [|exact Hin].
    destruct (stateAt w (owner p)) as [st|]; [|exact Hin].
    now destruct ev.
  - destruct (activateTeam_fresh w teamName) as [_ [_ [_ [_ _]]]].
    unfold activateTeam.
    set (cleared := {| agentStates := []; heap := heap w |}).
    assert (Hstart : In addr (map fst (timers cleared))) by exact Hin.
    generalize dependent cleared. intros cleared Hstart.
    generalize (match get String.eqb (teams w) teamName with Some ms => ms | None => [] end).
    intros members. revert cleared Hstart.
    induction members as [|mb members IH]; intros cleared Hstart; cbn [fold_left];
      [exact Hstart|].
    apply IH. unfold addMember.
    now destruct (get String.eqb _ (toLowerCase mb)).
  - unfold dispatchThrown. destruct (lookupState w _) as [[a st]|]; [|exact Hin].
    destruct (isRunning (status st)); [exact Hin|].
    cbn [fst timers]. rewrite map_app. apply in_or_app. now left.
  - unfold timerTick. destruct (nth_error (timers w) n) as [[a start]|]; [|exact Hin].
    unfold updateState. now destruct (stateAt w a).
Qed.

Lemma stuck_run (ops : list Op) :
  forall w addr, stuck w addr -> stuck (run w ops) addr.
Proof.
  unfold run. induction ops as [|op ops IH]; intros w addr Hin; cbn [fold_left]; [exact Hin|].
  apply IH. now apply stuck_step.
Qed.

(** X9.  A worker of the Dispatcher that is marked running either has a
    child that will release it, or is stuck for good.  Starting without
    state objects, children and timers, after any run of dispatches (whose
    [spawn] returns or throws), child events, timer callbacks and roster
    activations, a roster state that is running, so that dispatches to it
    are refused, has a living child whose handlers hold that very state
    object and whose [close] takes it out of the running status; or it is
    the object of a dispatch whose [spawn] threw, no child holds it, and it
    stays marked running whatever happens afterwards. *)
Theorem running_state_has_child (w : World) (ops : list Op) :
  heap w = [] -> procs w = [] -> timers w = [] ->
  forall key addr st,
    lookupState (run w ops) key = Some (addr, st) ->
    status st = running ->
    (exists pid p,
       get Nat.eqb (procs (run w ops)) pid = Some p
       /\ owner p = addr
       /\ (forall code now st',
             stateAt (fst (onEvent (run w ops) pid (Close code now))) addr = Some st' ->
             status st' <> running))
    \/ (stuck (run w ops) addr
        /\ (forall pid p, get Nat.eqb (procs (run w ops)) pid = Some p -> owner p <> addr)
        /\ forall more, exists st',
             stateAt (run (run w ops) more) addr = Some st' /\ status st' = running).
Proof.
  intros Hheap Hnone Htimers key addr st Hl Hr.
  assert (Hstart : Attended w).
  { constructor; unfold stuck, stateAt; rewrite ?Hheap, ?Hnone, ?Htimers; cbn;
      try (intros; discriminate); try (intros; contradiction).
    constructor. }
  pose proof (attended_run ops w Hstart) as Hatt.
  apply lookupState_inv in Hl. destruct Hl as [_ Hst].
  destruct (att_running _ Hatt addr st Hst Hr) as [[pid [p [Hg Ho]]]|Hstuck].
  - left. exists pid, p. split; [exact Hg|]. split; [exact Ho|].
    intros code now st'. unfold onEvent. rewrite Hg, Ho, Hst. cbn [fst].
    unfold stateAt. cbn [heap withProcs withHeap]. rewrite nget_set, Nat.eqb_refl.
    intros [= <-]. cbn [status]. now destruct (isZeroCode code).
  - right. split; [exact Hstuck|]. split.
    + exact (proj2 (att_stuck _ Hatt addr Hstuck)).
    + intros more.
      exact (proj1 (att_stuck _ (attended_run more _ Hatt) addr
                      (stuck_run more _ addr Hstuck))).
Qed.

End WithHost.

(** A dispatch that is still under way has its child. *)
Lemma running_state_example :
  let ops := [ ActivateTeam "all";
               Dispatch "scout" "first task" Fixture.anthropic 0;
               Event 0 (StdoutData ("D:working" ++ nl)) ] in
  exists pid p,
    get Nat.eqb (procs (run (H := Fixture.host) Fixture.team0 ops)) pid = Some p
    /\ owner p = 0.
Proof.
  destruct (running_state_has_child (H := Fixture.host) Fixture.team0
              [ ActivateTeam "all";
                Dispatch "scout" "first task" Fixture.anthropic 0;
                Event 0 (StdoutData ("D:working" ++ nl)) ]
              eq_refl eq_refl eq_refl "scout" 0
              {| def := Fixture.scout; status := running; task := "first task";
                 toolCount := 0; elapsed := 0; lastWork := "working";
                 sessionFile := None; runCount := 1 |}
              eq_refl eq_refl)
    as [[pid [p [Hg [Ho _]]]]|[Hstuck _]].
  - exists pid, p. now split.
  - destruct Hstuck.
Defined.

(** A dispatch whose [spawn] throws: the worker is marked running, a second
    dispatch to it is refused, and no child exists that could release
    it. *)
Lemma thrown_dispatch_example :
  let w := run (H := Fixture.host) Fixture.team0
             [ ActivateTeam "all";
               DispatchThrows "scout" "first task" Fixture.anthropic 0;
               TimerTick 0 1000 ] in
  procs w = []
  /\ lookupState w "scout"
     = Some (0, {| def := Fixture.scout; status := running; task := "first task";
                   toolCount := 0; elapsed := 1000; lastWork := "";
                   sessionFile := None; runCount := 1 |})
  /\ snd (dispatchAgent (H := Fixture.host) w "scout" "second task" Fixture.anthropic 2000)
     = Resolved {| output := "Agent " ++ dquote ++ "Scout" ++ dquote
                             ++ " is already running. Wait for it to finish.";
                   exitCode := 1%Z; resultElapsed := 0 |}.
Proof. repeat split. Qed.

End AttendedProofs.

Module TeamResumeProofs.
Import JS Regex Json Facts AgentTeam RosterDefs ResumeDefs TeamResumeDefs TeamProofs.

Section WithHost.
Context {H : Host}.

Lemma progress_keeps (pid addr : nat) (file : string) (st : AgentState) (w0 w : World)
    (ev : ProcEvent) :
  isProgress ev = true -> sameRun pid addr file st w0 w ->
  sameRun pid addr file st w0 (fst (onEvent w pid ev)).
Proof.
  intros Hev [Ha [Hd [Hs [[p [Hp [Ho Hf]]] [st' [Hst [Hdef Hsess]]]]]]].
  unfold onEvent. rewrite Hp, Ho, Hst.
  destruct ev as [chunk|now|code now|msg now]; try discriminate; cbn [fst].
  - repeat split; try assumption.
    + eexists. cbn [procs withProcs]. rewrite nget_set, Nat.eqb_refl.
      split; [reflexivity|]. now split.
    + eexists. unfold stateAt. cbn [heap withProcs withHeap].
      rewrite nget_set, Nat.eqb_refl. split; [reflexivity|]. now split.
  - repeat split; try assumption.
    + exists p. now repeat split.
    + eexists. unfold stateAt. cbn [heap withHeap].
      rewrite nget_set, Nat.eqb_refl. split; [reflexivity|]. now split.
Qed.

Lemma progress_all_keep (pid addr : nat) (file : string) (st : AgentState) (w0 : World)
    (evs : list ProcEvent) :
  forallb isProgress evs = true ->
  forall w, sameRun pid addr file st w0 w ->
            sameRun pid addr file st w0 (fold_left (fun w ev => fst (onEvent w pid ev)) evs w).
Proof.
  induction evs as [|ev evs IH]; intros Hevs w Hw; cbn [fold_left]; [exact Hw|].
  cbn [forallb] in Hevs. apply andb_true_iff in Hevs. destruct Hevs as [Hev Hevs].
  apply IH; [exact Hevs|]. now apply progress_keeps.
Qed.

Lemma dispatchArgs_workerArgs (st : AgentState) (model file task : string) :
  dispatchArgs st model file task
  = workerArgs (def st) model file (isSome (sessionFile st)) task.
Proof. unfold dispatchArgs, workerArgs. now destruct (sessionFile st). Qed.

(** X10.  A worker of the Dispatcher is resumed after a successful run: a
    dispatch, any output and timer events of its child, its [close], and a
    second dispatch to the same name make two [spawn] calls with the same
    session file, and the second carries [-c] exactly when the first run
    exited with code 0 or the worker had a session already. *)
Theorem dispatch_resumes_after_success
    (w w1 : World) (agentName task : string) (ctxModel : option (string * string))
    (now pid : nat) (evs : list ProcEvent) (code : option Z) (closed : nat)
    (task2 : string) (ctxModel2 : option (string * string)) (now2 : nat) :
  dispatchAgent w agentName task ctxModel now = (w1, Pending pid) ->
  forallb isProgress evs = true ->
  let w2 := fold_left (fun w ev => fst (onEvent w pid ev)) evs w1 in
  let w3 := fst (onEvent w2 pid (Close code closed)) in
  exists addr st,
    lookupState w (toLowerCase agentName) = Some (addr, st)
    /\ let file := pathJoin (sessionDir w) (agentKeyOf (def st) ++ ".json") in
       spawned (fst (dispatchAgent w3 agentName task2 ctxModel2 now2)) =
       (spawned w ++
        [ {| command := "pi";
             args := workerArgs (def st) (modelString ctxModel) file
                                (isSome (sessionFile st)) task;
             env := process_env |};
          {| command := "pi";
             args := workerArgs (def st) (modelString ctxModel2) file
                                (isZeroCode code || isSome (sessionFile st)) task2;
             env := process_env |} ])%list.
Proof.
  intros Hd Hevs w2 w3. unfold dispatchAgent in Hd.
  destruct (lookupState w (toLowerCase agentName)) as [[addr st]|] eqn:El; [|discriminate].
  destruct (isRunning (status st)) eqn:Er; [discriminate|].
  injection Hd as <- <-.
  exists addr, st. split; [reflexivity|]. intros file.
  apply lookupState_inv in El. destruct El as [Hmap Hst].
  set (st1 := {| def := def st; status := running; task := task; toolCount := 0;
                 elapsed := 0; lastWork := ""; sessionFile := sessionFile st;
                 runCount := S (runCount st) |}) in *.
  assert (Hstart : forall W,
             W = fst (dispatchAgent w agentName task ctxModel now) ->
             sameRun (nextPid w) addr file st W W).
  { intros W ->. unfold dispatchAgent, lookupState. rewrite Hmap, Hst, Er. cbn [fst].
    repeat split.
    - eexists. cbn [procs]. rewrite nget_set, Nat.eqb_refl.
      split; [reflexivity|]. now split.
    - exists st1. unfold stateAt. cbn [heap]. rewrite nget_set, Nat.eqb_refl.
      now repeat split. }
  specialize (Hstart _ eq_refl).
  unfold dispatchAgent, lookupState in Hstart. rewrite Hmap, Hst, Er in Hstart.
  cbn [fst] in Hstart. fold st1 in Hstart.
  pose proof (progress_all_keep _ _ _ _ _ evs Hevs _ Hstart) as Hkeep.
  fold w2 in Hkeep.
  destruct Hkeep as [Ha [Hdir [Hs [[p [Hp [Ho Hf]]] [st' [Hst' [Hdef Hsess]]]]]]].
  cbn [agentStates sessionDir spawned] in Ha, Hdir, Hs.
  assert (H3 : agentStates w3 = agentStates w /\ sessionDir w3 = sessionDir w
               /\ spawned w3 = (spawned w ++ [dispatchSpawn st1 ctxModel (sessionDir w) task])%list
               /\ exists st3, stateAt w3 addr = Some st3
                              /\ def st3 = def st
                              /\ status st3 <> running
                              /\ isSome (sessionFile st3)
                                 = (isZeroCode code || isSome (sessionFile st))).
  { unfold w3, onEvent. rewrite Hp, Ho, Hst'. cbn [fst].
    cbn [agentStates sessionDir spawned withProcs withHeap].
    rewrite Ha, Hdir, Hs. repeat split.
    eexists. unfold stateAt. cbn [heap withProcs withHeap]. rewrite nget_set, Nat.eqb_refl.
    split; [reflexivity|]. cbn [def status sessionFile].
    split; [exact Hdef|]. split; [now destruct (isZeroCode code)|].
    rewrite Hsess. now destruct (isZeroCode code). }
  destruct H3 as [Ha3 [Hd3 [Hs3 [st3 [Hst3 [Hdef3 [Hrun3 Hsess3]]]]]]].
  unfold dispatchAgent, lookupState. rewrite Ha3, Hmap, Hst3.
  destruct (status st3) eqn:E3; try (now elim Hrun3); cbn [isRunning fst spawned];
    rewrite Hs3, Hd3; unfold dispatchSpawn; cbn [def sessionFile st1];
    rewrite !dispatchArgs_workerArgs; cbn [def sessionFile st1];
    rewrite Hdef3, Hsess3, <- app_assoc; reflexivity.
Qed.

End WithHost.

(** A first run that exits with code 0 and a second dispatch. *)
Lemma dispatch_twice_resumes :
  let w := activateTeam (H := Fixture.host) Fixture.team0 "all" in
  let w1 := fst (dispatchAgent (H := Fixture.host) w "scout" "first" Fixture.anthropic 0) in
  let w3 := fst (onEvent (H := Fixture.host)
                   (fst (onEvent (H := Fixture.host) w1 0 (StdoutData ("D:ok" ++ nl))))
                   0 (Close (Some 0%Z) 7)) in
  map args (spawned (fst (dispatchAgent (H := Fixture.host) w3 "scout" "second"
                            Fixture.anthropic 9)))
  = [ workerArgs Fixture.scout "anthropic/x" "/repo/.pi/agent-sessions/scout.json" false "first";
      workerArgs Fixture.scout "anthropic/x" "/repo/.pi/agent-sessions/scout.json" true "second" ].
Proof.
  cbv zeta.
  destruct (dispatch_resumes_after_success (H := Fixture.host)
              (activateTeam (H := Fixture.host) Fixture.team0 "all")
              (fst (dispatchAgent (H := Fixture.host)
                      (activateTeam (H := Fixture.host) Fixture.team0 "all")
                      "scout" "first" Fixture.anthropic 0))
              "scout" "first" Fixture.anthropic 0 0
              [StdoutData ("D:ok" ++ nl)] (Some 0%Z) 7 "second" Fixture.anthropic 9
              eq_refl eq_refl)
    as [addr [st [Hl Hspawned]]].
  vm_compute in Hl. injection Hl as <- <-.
  exact (f_equal (map args) Hspawned).
Defined.

End TeamResumeProofs.

Module ChainRunProofs.
Import JS Regex Json Facts AgentChain ResumeDefs ChainDefs ChainProofs.


Section WithHost.
Context {H : Host}.
Variable child : nat -> SpawnCall -> Behaviour.

Hypothesis all_exit_zero : forall n call, ending (child n call) = Exit (Some 0%Z).




End WithHost.


End ChainRunProofs.

Module ChainResumeProofs.
Import JS Regex Json Facts AgentChain ResumeDefs ChainDefs ChainProofs.

Section WithHost.
Context {H : Host}.
Variable child : nat -> SpawnCall -> Behaviour.

Lemma runAgentSpawn_args (c : State) (d : AgentLoader.AgentDef) (task : string)
    (ctxModel : option (string * string)) :
  args (runAgentSpawn c d task ctxModel)
  = workerArgs d (modelString ctxModel)
               (pathJoin (sessionDir c) ("chain-" ++ agentKeyOf d ++ ".json"))
               (hasSession c d) task.
Proof. reflexivity. Qed.


End WithHost.


End ChainResumeProofs.

Module PoolResumeProofs.
Import JS Regex Json Facts SubagentWidget PoolDefs TeamProofs PoolProofs PoolLiveProofs.

Section WithHost.
Context {H : Host}.

Lemma processLine_session (st : SubState) (line : string) :
  sessionFile (processLine st line) = sessionFile st
  /\ turnCount (processLine st line) = turnCount st.
Proof.
  unfold processLine.
  destruct (negb (truthy (trim line))); [now split|].
  destruct (JSON_parse line) as [event|]; [|now split].
  destruct (textDeltaOf event); [now split|].
  destruct event; try (now split);
    destruct (isString _ "message_update"); try (now split);
    destruct (isToolStart _); now split.
Qed.

Lemma processLines_session (lines : list string) (st : SubState) :
  sessionFile (fold_left processLine lines st) = sessionFile st
  /\ turnCount (fold_left processLine lines st) = turnCount st.
Proof.
  revert st. induction lines as [|l lines IH]; intros st; simpl; [now split|].
  destruct (IH (processLine st l)) as [-> ->]. apply processLine_session.
Qed.

Lemma pool_progress_keeps (pid addr : nat) (st : SubState) (w0 w : World) (ev : ProcEvent) :
  isProgress ev = true -> sameTurn pid addr st w0 w ->
  sameTurn pid addr st w0 (onEvent w pid ev).
Proof.
  intros Hev [Ha [Hs [[p [Hp Ho]] [st' [Hst [Hid [Hsess Hturn]]]]]]].
  unfold onEvent. rewrite Hp, Ho, Hst.
  destruct ev as [chunk|chunk|now|code now|msg now]; try discriminate.
  - destruct (unsnoc (split newline_char (buffer p ++ chunk))) as [[lines lastPiece]|].
    + destruct (processLines_keep lines st') as [_ Hi].
      destruct (processLines_session lines st') as [Hse Htu].
      repeat split; try assumption.
      * eexists. cbn [procs withHeapProcs]. rewrite nget_set, Nat.eqb_refl.
        split; reflexivity.
      * eexists. unfold stateAt. cbn [heap withHeapProcs]. rewrite nget_set, Nat.eqb_refl.
        split; [reflexivity|]. repeat split; congruence.
    + repeat split; try assumption; [now exists p | now exists st'].
  - destruct (truthy (trim chunk)).
    + repeat split; try assumption; [now exists p|].
      eexists. unfold stateAt. cbn [heap withHeapProcs]. rewrite nget_set, Nat.eqb_refl.
      split; [reflexivity|]. now repeat split.
    + repeat split; try assumption; [now exists p | now exists st'].
  - repeat split; try assumption; [now exists p|].
    eexists. unfold stateAt. cbn [heap withHeapProcs]. rewrite nget_set, Nat.eqb_refl.
    split; [reflexivity|]. now repeat split.
Qed.

Lemma pool_progress_all (pid addr : nat) (st : SubState) (w0 : World)
    (evs : list ProcEvent) :
  forallb isProgress evs = true ->
  forall w, sameTurn pid addr st w0 w ->
            sameTurn pid addr st w0 (fold_left (fun w ev => onEvent w pid ev) evs w).
Proof.
  induction evs as [|ev evs IH]; intros Hevs w Hw; cbn [fold_left]; [exact Hw|].
  cbn [forallb] in Hevs. apply andb_true_iff in Hevs. destruct Hevs as [Hev Hevs].
  apply IH; [exact Hevs|]. now apply pool_progress_keeps.
Qed.

(** X13.  A worker of the Pool keeps its conversation: after a create, any
    output and timer events of its child and its [close], a continue on the
    identity is accepted and spawns a second child on the session file the
    create made, as turn 2 and with the collected text emptied. *)
Theorem continue_reuses_session
    (w : World) (taskText : string) (ctxModel : option (string * string)) (now : nat)
    (evs : list ProcEvent) (code : option Z) (closed : nat)
    (promptText : string) (ctxModel2 : option (string * string)) (now2 : nat) :
  forallb isProgress evs = true ->
  let n := nextId w in
  let pid := nextPid w in
  let file := makeSessionFile w n now in
  let w1 := fst (create w taskText ctxModel now) in
  let w2 := fold_left (fun w ev => onEvent w pid ev) evs w1 in
  let w3 := onEvent w2 pid (Close code closed) in
  let res := subagent_continue w3 n promptText ctxModel2 now2 in
  snd (create w taskText ctxModel now) = n
  /\ snd res = "Subagent #" ++ showNat n ++ " continuing conversation in background."
  /\ map args (spawned (fst res))
     = (map args (spawned w)
        ++ [ poolArgs file (modelString ctxModel) taskText;
             poolArgs file (modelString ctxModel2) promptText ])%list
  /\ exists addr st,
       lookupState (fst res) n = Some (addr, st)
       /\ status st = running /\ turnCount st = 2 /\ textChunks st = []
       /\ sessionFile st = file /\ task st = promptText.
Proof.
  intros Hevs n pid file w1 w2 w3 res.
  split; [reflexivity|].
  set (st0 := {| id := n; status := running; task := taskText; textChunks := [];
                 toolCount := 0; elapsed := 0; sessionFile := file;
                 turnCount := 1; proc := None |}).
  assert (Hstart : sameTurn pid (nextAddr w) st0 w1 w1).
  { unfold w1, create, spawnAgent. cbn [fst]. repeat split.
    - eexists. cbn [procs nextPid]. rewrite nget_set, Nat.eqb_refl. split; reflexivity.
    - eexists. unfold stateAt. cbn [heap nextAddr]. rewrite nget_set, Nat.eqb_refl.
      split; [reflexivity|]. now repeat split. }
  pose proof (pool_progress_all _ _ _ _ evs Hevs w1 Hstart) as Hkeep.
  fold w2 in Hkeep.
  destruct Hkeep as [Ha [Hs [[p [Hp Ho]] [st' [Hst [Hid [Hsess Hturn]]]]]]].
  unfold st0 in Hid, Hsess, Hturn. cbn [id sessionFile turnCount] in Hid, Hsess, Hturn.
  assert (Hagents : get Nat.eqb (agents w1) n = Some (nextAddr w)).
  { unfold w1, create, spawnAgent. cbn [fst agents]. now rewrite nget_set, Nat.eqb_refl. }
  assert (Hspawned : spawned w1 = (spawned w ++ [spawnCallOf st0 taskText ctxModel])%list).
  { reflexivity. }
  assert (H3 : agents w3 = agents w1 /\ spawned w3 = spawned w1
               /\ exists st3, stateAt w3 (nextAddr w) = Some st3
                              /\ status st3 <> running /\ id st3 = n
                              /\ sessionFile st3 = file /\ turnCount st3 = 1).
  { unfold w3, onEvent. rewrite Hp, Ho, Hst. cbn [agents spawned].
    split; [exact Ha|]. split; [exact Hs|].
    eexists. unfold stateAt. cbn [heap]. rewrite nget_set, Nat.eqb_refl.
    split; [reflexivity|]. cbn [status id sessionFile turnCount].
    split; [now destruct (AgentTeam.isZeroCode code)|].
    destruct (truthy (trim (buffer p))).
    - destruct (processLine_keeps st' (buffer p)) as [_ Hi].
      destruct (processLine_session st' (buffer p)) as [Hse Htu].
      repeat split; congruence.
    - repeat split; congruence. }
  destruct H3 as [Ha3 [Hs3 [st3 [Hst3 [Hrun3 [Hid3 [Hsess3 Hturn3]]]]]]].
  unfold res, subagent_continue, lookupState. rewrite Ha3, Hagents, Hst3.
  destruct (isRunning (status st3)) eqn:Er;
    [destruct (status st3); try discriminate; now elim Hrun3|].
  cbn [fst snd]. split; [reflexivity|]. split.
  - unfold spawnAgent. cbn [spawned]. rewrite Hs3, Hspawned.
    rewrite !map_app, <- app_assoc. cbn [map app].
    unfold spawnCallOf. cbn [args sessionFile st0]. rewrite Hsess3. reflexivity.
  - eexists _, _. unfold lookupState, spawnAgent. cbn [agents].
    rewrite Ha3, Hagents. unfold stateAt. cbn [heap]. rewrite nget_set, Nat.eqb_refl.
    split; [reflexivity|]. cbn [status turnCount textChunks sessionFile task].
    rewrite Hturn3, Hsess3. now repeat split.
Qed.

End WithHost.

(** A create, one line of output, a close and a continue. *)
Lemma continue_after_close_example :
  let w3 := fst (SubagentWidget.run (H := Fixture.host) Fixture.pool0
                   [ Create "first task" None 5;
                     Event 0 (StdoutData ("D:done" ++ nl));
                     Event 0 (Close (Some 0%Z) 9) ]) in
  map args (spawned (fst (subagent_continue (H := Fixture.host) w3 1 "more" None 10)))
  = [ poolArgs "/home/op/.pi/agent/sessions/subagents/subagent-1-5.jsonl"
               "openrouter/google/gemini-3-flash-preview" "first task";
      poolArgs "/home/op/.pi/agent/sessions/subagents/subagent-1-5.jsonl"
               "openrouter/google/gemini-3-flash-preview" "more" ].
Proof.
  exact (proj1 (proj2 (proj2
           (continue_reuses_session (H := Fixture.host) Fixture.pool0 "first task" None 5
              [StdoutData ("D:done" ++ nl)] (Some 0%Z) 9 "more" None 10 eq_refl)))).
Defined.

End PoolResumeProofs.

Module ChainStreamProofs.
Import JS Regex Json Facts AgentChain ChainDefs StreamProofs.

Section WithHost.
Context {H : Host}.
Variable child : nat -> SpawnCall -> Behaviour.








End WithHost.


End ChainStreamProofs.

Module PoolStreamProofs.
Import JS Regex Json Facts SubagentWidget PoolDefs TeamProofs PoolProofs StreamProofs
       PoolResumeProofs.

Section WithHost.
Context {H : Host}.




Lemma processLines_elapsed (lines : list string) (st : SubState) :
  elapsed (fold_left processLine lines st) = elapsed st.
Proof.
  revert st. induction lines as [|l lines IH]; intros st; simpl; [reflexivity|].
  rewrite IH. unfold processLine.
  destruct (negb (truthy (trim l))); [reflexivity|].
  destruct (JSON_parse l) as [event|]; [|reflexivity].
  destruct (textDeltaOf event); [reflexivity|].
  destruct event; try reflexivity;
    destruct (isString _ "message_update"); try reflexivity;
    destruct (isToolStart _); reflexivity.
Qed.





End WithHost.


End PoolStreamProofs.

Module PromptFillProofs.
Import JS Regex Facts AgentChain PromptDefs.

Lemma getSubstitution_plain (matchedText before afterText replacement : string) :
  dollarFree replacement = true ->
  getSubstitution matchedText before afterText replacement = replacement.
Proof.
  induction replacement as [|c t IH]; intros Hfree; [reflexivity|].
  cbn [dollarFree] in Hfree. apply andb_true_iff in Hfree. destruct Hfree as [Hc Ht].
  cbn [getSubstitution]. apply negb_true_iff in Hc. rewrite Hc. now rewrite IH.
Qed.

Lemma no_match_off_dollar (body : string) (before : option ascii) (c : ascii) (t : string) :
  Ascii.eqb c "$" = false ->
  matchHere noFlags (lit (String "$" body)) before (String c t) = None.
Proof.
  intros Hc. unfold matchHere.
  assert (Hno : charMatches noFlags "$" c = false).
  { unfold charMatches, canon. cbn [ignoreCase noFlags]. now rewrite Ascii.eqb_sym. }
  destruct body as [|b body']; cbn [lit m rest]; now rewrite Hno.
Qed.

Lemma append_length_minus (a b : string) :
  String.length (a ++ b) - String.length b = String.length a.
Proof. rewrite length_append. lia. Qed.

Section Pass.
(** One [replace] of a placeholder by a text without dollar sign. *)
Variable p : pattern.
Variable word : string.
Variable replacement : string.
Hypothesis pattern_is_word : p = {| re := lit (String "$" word); fl := noFlags |}.
Hypothesis replacement_plain : dollarFree replacement = true.
Hypothesis word_matches : forall before s,
  matchHere noFlags (lit (String "$" word)) before (String "$" word ++ s)
  = Some {| prev := lastChar before (String "$" word); rest := s; caps := [] |}.

Lemma loop_end (fuel : nat) (done : string) (before : option ascii) :
  0 < fuel -> replaceLoop p replacement fuel done before "" = "".
Proof.
  intros Hfuel. destruct fuel as [|fuel]; [lia|].
  cbn [replaceLoop]. rewrite pattern_is_word. cbn [re fl].
  clear word_matches. unfold matchHere. destruct word as [|b body]; reflexivity.
Qed.

(** Text without dollar sign is copied. *)
Lemma loop_text (s tail out : string) :
  dollarFree s = true ->
  (forall fuel done before,
     String.length tail < fuel -> replaceLoop p replacement fuel done before tail = out) ->
  forall fuel done before,
    String.length (s ++ tail) < fuel ->
    replaceLoop p replacement fuel done before (s ++ tail) = s ++ out.
Proof.
  intros Hfree Htail. induction s as [|c t IH]; intros fuel done before Hfuel.
  - apply Htail. exact Hfuel.
  - cbn [dollarFree] in Hfree. apply andb_true_iff in Hfree. destruct Hfree as [Hc Ht].
    apply negb_true_iff in Hc.
    destruct fuel as [|fuel]; [cbn in Hfuel; lia|].
    cbn [String.append replaceLoop]. rewrite pattern_is_word. cbn [re fl].
    rewrite (no_match_off_dollar word before c (t ++ tail) Hc).
    rewrite <- pattern_is_word. f_equal. apply IH; [exact Ht|].
    cbn [String.append String.length] in Hfuel. lia.
Qed.

(** The placeholder is replaced. *)
Lemma loop_word (tail out : string) :
  (forall fuel done before,
     String.length tail < fuel -> replaceLoop p replacement fuel done before tail = out) ->
  forall fuel done before,
    String.length (String "$" word ++ tail) < fuel ->
    replaceLoop p replacement fuel done before (String "$" word ++ tail)
    = replacement ++ out.
Proof.
  intros Htail fuel done before Hfuel.
  destruct fuel as [|fuel]; [lia|].
  cbn [replaceLoop]. rewrite pattern_is_word. cbn [re fl].
  rewrite word_matches. cbn [rest]. rewrite append_length_minus.
  rewrite getSubstitution_plain by exact replacement_plain.
  cbn [String.length]. rewrite <- pattern_is_word. f_equal.
  apply Htail. rewrite length_append in Hfuel. cbn [String.length] in Hfuel. lia.
Qed.

(** A dollar sign that starts another word stays. *)
Lemma loop_other (other tail out : string) :
  dollarFree other = true ->
  (forall before s, matchHere noFlags (lit (String "$" word)) before
                      (String "$" other ++ s) = None) ->
  (forall fuel done before,
     String.length tail < fuel -> replaceLoop p replacement fuel done before tail = out) ->
  forall fuel done before,
    String.length (String "$" other ++ tail) < fuel ->
    replaceLoop p replacement fuel done before (String "$" other ++ tail)
    = String "$" other ++ out.
Proof.
  intros Hfree Hno Htail fuel done before Hfuel.
  destruct fuel as [|fuel]; [lia|].
  cbn [replaceLoop]. rewrite pattern_is_word. cbn [re fl].
  rewrite Hno. cbn [String.append]. rewrite <- pattern_is_word. f_equal.
  apply (loop_text other tail out Hfree Htail).
  cbn [String.append String.length] in Hfuel. lia.
Qed.

End Pass.

Lemma input_matches (before : option ascii) (s : string) :
  matchHere noFlags (lit "$INPUT") before ("$INPUT" ++ s)
  = Some {| prev := lastChar before "$INPUT"; rest := s; caps := [] |}.
Proof. reflexivity. Qed.

Lemma original_matches (before : option ascii) (s : string) :
  matchHere noFlags (lit "$ORIGINAL") before ("$ORIGINAL" ++ s)
  = Some {| prev := lastChar before "$ORIGINAL"; rest := s; caps := [] |}.
Proof. reflexivity. Qed.

Lemma input_not_original (before : option ascii) (s : string) :
  matchHere noFlags (lit "$INPUT") before ("$ORIGINAL" ++ s) = None.
Proof. reflexivity. Qed.

Lemma first_pass (input : string) (ps : list piece) :
  dollarFree input = true -> forallb plain ps = true ->
  forall fuel done before,
    String.length (templateOf ps) < fuel ->
    replaceLoop INPUT_PLACEHOLDER input fuel done before (templateOf ps)
    = templateOf (map (fillInput input) ps).
Proof.
  intros Hin. induction ps as [|[s| |] ps IH]; intros Hps fuel done before Hfuel.
  - apply (loop_end INPUT_PLACEHOLDER "INPUT" input eq_refl). cbn in Hfuel. lia.
  - cbn [forallb plain] in Hps. apply andb_true_iff in Hps. destruct Hps as [Hs Hps].
    cbn [templateOf map fillInput].
    apply (loop_text INPUT_PLACEHOLDER "INPUT" input eq_refl s _ _ Hs (IH Hps)); exact Hfuel.
  - cbn [forallb plain] in Hps. cbn [templateOf map fillInput].
    apply (loop_word INPUT_PLACEHOLDER "INPUT" input eq_refl Hin input_matches _ _ (IH Hps));
      exact Hfuel.
  - cbn [forallb plain] in Hps. cbn [templateOf map fillInput].
    apply (loop_other INPUT_PLACEHOLDER "INPUT" input eq_refl "ORIGINAL" _ _ eq_refl
             input_not_original (IH Hps)); exact Hfuel.
Qed.

Lemma second_pass (original : string) (ps : list piece) :
  dollarFree original = true -> forallb plain ps = true ->
  (forall q, In q ps -> q <> Input) ->
  forall fuel done before,
    String.length (templateOf ps) < fuel ->
    replaceLoop ORIGINAL_PLACEHOLDER original fuel done before (templateOf ps)
    = templateOf (map (fillOriginal original) ps).
Proof.
  intros Hor. induction ps as [|[s| |] ps IH]; intros Hps Hnone fuel done before Hfuel.
  - apply (loop_end ORIGINAL_PLACEHOLDER "ORIGINAL" original eq_refl). cbn in Hfuel. lia.
  - cbn [forallb plain] in Hps. apply andb_true_iff in Hps. destruct Hps as [Hs Hps].
    cbn [templateOf map fillOriginal].
    apply (loop_text ORIGINAL_PLACEHOLDER "ORIGINAL" original eq_refl s _ _ Hs); [|exact Hfuel].
    apply IH; [exact Hps|]. intros q Hq. apply Hnone. now right.
  - exfalso. apply (Hnone Input); [now left | reflexivity].
  - cbn [forallb plain] in Hps. cbn [templateOf map fillOriginal].
    apply (loop_word ORIGINAL_PLACEHOLDER "ORIGINAL" original eq_refl Hor original_matches);
      [|exact Hfuel].
    apply IH; [exact Hps|]. intros q Hq. apply Hnone. now right.
Qed.

Lemma filled_pieces (input original : string) (ps : list piece) :
  templateOf (map (fillOriginal original) (map (fillInput input) ps))
  = filled input original ps.
Proof.
  induction ps as [|[s| |] ps IH]; cbn [map fillInput fillOriginal templateOf filled];
    now rewrite ?IH.
Qed.

(** X16.  When the only dollar signs of a prompt template are those of its
    placeholders, and neither the previous output nor the task holds a
    dollar sign, [resolvePrompt] puts the previous output in the place of
    every [$INPUT] and the task in the place of every [$ORIGINAL] and keeps
    the rest of the template. *)
Theorem resolvePrompt_fills_placeholders (ps : list piece) (input original : string) :
  forallb plain ps = true -> dollarFree input = true -> dollarFree original = true ->
  resolvePrompt (templateOf ps) input original = filled input original ps.
Proof.
  intros Hps Hin Hor. unfold resolvePrompt, replaceAll.
  rewrite (first_pass input ps Hin Hps) by lia.
  rewrite (second_pass original (map (fillInput input) ps) Hor); [apply filled_pieces| | |lia].
  - clear Hor. induction ps as [|[s| |] ps IH]; cbn [map fillInput forallb plain];
      cbn [forallb plain] in Hps; try (apply andb_true_iff in Hps; destruct Hps as [Hs Hps]);
      rewrite ?Hs, ?Hin; cbn [andb]; auto.
  - intros q Hq. apply in_map_iff in Hq. destruct Hq as [[s| |] [Hq _]];
      cbn [fillInput] in Hq; subst q; discriminate.
Qed.

(** A template with both placeholders, the first of them twice. *)
Lemma resolvePrompt_review_example :
  resolvePrompt "Review $INPUT for $ORIGINAL; again: $INPUT" "2 bugs" "fix it"
  = "Review 2 bugs for fix it; again: 2 bugs".
Proof.
  exact (resolvePrompt_fills_placeholders
           [Text "Review "; Input; Text " for "; Original; Text "; again: "; Input]
           "2 bugs" "fix it" eq_refl eq_refl eq_refl).
Defined.

End PromptFillProofs.

Module ReplayProofs.
Import JS SessionReplay.

Local Open Scope Z_scope.

Section Items.
Variable Item : Type.

(** The selection and the scroll offset are indices of entries. *)
Lemma ensureVisible_window (ui : UI Item) (height : Z) :
  0 <= selectedIndex ui < itemCount ui -> 0 <= scrollOffset ui -> 3 <= height ->
  let ui' := ensureVisible ui height in
  items ui' = items ui /\ selectedIndex ui' = selectedIndex ui
  /\ expandedIndex ui' = expandedIndex ui
  /\ 0 <= scrollOffset ui' <= selectedIndex ui'
  /\ selectedIndex ui' < scrollOffset ui' + height / 3.
Proof.
  intros Hsel Hscroll Hh. unfold ensureVisible.
  assert (Hpage : 1 <= height / 3) by (apply Z.div_le_lower_bound; lia).
  destruct (Z.ltb_spec (selectedIndex ui) (scrollOffset ui));
    cbn [items selectedIndex expandedIndex scrollOffset].
  - repeat split; lia.
  - destruct (Z.leb_spec (scrollOffset ui + height / 3) (selectedIndex ui));
      cbn [items selectedIndex expandedIndex scrollOffset]; repeat split; lia.
Qed.

Lemma handleInput_range (ui : UI Item) (key : Key) :
  0 <= selectedIndex ui < itemCount ui -> 0 <= scrollOffset ui ->
  let ui' := handleInput ui key in
  items ui' = items ui /\ 0 <= selectedIndex ui' < itemCount ui' /\ 0 <= scrollOffset ui'.
Proof.
  intros Hsel Hscroll. unfold itemCount in *.
  destruct key; cbn [handleInput withSelection items selectedIndex scrollOffset];
    unfold itemCount; repeat split; lia.
Qed.

Lemma run_range (its : list Item) (evs : list Event) :
  forallb tallEnough evs = true ->
  forall ui, items ui = its ->
    0 <= selectedIndex ui < itemCount ui -> 0 <= scrollOffset ui ->
    let ui' := fold_left step evs ui in
    items ui' = its /\ 0 <= selectedIndex ui' < itemCount ui' /\ 0 <= scrollOffset ui'.
Proof.
  induction evs as [|ev evs IH]; intros Hev ui Hits Hsel Hscroll; cbn [fold_left].
  - now repeat split.
  - cbn [forallb] in Hev. apply andb_true_iff in Hev. destruct Hev as [Hh Hev].
    destruct ev as [key|height]; cbn [step].
    + destruct (handleInput_range ui key Hsel Hscroll) as [Hi [Hs Hc]].
      apply IH; [exact Hev | congruence | exact Hs | exact Hc].
    + cbn [tallEnough] in Hh. apply Z.leb_le in Hh.
      destruct (ensureVisible_window ui height Hsel Hscroll Hh) as [Hi [Hs [_ [Hc Hw]]]].
      cbn [render fst]. apply IH; [exact Hev | congruence | | lia].
      unfold itemCount in *. rewrite Hi, Hs. exact Hsel.
Qed.

Lemma create_range (its : list Item) :
  its <> [] ->
  items (create its) = its
  /\ 0 <= selectedIndex (create its) < itemCount (create its)
  /\ 0 <= scrollOffset (create its).
Proof.
  intros Hne. unfold create.
  match goal with |- context [ensureVisible ?u 20] => set (ui0 := u) end.
  assert (Hlen : 0 < Z.of_nat (List.length its)).
  { destruct its; [now elim Hne | cbn [List.length]; lia]. }
  destruct (ensureVisible_window ui0 20) as [Hi [Hs [_ [Hc _]]]].
  - unfold ui0, itemCount. cbn [items selectedIndex]. lia.
  - unfold ui0. cbn [scrollOffset]. lia.
  - lia.
  - unfold itemCount. rewrite Hi, Hs.
    split; [reflexivity|]. split; [|exact (proj1 Hc)].
    unfold ui0. cbn [items selectedIndex]. lia.
Qed.

(** The cards after the selected one are not drawn as selected. *)
Lemma cards_after (ui : UI Item) (visible : list Item) (idx : nat) :
  selectedIndex ui < Z.of_nat idx + scrollOffset ui ->
  forallb (fun c => negb (isSelected c)) (cardsFrom ui idx visible) = true.
Proof.
  revert idx. induction visible as [|it later IH]; intros idx Hlt; [reflexivity|].
  cbn [cardsFrom forallb isSelected].
  destruct (Z.eqb_spec (Z.of_nat idx + scrollOffset ui) (selectedIndex ui)); [lia|].
  cbn [negb andb]. apply IH. lia.
Qed.

(** The card of the selected entry, and those around it. *)
Lemma cards_around (ui : UI Item) (visible : list Item) (t : nat) (it : Item) :
  forall idx,
    nth_error visible t = Some it ->
    selectedIndex ui = Z.of_nat (idx + t) + scrollOffset ui ->
    exists before c after,
      cardsFrom ui idx visible = (before ++ c :: after)%list
      /\ List.length before = t
      /\ cardItem c = it /\ absoluteIndex c = selectedIndex ui /\ isSelected c = true
      /\ forallb (fun c => negb (isSelected c)) (before ++ after) = true.
Proof.
  revert visible. induction t as [|t IH]; intros visible idx Hnth Hsel.
  - destruct visible as [|it' later]; [discriminate|]. injection Hnth as ->.
    eexists [], _, _. cbn [cardsFrom app]. split; [reflexivity|].
    cbn [List.length cardItem absoluteIndex isSelected].
    replace (Z.of_nat idx + scrollOffset ui) with (selectedIndex ui) by lia.
    rewrite Z.eqb_refl. repeat split. apply cards_after. lia.
  - destruct visible as [|it' later]; [discriminate|]. cbn [nth_error] in Hnth.
    destruct (IH later (S idx) Hnth) as [before [c [after [Hc [Hl [Hi [Ha [Hs Hn]]]]]]]];
      [lia|].
    eexists (_ :: before), c, after. cbn [cardsFrom]. rewrite Hc.
    split; [reflexivity|]. cbn [List.length]. rewrite Hl.
    repeat split; try assumption.
    cbn [app forallb isSelected].
    destruct (Z.eqb_spec (Z.of_nat idx + scrollOffset ui) (selectedIndex ui)); [lia|].
    exact Hn.
Qed.

(** X17.  The session timeline keeps its selection on the screen: for a
    history that is not empty, after the constructor, any keys and any
    renderings at a height of three lines or more, a rendering leaves the
    selection as it is, moves the scroll offset so that the selected entry
    lies in the first page ([height / 3] entries) from it, and draws exactly
    one card as selected, the card of the selected entry. *)
Theorem render_highlights_selection (its : list Item) (evs : list Event) (height : Z) :
  its <> [] -> forallb tallEnough evs = true -> 3 <= height ->
  let ui := fold_left step evs (create its) in
  let ui' := fst (render ui height) in
  let cards := snd (render ui height) in
  items ui' = its
  /\ selectedIndex ui' = selectedIndex ui
  /\ 0 <= scrollOffset ui' <= selectedIndex ui'
  /\ selectedIndex ui' < scrollOffset ui' + height / 3
  /\ selectedIndex ui' < Z.of_nat (List.length its)
  /\ exists before c after,
       cards = (before ++ c :: after)%list
       /\ Z.of_nat (List.length before) = selectedIndex ui' - scrollOffset ui'
       /\ nth_error its (Z.to_nat (selectedIndex ui')) = Some (cardItem c)
       /\ absoluteIndex c = selectedIndex ui' /\ isSelected c = true
       /\ forallb (fun c => negb (isSelected c)) (before ++ after) = true.
Proof.
  intros Hne Hev Hh ui ui' cards.
  destruct (create_range its Hne) as [Hi0 [Hs0 Hc0]].
  destruct (run_range its evs Hev (create its) Hi0 Hs0 Hc0) as [Hi [Hs Hc]].
  fold ui in Hi, Hs, Hc.
  destruct (ensureVisible_window ui height Hs Hc Hh) as [Hi' [Hs' [_ [Hc' Hw]]]].
  change (ensureVisible ui height) with ui' in Hi', Hs', Hc', Hw.
  unfold itemCount in Hs. rewrite Hi in Hs.
  split; [congruence|]. split; [exact Hs'|]. split; [exact Hc'|]. split; [exact Hw|].
  split; [lia|].
  assert (Hvis : exists it, nth_error its (Z.to_nat (selectedIndex ui')) = Some it).
  { destruct (nth_error its (Z.to_nat (selectedIndex ui'))) as [it|] eqn:E; [now exists it|].
    apply nth_error_None in E. lia. }
  destruct Hvis as [it Hit].
  assert (Hstart : sliceStart (itemCount ui') (scrollOffset ui') = scrollOffset ui').
  { unfold sliceStart, itemCount. rewrite Hi', Hi.
    destruct (Z.ltb_spec (scrollOffset ui') 0); lia. }
  destruct (cards_around ui'
              (skipn (Z.to_nat (scrollOffset ui')) its)
              (Z.to_nat (selectedIndex ui' - scrollOffset ui')) it 0)
    as [before [c [after [Hcards [Hl [Hitem [Ha [Hsel Hn]]]]]]]].
  - rewrite nth_error_skipn.
    replace (Z.to_nat (scrollOffset ui') + Z.to_nat (selectedIndex ui' - scrollOffset ui'))%nat
      with (Z.to_nat (selectedIndex ui')) by lia.
    exact Hit.
  - lia.
  - exists before, c, after. unfold cards, render. cbn [snd].
    change (ensureVisible ui height) with ui'. rewrite Hstart, Hi', Hi, Hcards.
    split; [reflexivity|]. split; [lia|]. split; [now rewrite Hitem|].
    now repeat split.
Qed.

End Items.

(** Three entries, the selection moved up twice and one entry expanded. *)
Lemma render_three_entries :
  let ui := fold_left (@step string)
              [KeyPress Up; Render 30; KeyPress Up; KeyPress Enter] (create ["a"; "b"; "c"])%string in
  selectedIndex (fst (render ui 3)) = 0
  /\ scrollOffset (fst (render ui 3)) = 0
  /\ map (fun c => (cardItem c, isSelected c, isExpanded c)) (snd (render ui 3))
     = [("a", true, true); ("b", false, false); ("c", false, false)]%string.
Proof.
  cbv zeta.
  pose proof (render_highlights_selection string ["a"; "b"; "c"]%string
                [KeyPress Up; Render 30; KeyPress Up; KeyPress Enter] 3
                ltac:(discriminate) eq_refl ltac:(lia)) as Hshow.
  cbv zeta in Hshow. destruct Hshow as [_ [Hsel _]].
  split; [exact (eq_trans Hsel eq_refl)|]. split; reflexivity.
Defined.

End ReplayProofs.

Module PoolRemoveProofs.
Import JS Regex Json Facts SubagentWidget PoolDefs TeamProofs PoolProofs PoolLiveProofs
       PoolResumeProofs.

Section WithHost.
Context {H : Host}.



End WithHost.


End PoolRemoveProofs.

Module ObjectProofs.
Import JS Facts Notions.

Section Entries.
Context {V : Type}.
Implicit Types o : list (string * V).

(** Overwriting a property just assigned. *)
Lemma set_set o k v v' :
  set String.eqb (set String.eqb o k v) k v' = set String.eqb o k v'.
Proof.
  induction o as [|[k0 v0] o IH]; cbn [set].
  - now rewrite String.eqb_refl.
  - destruct (String.eqb k0 k) eqn:E; cbn [set]; rewrite E; [reflexivity | now rewrite IH].
Qed.

Lemma set_insertKey o k v v' :
  get String.eqb o k = None ->
  set String.eqb (insertKey o k v) k v' = insertKey o k v'.
Proof.
  induction o as [|[k0 v0] o IH]; cbn [insertKey set get]; intros Hnone;
    [now rewrite String.eqb_refl|].
  destruct (String.eqb k0 k) eqn:E; [discriminate|].
  destruct (arrayIndex k) as [n|]; [destruct (arrayIndex k0) as [n0|]|].
  - destruct (n <? n0)%N; cbn [set]; [now rewrite String.eqb_refl|].
    rewrite E. now rewrite IH.
  - cbn [set]. now rewrite String.eqb_refl.
  - cbn [set]. rewrite E. now rewrite IH.
Qed.

Lemma set_oset o k v v' : set String.eqb (oset o k v) k v' = oset o k v'.
Proof.
  unfold oset, has. destruct (get String.eqb o k) eqn:E.
  - apply set_set.
  - now apply set_insertKey.
Qed.

(** With distinct keys, the assigned object holds each entry. *)
Lemma assign_lookup (entries : list (string * V)) :
  forall o k,
    NoDup (keys entries) ->
    oget (fold_left (fun o kv => oset o (fst kv) (snd kv)) entries o) k
    = match oget entries k with
      | Some v => Some v
      | None => oget o k
      end.
Proof.
  induction entries as [|[k0 v0] entries IH]; intros o k Hnd; cbn [fold_left];
    [reflexivity|].
  cbn [keys map fst] in Hnd. inversion Hnd as [|x xs Hnotin Hnd']. subst.
  rewrite (IH _ k Hnd'). cbn [fst snd]. rewrite oget_oset.
  unfold oget. cbn [get].
  destruct (String.eqb_spec k0 k) as [<-|Hne]; [|reflexivity].
  destruct (get String.eqb entries k0) as [v|] eqn:E; [|reflexivity].
  apply (get_In String.eqb String.eqb_eq) in E.
  elim Hnotin. change k0 with (fst (k0, v)). now apply in_map.
Qed.

(** With distinct keys none of which is an array index, the assigned
    object lists the entries in their order. *)
Lemma assign_plain (entries : list (string * V)) :
  forall o,
    forallb (fun kv => plainKey (fst kv)) entries = true ->
    NoDup (keys o ++ keys entries) ->
    fold_left (fun o kv => oset o (fst kv) (snd kv)) entries o = (o ++ entries)%list.
Proof.
  induction entries as [|[k v] entries IH]; intros o Hplain Hnd; cbn [fold_left].
  - now rewrite app_nil_r.
  - cbn [forallb fst] in Hplain. apply andb_true_iff in Hplain.
    destruct Hplain as [Hk Hplain]. cbn [fst snd].
    unfold plainKey in Hk. destruct (arrayIndex k) eqn:Ek; [discriminate|].
    rewrite (oset_plain o k v Ek). rewrite (set_fresh String.eqb String.eqb_eq).
    + rewrite IH; [now rewrite <- app_assoc | exact Hplain |].
      unfold keys in *. rewrite map_app. cbn [map fst]. rewrite <- app_assoc. exact Hnd.
    + intros Hin. unfold keys in Hnd. cbn [map fst] in Hnd.
      apply NoDup_remove_2 in Hnd. apply Hnd. apply in_or_app. now left.
Qed.

Lemma assigned_lookup (entries : list (string * V)) (k : string) :
  NoDup (keys entries) -> oget (assigned entries) k = oget entries k.
Proof.
  intros Hnd. unfold assigned. rewrite (assign_lookup entries [] k Hnd).
  now destruct (oget entries k).
Qed.

Lemma assigned_plain (entries : list (string * V)) :
  NoDup (keys entries) -> forallb (fun kv => plainKey (fst kv)) entries = true ->
  assigned entries = entries.
Proof. intros Hnd Hplain. unfold assigned. now rewrite (assign_plain entries [] Hplain). Qed.

End Entries.

End ObjectProofs.

Module FrontmatterProofs.
Import JS Regex Facts AgentLoader Notions SplitProofs StreamProofs FrontmatterDefs ObjectProofs.

(** ** Exact steps of the matcher *)

Lemma m_char_exact (c : ascii) (t : string) (p : option ascii) (cs : list (nat * string))
    (k : mstate -> option mstate) :
  m noFlags (Char c) {| prev := p; rest := String c t; caps := cs |} k
  = k {| prev := Some c; rest := t; caps := cs |}.
Proof. cbn [m rest]. unfold charMatches. now rewrite Ascii.eqb_refl. Qed.

Lemma m_char_none (c d : ascii) (t : string) (p : option ascii) (cs : list (nat * string))
    (k : mstate -> option mstate) :
  Ascii.eqb c d = false ->
  m noFlags (Char c) {| prev := p; rest := String d t; caps := cs |} k = None.
Proof. intros Hne. cbn [m rest]. unfold charMatches, canon. cbn. now rewrite Hne. Qed.

Lemma take_app_length (a b : string) :
  take (String.length (a ++ b) - String.length b) (a ++ b) = a.
Proof.
  replace (String.length (a ++ b) - String.length b) with (String.length a)
    by (rewrite length_append; lia).
  induction a as [|c a IH]; cbn [String.append String.length take].
  - now destruct b.
  - now rewrite IH.
Qed.

(** [\s*\n] at a newline that is followed by no whitespace: the star
    gives the newline back. *)
Lemma space_then_newline (tail : string) (p : option ascii) (cs : list (nat * string))
    (k : mstate -> option mstate) :
  bodyOk tail = true ->
  m noFlags (Star true space) {| prev := p; rest := String newline_char tail; caps := cs |}
    (fun s' => m noFlags (Char newline_char) s' k)
  = k {| prev := Some newline_char; rest := tail; caps := cs |}.
Proof.
  intros Htail. cbn [m rest String.length starLoop space].
  change (classMatches noFlags false isWhiteSpace newline_char) with true. cbv iota.
  assert (Hp : progressed {| prev := p; rest := String newline_char tail; caps := cs |}
                 (advance newline_char tail
                    {| prev := p; rest := String newline_char tail; caps := cs |}) = true).
  { unfold progressed, advance. cbn [rest String.length]. apply Nat.ltb_lt. lia. }
  rewrite Hp. unfold advance. cbn [caps].
  destruct tail as [|d t].
  - cbn [String.length starLoop m rest]. unfold charMatches. now rewrite Ascii.eqb_refl.
  - cbn [bodyOk] in Htail. apply negb_true_iff in Htail.
    cbn [starLoop m rest].
    rewrite class_noFlags, Htail.
    assert (Hd : charMatches noFlags newline_char d = false).
    { unfold charMatches, canon. cbn [ignoreCase noFlags].
      destruct (Ascii.eqb_spec newline_char d) as [<-|]; [discriminate | reflexivity]. }
    rewrite Hd. unfold charMatches. now rewrite Ascii.eqb_refl.
Qed.

(** The lazy star over any code unit stops at the first place where the
    rest of the pattern matches. *)
Lemma lazy_first (k : mstate -> option mstate) (tail : string) (cs : list (nat * string))
    (res : mstate) :
  forall h fuel p0,
    String.length h < fuel ->
    (forall a c b, h = a ++ String c b ->
                   k {| prev := lastChar p0 a; rest := String c b ++ tail; caps := cs |} = None) ->
    k {| prev := lastChar p0 h; rest := tail; caps := cs |} = Some res ->
    starLoop (m noFlags anyChar) false k fuel {| prev := p0; rest := h ++ tail; caps := cs |}
    = Some res.
Proof.
  induction h as [|c t IH]; intros fuel p0 Hf Hfail Hk.
  - destruct fuel as [|fuel]; [inversion Hf|]. cbn [starLoop String.append].
    cbn [lastChar] in Hk. now rewrite Hk.
  - destruct fuel as [|fuel]; [inversion Hf|]. cbn [starLoop].
    pose proof (Hfail "" c t eq_refl) as Hhere.
    change (lastChar p0 "") with p0 in Hhere. rewrite Hhere.
    cbn [String.append m rest anyChar].
    change (classMatches noFlags false (fun _ : ascii => true) c) with true. cbv iota.
    assert (Hp : progressed {| prev := p0; rest := String c (t ++ tail); caps := cs |}
                   (advance c (t ++ tail)
                      {| prev := p0; rest := String c (t ++ tail); caps := cs |}) = true).
    { unfold progressed, advance. cbn [rest String.length]. apply Nat.ltb_lt. lia. }
    rewrite Hp. unfold advance. cbn [caps].
    apply IH; [cbn in Hf; lia | | exact Hk].
    intros a d b E. apply (Hfail (String c a) d b). cbn [String.append]. now rewrite E.
Qed.

(** The greedy star over any code unit before [$] reads to the end. *)
Lemma greedy_to_end (k : mstate -> option mstate) (cs : list (nat * string)) (res : mstate) :
  forall txt fuel p0,
    String.length txt < fuel ->
    k {| prev := lastChar p0 txt; rest := ""; caps := cs |} = Some res ->
    starLoop (m noFlags anyChar) true k fuel {| prev := p0; rest := txt; caps := cs |}
    = Some res.
Proof.
  induction txt as [|c t IH]; intros fuel p0 Hf Hk.
  - destruct fuel as [|fuel]; [inversion Hf|]. cbn [starLoop m rest anyChar].
    exact Hk.
  - destruct fuel as [|fuel]; [inversion Hf|]. cbn [starLoop m rest anyChar].
    change (classMatches noFlags false (fun _ : ascii => true) c) with true. cbv iota.
    assert (Hp : progressed {| prev := p0; rest := String c t; caps := cs |}
                   (advance c t {| prev := p0; rest := String c t; caps := cs |}) = true).
    { unfold progressed, advance. cbn [rest String.length]. apply Nat.ltb_lt. lia. }
    rewrite Hp. unfold advance. cbn [caps].
    assert (Hrec : starLoop (m noFlags anyChar) true k fuel
                     {| prev := Some c; rest := t; caps := cs |} = Some res).
    { apply IH; [cbn in Hf; lia | exact Hk]. }
    rewrite_scrutinee Hrec. reflexivity.
Qed.

(** ** The closing line *)

(** Inside a header without a line that starts with a dash, the closing
    line does not match. *)
Lemma closing_none (c : ascii) (b tail : string) (p : option ascii)
    (cs : list (nat * string)) (k : mstate -> option mstate) :
  plainHeader (String c b) = true ->
  m noFlags closing
    {| prev := p; rest := String c b ++ String newline_char tail; caps := cs |} k = None.
Proof.
  intros Hplain. cbn [plainHeader] in Hplain. apply andb_true_iff in Hplain.
  destruct Hplain as [Hc _]. unfold closing. cbn [seqs].
  change (m noFlags (Seq (Char newline_char) ?r) ?s k)
    with (m noFlags (Char newline_char) s (fun s' => m noFlags r s' k)).
  cbn [String.append].
  destruct (Ascii.eqb c newline_char) eqn:Ec.
  - apply Ascii.eqb_eq in Ec. subst c. rewrite m_char_exact.
    cbn [negb orb] in Hc. cbn [lit].
    change (m noFlags (Seq (Seq (Char "-") ?r1) ?r2) ?s k)
      with (m noFlags (Char "-") s (fun s' => m noFlags r1 s' (fun s'' => m noFlags r2 s'' k))).
    destruct b as [|d b'].
    + cbn [String.append]. now apply m_char_none.
    + cbn [String.append]. apply m_char_none. apply negb_true_iff in Hc.
      now rewrite Ascii.eqb_sym.
  - apply m_char_none. now rewrite Ascii.eqb_sym.
Qed.

(** At the closing line the pattern matches, with the body as group 2. *)
Lemma closing_exact (body : string) (p : option ascii) (cs : list (nat * string)) :
  bodyOk body = true ->
  m noFlags closing
    {| prev := p; rest := nl ++ "---" ++ nl ++ body; caps := cs |} Some
  = Some {| prev := lastChar (Some newline_char) body; rest := "";
            caps := set Nat.eqb cs 2 body |}.
Proof.
  intros Hbody. unfold closing. cbn [seqs nl String.append].
  change (m noFlags (Seq (Char newline_char) ?r) ?s Some)
    with (m noFlags (Char newline_char) s (fun s' => m noFlags r s' Some)).
  rewrite m_char_exact.
  change (m noFlags (Seq (lit "---") ?r) ?s Some)
    with (m noFlags (Char "-") s
            (fun s1 => m noFlags (Char "-") s1
               (fun s2 => m noFlags (Char "-") s2 (fun s3 => m noFlags r s3 Some)))).
  rewrite !m_char_exact.
  change (m noFlags (Seq (Star true space) (Seq (Char newline_char) ?r)) ?s Some)
    with (m noFlags (Star true space) s
            (fun s' => m noFlags (Char newline_char) s' (fun s'' => m noFlags r s'' Some))).
  rewrite (space_then_newline body _ _ _ Hbody).
  cbn [m rest prev caps].
  apply greedy_to_end; [lia|].
  cbn [prev rest caps]. unfold atLineEnd, consumed. cbn [rest String.length].
  rewrite Nat.sub_0_r.
  replace (take (String.length body) body) with body; [reflexivity|].
  clear. generalize body. intros s.
  induction s as [|c t IH]; cbn [String.length take]; [reflexivity | now rewrite <- IH].
Qed.

Lemma plainHeader_suffix (a : string) :
  forall c b, plainHeader (a ++ String c b) = true -> plainHeader (String c b) = true.
Proof.
  induction a as [|d a IH]; intros c b Hp; [exact Hp|].
  cbn [String.append plainHeader] in Hp. apply andb_true_iff in Hp. destruct Hp as [_ Hp].
  now apply IH.
Qed.

(** The two groups of the frontmatter pattern. *)
Lemma frontmatter_groups (h body : string) :
  h <> "" -> bodyOk h = true -> plainHeader h = true -> bodyOk body = true ->
  exec noFlags FRONTMATTER ("---" ++ nl ++ h ++ nl ++ "---" ++ nl ++ body)
  = Some {| index := 0;
            matched := "---" ++ nl ++ h ++ nl ++ "---" ++ nl ++ body;
            groups := [(1, h); (2, body)];
            after := "" |}.
Proof.
  intros Hne Hfirst Hplain Hbody.
  assert (Hm : matchHere noFlags FRONTMATTER None
                 ("---" ++ nl ++ h ++ nl ++ "---" ++ nl ++ body)
               = Some {| prev := lastChar (Some newline_char) body; rest := "";
                         caps := [(1, h); (2, body)] |}).
  { unfold matchHere, FRONTMATTER. cbn [seqs nl String.append].
    change (m noFlags (Seq Bol (Seq (lit "---") ?r)) ?s Some)
      with (if atLineStart noFlags s
            then m noFlags (Char "-") s
                   (fun s1 => m noFlags (Char "-") s1
                      (fun s2 => m noFlags (Char "-") s2 (fun s3 => m noFlags r s3 Some)))
            else None).
    cbn [atLineStart prev]. rewrite !m_char_exact.
    change (m noFlags (Seq (Star true space) (Seq (Char newline_char) ?r)) ?s Some)
      with (m noFlags (Star true space) s
              (fun s' => m noFlags (Char newline_char) s' (fun s'' => m noFlags r s'' Some))).
    rewrite space_then_newline.
    2:{ destruct h as [|c t]; [now elim Hne | exact Hfirst]. }
    change (m noFlags (Seq (Group 1 (Star false anyChar)) ?r) ?s Some)
      with (starLoop (m noFlags anyChar) false
              (fun s' => m noFlags r
                           {| prev := prev s'; rest := rest s';
                              caps := set Nat.eqb (caps s') 1 (consumed s s') |} Some)
              (S (String.length (rest s))) s).
    cbn [rest].
    change (String newline_char (String "-" (String "-" (String "-" (String newline_char body)))))
      with (nl ++ "---" ++ nl ++ body).
    apply lazy_first.
    - rewrite length_append. lia.
    - intros a c b E. cbn [prev rest caps].
      change (seqs [Char newline_char; lit "---"; Star true space; Char newline_char;
                    Group 2 (Star true anyChar); Eol]) with closing.
      apply (closing_none c b ("---" ++ nl ++ body)).
      apply (plainHeader_suffix a). now rewrite <- E.
    - cbn [prev rest caps].
      change (seqs [Char newline_char; lit "---"; Star true space; Char newline_char;
                    Group 2 (Star true anyChar); Eol]) with closing.
      rewrite closing_exact by exact Hbody.
      unfold consumed. cbn [rest].
      now rewrite (take_app_length h (nl ++ "---" ++ nl ++ body)). }
  unfold exec.
  assert (Hs : forall s, searchFrom noFlags FRONTMATTER 0 None s
                         = match matchHere noFlags FRONTMATTER None s with
                           | Some st =>
                               Some {| index := 0;
                                       matched := take (String.length s - String.length (rest st)) s;
                                       groups := caps st; after := rest st |}
                           | None =>
                               match s with
                               | EmptyString => None
                               | String c t => searchFrom noFlags FRONTMATTER 1 (Some c) t
                               end
                           end).
  { intros s. destruct s; reflexivity. }
  rewrite Hs, Hm. cbn [rest caps String.length]. rewrite Nat.sub_0_r.
  f_equal. f_equal.
  generalize ("---" ++ nl ++ h ++ nl ++ "---" ++ nl ++ body). clear.
  intros s. induction s as [|c t IH]; cbn [String.length take]; [reflexivity | now rewrite IH].
Qed.

(** ** The field lines *)

Lemma noChar_spec (c : ascii) (s : string) : noChar c s = true -> indexOf c s = None.
Proof. unfold noChar. now destruct (indexOf c s). Qed.

Lemma indexOf_app_none (c : ascii) (a b : string) :
  indexOf c a = None -> indexOf c b = None -> indexOf c (a ++ b) = None.
Proof.
  intros Ha Hb. induction a as [|d a IH]; cbn [String.append indexOf] in *; [exact Hb|].
  destruct (Ascii.eqb d c); [discriminate|].
  destruct (indexOf c a); [discriminate|]. now rewrite IH.
Qed.

(** The first occurrence of a code unit after a text without it. *)
Lemma indexOf_first (c : ascii) (a b : string) :
  indexOf c a = None ->
  indexOf c (a ++ String c b) = Some (String.length a)
  /\ take (String.length a) (a ++ String c b) = a
  /\ drop (S (String.length a)) (a ++ String c b) = b.
Proof.
  induction a as [|d a IH]; intros Ha.
  - cbn [String.append indexOf String.length take drop]. rewrite Ascii.eqb_refl.
    now repeat split.
  - cbn [String.append indexOf] in *.
    destruct (Ascii.eqb d c); [discriminate|].
    destruct (indexOf c a); [discriminate|].
    destruct (IH eq_refl) as [H1 [H2 H3]]. rewrite H1.
    split; [reflexivity|]. split; [|exact H3].
    cbn [String.length take]. now rewrite H2.
Qed.

Lemma keyOk_spec (k : string) :
  keyOk k = true ->
  k <> "" /\ bodyOk k = true /\ trim k = k
  /\ indexOf ":" k = None /\ indexOf newline_char k = None
  /\ String.eqb k "__proto__" = false
  /\ match k with String c _ => Ascii.eqb c "-" = false | EmptyString => True end.
Proof.
  destruct k as [|c t]; [discriminate|]. unfold keyOk.
  rewrite !andb_true_iff. intros [[[[[Hw Hd] Ht] Hc] Hn] Hp].
  split; [discriminate|]. split; [exact Hw|].
  split; [now apply String.eqb_eq|].
  split; [now apply noChar_spec|]. split; [now apply noChar_spec|].
  split; [now apply negb_true_iff | now apply negb_true_iff].
Qed.

Lemma valueOk_spec (v : string) :
  valueOk v = true -> trim v = v /\ indexOf newline_char v = None.
Proof.
  unfold valueOk. rewrite andb_true_iff. intros [Ht Hn].
  split; [now apply String.eqb_eq | now apply noChar_spec].
Qed.

(** A field line sets its field. *)
Lemma addField_line (acc : obj) (k v : string) :
  keyOk k = true -> valueOk v = true ->
  addField acc (fieldLine (k, v)) = oset acc k v.
Proof.
  intros Hk Hv. destruct (keyOk_spec k Hk) as [Hne [_ [Htrim [Hcolon [_ [Hproto _]]]]]].
  destruct (valueOk_spec v Hv) as [Hvt _].
  unfold addField, fieldLine. cbn [fst snd].
  change (k ++ ": " ++ v) with (k ++ String ":" (String " " v)).
  destruct (indexOf_first ":" k (String " " v) Hcolon) as [-> [Htake Hdrop]].
  assert (Hpos : (0 <? String.length k) = true).
  { destruct k; [now elim Hne | reflexivity]. }
  rewrite Hpos, Htake, Htrim, Hproto, Nat.add_1_r, Hdrop.
  change (trim (String " " v)) with (trim v). now rewrite Hvt.
Qed.

Lemma fieldLine_no_newline (kv : string * string) :
  fieldOk kv = true -> indexOf newline_char (fieldLine kv) = None.
Proof.
  destruct kv as [k v]. unfold fieldOk. cbn [fst snd]. rewrite andb_true_iff.
  intros [Hk Hv]. destruct (keyOk_spec k Hk) as [_ [_ [_ [_ [Hkn _]]]]].
  destruct (valueOk_spec v Hv) as [_ Hvn].
  unfold fieldLine. cbn [fst snd].
  apply indexOf_app_none; [exact Hkn|]. now apply (indexOf_app_none _ ": " v).
Qed.

(** Lines without newline, joined by newlines, split back. *)
Lemma split_join_lines (l : string) (lines : list string) :
  (forall x, In x (l :: lines) -> indexOf newline_char x = None) ->
  split newline_char (join nl (l :: lines)) = l :: lines.
Proof.
  revert l. induction lines as [|l2 lines IH]; intros l Hall.
  - cbn [join]. apply split_no_sep. apply Hall. now left.
  - change (join nl (l :: l2 :: lines))
      with (l ++ String newline_char (join nl (l2 :: lines))).
    rewrite split_line by (apply Hall; now left).
    f_equal. apply IH. intros x Hx. apply Hall. now right.
Qed.

(** The lines of the fields assign them in order. *)
Lemma addFields (fs : obj) :
  forall acc,
    forallb fieldOk fs = true ->
    fold_left addField (map fieldLine fs) acc
    = fold_left (fun o kv => oset o (fst kv) (snd kv)) fs acc.
Proof.
  induction fs as [|[k v] fs IH]; intros acc Hok; cbn [map fold_left]; [reflexivity|].
  cbn [forallb] in Hok. apply andb_true_iff in Hok. destruct Hok as [Hkv Hok].
  unfold fieldOk in Hkv. cbn [fst snd] in Hkv. apply andb_true_iff in Hkv.
  destruct Hkv as [Hk Hv]. rewrite (addField_line acc k v Hk Hv). now apply IH.
Qed.

(** The header of a non-empty list of fields starts with no whitespace and
    has no line that starts with a dash. *)
Lemma plainHeader_text (s tail : string) :
  indexOf newline_char s = None ->
  plainHeader tail = true ->
  plainHeader (s ++ tail) = true.
Proof.
  intros Hs Htail. induction s as [|c s IH]; cbn [String.append]; [exact Htail|].
  cbn [indexOf] in Hs. destruct (Ascii.eqb c newline_char) eqn:Ec; [discriminate|].
  destruct (indexOf newline_char s); [discriminate|].
  cbn [plainHeader]. rewrite Ec. cbn [negb orb andb]. now apply IH.
Qed.

Lemma header_plain (fs : obj) :
  forallb fieldOk fs = true -> plainHeader (join nl (map fieldLine fs)) = true.
Proof.
  induction fs as [|kv fs IH]; intros Hok; [reflexivity|].
  cbn [forallb] in Hok. apply andb_true_iff in Hok. destruct Hok as [Hkv Hok].
  destruct fs as [|kv2 fs].
  - cbn [map join]. rewrite <- (append_nil_r (fieldLine kv)).
    apply plainHeader_text; [now apply fieldLine_no_newline | reflexivity].
  - change (join nl (map fieldLine (kv :: kv2 :: fs)))
      with (fieldLine kv ++ String newline_char (join nl (map fieldLine (kv2 :: fs)))).
    apply plainHeader_text; [now apply fieldLine_no_newline|].
    specialize (IH Hok).
    cbn [forallb] in Hok. apply andb_true_iff in Hok. destruct Hok as [Hkv2 _].
    unfold fieldOk in Hkv2. apply andb_true_iff in Hkv2. destruct Hkv2 as [Hk2 _].
    destruct (keyOk_spec _ Hk2) as [Hne2 [_ [_ [_ [_ [_ Hdash]]]]]].
    cbn [plainHeader]. rewrite IH, andb_true_r. cbn [negb orb].
    destruct kv2 as [k2 v2]. cbn [fst] in *.
    destruct fs as [|kv3 fs]; cbn [map join]; unfold fieldLine; cbn [fst snd];
      (destruct k2 as [|c2 t2]; [now elim Hne2|]); cbn [String.append];
      now rewrite Hdash.
Qed.

(** X19.  An agent file written in the usual way is read back as written:
    for a non-empty list of fields, each on its own line as [key: value],
    between two lines of three dashes and followed by a body that does not
    start with whitespace, [parseFrontmatter] returns this body and the
    object that results from assigning the fields in order.  With distinct
    keys that object holds under each key the value written for it, and it
    lists the fields in the order written when, besides, no key is an array
    index (keys such as 9 and 10 are listed first, in ascending order). *)
Theorem parseFrontmatter_round_trip (fs : obj) (text : string) :
  fs <> [] -> forallb fieldOk fs = true -> bodyOk text = true ->
  parseFrontmatter (frontmatterOf fs text)
  = Some {| fields := assigned fs; body := text |}
  /\ (NoDup (keys fs) -> forall k, oget (assigned fs) k = oget fs k)
  /\ (NoDup (keys fs) -> forallb (fun kv => plainKey (fst kv)) fs = true ->
      assigned fs = fs).
Proof.
  intros Hne Hok Hbody.
  split; [|split; [intros Hnd k; now apply assigned_lookup | exact (assigned_plain fs)]].
  unfold parseFrontmatter, frontmatterOf.
  destruct fs as [|[k v] fs]; [now elim Hne|].
  assert (Hk : keyOk k = true).
  { cbn [forallb] in Hok. apply andb_true_iff in Hok. destruct Hok as [Hkv _].
    unfold fieldOk in Hkv. now apply andb_true_iff in Hkv. }
  destruct (keyOk_spec k Hk) as [Hkne [Hkfirst _]].
  rewrite frontmatter_groups.
  - unfold group. cbn [groups get Nat.eqb]. f_equal. f_equal.
    change (map fieldLine ((k, v) :: fs)) with (fieldLine (k, v) :: map fieldLine fs).
    rewrite split_join_lines.
    + change (fieldLine (k, v) :: map fieldLine fs) with (map fieldLine ((k, v) :: fs)).
      now rewrite (addFields ((k, v) :: fs) [] Hok).
    + intros x Hx.
      change (fieldLine (k, v) :: map fieldLine fs) with (map fieldLine ((k, v) :: fs)) in Hx.
      apply in_map_iff in Hx. destruct Hx as [kv [<- Hin]].
      apply fieldLine_no_newline. rewrite forallb_forall in Hok. now apply Hok.
  - destruct fs as [|kv2 fs]; cbn [map join]; unfold fieldLine; cbn [fst snd];
      (destruct k; [now elim Hkne | discriminate]).
  - destruct fs as [|kv2 fs]; cbn [map join]; unfold fieldLine; cbn [fst snd];
      (destruct k as [|c t]; [now elim Hkne | exact Hkfirst]).
  - now apply header_plain.
  - exact Hbody.
Qed.

(** The file of a scout, and a file whose keys are array indices. *)
Lemma parseFrontmatter_scout_file :
  parseFrontmatter
    ("---" ++ nl ++ "name: scout" ++ nl ++ "tools: read,grep" ++ nl ++ "---" ++ nl
     ++ "You are a scout.")
  = Some {| fields := [("name", "scout"); ("tools", "read,grep")];
            body := "You are a scout." |}
  /\ parseFrontmatter
       ("---" ++ nl ++ "10: ten" ++ nl ++ "name: n" ++ nl ++ "9: nine" ++ nl ++ "---" ++ nl
        ++ "Body.")
     = Some {| fields := [("9", "nine"); ("10", "ten"); ("name", "n")]; body := "Body." |}.
Proof.
  split.
  - exact (proj1 (parseFrontmatter_round_trip [("name", "scout"); ("tools", "read,grep")]
                    "You are a scout." ltac:(discriminate) eq_refl eq_refl)).
  - exact (proj1 (parseFrontmatter_round_trip [("10", "ten"); ("name", "n"); ("9", "nine")]
                    "Body." ltac:(discriminate) eq_refl eq_refl)).
Defined.

End FrontmatterProofs.

Module ChainYamlProofs.
Import JS Regex Facts AgentChain Notions SplitProofs StreamProofs NameProofs
       FrontmatterDefs FrontmatterProofs ChainYaml ChainYamlDefs.

(** ** Steps of the matcher *)

Lemma char_head_none (x : ascii) (r : regex) (p : option ascii) (s : string)
    (cs : list (nat * string)) (k : mstate -> option mstate) :
  headNot x s ->
  m noFlags (Seq (Char x) r) {| prev := p; rest := s; caps := cs |} k = None.
Proof.
  intros Hs. cbn [m rest]. destruct s as [|c t]; [reflexivity|].
  unfold charMatches, canon. cbn [ignoreCase noFlags]. cbn [headNot] in Hs. now rewrite Hs.
Qed.

Lemma lit_head_none (x : ascii) (w : string) (r : regex) (p : option ascii) (s : string)
    (cs : list (nat * string)) (k : mstate -> option mstate) :
  headNot x s ->
  m noFlags (Seq (lit (String x w)) r) {| prev := p; rest := s; caps := cs |} k = None.
Proof.
  intros Hs. destruct w as [|d w].
  - now apply char_head_none.
  - change (m noFlags (Seq (lit (String x (String d w))) r)
              {| prev := p; rest := s; caps := cs |} k)
      with (m noFlags (Seq (Char x) (Seq (lit (String d w)) r))
              {| prev := p; rest := s; caps := cs |} k).
    now apply char_head_none.
Qed.

Lemma char_ok (c : ascii) (r : regex) (p : option ascii) (t : string)
    (cs : list (nat * string)) (k : mstate -> option mstate) :
  m noFlags (Seq (Char c) r) {| prev := p; rest := String c t; caps := cs |} k
  = m noFlags r {| prev := Some c; rest := t; caps := cs |} k.
Proof. cbn [m rest]. unfold charMatches. now rewrite Ascii.eqb_refl. Qed.

Lemma lit_ok (w : string) (r : regex) :
  forall (p : option ascii) (t : string) (cs : list (nat * string))
         (k : mstate -> option mstate),
    w <> "" ->
    m noFlags (Seq (lit w) r) {| prev := p; rest := w ++ t; caps := cs |} k
    = m noFlags r {| prev := lastChar p w; rest := t; caps := cs |} k.
Proof.
  induction w as [|c w IH]; intros p t cs k Hne; [now elim Hne|].
  destruct w as [|d w].
  - apply char_ok.
  - change (m noFlags (Seq (lit (String c (String d w))) r)
              {| prev := p; rest := String c (String d w) ++ t; caps := cs |} k)
      with (m noFlags (Seq (Char c) (Seq (lit (String d w)) r))
              {| prev := p; rest := String c (String d w ++ t); caps := cs |} k).
    rewrite char_ok. now apply IH.
Qed.

(** The greedy star over whitespace: it reads the whole run when the rest
    of the pattern matches after it, and it fails when the rest of the
    pattern needs a first code unit that neither the run nor the text after
    it offers. *)
Lemma spaceLoop_exact (k : mstate -> option mstate) (tail : string)
    (cs : list (nat * string)) (res : mstate) :
  bodyOk tail = true ->
  forall run fuel p0,
    String.length run < fuel ->
    forallb isWhiteSpace (chars run) = true ->
    k {| prev := lastChar p0 run; rest := tail; caps := cs |} = Some res ->
    starLoop (m noFlags space) true k fuel {| prev := p0; rest := run ++ tail; caps := cs |}
    = Some res.
Proof.
  intros Htail. induction run as [|c t IH]; intros fuel p0 Hf Hall Hk.
  - destruct fuel as [|fuel]; [inversion Hf|]. cbn [starLoop String.append m rest space].
    cbn [lastChar] in Hk. destruct tail as [|d tl]; [exact Hk|].
    cbn [bodyOk] in Htail. apply negb_true_iff in Htail.
    rewrite class_noFlags, Htail. exact Hk.
  - destruct fuel as [|fuel]; [inversion Hf|].
    cbn [chars list_ascii_of_string forallb] in Hall. apply andb_true_iff in Hall.
    destruct Hall as [Hc Hall].
    cbn [starLoop String.append m rest space]. rewrite class_noFlags, Hc.
    assert (Hp : progressed {| prev := p0; rest := String c (t ++ tail); caps := cs |}
                   (advance c (t ++ tail)
                      {| prev := p0; rest := String c (t ++ tail); caps := cs |}) = true).
    { unfold progressed, advance. cbn [rest String.length]. apply Nat.ltb_lt. lia. }
    rewrite Hp. unfold advance. cbn [caps].
    assert (Hrec : starLoop (m noFlags space) true k fuel
                     {| prev := Some c; rest := t ++ tail; caps := cs |} = Some res).
    { apply IH; [cbn in Hf; lia | exact Hall | exact Hk]. }
    rewrite_scrutinee Hrec. reflexivity.
Qed.

Lemma spaceLoop_none (k : mstate -> option mstate) (x : ascii) (tail : string)
    (cs : list (nat * string)) :
  isWhiteSpace x = false -> bodyOk tail = true -> headNot x tail ->
  (forall p s, headNot x s -> k {| prev := p; rest := s; caps := cs |} = None) ->
  forall run fuel p0,
    String.length run < fuel ->
    forallb isWhiteSpace (chars run) = true ->
    starLoop (m noFlags space) true k fuel {| prev := p0; rest := run ++ tail; caps := cs |}
    = None.
Proof.
  intros Hx Htail Hhead Hk. induction run as [|c t IH]; intros fuel p0 Hf Hall.
  - destruct fuel as [|fuel]; [inversion Hf|]. cbn [starLoop String.append m rest space].
    destruct tail as [|d tl]; [now apply Hk|].
    cbn [bodyOk] in Htail. apply negb_true_iff in Htail.
    rewrite class_noFlags, Htail. now apply Hk.
  - destruct fuel as [|fuel]; [inversion Hf|].
    cbn [chars list_ascii_of_string forallb] in Hall. apply andb_true_iff in Hall.
    destruct Hall as [Hc Hall].
    cbn [starLoop String.append m rest space]. rewrite class_noFlags, Hc.
    assert (Hp : progressed {| prev := p0; rest := String c (t ++ tail); caps := cs |}
                   (advance c (t ++ tail)
                      {| prev := p0; rest := String c (t ++ tail); caps := cs |}) = true).
    { unfold progressed, advance. cbn [rest String.length]. apply Nat.ltb_lt. lia. }
    rewrite Hp. unfold advance. cbn [caps].
    assert (Hrec : starLoop (m noFlags space) true k fuel
                     {| prev := Some c; rest := t ++ tail; caps := cs |} = None).
    { apply IH; [cbn in Hf; lia | exact Hall]. }
    rewrite_scrutinee Hrec. apply Hk. cbn [headNot].
    destruct (Ascii.eqb_spec x c) as [->|]; [congruence | reflexivity].
Qed.

(** [\s+] before the rest of a pattern. *)
Lemma spaces_ok (r : regex) (c : ascii) (run tail : string) (p : option ascii)
    (cs : list (nat * string)) (k : mstate -> option mstate) (res : mstate) :
  forallb isWhiteSpace (chars (String c run)) = true -> bodyOk tail = true ->
  m noFlags r {| prev := lastChar p (String c run); rest := tail; caps := cs |} k = Some res ->
  m noFlags (Seq spaces r) {| prev := p; rest := String c run ++ tail; caps := cs |} k
  = Some res.
Proof.
  intros Hall Htail Hk.
  cbn [chars list_ascii_of_string forallb] in Hall. apply andb_true_iff in Hall.
  destruct Hall as [Hc Hall].
  change (m noFlags (Seq spaces r) ?s k)
    with (m noFlags space s
            (fun s1 => m noFlags (Star true space) s1 (fun s2 => m noFlags r s2 k))).
  cbn [String.append m rest space]. rewrite class_noFlags, Hc.
  unfold advance. cbn [caps rest].
  apply spaceLoop_exact; [exact Htail | rewrite length_append; lia | exact Hall | exact Hk].
Qed.

Lemma spaces_none (r : regex) (x : ascii) (run tail : string) (p : option ascii)
    (cs : list (nat * string)) (k : mstate -> option mstate) :
  isWhiteSpace x = false -> bodyOk tail = true -> headNot x tail ->
  forallb isWhiteSpace (chars run) = true ->
  (forall p' s, headNot x s -> m noFlags r {| prev := p'; rest := s; caps := cs |} k = None) ->
  m noFlags (Seq spaces r) {| prev := p; rest := run ++ tail; caps := cs |} k = None.
Proof.
  intros Hx Htail Hhead Hall Hk.
  change (m noFlags (Seq spaces r) ?s k)
    with (m noFlags space s
            (fun s1 => m noFlags (Star true space) s1 (fun s2 => m noFlags r s2 k))).
  destruct run as [|c run].
  - cbn [String.append m rest space]. destruct tail as [|d tl]; [reflexivity|].
    cbn [bodyOk] in Htail. apply negb_true_iff in Htail. now rewrite class_noFlags, Htail.
  - cbn [chars list_ascii_of_string forallb] in Hall. apply andb_true_iff in Hall.
    destruct Hall as [Hc Hall].
    cbn [String.append m rest space]. rewrite class_noFlags, Hc.
    unfold advance. cbn [caps rest].
    apply (spaceLoop_none _ x); try assumption. rewrite length_append. lia.
Qed.

(** [(.+)$] reads a text without line terminator to its end. *)
Lemma dotLoop_end (k : mstate -> option mstate) (cs : list (nat * string)) (res : mstate) :
  forall txt fuel p0,
    String.length txt < fuel -> oneLine txt = true ->
    k {| prev := lastChar p0 txt; rest := ""; caps := cs |} = Some res ->
    starLoop (m noFlags Dot) true k fuel {| prev := p0; rest := txt; caps := cs |} = Some res.
Proof.
  induction txt as [|c t IH]; intros fuel p0 Hf Hline Hk.
  - destruct fuel as [|fuel]; [inversion Hf|]. cbn [starLoop m rest]. exact Hk.
  - destruct fuel as [|fuel]; [inversion Hf|].
    unfold oneLine in Hline. cbn [chars list_ascii_of_string forallb] in Hline.
    apply andb_true_iff in Hline. destruct Hline as [Hc Hline].
    apply negb_true_iff in Hc.
    cbn [starLoop m rest]. rewrite Hc.
    assert (Hp : progressed {| prev := p0; rest := String c t; caps := cs |}
                   (advance c t {| prev := p0; rest := String c t; caps := cs |}) = true).
    { unfold progressed, advance. cbn [rest String.length]. apply Nat.ltb_lt. lia. }
    rewrite Hp. unfold advance. cbn [caps].
    assert (Hrec : starLoop (m noFlags Dot) true k fuel
                     {| prev := Some c; rest := t; caps := cs |} = Some res).
    { apply IH; [cbn in Hf; lia | exact Hline | exact Hk]. }
    rewrite_scrutinee Hrec. reflexivity.
Qed.

Lemma take_all (s : string) : take (String.length s) s = s.
Proof. induction s as [|c t IH]; cbn [String.length take]; [reflexivity | now rewrite IH]. Qed.

Lemma content_end (n : nat) (c : ascii) (t : string) (p : option ascii)
    (cs : list (nat * string)) :
  oneLine (String c t) = true ->
  m noFlags (Seq (content n) Eol) {| prev := p; rest := String c t; caps := cs |} Some
  = Some {| prev := lastChar p (String c t); rest := "";
            caps := set Nat.eqb cs n (String c t) |}.
Proof.
  intros Hline. pose proof Hline as Hline'.
  unfold oneLine in Hline. cbn [chars list_ascii_of_string forallb] in Hline.
  apply andb_true_iff in Hline. destruct Hline as [Hc Hline]. apply negb_true_iff in Hc.
  unfold content.
  change (m noFlags (Seq (Group n (Seq Dot (Star true Dot))) Eol) ?s Some)
    with (m noFlags Dot s
            (fun s1 => m noFlags (Star true Dot) s1
               (fun s2 => m noFlags Eol
                            {| prev := prev s2; rest := rest s2;
                               caps := set Nat.eqb (caps s2) n (consumed s s2) |} Some))).
  cbn [m rest]. rewrite Hc. unfold advance. cbn [caps rest].
  apply dotLoop_end; [lia | exact Hline |].
  cbn [m prev rest caps]. unfold atLineEnd, consumed. cbn [rest String.length Nat.sub take].
  now rewrite (take_all t).
Qed.

(** A pattern that starts with [^] is tried at the start only. *)
Lemma exec_anchored (r : regex) (s : string) :
  exec noFlags (Seq Bol r) s
  = match matchHere noFlags (Seq Bol r) None s with
    | Some st =>
        Some {| index := 0;
                matched := take (String.length s - String.length (rest st)) s;
                groups := caps st; after := rest st |}
    | None => None
    end.
Proof.
  unfold exec. destruct s as [|c t]; cbn [searchFrom].
  - now destruct (matchHere noFlags (Seq Bol r) None "").
  - destruct (matchHere noFlags (Seq Bol r) None (String c t)); [reflexivity|].
    apply searchFrom_anchored.
Qed.

Lemma firstGroup_some (r : regex) (s g : string) (p : option ascii) (t : string) :
  matchHere noFlags (Seq Bol r) None s = Some {| prev := p; rest := t; caps := [(1, g)] |} ->
  firstGroup (Seq Bol r) s = Some g.
Proof. intros Hm. unfold firstGroup. now rewrite exec_anchored, Hm. Qed.

Lemma firstGroup_none (r : regex) (s : string) :
  matchHere noFlags (Seq Bol r) None s = None -> firstGroup (Seq Bol r) s = None.
Proof. intros Hm. unfold firstGroup. now rewrite exec_anchored, Hm. Qed.

(** The greedy star over a negated class before a code unit outside it. *)
Lemma exceptLoop_exact (x : ascii) (k : mstate -> option mstate) (tail : string)
    (cs : list (nat * string)) (res : mstate) :
  forall run fuel p0,
    String.length run < fuel ->
    indexOf x run = None ->
    k {| prev := lastChar p0 run; rest := String x tail; caps := cs |} = Some res ->
    starLoop (m noFlags (Class true (fun c => Ascii.eqb c x))) true k fuel
      {| prev := p0; rest := run ++ String x tail; caps := cs |}
    = Some res.
Proof.
  induction run as [|c t IH]; intros fuel p0 Hf Hrun Hk.
  - destruct fuel as [|fuel]; [inversion Hf|]. cbn [starLoop String.append m rest].
    unfold classMatches. cbn [ignoreCase noFlags andb]. rewrite Ascii.eqb_refl.
    cbn [orb negb]. exact Hk.
  - destruct fuel as [|fuel]; [inversion Hf|].
    cbn [indexOf] in Hrun. destruct (Ascii.eqb c x) eqn:Ec; [discriminate|].
    destruct (indexOf x t) eqn:Et; [discriminate|].
    cbn [starLoop String.append m rest].
    unfold classMatches. cbn [ignoreCase noFlags andb]. rewrite Ec. cbn [orb negb].
    assert (Hp : progressed {| prev := p0; rest := String c (t ++ String x tail); caps := cs |}
                   (advance c (t ++ String x tail)
                      {| prev := p0; rest := String c (t ++ String x tail); caps := cs |})
                 = true).
    { unfold progressed, advance. cbn [rest String.length]. apply Nat.ltb_lt. lia. }
    rewrite Hp. unfold advance. cbn [caps].
    assert (Hrec : starLoop (m noFlags (Class true (fun c => Ascii.eqb c x))) true k fuel
                     {| prev := Some c; rest := t ++ String x tail; caps := cs |} = Some res).
    { apply IH; [cbn in Hf; lia | reflexivity | exact Hk]. }
    rewrite_scrutinee Hrec. reflexivity.
Qed.

(** ** The lines of a chain file *)

Lemma trimEnd_snoc (s : string) (c : ascii) :
  isWhiteSpace c = false -> trimEnd (s ++ String c "") = s ++ String c "".
Proof.
  intros Hc. induction s as [|d s IH]; cbn [String.append trimEnd].
  - now rewrite Hc.
  - rewrite IH. now destruct s.
Qed.

Lemma take_app_exact (a b : string) : take (String.length a) (a ++ b) = a.
Proof.
  induction a as [|c a IH]; cbn [String.length String.append take].
  - now destruct b.
  - now rewrite IH.
Qed.

Lemma trim_quoted (s : string) : trim (quoted s) = quoted s.
Proof.
  unfold trim, quoted. cbn [trimStart].
  change (isWhiteSpace dquote_char) with false. cbv iota.
  change (String dquote_char (s ++ String dquote_char ""))
    with (String dquote_char s ++ String dquote_char "").
  now apply trimEnd_snoc.
Qed.

Lemma unquote_quoted (s : string) : unquote (quoted s) = s.
Proof.
  assert (Hl : lastChar None (quoted s) = Some dquote_char).
  { apply (RegexProofs.lastChar_snoc (String dquote_char s)). }
  unfold unquote, endsWithChar. rewrite Hl. unfold quoted, startsWithChar.
  rewrite !Ascii.eqb_refl. cbn [andb orb drop String.length].
  rewrite length_append. cbn [String.length].
  replace (S (String.length s + 1) - 2) with (String.length s) by lia.
  apply take_app_exact.
Qed.

Lemma oneLine_quoted (s : string) : oneLine s = true -> oneLine (quoted s) = true.
Proof.
  unfold oneLine, quoted. cbn [chars list_ascii_of_string forallb].
  change (isLineTerminator dquote_char) with false. cbn [negb andb].
  fold (chars (s ++ String dquote_char "")). rewrite chars_app, forallb_app.
  intros ->. reflexivity.
Qed.

Lemma oneLine_no_newline (s : string) : oneLine s = true -> indexOf newline_char s = None.
Proof.
  unfold oneLine. induction s as [|c s IH]; [reflexivity|].
  cbn [chars list_ascii_of_string forallb indexOf]. fold (chars s).
  rewrite andb_true_iff. intros [Hc Hs]. apply negb_true_iff in Hc.
  destruct (Ascii.eqb_spec c newline_char) as [->|]; [discriminate|].
  now rewrite (IH Hs).
Qed.

(** The first line of a chain. *)
Lemma header_line (n : string) :
  nameOk n = true -> firstGroup CHAIN_HEADER (n ++ ":") = Some n.
Proof.
  intros Hn. destruct n as [|c t]; [discriminate|].
  unfold nameOk in Hn. rewrite !andb_true_iff in Hn.
  destruct Hn as [[[Hc _] Hcolon] _]. apply negb_true_iff in Hc.
  apply noChar_spec in Hcolon. cbn [indexOf] in Hcolon.
  destruct (Ascii.eqb c ":") eqn:Ec; [discriminate|].
  destruct (indexOf ":" t) eqn:Et; [discriminate|].
  apply (firstGroup_some _ _ _ (Some ":"%char) "").
  unfold matchHere, CHAIN_HEADER. cbn [seqs].
  change (m noFlags (Seq Bol (Seq (Group 1 (Seq ?r1 (Star true ?r2))) ?r3)) ?s Some)
    with (if atLineStart noFlags s
          then m noFlags r1 s
                 (fun s1 => starLoop (m noFlags r2) true
                    (fun s2 => m noFlags r3
                                 {| prev := prev s2; rest := rest s2;
                                    caps := set Nat.eqb (caps s2) 1 (consumed s s2) |} Some)
                    (S (String.length (rest s1))) s1)
          else None).
  cbn [atLineStart prev String.append m rest].
  unfold classMatches at 1. cbn [ignoreCase noFlags andb]. rewrite Hc. cbn [orb negb].
  unfold advance. cbn [caps rest].
  apply exceptLoop_exact; [rewrite length_append; lia | exact Et |].
  cbn [prev rest caps]. unfold charMatches. rewrite Ascii.eqb_refl.
  unfold atLineEnd, consumed. cbn [rest set].
  change (String c (t ++ ":")) with (String c t ++ ":").
  now rewrite (take_app_length (String c t) ":").
Qed.

Lemma indented_no_header (t : string) : firstGroup CHAIN_HEADER (String " " t) = None.
Proof. apply firstGroup_none. reflexivity. Qed.

(** The description line. *)
Lemma description_line (d : string) :
  oneLine d = true ->
  firstGroup DESCRIPTION_LINE ("  description: " ++ quoted d) = Some (quoted d).
Proof.
  intros Hd. apply (firstGroup_some _ _ _ (lastChar (Some " "%char) (quoted d)) "").
  unfold matchHere, DESCRIPTION_LINE. cbn [seqs].
  change (m noFlags (Seq Bol ?r) ?s Some)
    with (if atLineStart noFlags s then m noFlags r s Some else None).
  cbn [atLineStart prev].
  apply (spaces_ok _ " " " " ("description: " ++ quoted d)); [reflexivity | reflexivity |].
  rewrite (lit_ok "description:" _ _ (" " ++ quoted d)) by discriminate.
  apply (spaces_ok _ " " "" (quoted d)); [reflexivity | reflexivity |].
  unfold quoted at 1. rewrite content_end by (apply (oneLine_quoted d Hd)). reflexivity.
Qed.

(** Lines that start with whitespace and then need another code unit. *)
Lemma agent_line_no_description (a : string) :
  firstGroup DESCRIPTION_LINE ("    - agent: " ++ a) = None.
Proof.
  apply firstGroup_none. unfold matchHere, DESCRIPTION_LINE. cbn [seqs].
  change (m noFlags (Seq Bol ?r) ?s Some)
    with (if atLineStart noFlags s then m noFlags r s Some else None).
  cbn [atLineStart prev].
  apply (spaces_none _ "d" "    " ("- agent: " ++ a)); try reflexivity.
  intros p s Hs. now apply lit_head_none.
Qed.

Lemma agent_line_no_steps (a : string) :
  exec noFlags STEPS_LINE ("    - agent: " ++ a) = None.
Proof.
  unfold STEPS_LINE. cbn [seqs]. rewrite exec_anchored.
  replace (matchHere noFlags _ None ("    - agent: " ++ a)) with (@None mstate); [reflexivity|].
  symmetry. unfold matchHere.
  change (m noFlags (Seq Bol ?r) ?s Some)
    with (if atLineStart noFlags s then m noFlags r s Some else None).
  cbn [atLineStart prev].
  apply (spaces_none _ "s" "    " ("- agent: " ++ a)); try reflexivity.
  intros p s Hs. now apply lit_head_none.
Qed.

Lemma agent_line (a : string) :
  agentOk a = true -> firstGroup AGENT_LINE ("    - agent: " ++ a) = Some a.
Proof.
  intros Ha. destruct a as [|c t]; [discriminate|].
  unfold agentOk in Ha. rewrite !andb_true_iff in Ha. destruct Ha as [[Hc _] Hline].
  apply (firstGroup_some _ _ _ (lastChar (Some " "%char) (String c t)) "").
  unfold matchHere, AGENT_LINE. cbn [seqs].
  change (m noFlags (Seq Bol ?r) ?s Some)
    with (if atLineStart noFlags s then m noFlags r s Some else None).
  cbn [atLineStart prev].
  apply (spaces_ok _ " " "   " ("- agent: " ++ String c t)); [reflexivity | reflexivity |].
  cbn [String.append]. rewrite char_ok.
  apply (spaces_ok _ " " "" ("agent: " ++ String c t)); [reflexivity | reflexivity |].
  rewrite (lit_ok "agent:" _ _ (" " ++ String c t)) by discriminate.
  apply (spaces_ok _ " " "" (String c t)); [reflexivity | exact Hc |].
  rewrite content_end by exact Hline. reflexivity.
Qed.

Lemma prompt_line_no_steps (p : string) :
  exec noFlags STEPS_LINE ("      prompt: " ++ p) = None.
Proof.
  unfold STEPS_LINE. cbn [seqs]. rewrite exec_anchored.
  replace (matchHere noFlags _ None ("      prompt: " ++ p)) with (@None mstate); [reflexivity|].
  symmetry. unfold matchHere.
  change (m noFlags (Seq Bol ?r) ?s Some)
    with (if atLineStart noFlags s then m noFlags r s Some else None).
  cbn [atLineStart prev].
  apply (spaces_none _ "s" "      " ("prompt: " ++ p)); try reflexivity.
  intros p' s Hs. now apply lit_head_none.
Qed.

Lemma prompt_line_no_agent (p : string) :
  firstGroup AGENT_LINE ("      prompt: " ++ p) = None.
Proof.
  apply firstGroup_none. unfold matchHere, AGENT_LINE. cbn [seqs].
  change (m noFlags (Seq Bol ?r) ?s Some)
    with (if atLineStart noFlags s then m noFlags r s Some else None).
  cbn [atLineStart prev].
  apply (spaces_none _ "-" "      " ("prompt: " ++ p)); try reflexivity.
  intros p' s Hs. now apply char_head_none.
Qed.

Lemma prompt_line (p : string) :
  oneLine p = true ->
  firstGroup PROMPT_LINE ("      prompt: " ++ quoted p) = Some (quoted p).
Proof.
  intros Hp. apply (firstGroup_some _ _ _ (lastChar (Some " "%char) (quoted p)) "").
  unfold matchHere, PROMPT_LINE. cbn [seqs].
  change (m noFlags (Seq Bol ?r) ?s Some)
    with (if atLineStart noFlags s then m noFlags r s Some else None).
  cbn [atLineStart prev].
  apply (spaces_ok _ " " "     " ("prompt: " ++ quoted p)); [reflexivity | reflexivity |].
  rewrite (lit_ok "prompt:" _ _ (" " ++ quoted p)) by discriminate.
  apply (spaces_ok _ " " "" (quoted p)); [reflexivity | reflexivity |].
  unfold quoted at 1. rewrite content_end by (apply (oneLine_quoted p Hp)). reflexivity.
Qed.

Lemma steps_label :
  firstGroup DESCRIPTION_LINE "  steps:" = None
  /\ exec noFlags STEPS_LINE "  steps:" <> None.
Proof. split; [reflexivity | discriminate]. Qed.

(** ** The reader *)

Lemma nameOk_trim (n : string) : nameOk n = true -> trim n = n.
Proof.
  destruct n as [|c t]; [discriminate|]. unfold nameOk. rewrite !andb_true_iff.
  intros [[[_ Ht] _] _]. now apply String.eqb_eq.
Qed.

Lemma agentOk_trim (a : string) : agentOk a = true -> trim a = a.
Proof.
  destruct a as [|c t]; [discriminate|]. unfold agentOk. rewrite !andb_true_iff.
  intros [[_ Ht] _]. now apply String.eqb_eq.
Qed.

Lemma agentOk_oneLine (a : string) : agentOk a = true -> oneLine a = true.
Proof.
  destruct a as [|c t]; [discriminate|]. unfold agentOk. rewrite !andb_true_iff.
  now intros [_ Hl].
Qed.

Lemma read_header (r : Reader) (n : string) :
  nameOk n = true -> (current r = None -> currentStep r = None) ->
  readLine r (n ++ ":")
  = {| finished := readSoFar r;
       current := Some {| chainName := n; chainDescription := ""; steps := [] |};
       currentStep := None |}.
Proof.
  intros Hn Hwf. unfold readLine. rewrite (header_line n Hn), (nameOk_trim n Hn).
  unfold readSoFar, chainsOf. destruct r as [f [c|] [s|]]; cbn [current currentStep finished flush];
    try reflexivity.
  - cbn in Hwf. now rewrite Hwf.
Qed.

Lemma read_description (f : list ChainDef) (c : ChainDef) (d : string) :
  oneLine d = true ->
  readLine {| finished := f; current := Some c; currentStep := None |}
           ("  description: " ++ quoted d)
  = {| finished := f;
       current := Some {| chainName := chainName c; chainDescription := d;
                          steps := steps c |};
       currentStep := None |}.
Proof.
  intros Hd. unfold readLine.
  change ("  description: " ++ quoted d) with (String " " (" description: " ++ quoted d)) at 1.
  rewrite indented_no_header, (description_line d Hd). cbn [current currentStep finished].
  now rewrite trim_quoted, unquote_quoted.
Qed.

Lemma read_steps_label (f : list ChainDef) (c : ChainDef) :
  readLine {| finished := f; current := Some c; currentStep := None |} "  steps:"
  = {| finished := f; current := Some c; currentStep := None |}.
Proof. reflexivity. Qed.

Lemma read_agent (f : list ChainDef) (c : ChainDef) (pending : option ChainStep) (a : string) :
  agentOk a = true ->
  readLine {| finished := f; current := Some c; currentStep := pending |}
           ("    - agent: " ++ a)
  = {| finished := f; current := Some (flush c pending);
       currentStep := Some {| agent := a; prompt := "" |} |}.
Proof.
  intros Ha. unfold readLine.
  change ("    - agent: " ++ a) with (String " " ("   - agent: " ++ a)) at 1.
  rewrite indented_no_header, agent_line_no_description, agent_line_no_steps,
    (agent_line a Ha), (agentOk_trim a Ha).
  cbn [current currentStep finished]. now destruct pending.
Qed.

Lemma read_prompt (f : list ChainDef) (cur : option ChainDef) (s : ChainStep) (p : string) :
  oneLine p = true ->
  readLine {| finished := f; current := cur; currentStep := Some s |}
           ("      prompt: " ++ quoted p)
  = {| finished := f; current := cur;
       currentStep := Some {| agent := agent s;
                              prompt := replaceAll ESCAPED_NEWLINE nl p |} |}.
Proof.
  intros Hp. unfold readLine.
  change ("      prompt: " ++ quoted p) with (String " " ("     prompt: " ++ quoted p)) at 1.
  rewrite indented_no_header, prompt_line_no_steps, prompt_line_no_agent,
    (prompt_line p Hp), trim_quoted, unquote_quoted.
  cbn [current currentStep finished].
  destruct (firstGroup DESCRIPTION_LINE ("      prompt: " ++ quoted p)); destruct cur;
    reflexivity.
Qed.

Lemma read_step (f : list ChainDef) (c : ChainDef) (pending : option ChainStep)
    (s : ChainStep) :
  stepOk s = true ->
  fold_left readLine (stepLines s)
            {| finished := f; current := Some c; currentStep := pending |}
  = {| finished := f; current := Some (flush c pending);
       currentStep := Some (decodedStep s) |}.
Proof.
  unfold stepOk. rewrite andb_true_iff. intros [Ha Hp].
  cbn [stepLines fold_left]. rewrite (read_agent f c pending _ Ha).
  now rewrite (read_prompt f _ _ _ Hp).
Qed.

Lemma read_steps (ss : list ChainStep) :
  forall (f : list ChainDef) (c : ChainDef) (pending : option ChainStep),
    forallb stepOk ss = true ->
    exists c' pending',
      fold_left readLine (flat_map stepLines ss)
                {| finished := f; current := Some c; currentStep := pending |}
      = {| finished := f; current := Some c'; currentStep := pending' |}
      /\ chainName (flush c' pending') = chainName c
      /\ chainDescription (flush c' pending') = chainDescription c
      /\ steps (flush c' pending')
         = (steps (flush c pending) ++ map decodedStep ss)%list.
Proof.
  induction ss as [|s ss IH]; intros f c pending Hok.
  - exists c, pending. cbn [flat_map fold_left map]. rewrite app_nil_r.
    repeat split; now destruct pending.
  - cbn [forallb] in Hok. apply andb_true_iff in Hok. destruct Hok as [Hs Hok].
    cbn [flat_map]. rewrite fold_left_app, (read_step f c pending s Hs).
    destruct (IH f (flush c pending) (Some (decodedStep s)) Hok)
      as [c' [pending' [Hfold [Hn [Hd Hst]]]]].
    exists c', pending'. split; [exact Hfold|].
    split; [rewrite Hn; now destruct pending|].
    split; [rewrite Hd; now destruct pending|].
    rewrite Hst. cbn [flush pushStep steps map]. now rewrite <- app_assoc.
Qed.

Lemma read_chain (ch : ChainDef) (r : Reader) :
  chainOk ch = true -> (current r = None -> currentStep r = None) ->
  current (fold_left readLine (chainLines ch) r) <> None
  /\ readSoFar (fold_left readLine (chainLines ch) r)
     = (readSoFar r ++ [decoded ch])%list.
Proof.
  unfold chainOk. rewrite !andb_true_iff. intros [[Hn Hd] Hss] Hwf.
  unfold chainLines. cbn [fold_left].
  rewrite (read_header r _ Hn Hwf), (read_description _ _ _ Hd). cbn [chainName steps].
  rewrite read_steps_label.
  destruct (read_steps (steps ch) (readSoFar r)
              {| chainName := chainName ch; chainDescription := chainDescription ch;
                 steps := [] |} None Hss)
    as [c' [pending' [Hfold [Hname [Hdesc Hsteps]]]]].
  rewrite Hfold. cbn [current]. split; [discriminate|].
  unfold readSoFar at 1. cbn [finished current currentStep]. f_equal. f_equal.
  cbn [chainName chainDescription flush steps app] in Hname, Hdesc, Hsteps.
  unfold decoded. destruct (flush c' pending') as [n d st].
  cbn [chainName chainDescription steps] in Hname, Hdesc, Hsteps. now subst.
Qed.

Lemma read_chains (chains : list ChainDef) :
  forall r,
    forallb chainOk chains = true -> (current r = None -> currentStep r = None) ->
    readSoFar (fold_left readLine (flat_map chainLines chains) r)
    = (readSoFar r ++ map decoded chains)%list.
Proof.
  induction chains as [|ch chains IH]; intros r Hok Hwf.
  - cbn [flat_map fold_left map]. now rewrite app_nil_r.
  - cbn [forallb] in Hok. apply andb_true_iff in Hok. destruct Hok as [Hch Hok].
    cbn [flat_map map]. rewrite fold_left_app.
    destruct (read_chain ch r Hch Hwf) as [Hcur Hread].
    rewrite IH; [| exact Hok | intros E; now elim Hcur].
    rewrite Hread. now rewrite <- app_assoc.
Qed.

Lemma chainLines_no_newline (ch : ChainDef) (x : string) :
  chainOk ch = true -> In x (chainLines ch) -> indexOf newline_char x = None.
Proof.
  unfold chainOk. rewrite !andb_true_iff. intros [[Hn Hd] Hss].
  unfold chainLines. intros [<-|[<-|[<-|Hin]]].
  - destruct (chainName ch) as [|c t] eqn:E; [discriminate|].
    unfold nameOk in Hn. rewrite !andb_true_iff in Hn. destruct Hn as [_ Hnl].
    apply indexOf_app_none; [now apply noChar_spec | reflexivity].
  - apply (indexOf_app_none _ "  description: "); [reflexivity|].
    apply oneLine_no_newline, oneLine_quoted, Hd.
  - reflexivity.
  - apply in_flat_map in Hin. destruct Hin as [s [Hs Hx]].
    rewrite forallb_forall in Hss. specialize (Hss s Hs).
    unfold stepOk in Hss. rewrite andb_true_iff in Hss. destruct Hss as [Ha Hp].
    destruct Hx as [<-|[<-|[]]].
    + apply (indexOf_app_none _ "    - agent: "); [reflexivity|].
      apply oneLine_no_newline, agentOk_oneLine, Ha.
    + apply (indexOf_app_none _ "      prompt: "); [reflexivity|].
      apply oneLine_no_newline, oneLine_quoted, Hp.
Qed.

(** X20.  A chain file written in the usual way is read back as written:
    for chains whose names hold no colon, whose agent names and names are
    on one line without whitespace at their ends, and whose descriptions
    and prompts are on one line, the file that gives each chain its name
    line, its quoted description, the steps label and for each step the
    agent line and the quoted prompt is parsed by [parseChainYaml] into
    these very chains, in order, with every backslash-n of a prompt turned
    into a newline. *)
Theorem parseChainYaml_round_trip (chains : list ChainDef) :
  forallb chainOk chains = true ->
  parseChainYaml (chainFileOf chains) = map decoded chains.
Proof.
  intros Hok. unfold parseChainYaml, chainFileOf.
  assert (Hend : forall r,
             match current r, currentStep r with
             | Some c, Some s => (finished r ++ [pushStep c s])%list
             | _, _ => chainsOf r
             end = readSoFar r).
  { intros [f [c|] [s|]]; reflexivity. }
  rewrite Hend.
  destruct (flat_map chainLines chains) as [|l ls] eqn:El.
  - destruct chains as [|ch chains]; [reflexivity | discriminate].
  - rewrite split_join_lines.
    + rewrite <- El. now rewrite read_chains.
    + intros x Hx. rewrite <- El in Hx. apply in_flat_map in Hx.
      destruct Hx as [ch [Hch Hx]]. rewrite forallb_forall in Hok.
      apply (chainLines_no_newline ch x); [now apply Hok | exact Hx].
Qed.

(** A file with one chain of two steps. *)
Lemma parseChainYaml_plan_build :
  parseChainYaml
    ("plan-build:" ++ nl ++
     "  description: " ++ dquote ++ "Plan, then build" ++ dquote ++ nl ++
     "  steps:" ++ nl ++
     "    - agent: planner" ++ nl ++
     "      prompt: " ++ dquote ++ "Plan: $INPUT\nBe brief" ++ dquote ++ nl ++
     "    - agent: builder" ++ nl ++
     "      prompt: " ++ dquote ++ "Build: $INPUT" ++ dquote)
  = [ {| chainName := "plan-build"; chainDescription := "Plan, then build";
         steps := [ {| agent := "planner"; prompt := "Plan: $INPUT" ++ nl ++ "Be brief" |};
                    {| agent := "builder"; prompt := "Build: $INPUT" |} ] |} ].
Proof.
  exact (parseChainYaml_round_trip
           [ {| chainName := "plan-build"; chainDescription := "Plan, then build";
                steps := [ {| agent := "planner"; prompt := "Plan: $INPUT\nBe brief" |};
                           {| agent := "builder"; prompt := "Build: $INPUT" |} ] |} ]
           eq_refl).
Defined.

End ChainYamlProofs.

Module TeamsYamlProofs.
Import JS Regex Facts Notions SplitProofs StreamProofs NameProofs ObjectProofs
       FrontmatterDefs FrontmatterProofs ChainYaml ChainYamlDefs ChainYamlProofs
       TeamsYaml TeamsYamlDefs.

Lemma team_header_line (n : string) :
  nameOk n = true -> firstGroup TEAM_HEADER (n ++ ":") = Some n.
Proof. exact (header_line n). Qed.

Lemma indented_no_team (t : string) : firstGroup TEAM_HEADER (String " " t) = None.
Proof. exact (indented_no_header t). Qed.

Lemma member_line (a : string) :
  agentOk a = true -> firstGroup MEMBER_LINE ("  - " ++ a) = Some a.
Proof.
  intros Ha. destruct a as [|c t]; [discriminate|].
  unfold agentOk in Ha. rewrite !andb_true_iff in Ha. destruct Ha as [[Hc _] Hline].
  apply (firstGroup_some _ _ _ (lastChar (Some " "%char) (String c t)) "").
  unfold matchHere, MEMBER_LINE. cbn [seqs].
  change (m noFlags (Seq Bol ?r) ?s Some)
    with (if atLineStart noFlags s then m noFlags r s Some else None).
  cbn [atLineStart prev].
  apply (spaces_ok _ " " " " ("- " ++ String c t)); [reflexivity | reflexivity |].
  cbn [String.append]. rewrite char_ok.
  apply (spaces_ok _ " " "" (String c t)); [reflexivity | exact Hc |].
  rewrite content_end by exact Hline. reflexivity.
Qed.

Lemma read_members (n : string) (ms : list string) :
  forall (o : list (string * list string)) (acc : list string),
    n <> "" -> forallb agentOk ms = true ->
    fold_left readLine (map (fun member => "  - " ++ member) ms)
              {| teams := oset o n acc; current := Some n |}
    = {| teams := oset o n (acc ++ ms)%list; current := Some n |}.
Proof.
  induction ms as [|a ms IH]; intros o acc Hne Hok; cbn [map fold_left].
  - now rewrite app_nil_r.
  - cbn [forallb] in Hok. apply andb_true_iff in Hok. destruct Hok as [Ha Hok].
    assert (Hline : readLine {| teams := oset o n acc; current := Some n |} ("  - " ++ a)
                    = {| teams := oset o n (acc ++ [a])%list; current := Some n |}).
    { unfold readLine.
      change ("  - " ++ a) with (String " " (" - " ++ a)) at 1.
      rewrite indented_no_team, (member_line a Ha), (agentOk_trim a Ha).
      cbn [teams current]. destruct n as [|c t]; [now elim Hne|]. cbn [truthy].
      change (get String.eqb (oset o (String c t) acc) (String c t))
        with (oget (oset o (String c t) acc) (String c t)).
      rewrite oget_oset, String.eqb_refl. now rewrite set_oset. }
    rewrite Hline, (IH o (acc ++ [a])%list Hne Hok). now rewrite <- app_assoc.
Qed.

Lemma read_team (t : string * list string) (o : list (string * list string))
    (cur : option string) :
  teamOk t = true ->
  fold_left readLine (teamLines t) {| teams := o; current := cur |}
  = {| teams := oset o (fst t) (snd t); current := Some (fst t) |}.
Proof.
  destruct t as [n ms]. unfold teamOk. cbn [fst snd]. rewrite !andb_true_iff.
  intros [[Hn Hproto] Hms]. apply negb_true_iff in Hproto.
  unfold teamLines. cbn [fst snd fold_left].
  assert (Hhead : readLine {| teams := o; current := cur |} (n ++ ":")
                  = {| teams := oset o n []; current := Some n |}).
  { unfold readLine. now rewrite (team_header_line n Hn), (nameOk_trim n Hn), Hproto. }
  rewrite Hhead. apply read_members; [|exact Hms].
  destruct n; [discriminate | discriminate].
Qed.

Lemma read_teams (new : list (string * list string)) :
  forall (o : list (string * list string)) (cur : option string),
    forallb teamOk new = true ->
    teams (fold_left readLine (flat_map teamLines new) {| teams := o; current := cur |})
    = fold_left (fun o t => oset o (fst t) (snd t)) new o.
Proof.
  induction new as [|t new IH]; intros o cur Hok; [reflexivity|].
  cbn [forallb] in Hok. apply andb_true_iff in Hok. destruct Hok as [Ht Hok].
  cbn [flat_map fold_left]. rewrite fold_left_app, (read_team t o cur Ht).
  now apply IH.
Qed.

Lemma teamLines_no_newline (t : string * list string) (x : string) :
  teamOk t = true -> In x (teamLines t) -> indexOf newline_char x = None.
Proof.
  destruct t as [n ms]. unfold teamOk. cbn [fst snd]. rewrite !andb_true_iff.
  intros [[Hn _] Hms]. unfold teamLines. cbn [fst snd]. intros [<-|Hin].
  - destruct n as [|c t]; [discriminate|].
    unfold nameOk in Hn. rewrite !andb_true_iff in Hn. destruct Hn as [_ Hnl].
    apply indexOf_app_none; [now apply noChar_spec | reflexivity].
  - apply in_map_iff in Hin. destruct Hin as [a [<- Ha]].
    rewrite forallb_forall in Hms.
    apply (indexOf_app_none _ "  - "); [reflexivity|].
    apply oneLine_no_newline, agentOk_oneLine, Hms, Ha.
Qed.

(** X21.  A teams file written in the usual way is read back as written:
    for teams with names that hold no colon, each on its own line followed
    by a colon and by one line [  - member] for each member,
    [parseTeamsYaml] returns the object that results from assigning the
    teams in order.  With distinct names that object holds under each name
    the members written for it, and it lists the teams in the order written
    when, besides, no name is an array index (names such as 9 and 10 are
    listed first, in ascending order, so that the first team of the object,
    which the extension activates at the start of a session, need not be
    the first of the file). *)
Theorem parseTeamsYaml_round_trip (ts : list (string * list string)) :
  forallb teamOk ts = true ->
  parseTeamsYaml (teamsFileOf ts) = assigned ts
  /\ (NoDup (keys ts) -> forall name, oget (assigned ts) name = oget ts name)
  /\ (NoDup (keys ts) -> forallb (fun t => plainKey (fst t)) ts = true ->
      assigned ts = ts).
Proof.
  intros Hok.
  split; [|split; [intros Hnd k; now apply assigned_lookup | exact (assigned_plain ts)]].
  unfold parseTeamsYaml, teamsFileOf.
  destruct (flat_map teamLines ts) as [|l ls] eqn:El.
  - destruct ts as [|t ts]; [reflexivity | discriminate].
  - rewrite split_join_lines.
    + rewrite <- El. now rewrite (read_teams ts [] None Hok).
    + intros x Hx. rewrite <- El in Hx. apply in_flat_map in Hx.
      destruct Hx as [t [Ht Hx]]. rewrite forallb_forall in Hok.
      apply (teamLines_no_newline t x); [now apply Hok | exact Hx].
Qed.

(** A file with two teams, and a file whose team names are array
    indices. *)
Lemma parseTeamsYaml_two_teams :
  parseTeamsYaml
    ("full:" ++ nl ++ "  - scout" ++ nl ++ "  - builder" ++ nl ++
     "review only:" ++ nl ++ "  - reviewer")
  = [("full", ["scout"; "builder"]); ("review only", ["reviewer"])]
  /\ parseTeamsYaml ("10:" ++ nl ++ "  - scout" ++ nl ++ "9:" ++ nl ++ "  - builder")
     = [("9", ["builder"]); ("10", ["scout"])].
Proof.
  split.
  - exact (proj1 (parseTeamsYaml_round_trip
                    [("full", ["scout"; "builder"]); ("review only", ["reviewer"])]
                    eq_refl)).
  - exact (proj1 (parseTeamsYaml_round_trip [("10", ["scout"]); ("9", ["builder"])]
                    eq_refl)).
Defined.

End TeamsYamlProofs.

Module PoolAttendedProofs.
Import JS Regex Json Facts Invariants SubagentWidget PoolDefs PoolAttendedDefs
       TeamProofs PoolProofs PoolLiveProofs.

Section WithHost.
Context {H : Host}.

(** A state object put aside the others, before its child is spawned. *)
Lemma pool_attended_new_state (w : World) (addr : nat) (st : SubState) promptText ctxModel now
    (w1 : World) :
  PoolLive w -> PoolAttended w ->
  procs w1 = procs w -> nextPid w1 = nextPid w ->
  (forall b, b <> addr -> stateAt w1 b = stateAt w b) ->
  PoolAttended (spawnAgent w1 addr st promptText ctxModel now).
Proof.
  intros Hlive Hatt Hp Hn Hother b s. unfold spawnAgent, stateAt. cbn [heap procs].
  rewrite nget_set. destruct (Nat.eqb addr b) eqn:E.
  - apply Nat.eqb_eq in E. subst b. intros _ _.
    exists (nextPid w1). eexists. rewrite nget_set, Nat.eqb_refl. split; reflexivity.
  - apply Nat.eqb_neq in E. intros Hs Hr.
    change (get Nat.eqb (heap w1) b) with (stateAt w1 b) in Hs.
    rewrite (Hother b) in Hs by congruence.
    destruct (Hatt b s Hs Hr) as [pid [p [Hg Ho]]].
    exists pid, p. split; [|exact Ho]. rewrite nget_set, Hp, Hn.
    destruct (Nat.eqb (nextPid w) pid) eqn:E'; [|exact Hg].
    apply Nat.eqb_eq in E'. destruct (live_proc_bound w Hlive pid p Hg). lia.
Qed.

Lemma pool_attended_create (w : World) taskText ctxModel now :
  PoolLive w -> PoolAttended w -> PoolAttended (fst (create w taskText ctxModel now)).
Proof.
  intros Hlive Hatt. unfold create. cbn [fst].
  apply (pool_attended_new_state w); try assumption; try reflexivity.
  intros b Hb. unfold stateAt. cbn [heap]. rewrite nget_set.
  destruct (Nat.eqb (nextAddr w) b) eqn:E; [|reflexivity].
  apply Nat.eqb_eq in E. congruence.
Qed.

Lemma pool_attended_continue (w : World) n promptText ctxModel now :
  PoolLive w -> PoolAttended w ->
  PoolAttended (fst (subagent_continue w n promptText ctxModel now)).
Proof.
  intros Hlive Hatt. unfold subagent_continue.
  destruct (lookupState w n) as [[addr st]|]; [|exact Hatt].
  destruct (isRunning (status st)); [exact Hatt|]. cbn [fst].
  apply (pool_attended_new_state w); try assumption; reflexivity.
Qed.

Lemma pool_attended_map_only (w w' : World) :
  PoolAttended w -> heap w' = heap w -> procs w' = procs w -> PoolAttended w'.
Proof.
  intros Hatt Hh Hp b s. unfold stateAt. rewrite Hh, Hp. apply Hatt.
Qed.

Lemma pool_attended_remove (w : World) n :
  PoolAttended w -> PoolAttended (fst (subagent_remove w n)).
Proof.
  intros Hatt. unfold subagent_remove.
  destruct (lookupState w n) as [[addr st]|]; [|exact Hatt].
  now apply (pool_attended_map_only w).
Qed.

Lemma pool_attended_update (w : World) (a : nat) (st st' : SubState) (ps : list (nat * Proc)) :
  PoolAttended w -> stateAt w a = Some st -> status st' = status st ->
  (forall pid p, get Nat.eqb (procs w) pid = Some p ->
                 exists p', get Nat.eqb ps pid = Some p' /\ owner p' = owner p) ->
  PoolAttended (withHeapProcs w (set Nat.eqb (heap w) a st') ps).
Proof.
  intros Hatt Hst Hs Hps b s. unfold stateAt. cbn [heap procs withHeapProcs].
  rewrite nget_set. intros Hb Hr.
  assert (Hold : exists s0, stateAt w b = Some s0 /\ status s0 = running).
  { destruct (Nat.eqb a b) eqn:E.
    - apply Nat.eqb_eq in E. subst b. injection Hb as <-. exists st. split; congruence.
    - now exists s. }
  destruct Hold as [s0 [Hs0 Hr0]].
  destruct (Hatt b s0 Hs0 Hr0) as [pid [p [Hg Ho]]].
  destruct (Hps pid p Hg) as [p' [Hg' Ho']]. exists pid, p'. split; congruence.
Qed.

Lemma pool_attended_ended (w : World) (pid : nat) (p : Proc) (st' : SubState) (w' : World) :
  PoolAttended w -> get Nat.eqb (procs w) pid = Some p -> status st' <> running ->
  heap w' = set Nat.eqb (heap w) (owner p) st' ->
  procs w' = delete Nat.eqb (procs w) pid ->
  PoolAttended w'.
Proof.
  intros Hatt Hp Hs Hh Hps b s. unfold stateAt. rewrite Hh, Hps, nget_set.
  destruct (Nat.eqb (owner p) b) eqn:E.
  - intros [= <-] Hr. now elim Hs.
  - apply Nat.eqb_neq in E. intros Hb Hr.
    destruct (Hatt b s Hb Hr) as [q [pq [Hg Ho]]].
    exists q, pq. split; [|exact Ho].
    rewrite nget_delete_other; [exact Hg|]. intros ->. congruence.
Qed.

Lemma pool_attended_event (w : World) (pid : nat) (ev : ProcEvent) :
  PoolAttended w -> PoolAttended (onEvent w pid ev).
Proof.
  intros Hatt. unfold onEvent.
  destruct (get Nat.eqb (procs w) pid) as [p|] eqn:Hp; [|exact Hatt].
  destruct (stateAt w (owner p)) as [st|] eqn:Hst; [|exact Hatt].
  destruct ev as [chunk|chunk|now|code now|msg now].
  - destruct (unsnoc (split newline_char (buffer p ++ chunk))) as [[lines lastPiece]|];
      [|exact Hatt].
    apply (pool_attended_update w (owner p) st); [exact Hatt | exact Hst | |].
    + apply processLines_keep.
    + intros q pq Hq. rewrite nget_set. destruct (Nat.eqb pid q) eqn:E.
      * apply Nat.eqb_eq in E. subst q. eexists. split; [reflexivity|]. cbn [owner]. congruence.
      * now exists pq.
  - destruct (truthy (trim chunk)); [|exact Hatt].
    apply (pool_attended_update w (owner p) st); [exact Hatt | exact Hst | reflexivity |].
    intros q pq Hq. now exists pq.
  - apply (pool_attended_update w (owner p) st); [exact Hatt | exact Hst | reflexivity |].
    intros q pq Hq. now exists pq.
  - eapply (pool_attended_ended w pid p); [exact Hatt | exact Hp | | reflexivity | reflexivity].
    cbn [status]. now destruct (AgentTeam.isZeroCode code).
  - eapply (pool_attended_ended w pid p); [exact Hatt | exact Hp | | reflexivity | reflexivity].
    discriminate.
Qed.

Lemma pool_attended_step (w : World) (op : Op) :
  spawnThrows op = false ->
  PoolLive w -> PoolAttended w -> PoolAttended (fst (step w op)).
Proof.
  intros Hop Hlive Hatt. destruct op; try discriminate Hop; cbn [step fst]; try assumption.
  - destruct (create w taskText ctxModel now) as [w' n] eqn:E.
    change w' with (fst (w', n)). rewrite <- E. now apply pool_attended_create.
  - now apply pool_attended_continue.
  - now apply pool_attended_remove.
  - destruct (negb (truthy (trim argsText))); [exact Hatt|].
    destruct (create w (trim argsText) ctxModel now) as [w' n] eqn:E.
    change w' with (fst (w', n)). rewrite <- E. now apply pool_attended_create.
  - now apply pool_attended_continue.
  - now apply pool_attended_remove.
  - now apply pool_attended_event.
Qed.

Lemma pool_attended_run (ops : list Op) :
  forall w, forallb (fun op => negb (spawnThrows op)) ops = true ->
            PoolLive w -> PoolAttended w -> PoolAttended (fst (run w ops)).
Proof.
  induction ops as [|op ops IH]; intros w Hops Hlive Hatt; [exact Hatt|].
  cbn [forallb] in Hops. apply andb_true_iff in Hops. destruct Hops as [Hop Hops].
  apply negb_true_iff in Hop.
  rewrite run_cons. cbn [fst].
  apply IH; [exact Hops | now apply live_step | now apply pool_attended_step].
Qed.

Ltac other_address :=
  let b := fresh "b" in
  let Hb := fresh "Hb" in
  intros b Hb; apply Nat.eqb_neq in Hb; unfold stateAt;
  cbn [heap withHeapProcs]; repeat rewrite nget_set; rewrite ?Hb; reflexivity.

(** A state object that is marked running and that no child holds stays
    so: no operation writes it and no new child is given it. *)
Lemma unheld_write (w : World) (addr a : nat) (w' : World) :
  Unheld w addr -> a <> addr ->
  (forall b, a <> b -> stateAt w' b = stateAt w b) ->
  (forall pid p, get Nat.eqb (procs w') pid = Some p ->
                 owner p = a \/ exists p0, get Nat.eqb (procs w) pid = Some p0
                                           /\ owner p0 = owner p) ->
  Unheld w' addr.
Proof.
  intros [[st [Hst Hr]] Hfree] Hne Hh Hps. split.
  - exists st. split; [|exact Hr]. now rewrite (Hh addr Hne).
  - intros pid p Hg. destruct (Hps pid p Hg) as [->|[p0 [Hg0 Ho]]]; [exact Hne|].
    rewrite <- Ho. now apply (Hfree pid p0).
Qed.

Lemma unheld_same (w : World) (addr : nat) (w' : World) :
  Unheld w addr -> heap w' = heap w -> procs w' = procs w -> Unheld w' addr.
Proof. intros Hun Hh Hp. unfold Unheld, stateAt in *. now rewrite Hh, Hp. Qed.

Lemma unheld_create (w : World) (addr : nat) taskText ctxModel now :
  PoolLive w -> Unheld w addr -> Unheld (fst (create w taskText ctxModel now)) addr.
Proof.
  intros Hlive Hun. pose proof Hun as [[st [Hst Hr]] Hfree].
  destruct (live_heap_bound w Hlive addr st Hst) as [Hlt _].
  unfold create, spawnAgent. cbn [fst].
  apply (unheld_write w addr (nextAddr w)); [exact Hun | lia | |].
  - other_address.
  - cbn [procs nextPid]. intros pid p. rewrite nget_set.
    destruct (Nat.eqb (nextPid w) pid).
    + intros [= <-]. now left.
    + intros Hg. right. now exists p.
Qed.

Lemma unheld_continue (w : World) (addr : nat) n promptText ctxModel now :
  Unheld w addr -> Unheld (fst (subagent_continue w n promptText ctxModel now)) addr.
Proof.
  intros Hun. pose proof Hun as [[st [Hst Hr]] Hfree]. unfold subagent_continue.
  destruct (lookupState w n) as [[a s]|] eqn:El; [|exact Hun].
  destruct (isRunning (status s)) eqn:Er; [exact Hun|].
  apply pool_lookup_inv in El. destruct El as [_ Hs].
  assert (Hne : a <> addr).
  { intros ->. rewrite Hst in Hs. injection Hs as <-. rewrite Hr in Er. discriminate. }
  unfold spawnAgent. cbn [fst].
  eapply (unheld_write w addr a); [exact Hun | exact Hne | other_address |].
  cbn [procs nextPid]. intros pid p. rewrite nget_set.
  destruct (Nat.eqb (nextPid w) pid).
  - intros [= <-]. now left.
  - intros Hg. right. now exists p.
Qed.

Lemma unheld_createThrown (w : World) (addr : nat) taskText ctxModel now :
  PoolLive w -> Unheld w addr -> Unheld (fst (createThrown w taskText ctxModel now)) addr.
Proof.
  intros Hlive Hun. pose proof Hun as [[st [Hst Hr]] Hfree].
  destruct (live_heap_bound w Hlive addr st Hst) as [Hlt _].
  unfold createThrown, spawnThrown. cbn [fst].
  eapply (unheld_write w addr (nextAddr w)); [exact Hun | lia | other_address |].
  cbn [procs]. intros pid p Hg. right. now exists p.
Qed.

Lemma unheld_continueThrown (w : World) (addr : nat) n promptText ctxModel :
  Unheld w addr -> Unheld (fst (continueThrown w n promptText ctxModel)) addr.
Proof.
  intros Hun. pose proof Hun as [[st [Hst Hr]] Hfree]. unfold continueThrown.
  destruct (lookupState w n) as [[a s]|] eqn:El; [|exact Hun].
  destruct (isRunning (status s)) eqn:Er; [exact Hun|].
  apply pool_lookup_inv in El. destruct El as [_ Hs].
  assert (Hne : a <> addr).
  { intros ->. rewrite Hst in Hs. injection Hs as <-. rewrite Hr in Er. discriminate. }
  unfold spawnThrown. cbn [fst].
  eapply (unheld_write w addr a); [exact Hun | exact Hne | other_address |].
  cbn [procs]. intros pid p Hg. right. now exists p.
Qed.

Lemma unheld_event (w : World) (addr : nat) (pid : nat) (ev : ProcEvent) :
  PoolLive w -> Unheld w addr -> Unheld (onEvent w pid ev) addr.
Proof.
  intros Hlive Hun. pose proof Hun as [[st [Hst Hr]] Hfree]. unfold onEvent.
  destruct (get Nat.eqb (procs w) pid) as [p|] eqn:Hp; [|exact Hun].
  destruct (stateAt w (owner p)) as [s|] eqn:Hs; [|exact Hun].
  pose proof (Hfree pid p Hp) as Hne.
  pose proof (live_procs_nodup w Hlive) as Hnd.
  assert (Hdel : forall q pq, get Nat.eqb (delete Nat.eqb (procs w) pid) q = Some pq ->
                              owner pq = owner p
                              \/ exists p0, get Nat.eqb (procs w) q = Some p0
                                            /\ owner p0 = owner pq).
  { intros q pq Hq. apply nget_delete in Hq; [|exact Hnd]. right. exists pq. now split. }
  destruct ev as [chunk|chunk|now|code now|msg now].
  - destruct (unsnoc (split newline_char (buffer p ++ chunk))) as [[lines lastPiece]|];
      [|exact Hun].
    eapply (unheld_write w addr (owner p)); [exact Hun | exact Hne | other_address |].
    cbn [procs withHeapProcs]. intros q pq. rewrite nget_set.
    destruct (Nat.eqb pid q).
    + intros [= <-]. now left.
    + intros Hg. right. now exists pq.
  - destruct (truthy (trim chunk)); [|exact Hun].
    eapply (unheld_write w addr (owner p)); [exact Hun | exact Hne | other_address |].
    cbn [procs withHeapProcs]. intros q pq Hg. right. now exists pq.
  - eapply (unheld_write w addr (owner p)); [exact Hun | exact Hne | other_address |].
    cbn [procs withHeapProcs]. intros q pq Hg. right. now exists pq.
  - eapply (unheld_write w addr (owner p)); [exact Hun | exact Hne | other_address | exact Hdel].
  - eapply (unheld_write w addr (owner p)); [exact Hun | exact Hne | other_address | exact Hdel].
Qed.

Lemma unheld_step (w : World) (op : Op) (addr : nat) :
  PoolLive w -> Unheld w addr -> Unheld (fst (step w op)) addr.
Proof.
  intros Hlive Hun. destruct op; cbn [step fst]; try assumption.
  - destruct (create w taskText ctxModel now) as [w' n] eqn:E.
    change w' with (fst (w', n)). rewrite <- E. now apply unheld_create.
  - now apply unheld_continue.
  - unfold subagent_remove. destruct (lookupState w n) as [[a s]|]; [|exact Hun].
    now apply (unheld_same w).
  - destruct (negb (truthy (trim argsText))); [exact Hun|].
    destruct (create w (trim argsText) ctxModel now) as [w' n] eqn:E.
    change w' with (fst (w', n)). rewrite <- E. now apply unheld_create.
  - now apply unheld_continue.
  - unfold subagent_remove. destruct (lookupState w n) as [[a s]|]; [|exact Hun].
    now apply (unheld_same w).
  - now apply unheld_event.
  - destruct (createThrown w taskText ctxModel now) as [w' n] eqn:E.
    change w' with (fst (w', n)). rewrite <- E. now apply unheld_createThrown.
  - now apply unheld_continueThrown.
  - destruct (negb (truthy (trim argsText))); [exact Hun|].
    destruct (createThrown w (trim argsText) ctxModel now) as [w' n] eqn:E.
    change w' with (fst (w', n)). rewrite <- E. now apply unheld_createThrown.
  - now apply unheld_continueThrown.
Qed.

Lemma unheld_run (ops : list Op) :
  forall w addr, PoolLive w -> Unheld w addr -> Unheld (fst (run w ops)) addr.
Proof.
  induction ops as [|op ops IH]; intros w addr Hlive Hun; [exact Hun|].
  rewrite run_cons. cbn [fst]. apply IH; [now apply live_step | now apply unheld_step].
Qed.

(** Whether some child holds the state object at an address. *)
Lemma held_or_not (w : World) (addr : nat) :
  NoDup (keys (procs w)) ->
  (exists pid p, get Nat.eqb (procs w) pid = Some p /\ owner p = addr)
  \/ (forall pid p, get Nat.eqb (procs w) pid = Some p -> owner p <> addr).
Proof.
  intros Hnd.
  destruct (existsb (fun kp => Nat.eqb (owner (snd kp)) addr) (procs w)) eqn:E.
  - left. apply existsb_exists in E. destruct E as [[pid p] [Hin Ho]].
    apply Nat.eqb_eq in Ho. exists pid, p. split; [|exact Ho].
    now apply (In_get Nat.eqb Nat.eqb_eq).
  - right. intros pid p Hg Ho.
    apply (get_In Nat.eqb Nat.eqb_eq) in Hg.
    assert (Htrue : existsb (fun kp => Nat.eqb (owner (snd kp)) addr) (procs w) = true).
    { apply existsb_exists. exists (pid, p). split; [exact Hg|]. now apply Nat.eqb_eq. }
    congruence.
Qed.

(** X22.  A worker of the Pool that is marked running either has a child
    that will release it, or is stuck for good.  Starting from the Pool as
    the extension creates it, after any run of tool calls, commands, session
    starts and child events, the [spawn] of a call returning or throwing, a
    worker found under an identity carries that identity; if it is marked
    running (so that a continue on it is refused), then a child is alive
    whose handlers hold its state object and whose [close] takes it out of
    the running status, or no child holds it and it stays marked running
    whatever happens afterwards; and the first is the case when no [spawn]
    of the run threw. *)
Theorem pool_running_worker_has_child (dir : string) (ops : list Op)
    (n addr : nat) (st : SubState) :
  let w := fst (run (initial dir) ops) in
  lookupState w n = Some (addr, st) ->
  id st = n
  /\ (status st = running ->
      (exists pid p,
         get Nat.eqb (procs w) pid = Some p /\ owner p = addr
         /\ forall code now,
              exists st', stateAt (onEvent w pid (Close code now)) addr = Some st'
                          /\ status st' <> running)
      \/ ((forall pid p, get Nat.eqb (procs w) pid = Some p -> owner p <> addr)
          /\ forall more,
               exists st', stateAt (fst (run w more)) addr = Some st'
                           /\ status st' = running))
  /\ (forallb (fun op => negb (spawnThrows op)) ops = true ->
      status st = running ->
      exists pid p, get Nat.eqb (procs w) pid = Some p /\ owner p = addr).
Proof.
  intros w Hlook.
  assert (Hlive : PoolLive w) by (apply live_run, live_initial).
  destruct (pool_lookup_inv w n addr st Hlook) as [Hag Hst].
  split; [|split].
  - destruct (live_agents w Hlive n addr Hag) as [_ [st0 [Hst0 Hid]]]. congruence.
  - intros Hrun.
    destruct (held_or_not w addr (live_procs_nodup w Hlive)) as [[pid [p [Hp Ho]]]|Hfree].
    + left. exists pid, p. split; [exact Hp|]. split; [exact Ho|].
      intros code now. unfold onEvent. rewrite Hp, Ho, Hst.
      eexists. unfold stateAt. cbn [heap]. rewrite nget_set, Nat.eqb_refl.
      split; [reflexivity|]. cbn [status]. now destruct (AgentTeam.isZeroCode code).
    + right. split; [exact Hfree|]. intros more.
      assert (Hun : Unheld w addr) by (split; [now exists st | exact Hfree]).
      exact (proj1 (unheld_run more w addr Hlive Hun)).
  - intros Hops Hrun.
    assert (Hatt : PoolAttended w).
    { apply pool_attended_run; [exact Hops | apply live_initial |].
      intros b s. unfold stateAt. cbn. discriminate. }
    exact (Hatt addr st Hst Hrun).
Qed.

End WithHost.

(** A worker that runs has its child. *)
Lemma pool_running_worker_example :
  let w := fst (SubagentWidget.run (H := Fixture.host) (initial "/subagents")
                  [Create "first task" None 5; Event 0 (StdoutData "D:half")]) in
  exists pid p,
    get Nat.eqb (procs w) pid = Some p /\ owner p = 0.
Proof.
  cbv zeta.
  destruct (pool_running_worker_has_child (H := Fixture.host) "/subagents"
              [Create "first task" None 5; Event 0 (StdoutData "D:half")] 1 0
              {| id := 1; status := running; task := "first task"; textChunks := [];
                 toolCount := 0; elapsed := 0;
                 sessionFile := "/subagents/subagent-1-5.jsonl";
                 turnCount := 1; proc := Some 0 |} eq_refl)
    as [_ [_ Hchild]].
  exact (Hchild eq_refl eq_refl).
Defined.

(** A create whose [spawn] throws: the worker is marked running, it has no
    child, and a continue on it is refused. *)
Lemma pool_thrown_create_example :
  let w := fst (SubagentWidget.run (H := Fixture.host) (initial "/subagents")
                  [CreateThrows "first task" None 5]) in
  procs w = []
  /\ lookupState w 1
     = Some (0, {| id := 1; status := running; task := "first task"; textChunks := [];
                   toolCount := 0; elapsed := 0;
                   sessionFile := "/subagents/subagent-1-5.jsonl";
                   turnCount := 1; proc := None |})
  /\ snd (subagent_continue (H := Fixture.host) w 1 "go on" None 9)
     = "Error: Subagent #1 is still running.".
Proof. repeat split. Qed.

End PoolAttendedProofs.

Module TeamStreamProofs.
Import JS Regex Json Facts AgentTeam TeamProofs StreamProofs.

Section WithHost.
Context {H : Host}.



End WithHost.


End TeamStreamProofs.

Module RosterExactProofs.
Import JS Regex Json Facts AgentTeam RosterDefs TeamProofs RosterProofs.

Section WithHost.
Context {H : Host}.

Lemma defsByName_complete (defs : list AgentLoader.AgentDef) :
  forall acc k,
    (get String.eqb acc k <> None
     \/ exists d, In d defs /\ toLowerCase (AgentLoader.name d) = k) ->
    get String.eqb
        (fold_left (fun acc d => set String.eqb acc (toLowerCase (AgentLoader.name d)) d)
                   defs acc) k <> None.
Proof.
  induction defs as [|d0 defs IH]; intros acc k Hk; cbn [fold_left].
  - destruct Hk as [Hk|[d [[] _]]]. exact Hk.
  - apply IH. rewrite (get_set String.eqb String.eqb_eq).
    destruct (String.eqb (toLowerCase (AgentLoader.name d0)) k) eqn:E; [left; discriminate|].
    destruct Hk as [Hk|[d [[<-|Hin] Hd]]].
    + now left.
    + rewrite Hd, String.eqb_refl in E. discriminate.
    + right. now exists d.
Qed.

(** The keys of the roster while [activateTeam] adds the members. *)
Lemma addMembers_keys (defsByName : list (string * AgentLoader.AgentDef)) :
  (forall k d, get String.eqb defsByName k = Some d -> toLowerCase (AgentLoader.name d) = k) ->
  forall (members : list string) (w : World) (key : string),
    get String.eqb (agentStates (fold_left (addMember defsByName) members w)) key <> None
    <-> (get String.eqb (agentStates w) key <> None
         \/ exists member, In member members /\ toLowerCase member = key
                           /\ get String.eqb defsByName key <> None).
Proof.
  intros Hdefs. induction members as [|mb members IH]; intros w key; cbn [fold_left].
  - split; [now left | intros [Hk|[mb [[] _]]]; exact Hk].
  - rewrite IH. unfold addMember.
    destruct (get String.eqb defsByName (toLowerCase mb)) as [d|] eqn:Ed.
    + cbn [agentStates]. rewrite (get_set String.eqb String.eqb_eq).
      rewrite (Hdefs _ _ Ed).
      destruct (String.eqb (toLowerCase mb) key) eqn:E.
      * apply String.eqb_eq in E. split; intros _.
        -- right. exists mb. split; [now left|]. split; [exact E|]. rewrite <- E, Ed. discriminate.
        -- left. discriminate.
      * apply String.eqb_neq in E. split.
        -- intros [Hk|[m [Hin [Hm Hg]]]]; [now left|].
           right. exists m. split; [now right | now split].
        -- intros [Hk|[m [[<-|Hin] [Hm Hg]]]]; [now left | congruence |].
           right. now exists m.
    + split.
      * intros [Hk|[m [Hin [Hm Hg]]]]; [now left|].
        right. exists m. split; [now right | now split].
      * intros [Hk|[m [[<-|Hin] [Hm Hg]]]]; [now left | | right; now exists m].
        rewrite Hm in Ed. congruence.
Qed.

(** X24.  The roster after an activation is exactly the team's members
    that have a loaded definition: a key stands in the roster when, and
    only when, it is the lowercased name of a member of the team and of a
    loaded definition; a member without definition is skipped, and upper
    and lower case make no difference. *)
Theorem activateTeam_roster_exact (w : World) (teamName : string) (members : list string)
    (key : string) :
  get String.eqb (teams w) teamName = Some members ->
  (exists addr st, lookupState (activateTeam w teamName) key = Some (addr, st))
  <-> (exists member d,
         In member members /\ toLowerCase member = key
         /\ In d (allAgentDefs w) /\ toLowerCase (AgentLoader.name d) = key).
Proof.
  intros Hteam.
  assert (Hmapped : (exists addr st, lookupState (activateTeam w teamName) key = Some (addr, st))
                    <-> get String.eqb (agentStates (activateTeam w teamName)) key <> None).
  { destruct (activateTeam_fresh w teamName) as [_ [_ [_ [_ Hroster]]]].
    unfold lookupState. split.
    - intros [addr [st Hl]].
      destruct (get String.eqb (agentStates (activateTeam w teamName)) key); congruence.
    - intros Hk.
      destruct (get String.eqb (agentStates (activateTeam w teamName)) key) as [addr|] eqn:E;
        [|congruence].
      destruct (Hroster key addr E) as [_ [st [Hst _]]]. exists addr, st. now rewrite Hst. }
  rewrite Hmapped. unfold activateTeam. rewrite Hteam.
  set (defsByName := fold_left _ (allAgentDefs w) []).
  assert (Hsound : forall k d, get String.eqb defsByName k = Some d ->
                               In d (allAgentDefs w) /\ toLowerCase (AgentLoader.name d) = k).
  { intros k d Hg. apply defsByName_sound in Hg. destruct Hg as [Hg|Hg]; [exact Hg|discriminate]. }
  rewrite (addMembers_keys defsByName (fun k d Hg => proj2 (Hsound k d Hg))).
  cbn [agentStates get]. split.
  - intros [Hk|[member [Hin [Hm Hg]]]]; [congruence|].
    destruct (get String.eqb defsByName key) as [d|] eqn:Ed; [|congruence].
    destruct (Hsound key d Ed) as [Hd Hname]. now exists member, d.
  - intros [member [d [Hin [Hm [Hd Hname]]]]]. right. exists member.
    split; [exact Hin|]. split; [exact Hm|].
    apply defsByName_complete. right. now exists d.
Qed.

End WithHost.

(** The team of the examples: its one member is in the roster. *)
Lemma activateTeam_scout_listed :
  exists addr st,
    lookupState (activateTeam (H := Fixture.host) Fixture.team0 "all") "scout" = Some (addr, st).
Proof.
  apply (proj2 (activateTeam_roster_exact (H := Fixture.host) Fixture.team0 "all" ["scout"]
                  "scout" eq_refl)).
  exists "scout", Fixture.scout. repeat split. now left. now left.
Defined.

End RosterExactProofs.

Module TeamLoaderProofs.
Import JS Regex Json Facts AgentLoader AgentTeam TeamLoader TeamLoaderDefs
       ScanDefs ScanProofs.

Lemma get_app_orElse {V : Type} (a b : list (string * V)) (k : string) :
  get String.eqb (a ++ b) k = orElse (get String.eqb a k) (get String.eqb b k).
Proof.
  induction a as [|[k' v] a IH]; cbn [app get orElse]; [reflexivity|].
  destruct (String.eqb k' k); [reflexivity | exact IH].
Qed.

Lemma inList_keys (k : string) (defs : list AgentDef) :
  inList k (keys (byKey defs)) = true <-> get String.eqb (byKey defs) k <> None.
Proof.
  unfold inList. rewrite existsb_exists. induction defs as [|d defs IH]; cbn [byKey map keys get fst].
  - split; [intros [x [[] _]] | congruence].
  - destruct (String.eqb_spec (toLowerCase (name d)) k) as [E|E].
    + split; [discriminate|]. intros _. exists (toLowerCase (name d)).
      split; [now left|]. rewrite E. apply String.eqb_refl.
    + fold (byKey defs). fold (keys (byKey defs)). rewrite <- IH. split.
      * intros [x [[<-|Hin] Hx]]; [apply String.eqb_eq in Hx; congruence|]. now exists x.
      * intros [x [Hin Hx]]. exists x. split; [now right | exact Hx].
Qed.

Lemma nodup_snoc {A : Type} (l : list A) (x : A) :
  NoDup l -> ~ In x l -> NoDup (l ++ [x]).
Proof.
  induction l as [|a l IH]; intros Hnd Hx; cbn [app].
  - constructor; [intros [] | constructor].
  - inversion Hnd as [|? ? Ha Hl]; subst. constructor.
    + intros Hin. apply in_app_or in Hin. destruct Hin as [Hin|[<-|[]]]; [now apply Ha|].
      apply Hx. now left.
    + apply IH; [exact Hl|]. intros Hin. apply Hx. now right.
Qed.

(** The inner loop keeps [seen] the keys of the definitions, adds no key
    twice and lets the first entry under a key win. *)
Lemma addNew_fold (entries : list (string * AgentDef)) :
  (forall k d, In (k, d) entries -> toLowerCase (name d) = k) ->
  forall defs,
    NoDup (keys (byKey defs)) ->
    let acc := fold_left addNew entries (keys (byKey defs), defs) in
    fst acc = keys (byKey (snd acc))
    /\ NoDup (keys (byKey (snd acc)))
    /\ forall k, get String.eqb (byKey (snd acc)) k
                 = orElse (get String.eqb (byKey defs) k) (get String.eqb entries k).
Proof.
  induction entries as [|[k0 d0] entries IH]; intros Hkeys defs Hnd; cbv zeta;
    cbn [fold_left].
  - cbn [fst snd]. split; [reflexivity|]. split; [exact Hnd|]. intros k. cbn [get].
    now destruct (get String.eqb (byKey defs) k).
  - assert (Hk0 : toLowerCase (name d0) = k0) by (apply Hkeys; now left).
    assert (Hrest : forall k d, In (k, d) entries -> toLowerCase (name d) = k).
    { intros k d Hin. apply Hkeys. now right. }
    assert (Hstep : addNew (keys (byKey defs), defs) (k0, d0)
                    = if negb (inList k0 (keys (byKey defs)))
                      then ((keys (byKey defs) ++ [k0])%list, (defs ++ [d0])%list)
                      else (keys (byKey defs), defs)) by reflexivity.
    rewrite Hstep. clear Hstep.
    destruct (inList k0 (keys (byKey defs))) eqn:Eseen; cbn [negb].
    + destruct (IH Hrest defs Hnd) as [Hs [Hn Hg]].
      split; [exact Hs|]. split; [exact Hn|]. intros k. rewrite Hg. cbn [get].
      destruct (get String.eqb (byKey defs) k) as [d|] eqn:Ed; [reflexivity|]. cbn [orElse].
      destruct (String.eqb_spec k0 k) as [->|]; [|reflexivity].
      apply inList_keys in Eseen. congruence.
    + assert (Hfresh : ~ In k0 (keys (byKey defs))).
      { intros Hin. apply (proj2 (inList_In k0 (keys (byKey defs)))) in Hin. congruence. }
      assert (Hsnoc : byKey (defs ++ [d0]) = (byKey defs ++ [(k0, d0)])%list).
      { unfold byKey. rewrite map_app. cbn [map]. now rewrite Hk0. }
      assert (Hkeys' : (keys (byKey defs) ++ [k0])%list = keys (byKey (defs ++ [d0]))).
      { rewrite Hsnoc. unfold keys. rewrite map_app. reflexivity. }
      rewrite Hkeys'.
      destruct (IH Hrest (defs ++ [d0])%list) as [Hs [Hn Hg]].
      { rewrite <- Hkeys'. apply nodup_snoc; assumption. }
      split; [exact Hs|]. split; [exact Hn|]. intros k. rewrite Hg, Hsnoc, get_app_orElse.
      cbn [get]. destruct (get String.eqb (byKey defs) k); [reflexivity|]. cbn [orElse].
      now destruct (String.eqb k0 k).
Qed.

Section Host.
Context {H : Host}.
Variable readFileSync : string -> string + string.
Variable basename : string -> string -> string.
Variable readdirSync : string -> option (list string).
Variable resolve : string -> string -> string.
Variable mkdirSync : string -> bool.

(** Every entry of a scan stands under the lowercased name of its
    definition. *)
Lemma scan_entry_key (dir k : string) (d : AgentDef) :
  In (k, d) (fst (scanAgentDirectory readFileSync basename existsSync readdirSync resolve dir)) ->
  toLowerCase (name d) = k.
Proof.
  unfold scanAgentDirectory. destruct (negb (existsSync dir)); [intros []|].
  destruct (readdirSync dir) as [files|]; [|intros []].
  intros Hin.
  assert (Hnd : NoDup (keys (fst (fold_left (scanFile readFileSync basename resolve dir)
                                            files ([], []))))).
  { apply scan_nodup. constructor. }
  apply (In_get String.eqb String.eqb_eq _ _ _ Hnd) in Hin.
  rewrite scan_lookup in Hin. cbn [fst get] in Hin.
  now apply first_sound in Hin.
Qed.

Lemma addNew_scan (dir : string) (defs : list AgentDef) :
  NoDup (keys (byKey defs)) ->
  exists defs',
    fold_left addNew
      (fst (scanAgentDirectory readFileSync basename existsSync readdirSync resolve dir))
      (keys (byKey defs), defs)
    = (keys (byKey defs'), defs')
    /\ NoDup (keys (byKey defs'))
    /\ forall k,
         get String.eqb (byKey defs') k
         = orElse (get String.eqb (byKey defs) k)
                  (get String.eqb
                     (fst (scanAgentDirectory readFileSync basename existsSync readdirSync
                             resolve dir)) k).
Proof.
  intros Hnd.
  destruct (addNew_fold
              (fst (scanAgentDirectory readFileSync basename existsSync readdirSync resolve dir))
              (scan_entry_key dir) defs Hnd) as [Hs [Hn Hg]].
  exists (snd (fold_left addNew
                 (fst (scanAgentDirectory readFileSync basename existsSync readdirSync
                         resolve dir))
                 (keys (byKey defs), defs))).
  split; [|now split].
  rewrite <- Hs. now destruct (fold_left addNew _ _).
Qed.

(** X25.  [loadAgents] lets the first directory win: unless creating the
    session directory throws, the loaded definitions have distinct
    lowercased names, and the definition under a name is the one the scan
    of [agents] found, else the one of [.claude/agents], else the one of
    [.pi/agents]; there is always at least one team, and without a teams
    file, or with one that cannot be read or defines no team, the only team
    is [all] with every loaded definition; the roster and the running
    children are left as they are.  When creating the session directory
    throws, only the session directory variable has changed. *)
Theorem loadAgents_first_directory_wins (w : World) (cwd : string) :
  let r := loadAgents readFileSync basename readdirSync resolve mkdirSync w cwd in
  let scanOf := fun dir =>
    fst (scanAgentDirectory readFileSync basename existsSync readdirSync resolve dir) in
  let teamsPath := pathJoin (pathJoin (pathJoin cwd ".pi") "agents") "teams.yaml" in
  sessionDir (world r) = pathJoin (pathJoin cwd ".pi") "agent-sessions"
  /\ agentStates (world r) = agentStates w /\ heap (world r) = heap w
  /\ procs (world r) = procs w /\ spawned (world r) = spawned w
  /\ (threw r = true ->
      allAgentDefs (world r) = allAgentDefs w /\ teams (world r) = teams w)
  /\ (threw r = false ->
      NoDup (keys (byKey (allAgentDefs (world r))))
      /\ (forall key,
            get String.eqb (byKey (allAgentDefs (world r))) key
            = orElse (get String.eqb (scanOf (pathJoin cwd "agents")) key)
                (orElse (get String.eqb (scanOf (pathJoin (pathJoin cwd ".claude") "agents")) key)
                        (get String.eqb (scanOf (pathJoin (pathJoin cwd ".pi") "agents")) key)))
      /\ teams (world r) <> []
      /\ ((existsSync teamsPath = false
           \/ (exists msg, readFileSync teamsPath = inr msg)
           \/ (exists raw, readFileSync teamsPath = inl raw
                           /\ TeamsYaml.parseTeamsYaml raw = [])) ->
          teams (world r) = [("all", map name (allAgentDefs (world r)))])).
Proof.
  intros r scanOf teamsPath. unfold r, loadAgents.
  destruct (negb (existsSync (pathJoin (pathJoin cwd ".pi") "agent-sessions"))
            && negb (mkdirSync (pathJoin (pathJoin cwd ".pi") "agent-sessions"))).
  - cbn [world threw withSessionDir sessionDir agentStates heap procs spawned allAgentDefs teams].
    split; [reflexivity|]. split; [reflexivity|]. split; [reflexivity|].
    split; [reflexivity|]. split; [reflexivity|]. split; [now split | discriminate].
  - cbn [world threw sessionDir agentStates heap procs spawned allAgentDefs teams].
    split; [reflexivity|]. split; [reflexivity|]. split; [reflexivity|].
    split; [reflexivity|]. split; [reflexivity|]. split; [discriminate|]. intros _.
    cbn [agentDirs map fold_left].
    destruct (addNew_scan (pathJoin cwd "agents") []) as [d1 [E1 [N1 G1]]]; [constructor|].
    cbn [byKey map keys] in E1. rewrite E1.
    destruct (addNew_scan (pathJoin (pathJoin cwd ".claude") "agents") d1 N1)
      as [d2 [E2 [N2 G2]]].
    rewrite E2.
    destruct (addNew_scan (pathJoin (pathJoin cwd ".pi") "agents") d2 N2)
      as [d3 [E3 [N3 G3]]].
    rewrite E3. cbn [snd].
    split; [exact N3|]. split.
    { intros key. rewrite G3, G2, G1. cbn [byKey map get]. unfold scanOf.
      destruct (get String.eqb
                  (fst (scanAgentDirectory readFileSync basename existsSync readdirSync
                          resolve (pathJoin cwd "agents"))) key);
        cbn [orElse]; [reflexivity|].
      now destruct (get String.eqb
                      (fst (scanAgentDirectory readFileSync basename existsSync readdirSync
                              resolve (pathJoin (pathJoin cwd ".claude") "agents"))) key). }
    fold teamsPath. split.
    { destruct (existsSync teamsPath); [|discriminate].
      destruct (readFileSync teamsPath) as [raw|msg]; [|discriminate].
      destruct (TeamsYaml.parseTeamsYaml raw); discriminate. }
    intros [Hno|[[msg Hmsg]|[raw [Hraw Hparsed]]]].
    + now rewrite Hno.
    + rewrite Hmsg. now destruct (existsSync teamsPath).
    + rewrite Hraw, Hparsed. now destruct (existsSync teamsPath).
Qed.

End Host.

End TeamLoaderProofs.

Module ChainLoaderProofs.
Import JS Regex Json Facts AgentLoader AgentChain Notions ResumeDefs ChainDefs
       TeamLoaderDefs ChainLoader SplitProofs NameProofs LoaderProofs ScanDefs ScanProofs
       TeamLoaderProofs ChainResumeProofs.

(** Replacing whitespace runs in a text without whitespace changes
    nothing. *)
Lemma replace_whitespace_free (s : string) :
  forall fuel done before,
    String.length s < fuel -> free isWhiteSpace s ->
    replaceLoop AgentTeam.whitespaceRun "-" fuel done before s = s.
Proof.
  induction s as [|c t IH]; intros fuel done before Hf Hfree.
  - destruct fuel as [|fuel]; [inversion Hf|]. reflexivity.
  - destruct fuel as [|fuel]; [inversion Hf|].
    assert (Hnone : matchHere (fl AgentTeam.whitespaceRun) (re AgentTeam.whitespaceRun)
                      before (String c t) = None).
    { apply (plus_class_none noFlags false isWhiteSpace before c t).
      rewrite class_noFlags. apply Hfree. now left. }
    cbn [replaceLoop]. rewrite Hnone.
    f_equal. apply IH; [cbn in Hf; lia|]. intros d Hd. apply Hfree. now right.
Qed.

Lemma nameChar_lower_plain (c : ascii) :
  nameChar c = true -> isWhiteSpace (lowerChar c) = false.
Proof.
  destruct c as [[] [] [] [] [] [] [] []]; vm_compute; intros E;
    first [reflexivity | discriminate E].
Qed.

Lemma isAlnum_nameChar (c : ascii) : isAlnum c = true -> nameChar c = true.
Proof. unfold nameChar. now intros ->. Qed.

(** The session key of a definition with a valid name is its lowercased
    name. *)
Lemma agentKeyOf_valid (d : AgentDef) :
  validateName (name d) = [] -> agentKeyOf d = toLowerCase (name d).
Proof.
  intros Hvalid. apply validateName_clean in Hvalid. destruct Hvalid as [_ [_ Hpat]].
  apply valid_name_pattern in Hpat. destruct Hpat as [c [t [Hn [Hc Ht]]]].
  unfold agentKeyOf, replaceAll. apply replace_whitespace_free; [lia|].
  rewrite Hn. intros x Hx. cbn [toLowerCase chars list_ascii_of_string] in Hx.
  destruct Hx as [<-|Hx]; [apply nameChar_lower_plain, isAlnum_nameChar, Hc|].
  clear Hn. induction t as [|e t IH]; [destruct Hx|].
  cbn [toLowerCase list_ascii_of_string] in Hx. destruct Hx as [<-|Hx].
  - apply nameChar_lower_plain, Ht. now left.
  - apply IH; [|exact Hx]. intros y Hy. apply Ht. now right.
Qed.

Lemma has_get {V : Type} (o : list (string * V)) (k : string) :
  has String.eqb o k = false <-> get String.eqb o k = None.
Proof. unfold has. destruct (get String.eqb o k); split; congruence. Qed.

(** The first entry under a key wins. *)
Lemma addAgent_fold (entries : list (string * AgentDef)) :
  forall acc,
    NoDup (keys acc) ->
    NoDup (keys (fold_left addAgent entries acc))
    /\ forall k, get String.eqb (fold_left addAgent entries acc) k
                 = orElse (get String.eqb acc k) (get String.eqb entries k).
Proof.
  induction entries as [|[k0 d0] entries IH]; intros acc Hnd; cbn [fold_left].
  - split; [exact Hnd|]. intros k. cbn [get]. now destruct (get String.eqb acc k).
  - assert (Hnd' : NoDup (keys (addAgent acc (k0, d0)))).
    { unfold addAgent. destruct (negb (has String.eqb acc (fst (k0, d0)))); [|exact Hnd].
      apply NoDup_keys_set; [apply String.eqb_eq | exact Hnd]. }
    destruct (IH _ Hnd') as [Hn Hg]. split; [exact Hn|].
    intros k. rewrite Hg. unfold addAgent. cbn [fst snd get].
    destruct (has String.eqb acc k0) eqn:Eh; cbn [negb].
    + destruct (get String.eqb acc k) as [d|] eqn:Ed; [reflexivity|]. cbn [orElse].
      destruct (String.eqb_spec k0 k) as [->|]; [|reflexivity].
      apply has_get in Ed. congruence.
    + rewrite (get_set String.eqb String.eqb_eq).
      apply has_get in Eh.
      destruct (String.eqb_spec k0 k) as [->|].
      * rewrite Eh. reflexivity.
      * now destruct (get String.eqb acc k).
Qed.

Section Host.
Context {H : Host}.
Variable readFileSync : string -> string + string.
Variable basename : string -> string -> string.
Variable readdirSync : string -> option (list string).
Variable resolve : string -> string -> string.
Variable mkdirSync : string -> bool.

(** What a scan holds under a key passed validation. *)
Lemma scan_entry_valid (dir k : string) (d : AgentDef) :
  get String.eqb
      (fst (scanAgentDirectory readFileSync basename existsSync readdirSync resolve dir)) k
  = Some d ->
  toLowerCase (name d) = k /\ validateName (name d) = [].
Proof.
  unfold scanAgentDirectory. destruct (negb (existsSync dir)); [discriminate|].
  destruct (readdirSync dir) as [files|]; [|discriminate].
  rewrite scan_lookup. cbn [fst get]. intros Hg.
  destruct (first_sound readFileSync basename resolve dir k files d Hg)
    as [Hk [f [_ [_ Hload]]]].
  split; [exact Hk|].
  unfold loadAgentFile in Hload.
  destruct (readFileSync (resolve dir f)) as [raw|msg]; [|discriminate].
  destruct (parseFrontmatter raw) as [parsed|]; [|discriminate].
  cbn [agent] in Hload.
  destruct (hasErrors (validateAgent (agentOf basename (resolve dir f) parsed))) eqn:E;
    [discriminate|].
  injection Hload as <-. apply validateAgent_errors in E. exact (proj1 E).
Qed.

Lemma scan_keys_nodup (dir : string) :
  NoDup (keys (fst (scanAgentDirectory readFileSync basename existsSync readdirSync
                      resolve dir))).
Proof.
  unfold scanAgentDirectory. destruct (negb (existsSync dir)); [constructor|].
  destruct (readdirSync dir) as [files|]; [|constructor].
  apply scan_nodup. constructor.
Qed.

(** The session of every agent is what the disk says. *)
Lemma addSession_fold (sessDir : string) (agents : list (string * AgentDef)) :
  forall acc k,
    get String.eqb (fold_left (addSession sessDir) agents acc) k
    = match get String.eqb (rev agents) k with
      | Some _ =>
          Some (if existsSync (pathJoin sessDir ("chain-" ++ k ++ ".json"))
                then Some (pathJoin sessDir ("chain-" ++ k ++ ".json"))
                else None)
      | None => get String.eqb acc k
      end.
Proof.
  induction agents as [|[k0 d0] agents IH]; intros acc k; cbn [fold_left rev]; [reflexivity|].
  rewrite IH, get_app_orElse. cbn [get].
  destruct (get String.eqb (rev agents) k); cbn [orElse]; [reflexivity|].
  unfold addSession. cbn [fst]. rewrite (get_set String.eqb String.eqb_eq).
  destruct (String.eqb_spec k0 k) as [->|]; reflexivity.
Qed.

Lemma get_rev_none {V : Type} (o : list (string * V)) (k : string) :
  get String.eqb (rev o) k = None <-> get String.eqb o k = None.
Proof.
  induction o as [|[k0 v0] o IH]; cbn [rev get]; [tauto|].
  rewrite get_app_orElse. cbn [get].
  destruct (String.eqb k0 k).
  - split; [|discriminate]. destruct (get String.eqb (rev o) k); discriminate.
  - destruct (get String.eqb (rev o) k) eqn:E; cbn [orElse].
    + split; [discriminate|]. intros Ho. apply IH in Ho. discriminate.
    + split; intros _; [now apply IH | reflexivity].
Qed.

(** X26.  [loadChains] lets the first directory win and reads the sessions
    off the disk: unless creating the session directory throws, an agent
    name is mapped to the definition the scan of [agents] found, else the
    one of [.claude/agents], else the one of [.pi/agents]; every loaded
    agent stands under its session key and has a session exactly when its
    session file exists, so that the first worker spawned for it carries
    [-c] exactly then; no other name has a session entry.  When creating
    the session directory throws, only the session directory variable has
    changed. *)
Theorem loadChains_sessions_follow_disk (c : State) (previous : list ChainDef)
    (cwd : string) :
  let r := loadChains readFileSync basename readdirSync resolve mkdirSync c previous cwd in
  let scanOf := fun dir =>
    fst (scanAgentDirectory readFileSync basename existsSync readdirSync resolve dir) in
  let sessDir := pathJoin (pathJoin cwd ".pi") "agent-sessions" in
  sessionDir (state r) = sessDir
  /\ spawned (state r) = spawned c /\ activeChain (state r) = activeChain c
  /\ (threw r = true ->
      allAgents (state r) = allAgents c /\ agentSessions (state r) = agentSessions c
      /\ chains r = previous)
  /\ (threw r = false ->
      (forall key,
          get String.eqb (allAgents (state r)) key
          = orElse (get String.eqb (scanOf (pathJoin cwd "agents")) key)
              (orElse (get String.eqb (scanOf (pathJoin (pathJoin cwd ".claude") "agents")) key)
                      (get String.eqb (scanOf (pathJoin (pathJoin cwd ".pi") "agents")) key)))
      /\ (forall key, get String.eqb (allAgents (state r)) key = None ->
                      get String.eqb (agentSessions (state r)) key = None)
      /\ (forall key d taskText ctxModel,
            get String.eqb (allAgents (state r)) key = Some d ->
            let file := pathJoin sessDir ("chain-" ++ key ++ ".json") in
            agentKeyOf d = key
            /\ get String.eqb (agentSessions (state r)) key
               = Some (if existsSync file then Some file else None)
            /\ args (runAgentSpawn (state r) d taskText ctxModel)
               = workerArgs d (modelString ctxModel) file
                            (existsSync file && truthy file) taskText)).
Proof.
  intros r scanOf sessDir. unfold r, loadChains. fold sessDir.
  destruct (negb (existsSync sessDir) && negb (mkdirSync sessDir)).
  - cbn [state threw chains sessionDir spawned activeChain allAgents agentSessions].
    split; [reflexivity|]. split; [reflexivity|]. split; [reflexivity|].
    split; [now repeat split | discriminate].
  - cbn [state threw chains sessionDir spawned activeChain allAgents agentSessions].
    split; [reflexivity|]. split; [reflexivity|]. split; [reflexivity|].
    split; [discriminate|]. intros _.
    cbn [map fold_left]. fold (scanOf (pathJoin cwd "agents")).
    fold (scanOf (pathJoin (pathJoin cwd ".claude") "agents")).
    fold (scanOf (pathJoin (pathJoin cwd ".pi") "agents")).
    set (sA := scanOf (pathJoin cwd "agents")).
    set (sB := scanOf (pathJoin (pathJoin cwd ".claude") "agents")).
    set (sC := scanOf (pathJoin (pathJoin cwd ".pi") "agents")).
    destruct (addAgent_fold sA [] (NoDup_nil _)) as [N1 G1].
    destruct (addAgent_fold sB _ N1) as [N2 G2].
    destruct (addAgent_fold sC _ N2) as [N3 G3].
    set (agents := fold_left addAgent sC (fold_left addAgent sB (fold_left addAgent sA []))) in *.
    assert (Hlookup : forall key,
               get String.eqb agents key
               = orElse (get String.eqb sA key)
                        (orElse (get String.eqb sB key) (get String.eqb sC key))).
    { intros key. rewrite G3, G2, G1. cbn [get orElse].
      destruct (get String.eqb sA key); cbn [orElse]; [reflexivity|].
      now destruct (get String.eqb sB key). }
    split; [exact Hlookup|]. split.
    + intros key Hnone. rewrite addSession_fold.
      apply (proj2 (get_rev_none agents key)) in Hnone. now rewrite Hnone.
    + intros key d taskText ctxModel Hg.
      set (file := pathJoin sessDir ("chain-" ++ key ++ ".json")).
      assert (Hvalid : toLowerCase (name d) = key /\ validateName (name d) = []).
      { rewrite Hlookup in Hg.
        destruct (get String.eqb sA key) as [a|] eqn:EA; cbn [orElse] in Hg.
        - injection Hg as <-. exact (scan_entry_valid _ _ _ EA).
        - destruct (get String.eqb sB key) as [b|] eqn:EB; cbn [orElse] in Hg.
          + injection Hg as <-. exact (scan_entry_valid _ _ _ EB).
          + exact (scan_entry_valid _ _ _ Hg). }
      destruct Hvalid as [Hkey Hname].
      assert (Hk : agentKeyOf d = key) by (rewrite (agentKeyOf_valid d Hname); exact Hkey).
      assert (Hsess : get String.eqb (fold_left (addSession sessDir) agents []) key
                      = Some (if existsSync file then Some file else None)).
      { rewrite addSession_fold.
        destruct (get String.eqb (rev agents) key) eqn:E; [reflexivity|].
        apply (proj1 (get_rev_none agents key)) in E. rewrite Hg in E. discriminate E. }
      split; [exact Hk|]. split; [exact Hsess|].
      rewrite runAgentSpawn_args. cbn [sessionDir]. rewrite Hk. fold file. f_equal.
      unfold hasSession. cbn [agentSessions]. rewrite Hk, Hsess.
      now destruct (existsSync file).
Qed.

End Host.

End ChainLoaderProofs.

Module DiagnosticProofs.
Import JS Regex Facts SubprocessEnv EnvProofs EnvFrameProofs.

(** Which keys an assignment leaves, and in which order, depends on the
    keys before it only. *)
Lemma has_keys (o1 : record) :
  forall (o2 : record) (k : string),
    keys o1 = keys o2 -> has String.eqb o1 k = has String.eqb o2 k.
Proof.
  unfold has.
  induction o1 as [|[k1 x1] o1 IH]; intros [|[k2 x2] o2] k Hk;
    cbn [keys map fst] in Hk; try discriminate Hk; [reflexivity|].
  injection Hk as <- Hrest. cbn [get].
  destruct (String.eqb k1 k); [reflexivity|]. now apply IH.
Qed.

Lemma keys_set (o1 : record) :
  forall (o2 : record) (k : string) (v1 v2 : jsval),
    keys o1 = keys o2 ->
    keys (set String.eqb o1 k v1) = keys (set String.eqb o2 k v2).
Proof.
  induction o1 as [|[k1 x1] o1 IH]; intros [|[k2 x2] o2] k v1 v2 Hk;
    cbn [keys map fst] in Hk; try discriminate Hk; [reflexivity|].
  injection Hk as <- Hrest. cbn [set].
  destruct (String.eqb k1 k); cbn [keys map fst]; f_equal.
  - exact Hrest.
  - apply (IH o2 k v1 v2). exact Hrest.
Qed.

Lemma keys_insertKey (o1 : record) :
  forall (o2 : record) (k : string) (v1 v2 : jsval),
    keys o1 = keys o2 -> keys (insertKey o1 k v1) = keys (insertKey o2 k v2).
Proof.
  induction o1 as [|[k1 x1] o1 IH]; intros [|[k2 x2] o2] k v1 v2 Hk;
    cbn [keys map fst] in Hk; try discriminate Hk; [reflexivity|].
  injection Hk as <- Hrest. cbn [insertKey].
  assert (Htail : keys (insertKey o1 k v1) = keys (insertKey o2 k v2))
    by now apply IH.
  unfold keys in *.
  destruct (arrayIndex k) as [n|], (arrayIndex k1) as [n1|];
    try destruct (n <? n1)%N; cbn [map fst]; now rewrite ?Hrest, ?Htail.
Qed.

Lemma keys_oset (o1 o2 : record) (k : string) (v1 v2 : jsval) :
  keys o1 = keys o2 -> keys (oset o1 k v1) = keys (oset o2 k v2).
Proof.
  intros Hk. unfold oset. rewrite (has_keys o1 o2 k Hk).
  destruct (has String.eqb o2 k); [now apply keys_set | now apply keys_insertKey].
Qed.

Lemma keys_assign (o1 o2 : record) (k : string) (v1 v2 : jsval) :
  keys o1 = keys o2 -> keys (assign o1 k v1) = keys (assign o2 k v2).
Proof.
  intros Hk. unfold assign. destruct (String.eqb k "__proto__"); [exact Hk|].
  now apply keys_oset.
Qed.

Lemma copyVar_keys (p1 p2 env1 env2 : record) (k : string) :
  (k <> "__proto__" ->
   Spec.presentValue p1 k = None <-> Spec.presentValue p2 k = None) ->
  keys env1 = keys env2 ->
  keys (copyVar p1 env1 k) = keys (copyVar p2 env2 k).
Proof.
  intros Hset Hk. destruct (String.eqb_spec k "__proto__") as [->|Hne].
  - now rewrite !copyVar_proto.
  - specialize (Hset Hne). rewrite (copyVar_present p1), (copyVar_present p2).
    destruct (Spec.presentValue p1 k) as [a|], (Spec.presentValue p2 k) as [b|].
    + now apply keys_assign.
    + destruct Hset as [_ Hback]. discriminate (Hback eq_refl).
    + destruct Hset as [Hforth _]. discriminate (Hforth eq_refl).
    + exact Hk.
Qed.

Lemma copyVars_keys (p1 p2 : record) (ks : list string) :
  (forall k, In k ks -> k <> "__proto__" ->
             Spec.presentValue p1 k = None <-> Spec.presentValue p2 k = None) ->
  forall env1 env2,
    keys env1 = keys env2 ->
    keys (fold_left (copyVar p1) ks env1) = keys (fold_left (copyVar p2) ks env2).
Proof.
  induction ks as [|k ks IH]; intros Hset env1 env2 Hk; cbn [fold_left]; [exact Hk|].
  apply IH.
  - intros k' Hk'. apply Hset. now right.
  - apply copyVar_keys; [apply Hset; now left | exact Hk].
Qed.

(** The names in a built environment are fixed by which of the selected
    variables the source yields a truthy value for. *)
Lemma build_keys (model : string) (agentEnv : option string) (p1 p2 : record) :
  (forall k, Spec.selected model agentEnv k = true -> k <> "__proto__" ->
             Spec.presentValue p1 k = None <-> Spec.presentValue p2 k = None) ->
  keys (buildSubprocessEnv model agentEnv p1) = keys (buildSubprocessEnv model agentEnv p2).
Proof.
  intros Hset. unfold buildSubprocessEnv. rewrite !credential_stage.
  apply copyVars_keys.
  - intros k Hk. apply Hset. unfold Spec.selected.
    apply (inList_In k (parseAgentEnvField agentEnv)) in Hk. rewrite Hk.
    now rewrite orb_true_r.
  - assert (Hsys : keys (fold_left (copyVar p1) SYSTEM_VARS [])
                   = keys (fold_left (copyVar p2) SYSTEM_VARS [])).
    { apply copyVars_keys; [|reflexivity]. intros k Hk. apply Hset. unfold Spec.selected.
      apply (inList_In k SYSTEM_VARS) in Hk. now rewrite Hk. }
    destruct (Spec.credentialOf model) as [keyName|] eqn:Ec; [|exact Hsys].
    apply copyVar_keys; [|exact Hsys].
    apply Hset. unfold Spec.selected, Spec.isCredentialOf. rewrite Ec, String.eqb_refl.
    now rewrite orb_true_r.
Qed.

(** X27.  The diagnostic of a credential failure names variables and never
    shows a value: for the environment a worker was given, it is the same
    for any two source environments that yield a truthy value for the same
    selected variables ([__proto__], which is never copied, apart), whatever
    the values are.  A source yields a truthy value under a name when it
    sets the name to a non-empty string, or does not set it while the name
    is that of a member of [Object.prototype]. *)
Theorem diagnostic_hides_values (output agentName model : string) (agentEnv : option string)
    (p1 p2 : record) :
  (forall k, Spec.selected model agentEnv k = true -> k <> "__proto__" ->
             Spec.presentValue p1 k = None <-> Spec.presentValue p2 k = None) ->
  detectCredentialFailure output agentName (buildSubprocessEnv model agentEnv p1)
  = detectCredentialFailure output agentName (buildSubprocessEnv model agentEnv p2).
Proof.
  intros Hset. unfold detectCredentialFailure, describeEnv.
  now rewrite (build_keys model agentEnv p1 p2 Hset).
Qed.

(** Two source environments with different secrets: the same diagnostic,
    which names the credential and the inherited member the agent declared
    and shows neither secret. *)
Lemma diagnostic_two_secrets :
  let p1 := [("PATH", Str "/bin"); ("ANTHROPIC_API_KEY", Str "sk-ant-one")] in
  let p2 := [("PATH", Str "/usr/bin"); ("ANTHROPIC_API_KEY", Str "sk-ant-two")] in
  (forall k, Spec.selected "anthropic/claude-sonnet-4" (Some "toString") k = true ->
             k <> "__proto__" ->
             Spec.presentValue p1 k = None <-> Spec.presentValue p2 k = None)
  /\ detectCredentialFailure "Error: 401 Unauthorized" "scout"
       (buildSubprocessEnv "anthropic/claude-sonnet-4" (Some "toString") p1)
     = detectCredentialFailure "Error: 401 Unauthorized" "scout"
         (buildSubprocessEnv "anthropic/claude-sonnet-4" (Some "toString") p2)
  /\ detectCredentialFailure "Error: 401 Unauthorized" "scout"
       (buildSubprocessEnv "anthropic/claude-sonnet-4" (Some "toString") p1)
     = Some ("Subagent " ++ dquote ++ "scout" ++ dquote
               ++ " failed with what looks like a missing credential." ++ nl
             ++ "Only `ANTHROPIC_API_KEY`, `toString` were passed to this subprocess." ++ nl
             ++ "If this agent needs additional env vars, add them to the `env` field in its agent .md frontmatter:" ++ nl
             ++ nl
             ++ "  env: NPM_TOKEN, GITHUB_TOKEN").
Proof.
  intros p1 p2.
  assert (Hset : forall k,
             Spec.selected "anthropic/claude-sonnet-4" (Some "toString") k = true ->
             k <> "__proto__" ->
             Spec.presentValue p1 k = None <-> Spec.presentValue p2 k = None).
  { intros k _ _. unfold Spec.presentValue, oget, p1, p2. cbn [get].
    destruct (String.eqb "PATH" k); [split; discriminate|].
    destruct (String.eqb "ANTHROPIC_API_KEY" k); [split; discriminate|]. tauto. }
  split; [exact Hset|]. split.
  - exact (diagnostic_hides_values "Error: 401 Unauthorized" "scout"
             "anthropic/claude-sonnet-4" (Some "toString") p1 p2 Hset).
  - vm_compute. reflexivity.
Defined.

End DiagnosticProofs.
